(** * mold: a shallow embedding of the ELF link core and its checked properties

  The development follows the sources of the repository:
  - [mold.h] utilities ([align_to], [next_power_of_two], ULEB128 codec,
    [ConcurrentMap], [BitVector], [HyperLogLog]),
  - [byteorder.h] (the endian-explicit integer type [Int]) and
    [ParallelTools] ([parallel_for], [parallel_for_each],
    [parallel_for_each_spawn]),
  - [elf/object-file.cc] (eh_frame reader, mergeable splitting, symbol
    resolution, comdat groups),
  - [elf/gc-sections.cc] (mark-sweep over input sections),
  - [elf/passes.cc] (the driver of symbol resolution, comdat elimination,
    binning and sizing of output sections, section rank, layout).

  Machine integers are values of [Z] with their wrap-around written out. *)

From Stdlib Require Import ZArith Lia List Bool.
From stdpp Require Import base numbers option list strings functions gmap.

Local Open Scope Z_scope.


(** ** Fixed-width integers *)

Module Word.

(** Conversion to an unsigned integer type of [w] bits. *)
Definition wrap (w : Z) (z : Z) : Z := z mod 2 ^ w.

(** Conversion to a signed (two's complement) integer type of [w] bits. *)
Definition swrap (w : Z) (z : Z) : Z := (z + 2 ^ (w - 1)) mod 2 ^ w - 2 ^ (w - 1).

Definition u8 := wrap 8.
Definition u16 := wrap 16.
Definition u32 := wrap 32.
Definition u64 := wrap 64.
Definition i16 := swrap 16.
Definition i32 := swrap 32.
Definition i64 := swrap 64.

(** Agreement on the low [w] bits. *)
Definition eqm (w a b : Z) : Prop := wrap w a = wrap w b.

End Word.


(** ** Ways to end *)

Module Run.

(** How a piece of the linker can end: normally, by [Fatal(ctx) << msg]
    (which prints and exits), or by an abort: a failed [assert] (the build
    does not define [NDEBUG]) or the range check of a [std::string_view] (the
    build has [-fno-exceptions], so [std::out_of_range] terminates the
    process).  [Diverged] marks a loop that was cut off by the bound of the
    model. *)
Inductive outcome (A : Type) :=
| Done (a : A)
| Fatal (msg : string)
| Abort (msg : string)
| Diverged.
Arguments Done {A} a.
Arguments Fatal {A} msg.
Arguments Abort {A} msg.
Arguments Diverged {A}.

Definition bind {A B : Type} (m : outcome A) (f : A -> outcome B) : outcome B :=
  match m with
  | Done a => f a
  | Fatal msg => Fatal msg
  | Abort msg => Abort msg
  | Diverged => Diverged
  end.

#[global] Instance outcome_bind : MBind outcome := fun A B f m => bind m f.
#[global] Instance outcome_ret : MRet outcome := fun A a => Done a.
#[global] Instance outcome_fmap : FMap outcome := fun A B f m => bind m (fun a => Done (f a)).

End Run.

(** ** ULEB128 codec ([mold.h]) *)

Module Uleb.
Import Word.

(** [encode_uleb]: the [do ... while (val)] loop.  Each round emits the low
    seven bits and shifts [val] right by seven; the loop is bounded by the
    ten rounds a [u64] can take, and [None] means that the bound was hit. *)
Fixpoint encode_loop (fuel : nat) (val : Z) : option (list Z) :=
  match fuel with
  | O => None
  | S fuel' =>
      let byte := u8 (Z.land val 0x7f) in
      let val' := Z.shiftr val 7 in
      if val' =? 0 then Some [byte]
      else rest ← encode_loop fuel' val'; Some (u8 (Z.lor byte 0x80) :: rest)
  end.

(** [encode_uleb(vec, val)] appends to [vec]. *)
Definition encode_uleb (vec : list Z) (val : Z) : option (list Z) :=
  out ← encode_loop 10 (u64 val); Some (vec ++ out).

(** [write_uleb(buf, val)] stores the same bytes at [buf[0..]] and returns
    their number. *)
Definition write_uleb (val : Z) : option (list Z * Z) :=
  out ← encode_loop 10 (u64 val); Some (out, Z.of_nat (length out)).

(** [uleb_size]. *)
Fixpoint uleb_size_loop (fuel : nat) (val : Z) : option Z :=
  match fuel with
  | O => None
  | S fuel' =>
      let val' := Z.shiftr val 7 in
      if val' =? 0 then Some 1 else n ← uleb_size_loop fuel' val'; Some (1 + n)
  end.

Definition uleb_size (val : Z) : option Z := uleb_size_loop 10 (u64 val).

(** The outcome of [read_uleb]. *)
Inductive read_result :=
| ReadOk (val : Z) (rest : list Z)
    (** the decoded value and the advanced buffer pointer *)
| ReadPastEnd
    (** [*buf++] ran off the bytes that were given *)
| ReadShiftUndefined.
    (** a left shift of an [int] by 32 or more *)

(** [read_uleb]: [val |= (byte & 0x7f) << shift] where [byte] is a [u8] and
    [shift] a [u8].  Both operands of [<<] are promoted to [int], so the
    shift is a 32-bit signed shift (C++20: the result wraps modulo [2^32]),
    and the [int] result is then converted to [u64] for the [|=], which
    sign-extends it. *)
Fixpoint read_loop (buf : list Z) (val : Z) (shift : Z) : read_result :=
  match buf with
  | [] => ReadPastEnd
  | byte :: buf' =>
      if 32 <=? shift then ReadShiftUndefined
      else
        let piece := i32 (Z.shiftl (Z.land byte 0x7f) shift) in
        let val' := Z.lor val (u64 piece) in
        let shift' := u8 (shift + 7) in
        if Z.land byte 0x80 =? 0 then ReadOk val' buf'
        else read_loop buf' val' shift'
  end.

Definition read_uleb (buf : list Z) : read_result := read_loop buf 0 0.

(** The decoder as the specification has it: seven payload bits per byte,
    shifted in 64-bit arithmetic. *)
Fixpoint read_loop_spec (buf : list Z) (val : Z) (shift : Z) : read_result :=
  match buf with
  | [] => ReadPastEnd
  | byte :: buf' =>
      let val' := Z.lor val (u64 (Z.shiftl (Z.land byte 0x7f) shift)) in
      if Z.land byte 0x80 =? 0 then ReadOk val' buf'
      else read_loop_spec buf' val' (shift + 7)
  end.

End Uleb.


(** ** Endian-explicit integers ([byteorder.h]) *)

Module Byteorder.
Import Word.

Inductive ByteOrder := LITTLE | BIG.

(** The integer types [T] the template is instantiated with. *)
Record int_type := IntType { bits : Z; is_signed : bool }.

Definition i16_t := IntType 16 true.
Definition i32_t := IntType 32 true.
Definition i64_t := IntType 64 true.
Definition u16_t := IntType 16 false.
Definition u32_t := IntType 32 false.
Definition u64_t := IntType 64 false.

(** The values of [T]. *)
Definition in_range (T : int_type) (x : Z) : Prop :=
  if is_signed T then - 2 ^ (bits T - 1) <= x < 2 ^ (bits T - 1)
  else 0 <= x < 2 ^ bits T.

(** Conversion of an integer value to [T]. *)
Definition conv (T : int_type) (z : Z) : Z :=
  if is_signed T then swrap (bits T) z else wrap (bits T) z.

(** Integral promotion: a type narrower than [int] is computed with as [int]. *)
Definition promote (T : int_type) : int_type :=
  if bits T <? 32 then i32_t else T.

(** [Int<X, T, SIZE>] holds [u8 val[SIZE]]. *)
Abbreviation Int := (list Z).

(** Byte [i] of [x]: the conversion of [x >> (i * 8)] to [u8]. *)
Definition byte_of (x : Z) (i : nat) : Z := u8 (Z.shiftr x (Z.of_nat i * 8)).

(** One round of the loop of [operator=]:
    [if (X == LITTLE) val[i] = x >> (i * 8); else val[SIZE - 1 - i] = x >> (i * 8);] *)
Definition store_byte (X : ByteOrder) (SIZE : nat) (x : Z) (val : Int) (i : nat) : Int :=
  match X with
  | LITTLE => <[i := byte_of x i]> val
  | BIG => <[(SIZE - 1 - i)%nat := byte_of x i]> val
  end.

(** [Int &operator=(T x)]: [for (int i = 0; i < SIZE; i++) ...]. *)
Definition assign (X : ByteOrder) (SIZE : nat) (x : Z) (val : Int) : Int :=
  fold_left (store_byte X SIZE x) (seq 0 SIZE) val.

(** [operator T() const]:
    [T ret = 0; for (i = 0; i < SIZE; i++) if (X == LITTLE)
     ret |= (u64)val[i] << (i * 8); else ret = (ret << 8) | val[i];]
    In the first form [ret] is converted to [u64] for the [|], in the second
    the shift is done in the promoted type of [T]; both results are converted
    back to [T] by the assignment. *)
Definition load_byte (X : ByteOrder) (T : int_type) (val : Int) (ret : Z) (i : nat) : Z :=
  let byte := default 0 (val !! i) in
  match X with
  | LITTLE => conv T (Z.lor (u64 ret) (u64 (Z.shiftl (u64 byte) (Z.of_nat i * 8))))
  | BIG => conv T (Z.lor (conv (promote T) (Z.shiftl ret 8)) byte)
  end.

Definition to_T (X : ByteOrder) (T : int_type) (SIZE : nat) (val : Int) : Z :=
  fold_left (load_byte X T val) (seq 0 SIZE) 0.

(** [Int(T x) { *this = x; }] on a fresh array. *)
Definition Int_of (X : ByteOrder) (SIZE : nat) (x : Z) : Int :=
  assign X SIZE x (replicate SIZE 0).

(** The instantiations at the end of [byteorder.h]: [i16_], [i32_], [i64_],
    [u16_], [u24_], [u32_], [u64_], each for both byte orders. *)
Definition instantiations : list (int_type * nat) :=
  [ (i16_t, 2%nat); (i32_t, 4%nat); (i64_t, 8%nat); (u16_t, 2%nat);
    (u32_t, 3%nat); (u32_t, 4%nat); (u64_t, 8%nat) ].

End Byteorder.

(** ** Output chunks and their rank ([elf/passes.cc]) *)

(** Modelled from the spec: the ELF constants of [elf.h] ([SHT_*], [SHF_*]),
    a header that is not among the sources; section types and flags are
    those of the ELF format that the specification names. *)
Module Elf.

Definition SHT_PROGBITS : Z := 1.
Definition SHT_NOTE : Z := 7.
Definition SHT_NOBITS : Z := 8.
Definition SHT_INIT_ARRAY : Z := 14.
Definition SHT_FINI_ARRAY : Z := 15.
Definition SHT_PREINIT_ARRAY : Z := 16.

Definition SHF_WRITE : Z := 0x1.
Definition SHF_ALLOC : Z := 0x2.
Definition SHF_EXECINSTR : Z := 0x4.
Definition SHF_MERGE : Z := 0x10.
Definition SHF_STRINGS : Z := 0x20.
Definition SHF_TLS : Z := 0x400.

(** [flags & F] as a condition. *)
Definition has_flag (flags F : Z) : bool := negb (Z.land flags F =? 0).

End Elf.

Module Chunks.
Import Elf.

(** The output section header of a chunk ([ElfShdr]), with the fields that
    ranking and layout use. *)
Record ElfShdr := {
  sh_type : Z;
  sh_flags : Z;
  sh_addr : Z;
  sh_offset : Z;
  sh_size : Z;
  sh_addralign : Z;
}.

(** A [Chunk<E>]: its address stands for the object, [relro] is the answer of
    [is_relro(ctx, chunk)], a function of [mold.h] that is not among the
    sources. *)
Record Chunk := {
  addr : nat;
  shdr : ElfShdr;
  new_page : bool;
  relro : bool;
}.

(** The part of [Context<E>] used here: the synthetic header chunks.
    [ctx.interp] is only created when a dynamic linker is set. *)
Record Context := {
  ctx_ehdr : nat;
  ctx_phdr : nat;
  ctx_shdr : nat;
  ctx_interp : option nat;
}.

Definition is_relro (ctx : Context) (chunk : Chunk) : bool := relro chunk.

Definition b2z (b : bool) : Z := if b then 1 else 0.

(** [get_section_rank]. *)
Definition get_section_rank (ctx : Context) (chunk : Chunk) : Z :=
  let type := sh_type (shdr chunk) in
  let flags := sh_flags (shdr chunk) in
  if decide (addr chunk = ctx_ehdr ctx) then -4
  else if decide (addr chunk = ctx_phdr ctx) then -3
  else if decide (Some (addr chunk) = ctx_interp ctx) then -2
  else if (type =? SHT_NOTE) && has_flag flags SHF_ALLOC then -1
  else if decide (addr chunk = ctx_shdr ctx) then Z.shiftl 1 6
  else if negb (has_flag flags SHF_ALLOC) then Z.shiftl 1 5
  else
    let writable := has_flag flags SHF_WRITE in
    let exec := has_flag flags SHF_EXECINSTR in
    let tls := has_flag flags SHF_TLS in
    let relro := is_relro ctx chunk in
    let is_bss := type =? SHT_NOBITS in
    Z.lor (Z.lor (Z.lor (Z.lor (Z.shiftl (b2z writable) 4) (Z.shiftl (b2z exec) 3))
                        (Z.shiftl (b2z (negb tls)) 2))
                 (Z.shiftl (b2z (negb relro)) 1))
          (b2z is_bss).

(** The classes of the ordering comment above [get_section_rank], in the
    order in which they are listed. *)
Inductive chunk_class :=
| ClsEhdr | ClsPhdr | ClsInterp | ClsNote
| ClsRoData | ClsRoCode
| ClsTdata | ClsTbss
| ClsRelroData | ClsRelroBss
| ClsData | ClsBss
| ClsNonAlloc | ClsShdr.

Definition class_index (c : chunk_class) : nat :=
  match c with
  | ClsEhdr => 0 | ClsPhdr => 1 | ClsInterp => 2 | ClsNote => 3
  | ClsRoData => 4 | ClsRoCode => 5
  | ClsTdata => 6 | ClsTbss => 7
  | ClsRelroData => 8 | ClsRelroBss => 9
  | ClsData => 10 | ClsBss => 11
  | ClsNonAlloc => 12 | ClsShdr => 13
  end.

(** The class of a chunk, following the words of the list: the four header
    chunks by identity, notes by type, then by the attributes alloc, writable,
    code (read-only only), TLS, RELRO and bss. *)
Definition class_of (ctx : Context) (chunk : Chunk) : chunk_class :=
  let type := sh_type (shdr chunk) in
  let flags := sh_flags (shdr chunk) in
  if decide (addr chunk = ctx_ehdr ctx) then ClsEhdr
  else if decide (addr chunk = ctx_phdr ctx) then ClsPhdr
  else if decide (Some (addr chunk) = ctx_interp ctx) then ClsInterp
  else if (type =? SHT_NOTE) && has_flag flags SHF_ALLOC then ClsNote
  else if decide (addr chunk = ctx_shdr ctx) then ClsShdr
  else if negb (has_flag flags SHF_ALLOC) then ClsNonAlloc
  else if negb (has_flag flags SHF_WRITE) then
    (if has_flag flags SHF_EXECINSTR then ClsRoCode else ClsRoData)
  else if has_flag flags SHF_TLS then
    (if type =? SHT_NOBITS then ClsTbss else ClsTdata)
  else if relro chunk then
    (if type =? SHT_NOBITS then ClsRelroBss else ClsRelroData)
  else
    (if type =? SHT_NOBITS then ClsBss else ClsData).

(** Chunks on which the listed order is the order of the ranks: not both
    writable and executable, and RELRO when writable TLS. *)
Definition plain_chunk (chunk : Chunk) : Prop :=
  let flags := sh_flags (shdr chunk) in
  (has_flag flags SHF_WRITE = true -> has_flag flags SHF_EXECINSTR = false) /\
  (has_flag flags SHF_WRITE = true -> has_flag flags SHF_TLS = true -> relro chunk = true).

(** The ranks each class can take. *)
Definition class_band (c : chunk_class) : Z * Z :=
  match c with
  | ClsEhdr => (-4, -4) | ClsPhdr => (-3, -3) | ClsInterp => (-2, -2)
  | ClsNote => (-1, -1)
  | ClsRoData => (0, 7) | ClsRoCode => (8, 15)
  | ClsTdata => (16, 16) | ClsTbss => (17, 17)
  | ClsRelroData => (20, 20) | ClsRelroBss => (21, 21)
  | ClsData => (22, 22) | ClsBss => (23, 23)
  | ClsNonAlloc => (32, 32) | ClsShdr => (64, 64)
  end.

(** *** Sample chunks *)

(** A writable, executable data chunk, a plain [.bss] and a [.text]. *)
Definition wx_data : Chunk :=
  {| addr := 10;
     shdr := {| sh_type := SHT_PROGBITS;
                sh_flags := Z.lor (Z.lor SHF_ALLOC SHF_WRITE) SHF_EXECINSTR;
                sh_addr := 0; sh_offset := 0; sh_size := 16; sh_addralign := 16 |};
     new_page := false; relro := false |}.

Definition plain_bss : Chunk :=
  {| addr := 11;
     shdr := {| sh_type := SHT_NOBITS;
                sh_flags := Z.lor SHF_ALLOC SHF_WRITE;
                sh_addr := 0; sh_offset := 0; sh_size := 16; sh_addralign := 16 |};
     new_page := false; relro := false |}.

Definition some_ctx : Context :=
  {| ctx_ehdr := 0; ctx_phdr := 1; ctx_shdr := 2; ctx_interp := Some 3%nat |}.

Definition ro_text : Chunk :=
  {| addr := 12;
     shdr := {| sh_type := SHT_PROGBITS;
                sh_flags := Z.lor SHF_ALLOC SHF_EXECINSTR;
                sh_addr := 0; sh_offset := 0; sh_size := 16; sh_addralign := 16 |};
     new_page := false; relro := false |}.

End Chunks.

(** ** Splitting mergeable sections ([elf/object-file.cc]) *)

Module Mergeable.
Import Word Elf Run.

(** [std::string_view::npos]. *)
Definition npos : Z := 2 ^ 64 - 1.

Definition size (data : list Z) : Z := Z.of_nat (length data).

(** [data.substr(pos, count)]: the bytes [pos, min(pos + count, size))];
    [pos > size] is a range error. *)
Definition substr (data : list Z) (pos count : Z) : outcome (list Z) :=
  if size data <? pos then Abort "basic_string_view::substr"
  else Done (take (Z.to_nat (Z.min count (size data - pos))) (drop (Z.to_nat pos) data)).

(** [data.find('\0')]. *)
Fixpoint find_zero (data : list Z) (i : Z) : Z :=
  match data with
  | [] => npos
  | c :: data' => if c =? 0 then i else find_zero data' (i + 1)
  end.

(** [s.find_first_not_of('\0') == npos]: every byte of [s] is null. *)
Definition all_null (s : list Z) : bool := forallb (fun c => c =? 0) s.

(** The loop of [find_null]:
    [for (i64 i = 0; i <= data.size() - entsize; i += entsize)
       if (data.substr(i, i + entsize).find_first_not_of('\0') == data.npos)
         return i;]
    The bound [data.size() - entsize] is computed and compared unsigned. *)
Fixpoint find_null_loop (fuel : nat) (data : list Z) (entsize i : Z) : outcome Z :=
  match fuel with
  | O => Diverged
  | S fuel' =>
      if u64 i <=? u64 (size data - entsize) then
        s ← substr data i (u64 (i + entsize));
        if all_null s then Done i
        else find_null_loop fuel' data entsize (i64 (i + entsize))
      else Done npos
  end.

(** [find_null]. *)
Definition find_null (data : list Z) (entsize : Z) : outcome Z :=
  if entsize =? 1 then Done (find_zero data 0)
  else find_null_loop (S (length data)) data entsize 0.

(** [find_null] as the specification words it: the smallest offset, a
    multiple of [entsize], at which [entsize] null bytes begin. *)
Fixpoint first_null_run (fuel : nat) (data : list Z) (entsize i : Z) : Z :=
  match fuel with
  | O => npos
  | S fuel' =>
      if i + entsize <=? size data then
        if all_null (take (Z.to_nat entsize) (drop (Z.to_nat i) data)) then i
        else first_null_run fuel' data entsize (i + entsize)
      else npos
  end.

Definition find_null_spec (data : list Z) (entsize : Z) : Z :=
  first_null_run (S (length data)) data entsize 0.

(** The input section, as far as [split_section] reads it. *)
Record InputSection := {
  contents : list Z;
  sh_flags : Z;
  sh_entsize : Z;
  sh_addralign : Z;
}.

(** The part of [MergeableSection] that [split_section] fills;
    [frag_offsets] is a vector of [u32] ([register_section_pieces] reads it
    as [std::span<u32>]). *)
Record MergeableSection := {
  strings : list (list Z);
  frag_offsets : list Z;
  hashes : list Z;
}.

Definition UINT16_MAX : Z := 65535.

Section Split.

(** [hash_string] is declared in [mold.h], which is not among the sources. *)
Variable hash_string : list Z -> Z.

(** The three [push_back]s of a piece; [offset] is [substr.data() - begin],
    which is stored as a [u32]. *)
Definition push (rec : MergeableSection) (substr : list Z) (offset : Z) : MergeableSection :=
  {| strings := strings rec ++ [substr];
     frag_offsets := frag_offsets rec ++ [u32 offset];
     hashes := hashes rec ++ [hash_string substr] |}.

(** The [SHF_STRINGS] loop: [offset] is [data.data() - begin]. *)
Fixpoint split_strings (fuel : nat) (data : list Z) (offset entsize : Z)
    (rec : MergeableSection) : outcome MergeableSection :=
  match fuel with
  | O => Diverged
  | S fuel' =>
      if decide (data = []) then Done rec
      else
        end_ ← find_null data entsize;
        if end_ =? npos then Fatal "string is not null terminated"
        else
          s ← substr data 0 (u64 (end_ + entsize));
          data' ← substr data (u64 (end_ + entsize)) npos;
          split_strings fuel' data' (offset + size s) entsize (push rec s offset)
  end.

(** The other loop: records of [entsize] bytes. *)
Fixpoint split_records (fuel : nat) (data : list Z) (offset entsize : Z)
    (rec : MergeableSection) : outcome MergeableSection :=
  match fuel with
  | O => Diverged
  | S fuel' =>
      if decide (data = []) then Done rec
      else
        s ← substr data 0 entsize;
        data' ← substr data entsize npos;
        split_records fuel' data' (offset + size s) entsize (push rec s offset)
  end.

(** [split_section], without the lookup of the parent [MergedSection] and
    the cardinality estimator. *)
Definition split_section (sec : InputSection) : outcome MergeableSection :=
  let data := contents sec in
  let entsize := sh_entsize sec in
  let rec := {| strings := []; frag_offsets := []; hashes := [] |} in
  if UINT16_MAX <=? sh_addralign sec then Fatal "alignment too large"
  else if has_flag (sh_flags sec) SHF_STRINGS then
    split_strings (S (length data)) data 0 entsize rec
  else if negb (size data mod entsize =? 0) then
    Fatal "section size is not multiple of sh_entsize"
  else split_records (S (length data)) data 0 entsize rec.

End Split.

End Mergeable.

(** ** Reading [.eh_frame] ([elf/object-file.cc]) *)

Module EhFrame.
Import Word Run.

(** [ElfRel<E>]. *)
Record ElfRel := { r_offset : Z; r_type : Z; r_sym : Z }.

(** [CieRecord] and [FdeRecord], with the fields that are set here. *)
Record CieRecord := { cie_input_offset : Z; cie_rel_idx : Z }.
Record FdeRecord := { input_offset : Z; rel_idx : Z; cie_idx : Z }.

(** The [u32] read through a cast pointer at [p + off], on a little-endian host; a read that leaves the
    section is outside of what the language defines and ends the run. *)
Definition read_u32 (contents : list Z) (off : Z) : outcome Z :=
  match contents !! Z.to_nat off, contents !! Z.to_nat (off + 1),
        contents !! Z.to_nat (off + 2), contents !! Z.to_nat (off + 3) with
  | Some b0, Some b1, Some b2, Some b3 =>
      Done (Z.lor (Z.lor b0 (Z.shiftl b1 8)) (Z.lor (Z.shiftl b2 16) (Z.shiftl b3 24)))
  | _, _, _, _ => Abort "read outside of the section"
  end.

(** The same read as an [i32]. *)
Definition read_i32 (contents : list Z) (off : Z) : outcome Z :=
  v ← read_u32 contents off; Done (i32 v).

Section Reader.

(** [E::R_NONE] of the target. *)
Variable R_NONE : Z.

(** The priority of the section that a relocation's symbol lives in:
    [get_section(elf_syms[r_sym])->get_priority()]. *)
Variable sym_priority : Z -> Z.

Variable contents : list Z.
Variable rels : list ElfRel.

Definition len {A} (l : list A) : Z := Z.of_nat (length l).

(** "Verify relocations": offsets must increase, except at [R_NONE]. *)
Fixpoint verify_rels (prev : ElfRel) (rest : list ElfRel) : outcome unit :=
  match rest with
  | [] => Done ()
  | r :: rest' =>
      if negb (r_type r =? R_NONE) && (r_offset r <=? r_offset prev)
      then Fatal "relocation offsets must increase monotonically"
      else verify_rels r rest'
  end.

(** [while (rel_idx < rels.size() && rels[rel_idx].r_offset < end_offset) rel_idx++]. *)
Fixpoint skip_rels (fuel : nat) (idx end_offset : Z) : Z :=
  match fuel with
  | O => idx
  | S fuel' =>
      match rels !! Z.to_nat idx with
      | Some r => if r_offset r <? end_offset then skip_rels fuel' (idx + 1) end_offset else idx
      | None => idx
      end
  end.

(** The variables of the record loop: [pos] is [data.data() - contents.data()]. *)
Record state := {
  pos : Z;
  cur_rel : Z;
  cies : list CieRecord;
  fdes : list FdeRecord;
}.

Inductive flow := Continue (st : state) | Break (st : state).

(** One round of [for (std::string_view data = contents; !data.empty();)]. *)
Definition body (st : state) : outcome flow :=
  size ← read_u32 contents (pos st);
  if size =? 0 then
    if negb (len contents - pos st =? 4) then Fatal "garbage at end of section"
    else Done (Break st)
  else
    let begin_offset := pos st in
    let end_offset := begin_offset + size + 4 in
    id ← read_u32 contents (pos st + 4);
    if len contents - pos st <? size + 4 then Abort "basic_string_view::substr"
    else
      let rel_begin := cur_rel st in
      let rel_idx := skip_rels (length rels) rel_begin end_offset in
      let first_offset := default 0 (r_offset <$> rels !! Z.to_nat rel_begin) in
      if negb ((rel_idx =? len rels) || (begin_offset <=? first_offset))
      then Abort "rel_idx == rels.size() || begin_offset <= rels[rel_begin].r_offset"
      else if id =? 0 then
        Done (Continue {| pos := end_offset; cur_rel := rel_idx;
                          cies := cies st ++ [{| cie_input_offset := begin_offset;
                                                 cie_rel_idx := rel_begin |}];
                          fdes := fdes st |})
      else if rel_begin =? rel_idx then
        Done (Continue {| pos := end_offset; cur_rel := rel_idx;
                          cies := cies st; fdes := fdes st |})
      else if negb (u64 (first_offset - begin_offset) =? 8) then
        Fatal "FDE's first relocation should have offset 8"
      else
        Done (Continue {| pos := end_offset; cur_rel := rel_idx;
                          cies := cies st;
                          fdes := fdes st ++ [{| input_offset := begin_offset;
                                                 rel_idx := rel_begin;
                                                 cie_idx := -1 |}] |}).

(** The loop; every round but the last moves [pos] forward by five bytes or
    more, which bounds the number of rounds. *)
Fixpoint records (fuel : nat) (st : state) : outcome state :=
  match fuel with
  | O => Diverged
  | S fuel' =>
      if len contents <=? pos st then Done st
      else
        f ← body st;
        match f with
        | Continue st' => records fuel' st'
        | Break st' => Done st'
        end
  end.

(** [find_cie]: the first CIE of this section at [offset]. *)
Fixpoint find_cie (cs : list CieRecord) (i offset : Z) : outcome Z :=
  match cs with
  | [] => Fatal "bad FDE pointer"
  | c :: cs' => if cie_input_offset c =? offset then Done i else find_cie cs' (i + 1) offset
  end.

(** "Associate CIEs to FDEs". *)
Fixpoint associate (cies_begin : Z) (new_cies : list CieRecord) (fs : list FdeRecord)
    : outcome (list FdeRecord) :=
  match fs with
  | [] => Done []
  | f :: fs' =>
      cie_offset ← read_i32 contents (input_offset f + 4);
      idx ← find_cie new_cies cies_begin (input_offset f + 4 - cie_offset);
      fs'' ← associate cies_begin new_cies fs';
      Done ({| input_offset := input_offset f; rel_idx := rel_idx f; cie_idx := idx |} :: fs'')
  end.

(** The priority that [std::stable_sort] compares. *)
Definition fde_priority (f : FdeRecord) : Z :=
  sym_priority (default 0 (r_sym <$> rels !! Z.to_nat (rel_idx f))).

(** [std::stable_sort] by [fde_priority]: an insertion sort that puts a
    record before the records that come after it in the vector unless one of
    them has a strictly lower priority, so that records of equal priority
    keep their order. *)
Fixpoint insert_fde (f : FdeRecord) (sorted : list FdeRecord) : list FdeRecord :=
  match sorted with
  | [] => [f]
  | g :: sorted' =>
      if fde_priority g <? fde_priority f then g :: insert_fde f sorted'
      else f :: g :: sorted'
  end.

Definition stable_sort (fs : list FdeRecord) : list FdeRecord :=
  foldr insert_fde [] fs.

(** The variables of the record loop when it is entered. *)
Definition start (old_cies : list CieRecord) (old_fdes : list FdeRecord) : state :=
  {| pos := 0; cur_rel := 0; cies := old_cies; fdes := old_fdes |}.

(** [read_ehframe], up to the sorted [fdes]: the file's [cies] and [fdes]
    before the call are [old_cies] and [old_fdes].  (The last loop of the
    function, which stores the ranges [fde_begin, fde_end) in the input
    sections, leaves both vectors as they are.) *)
Definition read_ehframe (old_cies : list CieRecord) (old_fdes : list FdeRecord)
    : outcome (list CieRecord * list FdeRecord) :=
  _ ← match rels with [] => Done () | r :: rest => verify_rels r rest end;
  st ← records (S (length contents)) (start old_cies old_fdes);
  let new_cies := drop (length old_cies) (cies st) in
  let new_fdes := drop (length old_fdes) (fdes st) in
  fs ← associate (len old_cies) new_cies new_fdes;
  Done (cies st, old_fdes ++ stable_sort fs).

(** No relocation falls inside the bytes [begin_offset, end_offset). *)
Definition no_rel_inside (begin_offset end_offset : Z) : Prop :=
  forall r, r ∈ rels -> ~ (begin_offset <= r_offset r < end_offset).

(** [r] is the first relocation inside the bytes [begin_offset, end_offset). *)
Definition first_rel_inside (begin_offset end_offset : Z) (r : ElfRel) : Prop :=
  r ∈ rels /\ begin_offset <= r_offset r < end_offset /\
  forall r', r' ∈ rels -> begin_offset <= r_offset r' < end_offset ->
    r_offset r <= r_offset r'.

(** Relocation offsets are unsigned and increase strictly. *)
Definition increasing : Prop :=
  (forall r, r ∈ rels -> 0 <= r_offset r) /\
  forall i j ri rj, rels !! i = Some ri -> rels !! j = Some rj ->
    (i < j)%nat -> r_offset ri < r_offset rj.

(** The section is made of bytes. *)
Definition bytes : Prop := Forall (fun b => 0 <= b < 256) contents.

(** What the loop keeps true: the relocations before [cur_rel] are those
    before [pos]. *)
Definition consumed (st : state) : Prop :=
  0 <= pos st /\ 0 <= cur_rel st <= len rels /\
  forall k r, rels !! k = Some r -> (Z.of_nat k < cur_rel st <-> r_offset r < pos st).

(** The check that an [FdeRecord] has passed. *)
Definition first_rel_at_8 (f : FdeRecord) : Prop :=
  exists r, rels !! Z.to_nat (rel_idx f) = Some r /\
            u64 (r_offset r - input_offset f) = 8.

(** The states that the record loop goes through. *)
Inductive reachable (init : state) : state -> Prop :=
| reach_init : reachable init init
| reach_step st st' :
    reachable init st -> len contents > pos st -> body st = Done (Continue st') ->
    reachable init st'.

(** The record at [pos st] is an FDE of [size + 4] bytes. *)
Definition fde_at (st : state) (size : Z) : Prop :=
  pos st < len contents /\
  read_u32 contents (pos st) = Done size /\ size <> 0 /\
  (exists id, read_u32 contents (pos st + 4) = Done id /\ id <> 0) /\
  pos st + size + 4 <= len contents.

End Reader.

(** *** A sample section: one CIE, an FDE without relocations, an FDE with
    its first relocation at offset 8. *)

Definition sample_contents : list Z :=
  [ 8; 0; 0; 0;  0; 0; 0; 0;  1; 2; 3; 4;
    8; 0; 0; 0;  16; 0; 0; 0;  5; 6; 7; 8;
    12; 0; 0; 0;  28; 0; 0; 0;  0; 0; 0; 0;  9; 9; 9; 9 ].

Definition sample_rels : list ElfRel :=
  [ {| r_offset := 32; r_type := 2; r_sym := 1 |};
    {| r_offset := 36; r_type := 2; r_sym := 2 |} ].

Definition sample_state : state :=
  {| pos := 24; cur_rel := 0;
     cies := [{| cie_input_offset := 0; cie_rel_idx := 0 |}]; fdes := [] |}.

(** *** A section whose relocations are not in order: one CIE and two FDEs of
    24 bytes each.  The relocation at offset 16 lies in the first FDE and
    comes last in the table; the entry before it is of the type [R_NONE]
    (here 0), which the check of the offsets lets pass. *)

Definition unordered_contents : list Z :=
  [ 8; 0; 0; 0;  0; 0; 0; 0;  1; 2; 3; 4;
    20; 0; 0; 0;  16; 0; 0; 0;  0; 0; 0; 0;  0; 0; 0; 0;  0; 0; 0; 0;  0; 0; 0; 0;
    20; 0; 0; 0;  40; 0; 0; 0;  0; 0; 0; 0;  0; 0; 0; 0;  0; 0; 0; 0;  0; 0; 0; 0 ].

Definition unordered_rels : list ElfRel :=
  [ {| r_offset := 44; r_type := 2; r_sym := 1 |};
    {| r_offset := 4; r_type := 0; r_sym := 0 |};
    {| r_offset := 16; r_type := 2; r_sym := 2 |} ].

Definition unordered_state : state :=
  {| pos := 12; cur_rel := 0;
     cies := [{| cie_input_offset := 0; cie_rel_idx := 0 |}]; fdes := [] |}.

End EhFrame.

(** ** Output layout ([mold.h], [elf/passes.cc]) *)

Module Layout.
Import Word Run Elf Chunks.

(** [__builtin_popcount], whose argument is an [unsigned int]. *)
Definition popcount (x : Z) : Z :=
  Z.of_nat (length (filter (fun i => Z.testbit (u32 x) (Z.of_nat i) = true) (seq 0 32))).

(** [align_to]. *)
Definition align_to (val align : Z) : outcome Z :=
  if align =? 0 then Done val
  else if negb (popcount align =? 1) then Abort "__builtin_popcount(align) == 1"
  else Done (Z.land (u64 (val + align - 1)) (u64 (Z.lnot (u64 (align - 1))))).

(** [align_down]. *)
Definition align_down (val align : Z) : outcome Z :=
  if negb (popcount align =? 1) then Abort "__builtin_popcount(align) == 1"
  else Done (Z.land val (u64 (Z.lnot (u64 (align - 1))))).

(** [align_with_skew]: "the smallest number n such that n >= val and
    n % align == skew". *)
Definition align_with_skew (val align skew : Z) : outcome Z :=
  n ← align_to (u64 (val + align - skew)) align;
  Done (u64 (n - align + skew)).

Definition set_addr (c : Chunk) (sh_addr' sh_offset' : Z) : Chunk :=
  {| addr := addr c;
     shdr := {| sh_type := sh_type (shdr c); sh_flags := sh_flags (shdr c);
                sh_addr := sh_addr'; sh_offset := sh_offset';
                sh_size := sh_size (shdr c); sh_addralign := sh_addralign (shdr c) |};
     new_page := new_page c; relro := relro c |}.

Definition set_offset (c : Chunk) (sh_offset' : Z) : Chunk :=
  set_addr c (sh_addr (shdr c)) sh_offset'.

Definition is_alloc (c : Chunk) : bool := has_flag (sh_flags (shdr c)) SHF_ALLOC.
Definition is_nobits (c : Chunk) : bool := sh_type (shdr c) =? SHT_NOBITS.

(** The running [vaddr] and [fileoff], with the chunks a loop has placed
    and those it has left. *)
Record progress := {
  placed : list Chunk;
  left_over : list Chunk;
  vaddr : Z;
  fileoff : Z;
}.

Section SetOsecOffsets.

(** [COMMON_PAGE_SIZE] is a constant of [mold.h], which is not among the
    sources. *)
Variable COMMON_PAGE_SIZE : Z.

(** [vaddr = align_to(vaddr, COMMON_PAGE_SIZE)] if [chunk.new_page], then
    [vaddr = align_to(vaddr, chunk.shdr.sh_addralign)]. *)
Definition align_chunk (c : Chunk) (vaddr : Z) : outcome Z :=
  vaddr ← (if new_page c then align_to vaddr COMMON_PAGE_SIZE else Done vaddr);
  align_to vaddr (sh_addralign (shdr c)).

(** [for (; i < end && ctx.chunks[i]->shdr.sh_type != SHT_NOBITS; i++)]. *)
Fixpoint place_data (cs : list Chunk) (vaddr fileoff : Z) : outcome progress :=
  match cs with
  | [] => Done {| placed := []; left_over := []; vaddr := vaddr; fileoff := fileoff |}
  | c :: cs' =>
      if is_nobits c
      then Done {| placed := []; left_over := cs; vaddr := vaddr; fileoff := fileoff |}
      else
        let prev_vaddr := vaddr in
        vaddr ← align_chunk c vaddr;
        let fileoff := u64 (fileoff + u64 (vaddr - prev_vaddr)) in
        let c' := set_addr c vaddr fileoff in
        p ← place_data cs' (u64 (vaddr + sh_size (shdr c))) (u64 (fileoff + sh_size (shdr c)));
        Done {| placed := c' :: placed p; left_over := left_over p;
                vaddr := Layout.vaddr p; fileoff := Layout.fileoff p |}
  end.

(** [for (; i < end && ctx.chunks[i]->shdr.sh_type == SHT_NOBITS; i++)]. *)
Fixpoint place_bss (cs : list Chunk) (vaddr fileoff : Z) : outcome progress :=
  match cs with
  | [] => Done {| placed := []; left_over := []; vaddr := vaddr; fileoff := fileoff |}
  | c :: cs' =>
      if negb (is_nobits c)
      then Done {| placed := []; left_over := cs; vaddr := vaddr; fileoff := fileoff |}
      else
        vaddr ← align_chunk c vaddr;
        fileoff ← align_with_skew fileoff COMMON_PAGE_SIZE (vaddr mod COMMON_PAGE_SIZE);
        let c' := set_addr c vaddr fileoff in
        let vaddr' := if negb (has_flag (sh_flags (shdr c)) SHF_TLS)
                      then u64 (vaddr + sh_size (shdr c)) else vaddr in
        p ← place_bss cs' vaddr' fileoff;
        Done {| placed := c' :: placed p; left_over := left_over p;
                vaddr := Layout.vaddr p; fileoff := Layout.fileoff p |}
  end.

(** [while (i < end)]: each round places the chunks of one group, at least
    one, which bounds the number of rounds. *)
Fixpoint place_alloc (fuel : nat) (cs : list Chunk) (vaddr fileoff : Z) : outcome progress :=
  match cs with
  | [] => Done {| placed := []; left_over := []; vaddr := vaddr; fileoff := fileoff |}
  | _ :: _ =>
      match fuel with
      | O => Diverged
      | S fuel' =>
          fileoff ← align_with_skew fileoff COMMON_PAGE_SIZE (vaddr mod COMMON_PAGE_SIZE);
          p1 ← place_data cs vaddr fileoff;
          p2 ← place_bss (left_over p1) (Layout.vaddr p1) (Layout.fileoff p1);
          p3 ← place_alloc fuel' (left_over p2) (Layout.vaddr p2) (Layout.fileoff p2);
          Done {| placed := placed p1 ++ placed p2 ++ placed p3; left_over := left_over p3;
                  vaddr := Layout.vaddr p3; fileoff := Layout.fileoff p3 |}
      end
  end.

(** The last loop: [for (; i < ctx.chunks.size(); i++)]. *)
Fixpoint place_nonalloc (cs : list Chunk) (fileoff : Z) : outcome (list Chunk * Z) :=
  match cs with
  | [] => Done ([], fileoff)
  | c :: cs' =>
      if is_alloc c then Abort "!(chunk.shdr.sh_flags & SHF_ALLOC)"
      else
        fileoff ← align_to fileoff (sh_addralign (shdr c));
        r ← place_nonalloc cs' (u64 (fileoff + sh_size (shdr c)));
        Done (set_offset c fileoff :: r.1, r.2)
  end.

(** [while (ctx.chunks[end]->shdr.sh_flags & SHF_ALLOC) end++]: the loop has
    no bound of its own and leaves the vector when every chunk is alloc. *)
Fixpoint alloc_end (cs : list Chunk) : outcome nat :=
  match cs with
  | [] => Abort "ctx.chunks[end] past the end of the vector"
  | c :: cs' => if is_alloc c then n ← alloc_end cs'; Done (S n) else Done 0%nat
  end.

(** [set_osec_offsets]: the chunks with their addresses and offsets, and the
    file size. *)
Definition set_osec_offsets (image_base : Z) (chunks : list Chunk) : outcome (list Chunk * Z) :=
  end_ ← alloc_end chunks;
  p ← place_alloc (S end_) (take end_ chunks) (u64 image_base) 0;
  r ← place_nonalloc (drop end_ chunks) (fileoff p);
  Done (placed p ++ r.1, r.2).

End SetOsecOffsets.

(** [c'] is the chunk [c] after layout: only [sh_addr] and [sh_offset] may
    differ. *)
Definition laid_out (c c' : Chunk) : Prop :=
  exists a o, c' = set_addr c a o.

(** A power of two that fits a [u64]. *)
Definition is_pow2 (a : Z) : Prop := exists k, 0 <= k < 64 /\ a = 2 ^ k.

(** The address of a chunk is congruent to its file offset modulo the page
    size and is a multiple of the chunk's alignment. *)
Definition well_placed (page : Z) (c : Chunk) : Prop :=
  sh_addr (shdr c) mod page = sh_offset (shdr c) mod page /\
  sh_addr (shdr c) mod sh_addralign (shdr c) = 0.

(** *** A small output file *)

Definition mk_chunk (id : nat) (type flags size align : Z) (np : bool) : Chunk :=
  {| addr := id;
     shdr := {| sh_type := type; sh_flags := flags; sh_addr := 0; sh_offset := 0;
                sh_size := size; sh_addralign := align |};
     new_page := np; relro := false |}.

Definition sample_chunks : list Chunk :=
  [ mk_chunk 0 0 SHF_ALLOC 64 8 false;
    mk_chunk 5 SHT_PROGBITS (Z.lor SHF_ALLOC SHF_EXECINSTR) 100 16 true;
    mk_chunk 6 SHT_PROGBITS (Z.lor SHF_ALLOC SHF_WRITE) 40 32 true;
    mk_chunk 7 SHT_NOBITS (Z.lor SHF_ALLOC SHF_WRITE) 1000 64 false;
    mk_chunk 8 SHT_PROGBITS 0 17 1 false;
    mk_chunk 2 0 0 320 8 false ].

End Layout.

(** ** The concurrent map ([mold.h]) *)

Module ConcurrentMap.
Import Word Run.

(** A [std::string_view]: the bytes at [data()[0 .. size())]. *)
Record string_view := { sv_data : Z -> Z; sv_size : Z }.

(** Byte equality of two keys. *)
Definition sv_eq (k1 k2 : string_view) : Prop :=
  sv_size k1 = sv_size k2 /\
  forall i, 0 <= i < sv_size k1 -> sv_data k1 i = sv_data k2 i.

(** [memcmp(p, q, n) == 0]. *)
Definition memcmp_eq (p q : Z -> Z) (n : Z) : bool :=
  forallb (fun i => p (Z.of_nat i) =? q (Z.of_nat i)) (seq 0 (Z.to_nat n)).

(** The word [keys[idx]] of a bucket: [nullptr], the marker [locked], or the
    [data()] of the key that owns the bucket. *)
Inductive key_ptr :=
| Null
| Locked
| Key (data : Z -> Z).

Section Map.

Context {T : Type}.

(** [ConcurrentMap<T>]: [keys == nullptr] until the first [resize]. *)
Record t := {
  nbuckets : Z;
  keys : option (list key_ptr);
  sizes : list Z;
  values : list T;
}.

Definition MIN_NBUCKETS : Z := 2048.
Definition NUM_SHARDS : Z := 16.
Definition MAX_RETRY : nat := 128.

(** [__builtin_clzl] on a non-zero 64-bit value. *)
Definition clzl (x : Z) : Z := 63 - Z.log2 x.

(** [next_power_of_two]. *)
Definition next_power_of_two (val : Z) : Z :=
  if (val =? 0) || (val =? 1) then 1
  else u64 (Z.shiftl 1 (64 - clzl (val - 1))).

(** [resize]: three zeroed arrays ([calloc]); [zero] is the all-zero [T]. *)
Definition resize (zero : T) (n : Z) : t :=
  let n := Z.max MIN_NBUCKETS (next_power_of_two n) in
  {| nbuckets := n;
     keys := Some (replicate (Z.to_nat n) Null);
     sizes := replicate (Z.to_nat n) 0;
     values := replicate (Z.to_nat n) zero |}.

(** The next bucket of the probe sequence, inside the shard:
    [mask = nbuckets / NUM_SHARDS - 1; idx = (idx & ~mask) | ((idx + 1) & mask)]. *)
Definition next_idx (m : t) (idx : Z) : Z :=
  let mask := nbuckets m / NUM_SHARDS - 1 in
  Z.lor (Z.land idx (Z.lnot mask)) (Z.land (idx + 1) mask).

(** What [insert] hands back: the pair of a value pointer ([values + idx], or
    [nullptr]) and the flag, with the map after the call. *)
Record inserted := {
  value_ptr : option Z;
  is_new : bool;
  map_after : t;
}.

(** The loop [while (retry < MAX_RETRY)] of [insert], run by one thread on
    its own; [left] is [MAX_RETRY - retry].  A bucket in the state [locked]
    makes the loop spin until its owner publishes the key: alone, for ever.
    The compare-and-swap of an empty bucket then succeeds. *)
Fixpoint probe (left : nat) (m : t) (ks : list key_ptr) (key : string_view) (val : T)
    (idx : Z) : outcome inserted :=
  match left with
  | O => Abort "ConcurrentMap is full"
  | S left' =>
      match ks !! Z.to_nat idx with
      | None => Abort "bucket index out of range"
      | Some Locked => Diverged
      | Some Null =>
          Done {| value_ptr := Some idx; is_new := true;
                  map_after :=
                    {| nbuckets := nbuckets m;
                       keys := Some (<[Z.to_nat idx := Key (sv_data key)]> ks);
                       sizes := <[Z.to_nat idx := u32 (sv_size key)]> (sizes m);
                       values := <[Z.to_nat idx := val]> (values m) |} |}
      | Some (Key ptr) =>
          let size := default 0 (sizes m !! Z.to_nat idx) in
          if (sv_size key =? size) && memcmp_eq ptr (sv_data key) size then
            Done {| value_ptr := Some idx; is_new := false; map_after := m |}
          else probe left' m ks key val (next_idx m idx)
      end
  end.

(** [insert(key, hash, val)]: a map without buckets hands back a null
    pointer; [__builtin_popcount] sees the low 32 bits of [nbuckets]. *)
Definition insert (m : t) (key : string_view) (hash : Z) (val : T) : outcome inserted :=
  match keys m with
  | None => Done {| value_ptr := None; is_new := false; map_after := m |}
  | Some ks =>
      if negb (Layout.popcount (nbuckets m) =? 1) then Abort "__builtin_popcount(nbuckets) == 1"
      else probe MAX_RETRY m ks key val (Z.land hash (nbuckets m - 1))
  end.

(** The [n]-th bucket that [insert] looks at. *)
Fixpoint probe_idx (m : t) (hash : Z) (n : nat) : Z :=
  match n with
  | O => Z.land hash (nbuckets m - 1)
  | S n' => next_idx m (probe_idx m hash n')
  end.

(** A map after [resize]: the arrays have [nbuckets] entries, a power of two
    that is at least [MIN_NBUCKETS]. *)
Record initialized (m : t) : Prop := {
  init_pow2 : exists e, 11 <= e /\ nbuckets m = 2 ^ e;
  init_keys : exists ks, keys m = Some ks /\ Z.of_nat (length ks) = nbuckets m;
  init_sizes : Z.of_nat (length (sizes m)) = nbuckets m;
  init_values : Z.of_nat (length (values m)) = nbuckets m;
}.

(** The bucket [idx] is owned by a key other than [key]. *)
Definition other_key (m : t) (ks : list key_ptr) (key : string_view) (idx : Z) : Prop :=
  exists ptr, ks !! Z.to_nat idx = Some (Key ptr) /\
    let size := default 0 (sizes m !! Z.to_nat idx) in
    (sv_size key =? size) && memcmp_eq ptr (sv_data key) size = false.

(** The same as a test. *)
Definition other_keyb (m : t) (ks : list key_ptr) (key : string_view) (idx : Z) : bool :=
  match ks !! Z.to_nat idx with
  | Some (Key ptr) =>
      let size := default 0 (sizes m !! Z.to_nat idx) in
      negb ((sv_size key =? size) && memcmp_eq ptr (sv_data key) size)
  | _ => false
  end.

(** [m'] has every owned bucket of [m], unchanged: the map is append-only. *)
Definition extends (m m' : t) : Prop :=
  nbuckets m' = nbuckets m /\
  match keys m with
  | None => keys m' = None
  | Some ks =>
      exists ks', keys m' = Some ks' /\ length ks' = length ks /\
        forall i ptr, ks !! i = Some (Key ptr) ->
          ks' !! i = Some (Key ptr) /\ sizes m' !! i = sizes m !! i
  end.

End Map.

Arguments t : clear implicits.
Arguments inserted : clear implicits.

(** *** Sample keys *)

(** A key of [n] null bytes. *)
Definition zeros (n : Z) : string_view := {| sv_data := fun _ => 0; sv_size := n |}.

(** The key ["ab"]. *)
Definition key_ab : string_view :=
  {| sv_data := fun i => if i =? 0 then 97 else if i =? 1 then 98 else 0; sv_size := 2 |}.

(** A map of [MIN_NBUCKETS] buckets whose first shard (128 buckets) is full:
    the keys of 1 to 128 null bytes are inserted with the hash 0. *)
Definition full_shard : t Z :=
  foldl (fun m n => match insert m (zeros n) 0 n with
                    | Done r => map_after r
                    | _ => m
                    end)
        (resize 0 1) (seqZ 1 128).

End ConcurrentMap.

(** ** Garbage collection of sections ([elf/gc-sections.cc]) *)

Module Gc.
Import Run Elf.

(** What the collector reads of a [Symbol]: [get_frag()] and
    [input_section], both possibly null. *)
Record Symbol := { sym_frag : option nat; sym_isec : option nat }.

(** What the collector reads of an [InputSection].  Sections and fragments
    are named by numbers; [rels] are the symbols of the section's
    relocations, [fdes] the symbols (possibly null) of the relocations of
    each FDE attached to it, [rel_fragments] the fragments of its
    [rel_fragments] array. *)
Record InputSection := {
  name : string;
  sh_type : Z;
  sh_flags : Z;
  rel_fragments : list nat;
  rels : list Symbol;
  fdes : list (list (option Symbol));
}.

(** An object file: its [sections] (null entries are [None]), the symbols
    that it defines and exports ([sym->file == file && sym->is_exported]),
    the symbols of the relocations of its CIEs, and its fragments, each with
    the [SHF_ALLOC] bit of its output section. *)
Record ObjectFile := {
  file_sections : list (option nat);
  exported : list Symbol;
  cie_rels : list (option Symbol);
  fragments : list (nat * bool);
}.

(** The context: all sections by number, the object files, and the symbols
    interned for [-e], [--undefined] and [--require-defined]. *)
Record Context := {
  sections : list InputSection;
  objs : list ObjectFile;
  arg_syms : list Symbol;
}.

(** The flags that the collector writes. *)
Record state := {
  is_alive : gset nat;
  is_visited : gset nat;
  frag_alive : gset nat;
}.

Definition set_visited (st : state) (i : nat) : state :=
  {| is_alive := is_alive st; is_visited := {[i]} ∪ is_visited st;
     frag_alive := frag_alive st |}.

Definition set_frag_alive (st : state) (f : nat) : state :=
  {| is_alive := is_alive st; is_visited := is_visited st;
     frag_alive := {[f]} ∪ frag_alive st |}.

(** [kill()]: the section is dead. *)
Definition kill (st : state) (i : nat) : state :=
  {| is_alive := is_alive st ∖ {[i]}; is_visited := is_visited st;
     frag_alive := frag_alive st |}.

Definition starts_with (s prefix : string) : bool := String.prefix prefix s.

(** [is_init_fini]. *)
Definition is_init_fini (isec : InputSection) : bool :=
  (sh_type isec =? SHT_INIT_ARRAY) || (sh_type isec =? SHT_FINI_ARRAY) ||
  (sh_type isec =? SHT_PREINIT_ARRAY) ||
  starts_with (name isec) ".ctors" || starts_with (name isec) ".dtors" ||
  starts_with (name isec) ".init" || starts_with (name isec) ".fini".

Definition is_alpha_ (c : Ascii.ascii) : bool :=
  let n := Ascii.nat_of_ascii c in
  ((97 <=? n) && (n <=? 122) || (65 <=? n) && (n <=? 90) || (n =? 95))%nat.

Definition is_alnum_ (c : Ascii.ascii) : bool :=
  let n := Ascii.nat_of_ascii c in
  (is_alpha_ c || (48 <=? n) && (n <=? 57))%nat.

(** [is_c_identifier]: a match of the whole name against
    [[a-zA-Z_][a-zA-Z0-9_]*]. *)
Definition is_c_identifier (s : string) : bool :=
  match s with
  | EmptyString => false
  | String c rest => is_alpha_ c && forallb is_alnum_ (String.list_ascii_of_string rest)
  end.

(** [mark_section]: [isec && isec->is_alive && !isec->is_visited.exchange(true)]. *)
Definition mark_section (st : state) (isec : option nat) : bool * state :=
  match isec with
  | None => (false, st)
  | Some i =>
      if decide (i ∈ is_alive st)
      then (negb (bool_decide (i ∈ is_visited st)), set_visited st i)
      else (false, st)
  end.

Section Collector.

Variable ctx : Context.

(** What [visit] does with the section of a symbol: if [mark_section] marks
    it, it is visited in turn ([visit'] is the recursive call). *)
Definition follow (visit' : state -> nat -> Z -> outcome state)
    (st : state) (isec : option nat) (depth : Z) : outcome state :=
  let '(marked, st) := mark_section st isec in
  if marked then visit' st (default 0%nat isec) depth else Done st.

(** The body of the loop over the relocations of the FDEs:
    [if (Symbol *sym = isec->file.symbols[rel.r_sym])
       if (mark_section(sym->input_section)) cilk_spawn visit(ctx, sym->input_section, depth);] *)
Definition visit_fde_rel (visit' : state -> nat -> Z -> outcome state) (depth : Z)
    (st : state) (osym : option Symbol) : outcome state :=
  match osym with
  | None => Done st
  | Some sym => follow visit' st (sym_isec sym) depth
  end.

(** The body of the loop over the section's relocations: a symbol in a
    fragment keeps the fragment; otherwise its section is marked and
    visited at [depth + 1] (called below depth 3, spawned from there on). *)
Definition visit_rel (visit' : state -> nat -> Z -> outcome state) (depth : Z)
    (st : state) (sym : Symbol) : outcome state :=
  match sym_frag sym with
  | Some frag => Done (set_frag_alive st frag)
  | None => follow visit' st (sym_isec sym) (depth + 1)
  end.

(** [visit], in the serial order of the program ([cilk_spawn] as a call).
    The function has no bound of its own: every call is for a section that
    [mark_section] has just marked; [fuel] bounds the depth. *)
Fixpoint visit (fuel : nat) (st : state) (isec : nat) (depth : Z) : outcome state :=
  match fuel with
  | O => Diverged
  | S fuel' =>
      if negb (bool_decide (isec ∈ is_visited st)) then Abort "isec->is_visited"
      else
        match sections ctx !! isec with
        | None => Abort "no such section"
        | Some sec =>
            let st := foldl set_frag_alive st (rel_fragments sec) in
            st ← foldl (fun acc osym => st ← acc; visit_fde_rel (visit fuel') depth st osym)
                       (Done st) (concat (drop 1 <$> fdes sec));
            foldl (fun acc sym => st ← acc; visit_rel (visit fuel') depth st sym)
                  (Done st) (rels sec)
        end
  end.

(** [enqueue_section]. *)
Definition enqueue_section (acc : list nat * state) (isec : option nat) : list nat * state :=
  let '(rootset, st) := acc in
  let '(marked, st) := mark_section st isec in
  if marked then (rootset ++ [default 0%nat isec], st) else (rootset, st).

(** [enqueue_symbol]. *)
Definition enqueue_symbol (acc : list nat * state) (sym : option Symbol) : list nat * state :=
  match sym with
  | None => acc
  | Some sym =>
      match sym_frag sym with
      | Some frag => (acc.1, set_frag_alive acc.2 frag)
      | None => enqueue_section acc (sym_isec sym)
      end
  end.

(** The first loop of [collect_root_set], for one section of a file. *)
Definition keep_section (acc : list nat * state) (entry : option nat) : list nat * state :=
  match entry with
  | None => acc
  | Some i =>
      match sections ctx !! i with
      | None => acc
      | Some isec =>
          if negb (bool_decide (i ∈ is_alive acc.2)) then acc
          else
            let acc :=
              if negb (has_flag (sh_flags isec) SHF_ALLOC)
              then (acc.1, set_visited acc.2 i) else acc in
            if is_init_fini isec || is_c_identifier (name isec) || (sh_type isec =? SHT_NOTE)
            then enqueue_section acc (Some i) else acc
      end
  end.

(** [collect_root_set]. *)
Definition collect_root_set (st : state) : list nat * state :=
  let acc := foldl (fun acc file => foldl keep_section acc (file_sections file))
                   ([], st) (objs ctx) in
  let acc := foldl (fun acc file => foldl (fun acc sym => enqueue_symbol acc (Some sym))
                                          acc (exported file))
                   acc (objs ctx) in
  let acc := foldl (fun acc sym => enqueue_symbol acc (Some sym)) acc (arg_syms ctx) in
  foldl (fun acc file => foldl enqueue_symbol acc (cie_rels file)) acc (objs ctx).

(** [mark]. *)
Definition mark (fuel : nat) (rootset : list nat) (st : state) : outcome state :=
  foldl (fun acc isec => st ← acc; visit fuel st isec 0) (Done st) rootset.

(** [sweep]. *)
Definition sweep_section (st : state) (entry : option nat) : state :=
  match entry with
  | None => st
  | Some i =>
      if bool_decide (i ∈ is_alive st) && negb (bool_decide (i ∈ is_visited st))
      then kill st i else st
  end.

Definition sweep (st : state) : state :=
  foldl (fun st file => foldl sweep_section st (file_sections file)) st (objs ctx).

(** [mark_nonalloc_fragments]. *)
Definition mark_nonalloc_fragments (st : state) : state :=
  foldl (fun st file =>
           foldl (fun st frag => if negb frag.2 then set_frag_alive st frag.1 else st)
                 st (fragments file))
        st (objs ctx).

(** [gc_sections].  The depth of [visit] is bounded by the number of live
    sections. *)
Definition gc_sections (st : state) : outcome state :=
  let st := mark_nonalloc_fragments st in
  let '(rootset, st) := collect_root_set st in
  st ← mark (S (size (is_alive st))) rootset st;
  Done (sweep st).

(** *** The section graph *)

(** The sections that the relocations of [sec] lead to: for the FDEs, all
    relocations but the first of each; for the section's own relocations,
    those whose symbol is not in a fragment. *)
Definition targets (sec : InputSection) : list nat :=
  omap (fun osym => osym ≫= sym_isec) (concat (drop 1 <$> fdes sec))
  ++ omap (fun sym => match sym_frag sym with Some _ => None | None => sym_isec sym end)
          (rels sec).

Definition edge (s t : nat) : Prop :=
  exists sec, sections ctx !! s = Some sec /\ t ∈ targets sec.

(** The sections on which [visit] runs: the root set, and what an edge from
    such a section leads to if [mark_section] can mark it (it is alive and
    was not visited when the root set was complete). *)
Inductive traversed (rootset : list nat) (st : state) : nat -> Prop :=
| traversed_root r : r ∈ rootset -> traversed rootset st r
| traversed_edge s t :
    traversed rootset st s -> edge s t ->
    t ∈ is_alive st -> t ∉ is_visited st ->
    traversed rootset st t.

(** Reachable from the root set: a root, or the end of an edge from a
    section on which [visit] runs. *)
Definition reachable (rootset : list nat) (st : state) (t : nat) : Prop :=
  t ∈ rootset \/ exists s, traversed rootset st s /\ edge s t.

(** The section [i] is in the [sections] of some object file. *)
Definition listed (i : nat) : Prop :=
  exists file, file ∈ objs ctx /\ Some i ∈ file_sections file.

(** Every live section is a section of the context. *)
Definition live_sections_exist (st : state) : Prop :=
  forall i, i ∈ is_alive st -> is_Some (sections ctx !! i).

(** [st'] comes after [st] in a marking phase: flags are only set. *)
Definition grows (st st' : state) : Prop :=
  is_alive st' = is_alive st /\ is_visited st ⊆ is_visited st' /\
  frag_alive st ⊆ frag_alive st'.

(** The sections visited between [st] and [st'] have all their live targets
    visited in [st']. *)
Definition closed_new (st st' : state) : Prop :=
  forall x, x ∈ is_visited st' -> x ∉ is_visited st ->
    forall t, edge x t -> t ∈ is_alive st -> t ∈ is_visited st'.

(** The live targets of [x] are visited. *)
Definition targets_visited (x : nat) (st : state) : Prop :=
  forall t, edge x t -> t ∈ is_alive st -> t ∈ is_visited st.

(** The sections that [mark_section] can still mark. *)
Definition unvisited (st : state) : gset nat := is_alive st ∖ is_visited st.

(** The root set under construction: its sections are alive and marked. *)
Definition roots_marked (st0 : state) (acc : list nat * state) : Prop :=
  grows st0 acc.2 /\
  forall r, r ∈ acc.1 -> r ∈ is_alive acc.2 /\ r ∈ is_visited acc.2.

(** What a call of [visit] achieves, when it has fuel for the sections that
    can still be marked. *)
Definition visit_ok (fuel : nat) : Prop :=
  forall st i d,
    live_sections_exist st -> (size (unvisited st) < fuel)%nat ->
    i ∈ is_alive st -> i ∈ is_visited st ->
    exists st', visit fuel st i d = Done st' /\
      grows st st' /\ closed_new st st' /\ targets_visited i st'.

End Collector.

(** *** A sample: [main] refers to a string section, nothing refers to the
    dead code. *)

Definition sec_main : InputSection :=
  {| name := ".text.main"; sh_type := SHT_PROGBITS;
     sh_flags := Z.lor SHF_ALLOC SHF_EXECINSTR; rel_fragments := [];
     rels := [{| sym_frag := None; sym_isec := Some 1%nat |}]; fdes := [] |}.

Definition sec_str : InputSection :=
  {| name := ".rodata.str"; sh_type := SHT_PROGBITS; sh_flags := SHF_ALLOC;
     rel_fragments := []; rels := []; fdes := [] |}.

Definition sec_dead : InputSection :=
  {| name := ".text.dead"; sh_type := SHT_PROGBITS;
     sh_flags := Z.lor SHF_ALLOC SHF_EXECINSTR; rel_fragments := [];
     rels := [{| sym_frag := None; sym_isec := Some 1%nat |}]; fdes := [] |}.

Definition sample_ctx : Context :=
  {| sections := [sec_main; sec_str; sec_dead];
     objs := [{| file_sections := [Some 0; Some 1; Some 2]%nat; exported := [];
                 cie_rels := []; fragments := [] |}];
     arg_syms := [{| sym_frag := None; sym_isec := Some 0%nat |}] |}.

Definition sample_st : state :=
  {| is_alive := {[0; 1; 2]}%nat; is_visited := ∅; frag_alive := ∅ |}.

End Gc.

(** ** Symbol resolution ([elf/object-file.cc], [elf/passes.cc]) *)

Module Resolver.
Import Word Run.

(** *** ELF symbols *)

Module ElfSym.

(** Modelled from the spec: the header that declares [ElfSym] is not among
    the sources.  The resolver reads a symbol through the accessors of the
    ELF format: a symbol is undefined if its section index is [SHN_UNDEF],
    absolute if it is [SHN_ABS], common if it is [SHN_COMMON], weak if its
    binding is [STB_WEAK], and defined if it is not undefined. *)
Record t := { st_bind : Z; st_shndx : Z; st_value : Z }.

Definition SHN_UNDEF : Z := 0.
Definition SHN_ABS : Z := 65521.
Definition SHN_COMMON : Z := 65522.
Definition STB_GLOBAL : Z := 1.
Definition STB_WEAK : Z := 2.

Definition is_undef (esym : t) : bool := bool_decide (st_shndx esym = SHN_UNDEF).
Definition is_abs (esym : t) : bool := bool_decide (st_shndx esym = SHN_ABS).
Definition is_common (esym : t) : bool := bool_decide (st_shndx esym = SHN_COMMON).
Definition is_weak (esym : t) : bool := bool_decide (st_bind esym = STB_WEAK).
Definition is_defined (esym : t) : bool := negb (is_undef esym).
Definition is_undef_strong (esym : t) : bool := is_undef esym && negb (is_weak esym).

End ElfSym.

(** *** Files, symbols and the state of the link *)

(** An input file, as far as resolution reads it: an [ObjectFile], or a
    [SharedFile] if [is_dso] is set.  [priority], [is_dso] and [symbols] are
    the fields of [InputFile]: [symbols] gives, index by index, the number of
    the [Symbol] that the entry [elf_syms] of the same index was interned to.
    Of an object file, [elf_syms] is the whole symbol table, the entries from
    [first_global] on are global, and [sym_fragments] holds the addend of the
    entries that point into a section fragment.  Of a shared object,
    [elf_syms] are the defined entries of the dynamic symbol table, [versyms]
    their versions, and [globals] the symbols of all its global entries. *)
Record InputFile := {
  priority : Z;
  is_dso : bool;
  is_in_lib : bool;
  first_global : nat;
  elf_syms : list ElfSym.t;
  symbols : list nat;
  sym_fragments : list (option Z);
  versyms : list Z;
  globals : list nat;
}.

(** [initialize_symbols] sets the flag when it meets a common global. *)
Definition has_common_symbol (file : InputFile) : bool :=
  existsb ElfSym.is_common (drop (first_global file) (elf_syms file)).

(** A [Symbol] of the global table.  [file] is a pointer to an input file,
    here its position in the pool of the files, or null. *)
Record Symbol := {
  file : option nat;
  input_section : option Z;
  value : Z;
  sym_idx : Z;
  ver_idx : Z;
  is_lazy : bool;
  is_weak : bool;
  is_imported : bool;
  is_exported : bool;
}.

(** Modelled from the spec: the constructor [Symbol(name)] is not among the
    sources; a symbol that nobody has claimed has no file. *)
Definition unclaimed : Symbol :=
  {| file := None; input_section := None; value := -1; sym_idx := -1; ver_idx := 0;
     is_lazy := false; is_weak := false; is_imported := false; is_exported := false |}.

(** What resolution reads of the context: every input file ever created
    ([file_pool]: the files of [obj_pool] and [dso_pool], by address), the
    symbols named by the options [--undefined] and [--require-defined], the
    default version, and the symbol interned for [__gnu_lto_slim]. *)
Record Context := {
  file_pool : list InputFile;
  arg_undefined : list nat;
  arg_require_defined : list nat;
  arg_default_version : Z;
  gnu_lto_slim : nat;
}.

(** What resolution changes: the symbols of the table ([syms], by number),
    the flag [is_alive] of the files (the set of the files that have it),
    and the vectors [ctx.objs] and [ctx.dsos] (the object files and the
    shared objects that take part in the link). *)
Record state := {
  syms : nat -> Symbol;
  is_alive : gset nat;
  objs : list nat;
  dsos : list nat;
}.

Definition set_sym (s : nat) (sym : Symbol) (st : state) : state :=
  {| syms := <[s := sym]> (syms st); is_alive := is_alive st;
     objs := objs st; dsos := dsos st |}.

(** [file->is_alive.exchange(true)] *)
Definition set_alive (file : nat) (st : state) : state :=
  {| syms := syms st; is_alive := {[file]} ∪ is_alive st;
     objs := objs st; dsos := dsos st |}.

Definition set_objs (l : list nat) (st : state) : state :=
  {| syms := syms st; is_alive := is_alive st; objs := l; dsos := dsos st |}.

Definition set_dsos (l : list nat) (st : state) : state :=
  {| syms := syms st; is_alive := is_alive st; objs := objs st; dsos := l |}.

(** The global entries of an object file:
    [first_global <= i < symbols.size()]. *)
Definition global_entries (file : InputFile) : list nat :=
  seq (first_global file) (length (symbols file) - first_global file).

Definition get_global_syms (file : InputFile) : list nat :=
  drop (first_global file) (symbols file).

(** *** Ranks *)

(** [get_rank(file, esym, is_lazy)]; the sum is converted to [u64]. *)
Definition get_rank (file : InputFile) (esym : ElfSym.t) (is_lazy : bool) : Z :=
  if ElfSym.is_common esym then u64 (Z.shiftl 6 24 + priority file)
  else if is_lazy then u64 (Z.shiftl 5 24 + priority file)
  else if is_dso file then
    if ElfSym.is_weak esym then u64 (Z.shiftl 4 24 + priority file)
    else u64 (Z.shiftl 3 24 + priority file)
  else if ElfSym.is_weak esym then u64 (Z.shiftl 2 24 + priority file)
  else u64 (Z.shiftl 1 24 + priority file).

(** The null symbol, for reads outside a symbol table (none happens on the
    cases covered below). *)
Definition null_esym : ElfSym.t :=
  {| ElfSym.st_bind := 0; ElfSym.st_shndx := ElfSym.SHN_UNDEF; ElfSym.st_value := 0 |}.

(** [sym.esym()], for a symbol held by [file]. *)
Definition esym_of (file : InputFile) (sym : Symbol) : ElfSym.t :=
  default null_esym (elf_syms file !! Z.to_nat (sym_idx sym)).

Section Passes.

Variable ctx : Context.

(** [get_rank(sym)].  A file pointer that does not point into the pool does
    not occur; it is read as null. *)
Definition get_rank_sym (sym : Symbol) : Z :=
  match file sym with
  | None => u64 (Z.shiftl 7 24)
  | Some h =>
    match file_pool ctx !! h with
    | Some H => get_rank H (esym_of H sym) (is_lazy sym)
    | None => u64 (Z.shiftl 7 24)
    end
  end.

(** *** The passes of a file *)

Section File.

(** [this] is the pointer to the file, [self] the file it points to. *)
Variable this : nat.
Variable self : InputFile.

(** [override_symbol]; the section of the symbol is kept as its index. *)
Definition override_symbol (s : nat) (esym : ElfSym.t) (symidx : nat) (st : state) : state :=
  set_sym s
    {| file := Some this;
       input_section := if ElfSym.is_abs esym then None else Some (ElfSym.st_shndx esym);
       value := match sym_fragments self !! symidx with
                | Some (Some addend) => addend
                | _ => ElfSym.st_value esym
                end;
       sym_idx := Z.of_nat symidx;
       ver_idx := arg_default_version ctx;
       is_lazy := false;
       is_weak := ElfSym.is_weak esym;
       is_imported := false;
       is_exported := false |} st.

(** The body of the loop of [resolve_lazy_symbols]. *)
Definition lazy_symbol (st : state) (i : nat) : state :=
  match symbols self !! i, elf_syms self !! i with
  | Some s, Some esym =>
    if ElfSym.is_undef esym || ElfSym.is_common esym then st
    else if bool_decide (get_rank self esym true < get_rank_sym (syms st s)) then
      let sym := syms st s in
      set_sym s
        {| file := Some this;
           input_section := input_section sym;
           value := value sym;
           sym_idx := Z.of_nat i;
           ver_idx := ver_idx sym;
           is_lazy := true;
           is_weak := false;
           is_imported := is_imported sym;
           is_exported := is_exported sym |} st
    else st
  | _, _ => st
  end.

Definition resolve_lazy_symbols (st : state) : outcome state :=
  if is_in_lib self then Done (foldl lazy_symbol st (global_entries self))
  else Abort "assert(is_in_lib)".

(** The body of the loop of [resolve_regular_symbols]. *)
Definition regular_symbol (st : state) (i : nat) : state :=
  match symbols self !! i, elf_syms self !! i with
  | Some s, Some esym =>
    if ElfSym.is_undef esym || ElfSym.is_common esym then st
    else if bool_decide (get_rank self esym false < get_rank_sym (syms st s)) then
      override_symbol s esym i st
    else st
  | _, _ => st
  end.

Definition resolve_regular_symbols (st : state) : outcome state :=
  if is_in_lib self then Abort "assert(!is_in_lib)"
  else Done (foldl regular_symbol st (global_entries self)).

(** The body of the loop of [mark_live_objects]; the second component is
    what the feeder has received.  The merge of the visibility of the symbol
    and the tracing output touch nothing that a rank reads, and are left
    out. *)
Definition live_symbol (acc : state * list nat) (i : nat) : state * list nat :=
  let '(st, feeder) := acc in
  match symbols self !! i, elf_syms self !! i with
  | Some s, Some esym =>
    if ElfSym.is_undef esym || ElfSym.is_common esym then
      match file (syms st s) with
      | Some h =>
        if negb (ElfSym.is_weak esym) && negb (bool_decide (h ∈ is_alive st)) then
          (set_alive h st, feeder ++ [h])
        else acc
      | None => acc
      end
    else if bool_decide (get_rank self esym false < get_rank_sym (syms st s)) then
      (override_symbol s esym i st, feeder)
    else acc
  | _, _ => acc
  end.

Definition mark_live_objects (st : state) : outcome (state * list nat) :=
  if bool_decide (this ∈ is_alive st) then Done (foldl live_symbol (st, []) (global_entries self))
  else Abort "assert(this->is_alive)".

(** The body of the loop of [resolve_common_symbols]. *)
Definition common_symbol (st : state) (i : nat) : state :=
  match symbols self !! i, elf_syms self !! i with
  | Some s, Some esym =>
    if negb (ElfSym.is_common esym) then st
    else if bool_decide (get_rank self esym false < get_rank_sym (syms st s)) then
      set_sym s
        {| file := Some this;
           input_section := None;
           value := ElfSym.st_value esym;
           sym_idx := Z.of_nat i;
           ver_idx := arg_default_version ctx;
           is_lazy := false;
           is_weak := false;
           is_imported := false;
           is_exported := false |} st
    else st
  | _, _ => st
  end.

Definition resolve_common_symbols (st : state) : state :=
  if negb (has_common_symbol self) then st
  else foldl common_symbol st (global_entries self).

(** The symbols of an eliminated file are made new. *)
Definition remove_symbol (st : state) (s : nat) : state :=
  if bool_decide (file (syms st s) = Some this) then set_sym s unclaimed st else st.

Definition remove_symbols (st : state) : state :=
  if bool_decide (this ∈ is_alive st) then st
  else foldl remove_symbol st (get_global_syms self).

(** The body of the loop of [resolve_dso_symbols]: the symbol is taken if
    nobody holds it or if the holder has a higher priority number; the rank
    is not asked, and [is_lazy] is left as it is. *)
Definition dso_symbol (st : state) (i : nat) : state :=
  match symbols self !! i, elf_syms self !! i with
  | Some s, Some esym =>
    let sym := syms st s in
    if match file sym with
       | None => true
       | Some h => bool_decide (priority self < default 0 (priority <$> file_pool ctx !! h))
       end
    then
      set_sym s
        {| file := Some this;
           input_section := None;
           value := ElfSym.st_value esym;
           sym_idx := Z.of_nat i;
           ver_idx := default 0 (versyms self !! i);
           is_lazy := is_lazy sym;
           is_weak := true;
           is_imported := true;
           is_exported := false |} st
    else st
  | _, _ => st
  end.

Definition resolve_dso_symbols (st : state) : state :=
  foldl dso_symbol st (seq 0 (length (symbols self))).

(** The body of the loop "Mark live DSOs" of [resolve_symbols], over the
    entries [first_global <= i < elf_syms.size()] of an object file. *)
Definition mark_dso (st : state) (i : nat) : state :=
  match elf_syms self !! i, symbols self !! i with
  | Some esym, Some s =>
    match file (syms st s) with
    | Some h =>
      if ElfSym.is_undef_strong esym && default false (is_dso <$> file_pool ctx !! h) then
        let sym := syms st s in
        set_sym s
          {| file := file sym;
             input_section := input_section sym;
             value := value sym;
             sym_idx := sym_idx sym;
             ver_idx := ver_idx sym;
             is_lazy := is_lazy sym;
             is_weak := false;
             is_imported := is_imported sym;
             is_exported := is_exported sym |} (set_alive h st)
      else st
    | None => st
    end
  | _, _ => st
  end.

Definition mark_dsos (st : state) : state :=
  foldl mark_dso st (seq (first_global self) (length (elf_syms self) - first_global self)).

(** The function that the loop over the live shared objects runs on a
    shared object: a shared object that holds one of its symbols comes
    alive, and the file itself is fed again. *)
Definition dso_global (acc : state * list nat) (s : nat) : state * list nat :=
  let '(st, feeder) := acc in
  match file (syms st s) with
  | Some h =>
    if bool_decide (h <> this) && default false (is_dso <$> file_pool ctx !! h)
       && negb (bool_decide (h ∈ is_alive st))
    then (set_alive h st, feeder ++ [this])
    else acc
  | None => acc
  end.

Definition mark_live_dsos (st : state) : state * list nat :=
  foldl dso_global (st, []) (globals self).

(** The symbols of a shared object that is not referenced are made new. *)
Definition remove_dso_symbols (st : state) : state :=
  if bool_decide (this ∈ is_alive st) then st
  else foldl remove_symbol st (symbols self).

End File.

(** *** The driver *)

(** A call through a pointer to a file. *)
Definition with_file {A : Type} (this : nat) (k : InputFile -> outcome A) : outcome A :=
  match file_pool ctx !! this with
  | Some self => k self
  | None => Abort "dangling file"
  end.

(** [ParallelTools::parallel_for_each], with the calls made one after the
    other in the order of the vector. *)
Fixpoint parallel_for_each {A S : Type} (l : list A) (f : A -> S -> outcome S) (st : S) :
    outcome S :=
  match l with
  | [] => Done st
  | x :: l => st ← f x st; parallel_for_each l f st
  end.

(** [ParallelTools::parallel_for_each_spawn] runs the function on every
    element of the vector and, with the vector that the function returns,
    calls itself.  The calls are made in the order of the text: the function
    is run on an element, then on the elements that it has returned (and on
    what those return) before the next element of the vector is taken.
    [work] holds what is still to be run, first the vector of the innermost
    call; [fuel] bounds the number of calls of the function. *)
Fixpoint parallel_for_each_spawn {A S : Type} (fuel : nat)
    (f : A -> S -> outcome (S * list A)) (work : list A) (st : S) : outcome S :=
  match work with
  | [] => Done st
  | x :: rest =>
    match fuel with
    | O => Diverged
    | S fuel => '(st, vec) ← f x st; parallel_for_each_spawn fuel f (vec ++ rest) st
    end
  end.

(** The lambda [load] of [resolve_symbols]; the second component is
    [live_objs]. *)
Definition load (acc : state * list nat) (name : nat) : state * list nat :=
  let '(st, live_objs) := acc in
  match file (syms st name) with
  | Some h =>
    if bool_decide (h ∈ is_alive st) then acc
    else if default false (is_dso <$> file_pool ctx !! h) then (set_alive h st, live_objs)
    else (set_alive h st, live_objs ++ [h])
  | None => acc
  end.

Definition lto_error : string :=
  "looks like this file contains a GCC intermediate code, but mold does not support LTO".

(** [resolve_symbols].  [mark_live_objects] is called through a pointer that
    [load] and the feeder have cast to [ObjectFile]; the program has no
    behaviour if it points to a shared object, and the run of the model ends
    there. *)
Definition resolve_symbols (st : state) : outcome state :=
  (* Register object symbols *)
  st ← parallel_for_each (objs st) (fun file st =>
         with_file file (fun self =>
           if is_in_lib self then resolve_lazy_symbols file self st
           else resolve_regular_symbols file self st)) st;
  (* Register DSO symbols *)
  st ← parallel_for_each (dsos st) (fun file st =>
         with_file file (fun self => Done (resolve_dso_symbols file self st))) st;
  (* Mark reachable objects *)
  let live_objs := filter (fun file => file ∈ is_alive st) (objs st) in
  let acc := foldl load (st, live_objs) (arg_undefined ctx) in
  let '(st, live_objs) := foldl load acc (arg_require_defined ctx) in
  st ← parallel_for_each_spawn (length (file_pool ctx)) (fun file st =>
         with_file file (fun self =>
           if is_dso self then Abort "shared object used as an object file"
           else mark_live_objects file self st)) live_objs st;
  (* Remove symbols of eliminated objects *)
  st ← parallel_for_each (objs st) (fun file st =>
         with_file file (fun self => Done (remove_symbols file self st))) st;
  (* Eliminate unused archive members *)
  let st := set_objs (filter (fun file => file ∈ is_alive st) (objs st)) st in
  (* Mark live DSOs *)
  st ← parallel_for_each (objs st) (fun file st =>
         with_file file (fun self => Done (mark_dsos self st))) st;
  (* DSOs referenced by live DSOs are also alive *)
  let live_dsos := filter (fun file => file ∈ is_alive st) (dsos st) in
  st ← parallel_for_each_spawn (length (file_pool ctx)) (fun file st =>
         with_file file (fun self => Done (mark_live_dsos file self st))) live_dsos st;
  (* Remove symbols of unreferenced DSOs *)
  st ← parallel_for_each (dsos st) (fun file st =>
         with_file file (fun self => Done (remove_dso_symbols file self st))) st;
  (* Remove unreferenced DSOs *)
  let st := set_dsos (filter (fun file => file ∈ is_alive st) (dsos st)) st in
  (* Register common symbols *)
  st ← parallel_for_each (objs st) (fun file st =>
         with_file file (fun self => Done (resolve_common_symbols file self st))) st;
  match file (syms st (gnu_lto_slim ctx)) with
  | Some _ => Fatal lto_error
  | None => Done st
  end.

(** *** The order of the specification *)

(** The tiers of the order, from the one that wins. *)
Definition tier (file : InputFile) (esym : ElfSym.t) (is_lazy : bool) : Z :=
  if ElfSym.is_common esym then 6
  else if is_lazy then 5
  else if is_dso file then (if ElfSym.is_weak esym then 4 else 3)
  else if ElfSym.is_weak esym then 2
  else 1.

(** A pair of a tier and a file priority is at most another: the tier
    decides, and on equal tiers the priority. *)
Definition at_most (a b : Z * Z) : Prop := a.1 < b.1 \/ (a.1 = b.1 /\ a.2 <= b.2).

(** The global entry [i] of [file] defines the symbol [s] (a common symbol
    counts as a definition). *)
Definition defines (file : InputFile) (i : nat) (s : nat) (esym : ElfSym.t) : Prop :=
  (first_global file <= i)%nat /\ symbols file !! i = Some s /\
  elf_syms file !! i = Some esym /\ ElfSym.is_undef esym = false.

(** The place of a definition in the order at the end: a file that is not
    alive is an archive member that was not loaded. *)
Definition place (st : state) (f : nat) (file : InputFile) (esym : ElfSym.t) : Z * Z :=
  (tier file esym (negb (bool_decide (f ∈ is_alive st))), priority file).

(** The symbol [s] is held by the file [h] of [among], which defines it by
    its entry [sym_idx]; the symbol is lazy if the file is not alive. *)
Definition held_by (st : state) (among : nat -> Prop) (s h : nat) (H : InputFile)
    (e : ElfSym.t) : Prop :=
  file (syms st s) = Some h /\ among h /\ file_pool ctx !! h = Some H /\
  defines H (Z.to_nat (sym_idx (syms st s))) s e /\
  is_lazy (syms st s) = negb (bool_decide (h ∈ is_alive st)).

(** A symbol that has a file is held by a definition of a file of [among],
    and every symbol that a file of [among] defines is held by the least
    definition of it: no definition is below the holder's, and a definition
    that is not above it is in the same file. *)
Definition holds_minimum (st : state) (among : nat -> Prop) : Prop :=
  (forall s h, file (syms st s) = Some h -> exists H e, held_by st among s h H e) /\
  (forall s f F i esym,
     among f -> file_pool ctx !! f = Some F -> defines F i s esym ->
     exists h H e,
       held_by st among s h H e /\
       at_most (place st h H e) (place st f F esym) /\
       (at_most (place st f F esym) (place st h H e) -> h = f)).

(** A pass overrides a symbol only by a definition of a strictly lower
    rank: between two states every symbol has kept its holder, or its rank
    has gone down. *)
Definition holder (sym : Symbol) : option nat * Z * bool :=
  (file sym, sym_idx sym, is_lazy sym).

Definition overrides (st st' : state) : Prop :=
  forall s, holder (syms st' s) = holder (syms st s) \/
            get_rank_sym (syms st' s) < get_rank_sym (syms st s).

(** *** What holds along the way *)

(** The priorities of the files are distinct and below [2^24]. *)
Definition priorities_ok : Prop :=
  Forall (fun F => 0 <= priority F < 2 ^ 24) (file_pool ctx) /\
  NoDup (priority <$> file_pool ctx).

(** The shared objects are as [SharedFile::parse] builds them: [elf_syms]
    holds defined entries of the dynamic symbol table only, and every entry
    is global. *)
Definition dsos_parsed : Prop :=
  Forall (fun F => is_dso F = true ->
            first_global F = 0%nat /\
            Forall (fun e => ElfSym.is_undef e = false) (elf_syms F))
         (file_pool ctx).

(** The definitions of shared objects keep apart from those that
    [resolve_dso_symbols] does not rank: a symbol that a shared object
    defines is not defined by an archive member, unless as a common symbol;
    and of two definitions of a symbol in shared objects, the one in the
    file of the lower priority number is not in a later tier. *)
Definition dsos_apart : Prop :=
  forall d D i s e f F j e',
    file_pool ctx !! d = Some D -> is_dso D = true -> defines D i s e ->
    file_pool ctx !! f = Some F -> defines F j s e' ->
    (is_dso F = true -> priority F <= priority D -> tier F e' false <= tier D e false) /\
    (is_dso F = false -> is_in_lib F = true -> ElfSym.is_common e' = true).

(** The state in which resolution starts: no symbol is claimed or lazy,
    [ctx.objs] are the object files of the pool and [ctx.dsos] its shared
    objects, an object file is alive if it is not an archive member (the
    constructor of [ObjectFile]), and a shared object is alive (the
    constructor of [SharedFile], without [--as-needed]). *)
Definition initial (st : state) : Prop :=
  (forall s, file (syms st s) = None /\ is_lazy (syms st s) = false) /\
  NoDup (objs st) /\ NoDup (dsos st) /\
  (forall f, f ∈ objs st <-> exists F, file_pool ctx !! f = Some F /\ is_dso F = false) /\
  (forall f, f ∈ dsos st <-> exists F, file_pool ctx !! f = Some F /\ is_dso F = true) /\
  (forall f F, file_pool ctx !! f = Some F ->
     f ∈ is_alive st <-> is_dso F = true \/ is_in_lib F = false) /\
  (forall f, f ∈ is_alive st -> is_Some (file_pool ctx !! f)).

(** The files that are not archive members are alive. *)
Definition given_alive (st : state) : Prop :=
  forall f F, file_pool ctx !! f = Some F ->
    is_dso F = true \/ is_in_lib F = false -> f ∈ is_alive st.

(** What holds of the holders until the marking begins: an object file
    holds a symbol by an entry that is not common, lazily if it is an archive
    member; a shared object holds it by an entry and not lazily; a symbol
    without a file is not lazy. *)
Definition registered (st : state) : Prop :=
  (forall s, file (syms st s) = None -> is_lazy (syms st s) = false) /\
  forall s h, file (syms st s) = Some h ->
    exists H e, file_pool ctx !! h = Some H /\
      defines H (Z.to_nat (sym_idx (syms st s))) s e /\
      (is_dso H = false ->
       ElfSym.is_common e = false /\ is_lazy (syms st s) = is_in_lib H) /\
      (is_dso H = true -> is_lazy (syms st s) = false).

(** Between two states of the pass of the shared objects: a symbol that has
    a file keeps one, of a priority number that is not higher. *)
Definition lowers (st st' : state) : Prop :=
  forall s h H, file (syms st s) = Some h -> file_pool ctx !! h = Some H ->
    exists h' H', file (syms st' s) = Some h' /\ file_pool ctx !! h' = Some H' /\
      priority H' <= priority H.

(** The entry [i] of the shared object [this] has had its turn: its symbol
    is held by a file whose priority number is not higher. *)
Definition dso_entry_done (this : nat) (i : nat) (st : state) : Prop :=
  forall D s, file_pool ctx !! this = Some D -> symbols D !! i = Some s ->
    is_Some (elf_syms D !! i) ->
    exists h H, file (syms st s) = Some h /\ file_pool ctx !! h = Some H /\
      priority H <= priority D.

(** Between two states of the loops that mark the shared objects: every
    symbol keeps its holder, and the files that are alive and the vectors of
    the files stay. *)
Definition keeps (st st' : state) : Prop :=
  (forall s, holder (syms st' s) = holder (syms st s)) /\
  is_alive st' = is_alive st /\ objs st' = objs st /\ dsos st' = dsos st.

(** No symbol is held lazily. *)
Definition none_lazy (st : state) : Prop :=
  forall s h, file (syms st s) = Some h -> is_lazy (syms st s) = false.

(** The holders are definitions: a symbol with a file is defined by the
    entry [sym_idx] of that file, by an entry that is not common if the
    symbol is lazy, and by a file that is alive if it is not. *)
Definition valid (st : state) : Prop :=
  forall s h, file (syms st s) = Some h ->
    exists H e, file_pool ctx !! h = Some H /\
      defines H (Z.to_nat (sym_idx (syms st s))) s e /\
      (is_lazy (syms st s) = true -> ElfSym.is_common e = false) /\
      (is_lazy (syms st s) = false -> h ∈ is_alive st).

(** The entries of [this] that are definitions and not common have had
    their turn: none has a rank below the rank of its symbol. *)
Definition settled (st : state) (this : nat) : Prop :=
  forall F i s e, file_pool ctx !! this = Some F -> defines F i s e ->
    ElfSym.is_common e = false -> get_rank_sym (syms st s) <= get_rank F e false.

(** The same for the common entries of [this]. *)
Definition settled_common (st : state) (this : nat) : Prop :=
  forall F i s e, file_pool ctx !! this = Some F -> defines F i s e ->
    ElfSym.is_common e = true -> get_rank_sym (syms st s) <= get_rank F e false.

(** [live_objs] lists, once each, the object files of the pool that are
    alive. *)
Definition live_list (st : state) (live_objs : list nat) : Prop :=
  NoDup live_objs /\
  (forall f, f ∈ live_objs ->
     f ∈ is_alive st /\ exists F, file_pool ctx !! f = Some F /\ is_dso F = false) /\
  (forall f F, f ∈ is_alive st -> file_pool ctx !! f = Some F -> is_dso F = false ->
     f ∈ live_objs).

(** Between two states of the marking phase: symbols are only overridden,
    files only come alive, [ctx.objs] and [ctx.dsos] stay. *)
Definition advances (st st' : state) : Prop :=
  overrides st st' /\ is_alive st ⊆ is_alive st' /\
  objs st' = objs st /\ dsos st' = dsos st.

End Passes.

(** *** Sample links *)

Definition strong (shndx : Z) : ElfSym.t :=
  {| ElfSym.st_bind := ElfSym.STB_GLOBAL; ElfSym.st_shndx := shndx; ElfSym.st_value := 0 |}.
Definition weak (shndx : Z) : ElfSym.t :=
  {| ElfSym.st_bind := ElfSym.STB_WEAK; ElfSym.st_shndx := shndx; ElfSym.st_value := 0 |}.

Definition object (priority : Z) (is_in_lib : bool) (entries : list (ElfSym.t * nat)) : InputFile :=
  {| priority := priority; is_dso := false; is_in_lib := is_in_lib; first_global := 1;
     elf_syms := null_esym :: entries.*1; symbols := 0%nat :: entries.*2;
     sym_fragments := []; versyms := []; globals := [] |}.

Definition shared_object (priority : Z) (entries : list (ElfSym.t * nat)) : InputFile :=
  {| priority := priority; is_dso := true; is_in_lib := false; first_global := 0;
     elf_syms := entries.*1; symbols := entries.*2;
     sym_fragments := []; versyms := (fun _ => 1) <$> entries; globals := entries.*2 |}.

(** The start of a link of the files of [ctx] (without [--as-needed]): the
    object files that are not archive members and the shared objects are
    alive. *)
Definition start (ctx : Context) : state :=
  let ids := seq 0 (length (file_pool ctx)) in
  let has (p : InputFile -> bool) (f : nat) := default false (p <$> file_pool ctx !! f) in
  {| syms := fun _ => unclaimed;
     is_alive := list_to_set (filter (fun f => has (fun F => is_dso F || negb (is_in_lib F)) f) ids);
     objs := filter (fun f => has (fun F => negb (is_dso F)) f) ids;
     dsos := filter (fun f => has is_dso f) ids |}.

(** Symbols 1 [main], 2 [foo], 3 [bar], 4 [buf], 5 [baz]; symbol 9 is
    [__gnu_lto_slim].  [main.o] calls [foo] and has a common [buf]; the first
    archive member defines [foo] and calls [bar]; the second defines [bar]
    (weakly) and [buf]; the third defines [foo] and [baz] and is never
    loaded. *)
Definition sample_ctx : Context :=
  {| file_pool :=
       [ object 2 false [(strong 1, 1%nat); (strong ElfSym.SHN_UNDEF, 2%nat);
                         (strong ElfSym.SHN_COMMON, 4%nat)];
         object 3 true [(strong 1, 2%nat); (strong ElfSym.SHN_UNDEF, 3%nat)];
         object 4 true [(weak 1, 3%nat); (strong 2, 4%nat)];
         object 5 true [(strong 1, 2%nat); (strong 1, 5%nat)] ];
     arg_undefined := [];
     arg_require_defined := [];
     arg_default_version := 1;
     gnu_lto_slim := 9%nat |}.

(** Two objects on the command line with priorities beyond [2^24]: the first
    defines symbol 1 weakly, the second strongly. *)
Definition large_ctx : Context :=
  {| file_pool :=
       [ object 1 false [(weak 1, 1%nat)];
         object (2 ^ 24 + 2) false [(strong 1, 1%nat)] ];
     arg_undefined := [];
     arg_require_defined := [];
     arg_default_version := 1;
     gnu_lto_slim := 9%nat |}.

(** An object that calls symbol 1 and two shared objects that define it:
    the first weakly, the second strongly. *)
Definition shared_ctx : Context :=
  {| file_pool :=
       [ object 2 false [(strong ElfSym.SHN_UNDEF, 1%nat)];
         shared_object 3 [(weak 1, 1%nat)];
         shared_object 4 [(strong 1, 1%nat)] ];
     arg_undefined := [];
     arg_require_defined := [];
     arg_default_version := 1;
     gnu_lto_slim := 9%nat |}.

(** The start of the same link under [--as-needed]: the shared objects are
    not alive. *)
Definition start_as_needed (ctx : Context) : state :=
  let st := start ctx in
  {| syms := syms st;
     is_alive := list_to_set (filter (fun f => bool_decide (f ∈ is_alive st)) (objs st));
     objs := objs st;
     dsos := dsos st |}.

(** Symbols 1 [main], 2 [foo], 3 [bar], 4 [buf], 5 [baz], 6 [qux].
    [main.o] calls [foo] and [bar], has a common [buf] and defines [qux]
    weakly; the first archive member defines [foo] and calls [baz], the
    second defines [baz]; the first shared object defines [bar], [buf] and
    [qux], the second defines [bar]. *)
Definition mixed_ctx : Context :=
  {| file_pool :=
       [ object 2 false [(strong 1, 1%nat); (strong ElfSym.SHN_UNDEF, 2%nat);
                         (strong ElfSym.SHN_UNDEF, 3%nat);
                         (strong ElfSym.SHN_COMMON, 4%nat); (weak 1, 6%nat)];
         object 3 true [(strong 1, 2%nat); (strong ElfSym.SHN_UNDEF, 5%nat)];
         object 4 true [(strong 1, 5%nat)];
         shared_object 5 [(strong 1, 3%nat); (strong 1, 4%nat); (strong 1, 6%nat)];
         shared_object 6 [(strong 1, 3%nat)] ];
     arg_undefined := [];
     arg_require_defined := [];
     arg_default_version := 1;
     gnu_lto_slim := 9%nat |}.

(** An object with a weak reference to symbol 2, an archive member that
    defines it, and a shared object that defines it. *)
Definition archive_shared_ctx : Context :=
  {| file_pool :=
       [ object 2 false [(strong 1, 1%nat); (weak ElfSym.SHN_UNDEF, 2%nat)];
         object 3 true [(strong 1, 2%nat)];
         shared_object 4 [(strong 1, 2%nat)] ];
     arg_undefined := [];
     arg_require_defined := [];
     arg_default_version := 1;
     gnu_lto_slim := 9%nat |}.

End Resolver.

(** ** Utilities of [mold.h]: [next_power_of_two], [BitVector], [HyperLogLog] *)

Module Util.
Import Word Run.

(** [next_power_of_two], with its assertion. *)
Definition next_power_of_two (val : Z) : outcome Z :=
  if negb (Z.shiftr val 63 =? 0) then Abort "val >> 63 == 0"
  else Done (ConcurrentMap.next_power_of_two val).

End Util.

Module BitVector.
Import Word Run.

(** The array [vec] is a list of bytes.  [resize(size)]: [(size + 7) / 8] zeroed bytes.  A negative length makes
    [new] fail, which ends the process as the build has no exceptions. *)
Definition resize (size : Z) : outcome (list Z) :=
  let n := Z.quot (size + 7) 8 in
  if n <? 0 then Abort "std::bad_array_new_length"
  else Done (replicate (Z.to_nat n) 0).

(** [bv[i] = val]: the byte [vec[i / 8]] and the bit [i % 8] of it;
    [byte |= (1 << bitpos)] or [byte &= ~(1 << bitpos)].  [None] stands for
    an access outside the array, which is undefined. *)
Definition set (v : list Z) (i : Z) (val : bool) : option (list Z) :=
  if i <? 0 then None
  else
    let idx := Z.to_nat (Z.quot i 8) in
    let bitpos := u8 (Z.rem i 8) in
    byte ← v !! idx;
    Some (<[idx := u8 (if val then Z.lor byte (Z.shiftl 1 bitpos)
                       else Z.land byte (Z.lnot (Z.shiftl 1 bitpos)))]> v).

(** [(bool)bv[i]]: [byte & (1 << bitpos)]. *)
Definition get (v : list Z) (i : Z) : option bool :=
  if i <? 0 then None
  else
    let idx := Z.to_nat (Z.quot i 8) in
    let bitpos := u8 (Z.rem i 8) in
    byte ← v !! idx;
    Some (negb (Z.land byte (Z.shiftl 1 bitpos) =? 0)).

End BitVector.

Module HyperLogLog.
Import Word Run.

Definition NBUCKETS : Z := 2048.

(** [buckets] is a vector of atomic bytes.  The constructor:
    [buckets(NBUCKETS)], all zero. *)
Definition create : list Z := replicate (Z.to_nat NBUCKETS) 0.

(** [__builtin_clz] of an [unsigned int]; its result for 0 is undefined. *)
Definition clz (x : Z) : option Z :=
  if x =? 0 then None else Some (31 - Z.log2 x).

(** [merge_one(idx, newval)], run by one thread on its own: the
    compare-and-swap succeeds, so the loop stores [newval] if the bucket is
    below it. *)
Definition merge_one (b : list Z) (idx newval : Z) : option (list Z) :=
  cur ← b !! Z.to_nat idx;
  Some (if cur <? newval then <[Z.to_nat idx := newval]> b else b).

(** [insert(u32 hash)]: the argument is converted to [u32]. *)
Definition insert (b : list Z) (hash : Z) : option (list Z) :=
  let hash := u32 hash in
  n ← clz hash;
  merge_one b (Z.land hash (NBUCKETS - 1)) (u8 (n + 1)).

(** [insert] for the hashes of a list, in its order. *)
Definition insert_all (b : list Z) (hashes : list Z) : option (list Z) :=
  foldl (fun acc hash => acc ≫= fun b => insert b hash) (Some b) hashes.

(** What [insert] stores for a hash: the number of its leading zero bits
    plus one. *)
Definition rank (hash : Z) : Z := 32 - Z.log2 (u32 hash).

(** The bucket of a hash. *)
Definition bucket (hash : Z) : Z := Z.land (u32 hash) (NBUCKETS - 1).

(** The buckets after [insert_all]: each holds the greatest of its old
    value and the ranks of the hashes that fall into it. *)
Definition merged (b b' : list Z) (hashes : list Z) : Prop :=
  length b' = length b /\
  forall j cur, b !! j = Some cur ->
    exists new, b' !! j = Some new /\ cur <= new /\
      (forall h, h ∈ hashes -> Z.to_nat (bucket h) = j -> rank h <= new) /\
      (new = cur \/ exists h, h ∈ hashes /\ Z.to_nat (bucket h) = j /\ new = rank h).

End HyperLogLog.

(** ** The operators [+=], [++] and [--] of [Int] ([byteorder.h]) *)

Module IntOps.
Import Word Byteorder.

(** [in_range] as a test. *)
Definition in_rangeb (T : int_type) (x : Z) : bool :=
  if is_signed T then (- 2 ^ (bits T - 1) <=? x) && (x <? 2 ^ (bits T - 1))
  else (0 <=? x) && (x <? 2 ^ bits T).

(** The result [r] of [+] or [-] on two values of [T]: the operands are
    promoted, a result outside a signed promoted type is undefined ([None]),
    one outside an unsigned type wraps. *)
Definition arith (T : int_type) (r : Z) : option Z :=
  let P := promote T in
  if is_signed P && negb (in_rangeb P r) then None else Some (conv P r).

(** [operator+=]: [return *this = *this + x;], where [*this] is read by
    [operator T] and the sum is converted to [T] for [operator=]. *)
Definition add_assign (X : ByteOrder) (T : int_type) (SIZE : nat) (val : Int) (x : Z)
    : option Int :=
  r ← arith T (to_T X T SIZE val + x);
  Some (assign X SIZE (conv T r) val).

(** [operator++()]: [return *this = *this + 1;]. *)
Definition pre_inc (X : ByteOrder) (T : int_type) (SIZE : nat) (val : Int) : option Int :=
  r ← arith T (to_T X T SIZE val + 1);
  Some (assign X SIZE (conv T r) val).

(** [operator--()]: [return *this = *this - 1;]. *)
Definition pre_dec (X : ByteOrder) (T : int_type) (SIZE : nat) (val : Int) : option Int :=
  r ← arith T (to_T X T SIZE val - 1);
  Some (assign X SIZE (conv T r) val).

(** The array holds [u8] values. *)
Definition bytes (val : Int) : Prop := Forall (fun b => 0 <= b < 256) val.

(** The number that bytes spell, the first byte being the lowest. *)
Definition value_of (l : list Z) : Z := foldr (fun b acc => b + 256 * acc) 0 l.

End IntOps.

(** ** The pieces of a mergeable section *)

Module Fragments.
Import Word Run Mergeable.

(** The offsets of consecutive pieces, the first of which begins at
    [offset]. *)
Fixpoint offsets_from (offset : Z) (pieces : list (list Z)) : list Z :=
  match pieces with
  | [] => []
  | s :: pieces' => offset :: offsets_from (offset + size s) pieces'
  end.

(** A string with its terminator: bytes other than null, then one null byte. *)
Definition terminated (s : list Z) : Prop :=
  exists body, s = body ++ [0] /\ Forall (fun c => c <> 0) body.

(** [std::upper_bound(offsets.begin(), offsets.end(), value) - offsets.begin()]
    on a sorted range, which is what the algorithm asks for: the position of
    the first element that is above [value].  The elements are [u32] and
    [value] is an [i64]: they are compared as [i64]. *)
Fixpoint upper_bound (offsets : list Z) (value : Z) : nat :=
  match offsets with
  | [] => 0%nat
  | x :: offsets' => if value <? x then 0%nat else S (upper_bound offsets' value)
  end.

(** The lookup that [register_section_pieces] makes for a relocation, with
    [offset = esym.st_value + isec->get_addend(rel)] and the [frag_offsets]
    of the section:
    [auto it = std::upper_bound(offsets.begin(), offsets.end(), offset);
     if (it == offsets.begin()) Fatal(ctx) << ... ": bad relocation at " ...;
     i64 idx = it - 1 - offsets.begin();]
    The result is [idx] and the addend [(i32)(offset - offsets[idx])]. *)
Definition fragment_at (offsets : list Z) (offset : Z) : outcome (nat * Z) :=
  match upper_bound offsets offset with
  | O => Fatal "bad relocation"
  | S idx => Done (idx, i32 (offset - default 0 (offsets !! idx)))
  end.

End Fragments.

(** ** What the collector marks *)

Module GcMarks.
Import Run Elf Gc.

Section Marks.

Variable ctx : Context.

(** Between the root set and the end of [mark]: a section is marked
    [is_visited] only if [visit] runs on it.  [st1] is the state when the
    root set is complete. *)
Definition only_traversed (rootset : list nat) (st1 st : state) : Prop :=
  grows st1 st /\
  forall x, x ∈ is_visited st -> x ∈ is_visited st1 \/ traversed ctx rootset st1 x.

(** The sections that [collect_root_set] marks are roots or are not
    allocated. *)
Definition roots_or_nonalloc (st0 : state) (acc : list nat * state) : Prop :=
  forall x, x ∈ is_visited acc.2 ->
    x ∈ is_visited st0 \/ x ∈ acc.1 \/
    exists isec, sections ctx !! x = Some isec /\ has_flag (sh_flags isec) SHF_ALLOC = false.

End Marks.

End GcMarks.

(** ** What [resolve_dso_symbols] leaves behind *)

Module DsoSymbols.
Import Word Run Resolver.

Section Dso.

Variable ctx : Context.

(** The priority of the file behind a file pointer. *)
Definition priority_of (h : nat) : Z := default 0 (priority <$> file_pool ctx !! h).

(** The symbol [s] went from [st] to [st'] by the assignments of
    [resolve_dso_symbols] of the file [this]: nobody held it, or its holder
    had a higher priority number than [self]. *)
Definition taken (this : nat) (self : InputFile) (st st' : state) (s : nat) : Prop :=
  file (syms st' s) = Some this /\
  input_section (syms st' s) = None /\
  is_weak (syms st' s) = true /\
  is_imported (syms st' s) = true /\
  is_exported (syms st' s) = false /\
  is_lazy (syms st' s) = is_lazy (syms st s) /\
  (file (syms st s) = None \/
   exists h, file (syms st s) = Some h /\ priority self < priority_of h).

(** The symbol [s] was left as it was: its holder has a priority number that
    is not above that of [self]. *)
Definition kept (self : InputFile) (st st' : state) (s : nat) : Prop :=
  syms st' s = syms st s /\
  exists h, file (syms st s) = Some h /\ priority_of h <= priority self.

End Dso.

End DsoSymbols.

(** ** Comdat groups ([elf/object-file.cc], [elf/passes.cc]) *)

Module Comdat.
Import Word Run.

(** An object file, as far as the two passes read it: its priority and its
    [comdat_groups], pairs of a group (by number) and the indices of the
    group's sections in the file. *)
Record ObjectFile := {
  priority : Z;
  comdat_groups : list (nat * list nat);
}.

(** Modelled from the spec: the header that declares [ComdatGroup] and
    [InputSection::kill] is not among the sources.  A group holds an atomic
    [owner], "the priority of the winning object", which the passes read as
    a [u32], with [-1] for a group that nobody owns; [kill] marks a section
    dead.  The state is the [owner] of every group and the sections that are
    alive, each named by the position of its file in [ctx.objs] and its
    index in the file; a null entry of [sections] is not among them. *)
Record state := {
  owner : nat -> Z;
  is_alive : gset (nat * nat);
}.

(** [(u32)-1]. *)
Definition NO_OWNER : Z := u32 (-1).

(** The body of the loop of [resolve_comdat_groups], run by one thread on
    its own:
    [u32 cur = group->owner;
     while (cur == -1 || cur > this->priority)
       if (group->owner.compare_exchange_weak(cur, this->priority)) break;] *)
Definition resolve_group (priority : Z) (own : nat -> Z) (pair : nat * list nat)
    : nat -> Z :=
  let cur := own pair.1 in
  if (cur =? NO_OWNER) || (priority <? cur) then <[pair.1 := u32 priority]> own else own.

Definition resolve_comdat_groups (file : ObjectFile) (st : state) : state :=
  {| owner := foldl (resolve_group (priority file)) (owner st) (comdat_groups file);
     is_alive := is_alive st |}.

(** [for (u32 i : entries) if (sections[i]) sections[i]->kill();] *)
Definition kill_entries (this : nat) (alive : gset (nat * nat)) (entries : list nat)
    : gset (nat * nat) :=
  foldl (fun alive i => alive ∖ {[(this, i)]}) alive entries.

(** The body of the loop of [eliminate_duplicate_comdat_groups]. *)
Definition eliminate_group (this : nat) (priority : Z) (own : nat -> Z)
    (alive : gset (nat * nat)) (pair : nat * list nat) : gset (nat * nat) :=
  if own pair.1 =? priority then alive else kill_entries this alive pair.2.

Definition eliminate_duplicate_comdat_groups (this : nat) (file : ObjectFile) (st : state)
    : state :=
  {| owner := owner st;
     is_alive := foldl (eliminate_group this (priority file) (owner st)) (is_alive st)
                       (comdat_groups file) |}.

(** [eliminate_comdats]: the two loops over [ctx.objs], each with the calls
    made one after the other. *)
Definition eliminate_comdats (objs : list ObjectFile) (st : state) : state :=
  let st := foldl (fun st file => resolve_comdat_groups file st) st objs in
  foldl (fun st entry => eliminate_duplicate_comdat_groups entry.1 entry.2 st) st
        (zip (seq 0 (length objs)) objs).

(** The file has the group [g]. *)
Definition has_group (file : ObjectFile) (g : nat) : Prop :=
  exists entries, (g, entries) ∈ comdat_groups file.

(** The section [s] of the file is in its group [g]. *)
Definition in_group (file : ObjectFile) (g s : nat) : Prop :=
  exists entries, (g, entries) ∈ comdat_groups file /\ s ∈ entries.

(** Two objects that define the symbol are a sample: both have the group 0,
    with their sections 1 and 2. *)
Definition sample_objs : list ObjectFile :=
  [ {| priority := 2; comdat_groups := [(0%nat, [1; 2]%nat)] |};
    {| priority := 1; comdat_groups := [(0%nat, [1; 2]%nat)] |} ].

Definition sample_state : state :=
  {| owner := fun _ => NO_OWNER;
     is_alive := {[ (0, 1); (0, 2); (0, 3); (1, 1); (1, 2) ]}%nat |}.

End Comdat.

(** ** Binning and sizing the output sections ([elf/passes.cc]) *)

Module Bins.
Import Word Run.

Definition len {A : Type} (l : list A) : Z := Z.of_nat (length l).

(** The loop of [split]:
    [while (span.size() >= unit) { vec.push_back(span.subspan(0, unit));
       span = span.subspan(unit); }
     if (!span.empty()) vec.push_back(span);]
    [unit] is an [i64]; the comparison with [span.size()] and [subspan] take
    it as unsigned.  [fuel] bounds the number of rounds. *)
Fixpoint split_loop {A : Type} (fuel : nat) (span : list A) (unit : Z) (vec : list (list A))
    : outcome (list (list A)) :=
  match fuel with
  | O => Diverged
  | S fuel' =>
      if u64 unit <=? len span then
        split_loop fuel' (drop (Z.to_nat (u64 unit)) span) unit
                   (vec ++ [take (Z.to_nat (u64 unit)) span])
      else Done (if decide (length span = 0%nat) then vec else vec ++ [span])
  end.

(** [split(input, unit)]. *)
Definition split {A : Type} (input : list A) (unit : Z) : outcome (list (list A)) :=
  if negb (0 <? len input) then Abort "input.size() > 0"
  else split_loop (S (length input)) input unit [].

(** What [bin_sections] reads of an [InputSection]: [is_alive] and
    [output_section->idx]; [name] tells the sections apart. *)
Record InputSection := {
  name : nat;
  is_alive : bool;
  idx : Z;
}.

(** An object file: its [sections], where a null entry is [None]. *)
Definition ObjectFile := list (option InputSection).

Definition num_shards : Z := 128.

(** [groups[i][isec->output_section->idx].push_back(isec.get())]; an index
    outside of the vector is outside of what the language defines and ends
    the run. *)
Definition bin_section (group : list (list InputSection)) (entry : option InputSection)
    : outcome (list (list InputSection)) :=
  match entry with
  | Some isec =>
      if is_alive isec then
        if idx isec <? 0 then Abort "index outside of the vector"
        else
          match group !! Z.to_nat (idx isec) with
          | Some bin => Done (<[Z.to_nat (idx isec) := bin ++ [isec]]> group)
          | None => Abort "index outside of the vector"
          end
      else Done group
  | None => Done group
  end.

(** A loop whose body can end the run. *)
Definition for_each {S X : Type} (body : S -> X -> outcome S) (l : list X) (st : S)
    : outcome S :=
  foldl (fun acc x => st ← acc; body st x) (Done st) l.

(** The body of the first [parallel_for]: the sections of the files of one
    slice go to [groups[i]], which has [num_osec] empty bins. *)
Definition bin_slice (num_osec : nat) (slice : list ObjectFile)
    : outcome (list (list InputSection)) :=
  for_each (fun group file => for_each bin_section file group) slice (replicate num_osec []).

(** The groups of all slices, one after the other. *)
Fixpoint bin_slices (num_osec : nat) (slices : list (list ObjectFile))
    : outcome (list (list (list InputSection))) :=
  match slices with
  | [] => Done []
  | slice :: slices' =>
      group ← bin_slice num_osec slice;
      groups ← bin_slices num_osec slices';
      Done (group :: groups)
  end.

(** [bin_sections]: [members] are the [members] of the output sections, by
    index; the second [parallel_for] appends [groups[i][j]] for every [i]. *)
Definition bin_sections (objs : list ObjectFile) (members : list (list InputSection))
    : outcome (list (list InputSection)) :=
  let unit := i64 (Z.quot (u64 (len objs + num_shards - 1)) num_shards) in
  slices ← split objs unit;
  groups ← bin_slices (length members) slices;
  Done (imap (fun j ms => ms ++ concat ((fun group => default [] (group !! j)) <$> groups))
             members).

(** The live sections among [entries] that belong to the output section
    [j], in their order. *)
Definition select (j : nat) (entries : list (option InputSection)) : list InputSection :=
  filter (fun isec => is_alive isec = true /\ Z.to_nat (idx isec) = j) (omap id entries).

(** The same for the sections of files, in the order of the files. *)
Definition live_in (j : nat) (files : list ObjectFile) : list InputSection :=
  select j (concat files).

(** Every live section among [entries] has an output section below [n]. *)
Definition in_range (n : nat) (entries : list (option InputSection)) : Prop :=
  forall isec, Some isec ∈ entries -> is_alive isec = true -> 0 <= idx isec < Z.of_nat n.

(** Two files with three live sections and a dead one. *)
Definition sample_files : list ObjectFile :=
  [ [ Some {| name := 0; is_alive := true; idx := 1 |}; None;
      Some {| name := 1; is_alive := false; idx := 0 |} ];
    [ Some {| name := 2; is_alive := true; idx := 0 |};
      Some {| name := 3; is_alive := true; idx := 1 |} ] ].

End Bins.

Module SectionSizes.
Import Word Run Layout.

(** What [compute_section_sizes] reads and writes of an [InputSection]:
    [shdr.sh_size], [shdr.sh_addralign] and [offset]. *)
Record InputSection := {
  sh_size : Z;
  sh_addralign : Z;
  offset : Z;
}.

(** [struct T { i64 offset; i64 align; }]. *)
Record T := { t_offset : Z; t_align : Z }.

(** The loop over the members:
    [sum.offset = align_to(sum.offset, isec->shdr.sh_addralign);
     isec->offset = sum.offset;
     sum.offset += isec->shdr.sh_size;
     sum.align = std::max<i64>(sum.align, isec->shdr.sh_addralign);] *)
Fixpoint assign_offsets (members : list InputSection) (sum : T)
    : outcome (list InputSection * T) :=
  match members with
  | [] => Done ([], sum)
  | isec :: members' =>
      aligned ← align_to (u64 (t_offset sum)) (sh_addralign isec);
      let off := i64 aligned in
      let isec' := {| sh_size := sh_size isec; sh_addralign := sh_addralign isec;
                      offset := off |} in
      let sum' := {| t_offset := i64 (off + sh_size isec);
                     t_align := Z.max (t_align sum) (i64 (sh_addralign isec)) |} in
      r ← assign_offsets members' sum';
      Done (isec' :: r.1, r.2)
  end.

(** An output section: its [members] and the fields [sh_size] and
    [sh_addralign] of its header. *)
Record OutputSection := {
  members : list InputSection;
  osec_size : Z;
  osec_addralign : Z;
}.

(** The body of the loop of [compute_section_sizes] for one output
    section. *)
Definition compute_section_size (osec : OutputSection) : outcome OutputSection :=
  if decide (length (members osec) = 0%nat) then Done osec
  else
    r ← assign_offsets (members osec) {| t_offset := 0; t_align := 1 |};
    Done {| members := r.1; osec_size := t_offset r.2; osec_addralign := t_align r.2 |}.

(** The members lie one after the other from [start] to [end_]: each at the
    first multiple of its alignment that is not below the end of the one
    before. *)
Fixpoint packed (start : Z) (members : list InputSection) (end_ : Z) : Prop :=
  match members with
  | [] => end_ = start
  | isec :: members' =>
      start <= offset isec < start + sh_addralign isec /\
      offset isec mod sh_addralign isec = 0 /\
      packed (offset isec + sh_size isec) members' end_
  end.

(** The greatest alignment of the members, and 1 if there is none. *)
Definition max_align (members : list InputSection) : Z :=
  foldr (fun isec acc => Z.max (sh_addralign isec) acc) 1 members.

(** A bound on the room that the members take. *)
Definition extent (members : list InputSection) : Z :=
  foldr (fun isec acc => sh_size isec + sh_addralign isec + acc) 0 members.

(** The sizes are not negative and the alignments are powers of two below
    [2^32]. *)
Definition sized (isec : InputSection) : Prop :=
  0 <= sh_size isec /\ exists k, 0 <= k < 32 /\ sh_addralign isec = 2 ^ k.

(** The section [isec'] is [isec] with an offset. *)
Definition placed_as (isec isec' : InputSection) : Prop :=
  sh_size isec' = sh_size isec /\ sh_addralign isec' = sh_addralign isec.

(** Three members of sizes 5, 8 and 1 with alignments 4, 8 and 1. *)
Definition sample_osec : OutputSection :=
  {| members := [ {| sh_size := 5; sh_addralign := 4; offset := -1 |};
                  {| sh_size := 8; sh_addralign := 8; offset := -1 |};
                  {| sh_size := 1; sh_addralign := 1; offset := -1 |} ];
     osec_size := 0; osec_addralign := 1 |}.

End SectionSizes.

(** ** The order of the chunks in the file and in memory *)

Module LayoutOrder.
Import Word Run Elf Chunks Layout.

(** The bytes that a chunk takes in the file: none for a [SHT_NOBITS] chunk
    with [SHF_ALLOC]. *)
Definition file_bytes (c : Chunk) : Z :=
  if is_alloc c && is_nobits c then 0 else sh_size (shdr c).

(** The bytes that a chunk takes in memory: none for a [SHT_NOBITS] chunk
    with [SHF_TLS]. *)
Definition mem_bytes (c : Chunk) : Z :=
  if is_nobits c && has_flag (sh_flags (shdr c)) SHF_TLS then 0 else sh_size (shdr c).

(** The chunks lie in the file one after the other, from [from] on and
    before [to]: none begins before the end of the one before it. *)
Fixpoint file_order (from : Z) (cs : list Chunk) (to : Z) : Prop :=
  match cs with
  | [] => from <= to
  | c :: cs' =>
      from <= sh_offset (shdr c) /\ file_order (sh_offset (shdr c) + file_bytes c) cs' to
  end.

(** The same for the addresses. *)
Fixpoint addr_order (from : Z) (cs : list Chunk) (to : Z) : Prop :=
  match cs with
  | [] => from <= to
  | c :: cs' =>
      from <= sh_addr (shdr c) /\ addr_order (sh_addr (shdr c) + mem_bytes c) cs' to
  end.

(** The size of a chunk is not negative and its alignment is a power of two
    below [2^32]. *)
Definition sized (c : Chunk) : Prop :=
  0 <= sh_size (shdr c) /\ exists k, 0 <= k < 32 /\ sh_addralign (shdr c) = 2 ^ k.

Section Room.

Variable COMMON_PAGE_SIZE : Z.

(** The room that a loop over the chunks of a group can take: for every
    chunk its size, its alignment and two pages. *)
Definition room_in_group (cs : list Chunk) : Z :=
  foldr (fun c acc => sh_size (shdr c) + sh_addralign (shdr c) + 2 * COMMON_PAGE_SIZE + acc)
        0 cs.

(** The same with a third page for every chunk, for the start of a group. *)
Definition room (cs : list Chunk) : Z :=
  foldr (fun c acc => sh_size (shdr c) + sh_addralign (shdr c) + 3 * COMMON_PAGE_SIZE + acc)
        0 cs.

(** What a loop over the chunks of a group gives: the chunks that it has
    placed are in order, and it has not used more room than they have. *)
Definition group_placed (cs : list Chunk) (vaddr fileoff : Z) (p : progress) : Prop :=
  (exists src, cs = src ++ left_over p /\ Forall2 laid_out src (placed p)) /\
  file_order fileoff (placed p) (Layout.fileoff p) /\
  addr_order vaddr (placed p) (Layout.vaddr p) /\
  0 <= Layout.vaddr p /\ 0 <= Layout.fileoff p /\
  Layout.vaddr p + room_in_group (left_over p) <= vaddr + room_in_group cs /\
  Layout.fileoff p + room_in_group (left_over p) <= fileoff + room_in_group cs.

End Room.

End LayoutOrder.

(** ** [ParallelTools::parallel_for], the version of the build ([CILK == 1]) *)

Module ParallelFor.
Import Word Run.

Section Loops.

Context {S : Type}.

(** The function that is called with an index. *)
Variable f : Z -> S -> outcome S.

(** [for (size_t i = start; i < end; i++) f(i);], also for [cilk_for] with
    the iterations made one after the other.  [fuel] bounds the number of
    rounds of a loop. *)
Fixpoint count_loop (fuel : nat) (i end_ : Z) (st : S) : outcome S :=
  match fuel with
  | O => Diverged
  | Datatypes.S fuel' =>
      if i <? end_ then st ← f i st; count_loop fuel' (u64 (i + 1)) end_ st
      else Done st
  end.

(** The loop over one chunk, as it is written:
    [for (size_t j = i; i < local_end; j++) { f(i); }] *)
Fixpoint chunk_body (fuel : nat) (i local_end j : Z) (st : S) : outcome S :=
  match fuel with
  | O => Diverged
  | Datatypes.S fuel' =>
      if i <? local_end then st ← f i st; chunk_body fuel' i local_end (u64 (j + 1)) st
      else Done st
  end.

(** [cilk_for (size_t i = start; i < end; i += chunksize) { size_t local_end
    = i + chunksize; if (local_end > end) local_end = end; ... }] *)
Fixpoint chunk_loop (fuel : nat) (i end_ chunksize : Z) (st : S) : outcome S :=
  match fuel with
  | O => Diverged
  | Datatypes.S fuel' =>
      if i <? end_ then
        let local_end := u64 (i + chunksize) in
        let local_end := if end_ <? local_end then end_ else local_end in
        st ← chunk_body fuel' i local_end i st;
        chunk_loop fuel' (u64 (i + chunksize)) end_ chunksize st
      else Done st
  end.

(** [parallel_for(start, end, f, chunksize)]. *)
Definition parallel_for (fuel : nat) (start end_ chunksize : Z) (st : S) : outcome S :=
  if chunksize =? 0 then count_loop fuel start end_ st
  else if u64 (end_ - start) <=? chunksize then count_loop fuel start end_ st
  else chunk_loop fuel start end_ chunksize st.

(** The calls [f(start)], ..., [f(end - 1)], in this order. *)
Definition calls (start end_ : Z) (st : S) : outcome S :=
  foldl (fun acc i => st ← acc; f i st) (Done st) (seqZ start (end_ - start)).

End Loops.

End ParallelFor.

(** * Properties *)


(** ** Facts on fixed-width integers *)

Section WordFacts.
Import Word.

Lemma wrap_range w z : 0 <= w -> 0 <= wrap w z < 2 ^ w.
Proof. intros Hw. unfold wrap. apply Z.mod_pos_bound. by apply Z.pow_pos_nonneg. Qed.

Lemma wrap_small w z : 0 <= z < 2 ^ w -> wrap w z = z.
Proof. intros H. unfold wrap. by apply Z.mod_small. Qed.

Lemma wrap_wrap w z : 0 <= w -> wrap w (wrap w z) = wrap w z.
Proof. intros Hw. unfold wrap. apply Z.mod_mod. apply Z.pow_nonzero; lia. Qed.

Lemma swrap_range w z : 0 < w -> - 2 ^ (w - 1) <= swrap w z < 2 ^ (w - 1).
Proof.
  intros Hw. unfold swrap.
  assert (H2 : 2 ^ w = 2 * 2 ^ (w - 1)).
  { replace w with (Z.succ (w - 1)) at 1 by lia. rewrite Z.pow_succ_r; lia. }
  pose proof (Z.mod_pos_bound (z + 2 ^ (w - 1)) (2 ^ w)) as Hb.
  assert (0 < 2 ^ (w - 1)) by (apply Z.pow_pos_nonneg; lia).
  lia.
Qed.

Lemma swrap_small w z : 0 < w -> - 2 ^ (w - 1) <= z < 2 ^ (w - 1) -> swrap w z = z.
Proof.
  intros Hw Hz. unfold swrap.
  assert (H2 : 2 ^ w = 2 * 2 ^ (w - 1)).
  { replace w with (Z.succ (w - 1)) at 1 by lia. rewrite Z.pow_succ_r; lia. }
  rewrite Z.mod_small; lia.
Qed.

(** Signed and unsigned wraps agree modulo [2 ^ w]. *)
Lemma wrap_swrap w z : 0 < w -> wrap w (swrap w z) = wrap w z.
Proof.
  intros Hw. unfold wrap, swrap.
  assert (Hnz : 2 ^ w <> 0) by (apply Z.pow_nonzero; lia).
  assert (H2 : 2 ^ w = 2 * 2 ^ (w - 1)).
  { replace w with (Z.succ (w - 1)) at 1 by lia. rewrite Z.pow_succ_r; lia. }
  rewrite Zminus_mod, Z.mod_mod by done.
  rewrite <- Zminus_mod. f_equal. lia.
Qed.

End WordFacts.


(** ** Agreement modulo [2 ^ w], bit by bit *)

Section EqmFacts.
Import Word.

Lemma eqm_bits w a b :
  0 <= w -> eqm w a b <-> (forall n, 0 <= n < w -> Z.testbit a n = Z.testbit b n).
Proof.
  intros Hw. unfold eqm, wrap. split.
  - intros Heq n Hn.
    rewrite <- (Z.mod_pow2_bits_low a w n), <- (Z.mod_pow2_bits_low b w n) by lia.
    by rewrite Heq.
  - intros Hbits. apply Z.bits_inj'. intros n Hn.
    rewrite !Z.testbit_mod_pow2 by done.
    destruct (Z.ltb_spec n w); [| done]. simpl. apply Hbits. lia.
Qed.

Lemma eqm_refl w a : eqm w a a.
Proof. done. Qed.

Lemma eqm_sym w a b : eqm w a b -> eqm w b a.
Proof. unfold eqm. congruence. Qed.

Lemma eqm_trans w a b c : eqm w a b -> eqm w b c -> eqm w a c.
Proof. unfold eqm. congruence. Qed.

Lemma eqm_le w w' a b : 0 <= w <= w' -> eqm w' a b -> eqm w a b.
Proof.
  intros Hw H. apply eqm_bits; [lia |]. intros n Hn.
  apply (proj1 (eqm_bits w' a b ltac:(lia)) H). lia.
Qed.

Lemma eqm_wrap w w' z : 0 <= w <= w' -> eqm w (wrap w' z) z.
Proof.
  intros Hw. apply (eqm_le w w'); [done |]. unfold eqm. apply wrap_wrap. lia.
Qed.

Lemma eqm_swrap w w' z : 0 <= w <= w' -> 0 < w' -> eqm w (swrap w' z) z.
Proof.
  intros Hw Hw'. apply (eqm_le w w'); [done |]. unfold eqm. by apply wrap_swrap.
Qed.

Lemma eqm_lor w a a' b b' :
  0 <= w -> eqm w a a' -> eqm w b b' -> eqm w (Z.lor a b) (Z.lor a' b').
Proof.
  intros Hw Ha Hb. apply eqm_bits; [done |]. intros n Hn.
  rewrite !Z.lor_spec.
  by rewrite (proj1 (eqm_bits w a a' Hw) Ha n Hn), (proj1 (eqm_bits w b b' Hw) Hb n Hn).
Qed.

Lemma eqm_shiftl w a a' k :
  0 <= w -> 0 <= k -> eqm w a a' -> eqm w (Z.shiftl a k) (Z.shiftl a' k).
Proof.
  intros Hw Hk Ha. apply eqm_bits; [done |]. intros n Hn.
  rewrite !Z.shiftl_spec by lia.
  destruct (Z.ltb_spec n k).
  - by rewrite !Z.testbit_neg_r by lia.
  - apply (proj1 (eqm_bits w a a' Hw) Ha). lia.
Qed.

Lemma eqm_add_r w a b c : 0 <= w -> eqm w a b -> eqm w (a + c) (b + c).
Proof.
  intros Hw. unfold eqm, wrap. intros H.
  by rewrite (Zplus_mod a), (Zplus_mod b), H.
Qed.

Lemma wrap_eqm w a b : eqm w a b -> wrap w a = wrap w b.
Proof. done. Qed.

Lemma swrap_eqm w a b : 0 <= w -> eqm w a b -> swrap w a = swrap w b.
Proof.
  intros Hw H. unfold swrap. f_equal.
  by apply (eqm_add_r w a b (2 ^ (w - 1))) in H.
Qed.

End EqmFacts.

(** ** Sequencing of outcomes *)

Section RunFacts.
Import Run.

Lemma bind_done {A B : Type} (m : outcome A) (f : A -> outcome B) (b : B) :
  m ≫= f = Done b -> exists a, m = Done a /\ f a = Done b.
Proof. destruct m as [a | | |]; try done. intros H. by exists a. Qed.

Lemma bind_Done {A B : Type} (a : A) (f : A -> outcome B) : Done a ≫= f = f a.
Proof. done. Qed.

End RunFacts.

(** ** The population count of a power of two *)

Section PopcountFacts.
Import Word Layout.

Lemma popcount_pow2_low k : 0 <= k < 32 -> popcount (2 ^ k) = 1.
Proof.
  intros Hk. rewrite <- (Z2Nat.id k) by lia.
  assert (Hn : (Z.to_nat k < 32)%nat) by lia. revert Hn.
  generalize (Z.to_nat k) as n. intros n Hn.
  do 32 (destruct n as [| n]; [by vm_compute |]). lia.
Qed.

Lemma popcount_pow2_high k : 32 <= k -> popcount (2 ^ k) = 0.
Proof.
  intros Hk. unfold popcount.
  replace (u32 (2 ^ k)) with 0; [by vm_compute |].
  unfold u32, wrap. replace k with (32 + (k - 32)) by lia.
  rewrite Z.pow_add_r by lia. by rewrite Z.mul_comm, Z.mod_mul by lia.
Qed.

End PopcountFacts.

(** ** ULEB128 *)

Section UlebFacts.
Import Word Uleb.

Lemma land_127_range val : 0 <= Z.land val 127 < 128.
Proof.
  change 127 with (Z.ones 7). rewrite Z.land_ones by lia.
  apply Z.mod_pos_bound. lia.
Qed.

Lemma low7_u8 val : u8 (Z.land val 127) = Z.land val 127.
Proof. apply wrap_small. pose proof (land_127_range val). lia. Qed.

Lemma testbit_127 n : 0 <= n -> Z.testbit 127 n = (n <? 7).
Proof.
  intros Hn. change 127 with (Z.ones 7). rewrite Z.testbit_ones by lia.
  destruct (Z.leb_spec 0 n); [done | lia].
Qed.

Lemma testbit_128 n : 0 <= n -> Z.testbit 128 n = (n =? 7).
Proof.
  intros Hn. change 128 with (2 ^ 7). rewrite Z.pow2_bits_eqb by lia.
  by rewrite Z.eqb_sym.
Qed.

Lemma last_byte_flag b : 0 <= b < 128 -> Z.land b 128 = 0.
Proof.
  intros Hb. apply Z.bits_inj'. intros n Hn.
  rewrite Z.land_spec, Z.bits_0, testbit_128 by done.
  destruct (Z.eqb_spec n 7) as [-> | Hne]; [| by rewrite andb_false_r].
  rewrite andb_true_r. destruct (decide (b = 0)) as [-> | Hnz]; [done |].
  apply Z.bits_above_log2; [lia |]. apply Z.log2_lt_pow2; lia.
Qed.

(** A continuation byte [low | 0x80]: its payload and its flag. *)
Lemma cont_byte_range b : 0 <= b < 128 -> 128 <= Z.lor b 128 < 256.
Proof.
  intros Hb. rewrite <- Z.add_nocarry_lor by (by apply last_byte_flag). lia.
Qed.

Lemma cont_byte_payload b : Z.land (Z.lor b 128) 127 = Z.land b 127.
Proof.
  apply Z.bits_inj'. intros n Hn.
  rewrite !Z.land_spec, Z.lor_spec, testbit_127, testbit_128 by done.
  destruct (Z.ltb_spec n 7), (Z.eqb_spec n 7); try lia;
    by rewrite ?orb_false_r, ?andb_false_r.
Qed.

Lemma cont_byte_flag b : 0 <= b -> Z.land (Z.lor b 128) 128 <> 0.
Proof.
  intros Hb Heq. apply (f_equal (fun z => Z.testbit z 7)) in Heq.
  rewrite Z.land_spec, Z.lor_spec, Z.bits_0 in Heq.
  change (Z.testbit 128 7) with true in Heq.
  by rewrite orb_true_r in Heq.
Qed.

Lemma shiftr7_zero val : 0 <= val -> Z.shiftr val 7 = 0 -> Z.land val 127 = val.
Proof.
  intros Hv H0. rewrite Z.shiftr_div_pow2 in H0 by lia.
  change 127 with (Z.ones 7). rewrite Z.land_ones by lia.
  apply Z.mod_small. change (2 ^ 7) with 128 in *.
  pose proof (Z.div_mod val 128). pose proof (Z.mod_pos_bound val 128). lia.
Qed.

(** Splitting a value into its low seven bits and the rest. *)
Lemma split7 val shift :
  0 <= shift ->
  Z.lor (Z.shiftl (Z.land val 127) shift) (Z.shiftl (Z.shiftr val 7) (shift + 7))
  = Z.shiftl val shift.
Proof.
  intros Hs. apply Z.bits_inj'. intros n Hn.
  rewrite Z.lor_spec, !Z.shiftl_spec, Z.land_spec by done.
  destruct (Z.ltb_spec n shift) as [Hlt | Hge].
  { rewrite !(Z.testbit_neg_r _ (n - shift)), (Z.testbit_neg_r _ (n - (shift + 7))) by lia.
    done. }
  rewrite testbit_127 by lia.
  destruct (Z.ltb_spec (n - shift) 7) as [Hlow | Hhigh].
  - rewrite (Z.testbit_neg_r _ (n - (shift + 7))) by lia.
    by rewrite andb_true_r, orb_false_r.
  - rewrite Z.shiftr_spec by lia. rewrite andb_false_r, orb_false_l.
    f_equal. lia.
Qed.

Lemma shiftl_bound val shift k :
  0 <= val -> 0 <= shift -> val * 2 ^ shift < 2 ^ k ->
  0 <= Z.shiftl val shift < 2 ^ k.
Proof.
  intros Hv Hs Hb. rewrite Z.shiftl_mul_pow2 by done.
  assert (0 < 2 ^ shift) by (apply Z.pow_pos_nonneg; lia). nia.
Qed.

Lemma shiftr7_bound val shift k :
  0 <= val -> 0 <= shift -> val * 2 ^ shift < 2 ^ k ->
  Z.shiftr val 7 * 2 ^ (shift + 7) < 2 ^ k.
Proof.
  intros Hv Hs Hb. rewrite Z.shiftr_div_pow2 by lia.
  rewrite Z.pow_add_r by lia. change (2 ^ 7) with 128.
  assert (0 < 2 ^ shift) by (apply Z.pow_pos_nonneg; lia).
  pose proof (Z.div_mod val 128). pose proof (Z.mod_pos_bound val 128). nia.
Qed.

Lemma low7_shift_bound val shift k :
  0 <= val -> 0 <= shift -> val * 2 ^ shift < 2 ^ k ->
  0 <= Z.shiftl (Z.land val 127) shift < 2 ^ k.
Proof.
  intros Hv Hs Hb. apply shiftl_bound; [| done |].
  - pose proof (land_127_range val). lia.
  - change 127 with (Z.ones 7). rewrite Z.land_ones by lia.
    assert (0 < 2 ^ shift) by (apply Z.pow_pos_nonneg; lia).
    pose proof (Z.div_mod val (2 ^ 7)). pose proof (Z.mod_pos_bound val (2 ^ 7)).
    assert (0 <= val / 2 ^ 7) by (apply Z.div_pos; lia). nia.
Qed.

(** Ten rounds are enough for every 64-bit value. *)
Lemma encode_loop_total fuel val :
  0 <= val < 2 ^ (7 * Z.of_nat fuel) -> (0 < fuel)%nat ->
  is_Some (encode_loop fuel val).
Proof.
  revert val. induction fuel as [| fuel IH]; intros val Hv Hf; [lia |].
  simpl. destruct (Z.eqb_spec (Z.shiftr val 7) 0) as [H0 | Hnz]; [done |].
  destruct (IH (Z.shiftr val 7)) as [rest ->]; [| | done].
  - rewrite Z.shiftr_div_pow2 by lia. split; [apply Z.div_pos; lia |].
    apply Z.div_lt_upper_bound; [lia |]. rewrite <- Z.pow_add_r by lia.
    replace (7 + 7 * Z.of_nat fuel) with (7 * Z.of_nat (S fuel)) by lia. lia.
  - destruct fuel; [| lia]. exfalso. apply Hnz.
    apply Z.shiftr_eq_0; [lia |]. destruct (decide (val = 0)) as [-> | ?]; [done |].
    apply Z.log2_lt_pow2; [lia |]. change (7 * Z.of_nat 1) with 7 in Hv. lia.
Qed.

Lemma encode_uleb_total x : 0 <= x < 2 ^ 64 -> is_Some (encode_uleb [] x).
Proof.
  intros Hx. unfold encode_uleb. rewrite (wrap_small 64) by done.
  destruct (encode_loop_total 10 x) as [bs ->]; [| lia | done].
  change (7 * Z.of_nat 10) with 70.
  assert (2 ^ 64 < 2 ^ 70) by (apply Z.pow_lt_mono_r; lia). lia.
Qed.

(** The encoder against the 64-bit decoder of the specification. *)
Lemma read_loop_spec_encode fuel : forall val bs rest acc shift,
  0 <= val -> 0 <= shift -> val * 2 ^ shift < 2 ^ 64 ->
  encode_loop fuel val = Some bs ->
  read_loop_spec (bs ++ rest) acc shift = ReadOk (Z.lor acc (Z.shiftl val shift)) rest.
Proof.
  induction fuel as [| fuel IH]; intros val bs rest acc shift Hv Hs Hb Henc; [done |].
  simpl in Henc. rewrite low7_u8 in Henc.
  pose proof (land_127_range val) as Hlow.
  destruct (Z.eqb_spec (Z.shiftr val 7) 0) as [H0 | Hnz].
  - injection Henc as <-. simpl.
    rewrite last_byte_flag by done. simpl.
    rewrite <- Z.land_assoc. change (Z.land 127 127) with 127.
    rewrite shiftr7_zero by done.
    by rewrite (wrap_small 64) by (by apply shiftl_bound).
  - destruct (encode_loop fuel (Z.shiftr val 7)) as [tl |] eqn:Htl; [| done].
    injection Henc as <-. simpl.
    rewrite (wrap_small 8) by (pose proof (cont_byte_range _ Hlow); lia).
    destruct (Z.eqb_spec (Z.land (Z.lor (Z.land val 127) 128) 128) 0) as [Hbad | _].
    { by apply cont_byte_flag in Hbad; [| lia]. }
    rewrite cont_byte_payload, <- Z.land_assoc. change (Z.land 127 127) with 127.
    rewrite (wrap_small 64) by (by apply low7_shift_bound).
    assert (Hr0 : 0 <= Z.shiftr val 7) by (apply Z.shiftr_nonneg; lia).
    assert (Hs0 : 0 <= shift + 7) by lia.
    pose proof (shiftr7_bound val shift 64 Hv Hs Hb) as Hrb.
    rewrite (IH _ _ rest _ _ Hr0 Hs0 Hrb Htl).
    rewrite <- Z.lor_assoc, split7 by lia. done.
Qed.

(** The encoder against [read_uleb] as it is written, below [2^31]. *)
Lemma read_loop_encode fuel : forall val bs rest acc shift,
  0 <= val -> 0 <= shift < 32 -> val * 2 ^ shift < 2 ^ 31 ->
  encode_loop fuel val = Some bs ->
  read_loop (bs ++ rest) acc shift = ReadOk (Z.lor acc (Z.shiftl val shift)) rest.
Proof.
  induction fuel as [| fuel IH]; intros val bs rest acc shift Hv Hs Hb Henc; [done |].
  simpl in Henc. rewrite low7_u8 in Henc.
  pose proof (land_127_range val) as Hlow.
  assert (H3164 : 2 ^ 31 < 2 ^ 64) by done.
  assert (Hpiece : forall v, 0 <= v -> v * 2 ^ shift < 2 ^ 31 ->
            u64 (i32 (Z.shiftl v shift)) = Z.shiftl v shift).
  { intros v Hv0 Hvb. pose proof (shiftl_bound v shift 31 Hv0 (proj1 Hs) Hvb).
    unfold i32. rewrite swrap_small by (change (2 ^ (32 - 1)) with (2 ^ 31); lia).
    apply wrap_small. lia. }
  destruct (Z.eqb_spec (Z.shiftr val 7) 0) as [H0 | Hnz].
  - injection Henc as <-. simpl.
    destruct (Z.leb_spec 32 shift) as [? | _]; [lia |].
    rewrite last_byte_flag by done. simpl.
    rewrite <- Z.land_assoc. change (Z.land 127 127) with 127.
    rewrite shiftr7_zero by done. by rewrite Hpiece.
  - destruct (encode_loop fuel (Z.shiftr val 7)) as [tl |] eqn:Htl; [| done].
    injection Henc as <-. simpl.
    destruct (Z.leb_spec 32 shift) as [? | _]; [lia |].
    rewrite (wrap_small 8 (Z.lor _ _)) by (pose proof (cont_byte_range _ Hlow); lia).
    destruct (Z.eqb_spec (Z.land (Z.lor (Z.land val 127) 128) 128) 0) as [Hbad | _].
    { by apply cont_byte_flag in Hbad; [| lia]. }
    rewrite cont_byte_payload, <- Z.land_assoc. change (Z.land 127 127) with 127.
    pose proof (low7_shift_bound val shift 31 Hv (proj1 Hs) Hb) as Hlb.
    rewrite Hpiece; [| lia |].
    2:{ rewrite Z.shiftl_mul_pow2 in Hlb by lia. lia. }
    assert (Hr : 0 < Z.shiftr val 7).
    { pose proof (Z.shiftr_nonneg val 7). lia. }
    pose proof (shiftr7_bound val shift 31 Hv (proj1 Hs) Hb) as Hrb.
    assert (Hs7 : shift + 7 < 31).
    { destruct (Z.ltb_spec (shift + 7) 31); [done | exfalso].
      assert (2 ^ 31 <= 2 ^ (shift + 7)) by (apply Z.pow_le_mono_r; lia). nia. }
    unfold u8. rewrite (wrap_small 8 (shift + 7)) by (change (2 ^ 8) with 256; lia).
    assert (Hr0 : 0 <= Z.shiftr val 7) by lia.
    assert (Hs0 : 0 <= shift + 7 < 32) by lia.
    rewrite (IH _ _ rest _ _ Hr0 Hs0 Hrb Htl).
    rewrite <- Z.lor_assoc, split7 by lia. done.
Qed.

(** With the 64-bit decoder, encoding then decoding is the identity on every
    [u64]: the encoder is as the specification describes it. *)
Lemma read_loop_spec_encode_uleb x :
  0 <= x < 2 ^ 64 ->
  exists bs, encode_uleb [] x = Some bs /\ read_loop_spec bs 0 0 = ReadOk x [].
Proof.
  intros Hx. destruct (encode_uleb_total x Hx) as [bs Hbs]. exists bs. split; [done |].
  unfold encode_uleb in Hbs. rewrite (wrap_small 64) in Hbs by done.
  destruct (encode_loop 10 x) as [out |] eqn:Hout; [| done].
  simpl in Hbs. injection Hbs as <-.
  rewrite <- (app_nil_r out).
  rewrite (read_loop_spec_encode 10 x out [] 0 0); [| lia | lia | lia | done].
  by rewrite Z.shiftl_0_r.
Qed.

(** [read_uleb] inverts [encode_uleb] on the values below [2^31]. *)
Lemma read_uleb_encode_uleb_below_2p31 x :
  0 <= x < 2 ^ 31 ->
  exists bs, encode_uleb [] x = Some bs /\ read_uleb bs = ReadOk x [].
Proof.
  intros Hx. assert (2 ^ 31 < 2 ^ 64) by done.
  destruct (encode_uleb_total x) as [bs Hbs]; [lia |]. exists bs. split; [done |].
  unfold encode_uleb in Hbs. rewrite (wrap_small 64) in Hbs by lia.
  destruct (encode_loop 10 x) as [out |] eqn:Hout; [| done].
  simpl in Hbs. injection Hbs as <-.
  unfold read_uleb. rewrite <- (app_nil_r out).
  rewrite (read_loop_encode 10 x out [] 0 0); [| lia | lia | lia | done].
  by rewrite Z.shiftl_0_r.
Qed.

(** [write_uleb] stores the bytes [encode_uleb] appends. *)
Lemma write_uleb_encode_uleb x :
  fst <$> write_uleb x = encode_uleb [] x.
Proof. unfold write_uleb, encode_uleb. by destruct (encode_loop 10 (u64 x)). Qed.

(** C5: the round trip [read_uleb (encode_uleb x) = x] is claimed for every
    [0 <= x < 2^64].  At [x = 2^31] the encoder produces [80 80 80 80 08]; the
    decoder shifts the last payload [8] left by [28] as a 32-bit [int], which
    gives [-2^31], and the conversion to [u64] sign-extends it: [read_uleb]
    returns [0xFFFFFFFF80000000] instead of [2^31]. *)
Theorem read_uleb_encode_uleb_2p31 :
  encode_uleb [] (2 ^ 31) = Some [128; 128; 128; 128; 8] /\
  write_uleb (2 ^ 31) = Some ([128; 128; 128; 128; 8], 5) /\
  read_uleb [128; 128; 128; 128; 8] = ReadOk 0xFFFFFFFF80000000 [] /\
  0xFFFFFFFF80000000 <> 2 ^ 31 /\
  read_loop_spec [128; 128; 128; 128; 8] 0 0 = ReadOk (2 ^ 31) [].
Proof. repeat split; done. Qed.

End UlebFacts.

(** ** Endian-explicit integers *)

Section ByteorderFacts.
Import Word Byteorder.

Lemma conv_in_range T x : 0 < bits T -> in_range T x -> conv T x = x.
Proof.
  intros Hb. unfold in_range, conv. destruct (is_signed T); intros Hx.
  - by apply swrap_small.
  - by apply wrap_small.
Qed.

Lemma conv_eqm T a b : 0 < bits T -> eqm (bits T) a b -> conv T a = conv T b.
Proof.
  intros Hb H. unfold conv. destruct (is_signed T).
  - apply swrap_eqm; [lia | done].
  - done.
Qed.

Lemma eqm_conv w T z : 0 <= w <= bits T -> 0 < bits T -> eqm w (conv T z) z.
Proof.
  intros Hw Hb. unfold conv. destruct (is_signed T).
  - by apply eqm_swrap.
  - by apply eqm_wrap.
Qed.

Lemma bits_promote T : bits T <= bits (promote T).
Proof. unfold promote. destruct (Z.ltb_spec (bits T) 32); simpl; lia. Qed.

(** *** The bytes stored by [operator=] *)

Lemma assign_little_lookup SIZE x : forall k val j,
  (k <= SIZE)%nat -> length val = SIZE ->
  fold_left (store_byte LITTLE SIZE x) (seq 0 k) val !! j
  = if decide (j < k)%nat then Some (byte_of x j) else val !! j.
Proof.
  induction k as [| k IH]; intros val j Hk Hlen; [done |].
  rewrite seq_S, fold_left_app. cbn [fold_left plus]. unfold store_byte at 1.
  destruct (decide (j = k)) as [-> | Hne].
  - rewrite list_lookup_insert_eq.
    + by rewrite decide_True by lia.
    + assert (Hl : forall n v, length (fold_left (store_byte LITTLE SIZE x) (seq 0 n) v) = length v).
      { clear. intros n. induction n as [| n IHn]; intros v; [done |].
        rewrite seq_S, fold_left_app. cbn [fold_left plus]. unfold store_byte at 1.
        by rewrite length_insert. }
      rewrite Hl. lia.
  - rewrite list_lookup_insert_ne by done. rewrite IH by lia.
    destruct (decide (j < k)%nat), (decide (j < S k)%nat); try done; lia.
Qed.

Lemma assign_big_lookup SIZE x : forall k val j,
  (k <= SIZE)%nat -> length val = SIZE ->
  fold_left (store_byte BIG SIZE x) (seq 0 k) val !! j
  = if decide (SIZE - k <= j < SIZE)%nat then Some (byte_of x (SIZE - 1 - j)) else val !! j.
Proof.
  induction k as [| k IH]; intros val j Hk Hlen.
  { simpl. rewrite decide_False by lia. done. }
  rewrite seq_S, fold_left_app. cbn [fold_left plus]. unfold store_byte at 1.
  assert (Hl : forall n v, length (fold_left (store_byte BIG SIZE x) (seq 0 n) v) = length v).
  { clear. intros n. induction n as [| n IHn]; intros v; [done |].
    rewrite seq_S, fold_left_app. cbn [fold_left plus]. unfold store_byte at 1.
    by rewrite length_insert. }
  destruct (decide (j = SIZE - 1 - k)%nat) as [-> | Hne].
  - rewrite list_lookup_insert_eq by (rewrite Hl; lia).
    rewrite decide_True by lia. do 2 f_equal. lia.
  - rewrite list_lookup_insert_ne by done. rewrite IH by lia.
    destruct (decide (SIZE - k <= j < SIZE)%nat), (decide (SIZE - S k <= j < SIZE)%nat);
      try done; lia.
Qed.

Lemma assign_lookup X SIZE x val j :
  length val = SIZE -> (j < SIZE)%nat ->
  assign X SIZE x val !! j
  = Some (byte_of x (match X with LITTLE => j | BIG => SIZE - 1 - j end)).
Proof.
  intros Hlen Hj. unfold assign. destruct X.
  - rewrite (assign_little_lookup SIZE x SIZE val j) by done. by rewrite decide_True.
  - rewrite (assign_big_lookup SIZE x SIZE val j) by done. by rewrite decide_True by lia.
Qed.

(** *** The value rebuilt by [operator T] *)

Lemma le_step x k :
  0 <= k ->
  Z.lor (x mod 2 ^ k) (Z.shiftl (Z.shiftr x k mod 2 ^ 8) k) = x mod 2 ^ (k + 8).
Proof.
  intros Hk. apply Z.bits_inj'. intros n Hn.
  rewrite Z.lor_spec, Z.shiftl_spec, !Z.testbit_mod_pow2 by lia.
  destruct (Z.ltb_spec n k) as [Hlt | Hge].
  - rewrite (Z.testbit_neg_r _ (n - k)) by lia.
    destruct (Z.ltb_spec n (k + 8)); [| lia].
    by rewrite andb_false_r, orb_false_r.
  - rewrite Z.shiftr_spec by lia. replace (n - k + k) with n by lia.
    destruct (Z.ltb_spec (n - k) 8), (Z.ltb_spec n (k + 8)); try lia; done.
Qed.

Lemma be_step y m :
  0 <= m ->
  Z.lor (Z.shiftl (Z.shiftr y (m + 8)) 8) (Z.shiftr y m mod 2 ^ 8) = Z.shiftr y m.
Proof.
  intros Hm. apply Z.bits_inj'. intros n Hn.
  rewrite Z.lor_spec, Z.shiftl_spec, Z.testbit_mod_pow2 by lia.
  destruct (Z.ltb_spec n 8) as [Hlt | Hge].
  - rewrite (Z.testbit_neg_r _ (n - 8)) by lia. done.
  - rewrite !Z.shiftr_spec by lia. rewrite andb_false_l, orb_false_r.
    f_equal. lia.
Qed.

Lemma byte_of_mod x n i :
  (i < n)%nat ->
  byte_of x i = Z.shiftr (x mod 2 ^ (8 * Z.of_nat n)) (Z.of_nat i * 8) mod 2 ^ 8.
Proof.
  intros Hi. unfold byte_of, u8, wrap. apply Z.bits_inj'. intros k Hk.
  rewrite !Z.testbit_mod_pow2 by lia. destruct (Z.ltb_spec k 8); [| done].
  rewrite !Z.shiftr_spec, Z.testbit_mod_pow2 by lia.
  destruct (Z.ltb_spec (k + Z.of_nat i * 8) (8 * Z.of_nat n)); [done | lia].
Qed.

Lemma conv_0 T : 0 < bits T -> conv T 0 = 0.
Proof.
  intros Hb. apply conv_in_range; [done |]. unfold in_range.
  assert (0 < 2 ^ (bits T - 1)) by (apply Z.pow_pos_nonneg; lia).
  assert (0 < 2 ^ bits T) by (apply Z.pow_pos_nonneg; lia).
  destruct (is_signed T); lia.
Qed.

Lemma conv_conv T z : 0 < bits T -> conv T (conv T z) = conv T z.
Proof. intros Hb. apply conv_eqm; [done |]. apply eqm_conv; lia. Qed.

Lemma to_T_little T SIZE x val :
  0 < bits T <= 64 ->
  (forall j, (j < SIZE)%nat -> val !! j = Some (byte_of x j)) ->
  forall k, (k <= SIZE)%nat ->
    let ret := fold_left (load_byte LITTLE T val) (seq 0 k) 0 in
    conv T ret = ret /\ eqm (bits T) ret (x mod 2 ^ (8 * Z.of_nat k)).
Proof.
  intros Hb Hval k. induction k as [| k IH]; intros Hk ret; subst ret.
  { simpl. split; [apply conv_0; lia |]. change (8 * Z.of_nat 0) with 0. rewrite Z.pow_0_r, Z.mod_1_r. apply eqm_refl. }
  rewrite seq_S, fold_left_app. cbn [fold_left plus].
  destruct IH as [_ IH]; [lia |].
  set (ret := fold_left _ _ _) in *.
  unfold load_byte. rewrite Hval by lia. cbn [default].
  split; [apply conv_conv; lia |].
  eapply eqm_trans; [apply eqm_conv; lia |].
  replace (8 * Z.of_nat (S k)) with (8 * Z.of_nat k + 8) by lia.
  rewrite <- le_step by lia.
  apply eqm_lor; [lia | |].
  - eapply eqm_trans; [apply eqm_wrap; lia | done].
  - eapply eqm_trans; [apply eqm_wrap; lia |].
    replace (Z.of_nat k * 8) with (8 * Z.of_nat k) by lia.
    apply eqm_shiftl; [lia | lia |].
    eapply eqm_trans; [apply eqm_wrap; lia |].
    unfold byte_of, u8, wrap. replace (Z.of_nat k * 8) with (8 * Z.of_nat k) by lia.
    apply eqm_refl.
Qed.

Lemma to_T_big T SIZE x val :
  0 < bits T <= 64 ->
  (forall j, (j < SIZE)%nat -> val !! j = Some (byte_of x (SIZE - 1 - j))) ->
  forall k, (k <= SIZE)%nat ->
    let ret := fold_left (load_byte BIG T val) (seq 0 k) 0 in
    conv T ret = ret /\
    eqm (bits T) ret (Z.shiftr (x mod 2 ^ (8 * Z.of_nat SIZE)) (8 * Z.of_nat (SIZE - k))).
Proof.
  intros Hb Hval k. induction k as [| k IH]; intros Hk ret; subst ret.
  { simpl. split; [apply conv_0; lia |]. rewrite Nat.sub_0_r.
    rewrite Z.shiftr_div_pow2 by lia. rewrite Z.div_small; [done |].
    apply Z.mod_pos_bound. apply Z.pow_pos_nonneg; lia. }
  rewrite seq_S, fold_left_app. cbn [fold_left plus].
  destruct IH as [_ IH]; [lia |].
  set (ret := fold_left _ _ _) in *.
  unfold load_byte. rewrite Hval by lia. cbn [default].
  split; [apply conv_conv; lia |].
  eapply eqm_trans; [apply eqm_conv; lia |].
  set (y := x mod 2 ^ (8 * Z.of_nat SIZE)) in *.
  rewrite <- (be_step y (8 * Z.of_nat (SIZE - S k))) by lia.
  apply eqm_lor; [lia | |].
  - eapply eqm_trans.
    { apply eqm_conv; [| pose proof (bits_promote T); lia].
      pose proof (bits_promote T). lia. }
    apply eqm_shiftl; [lia | lia |].
    replace (8 * Z.of_nat (SIZE - S k) + 8) with (8 * Z.of_nat (SIZE - k)) by lia.
    done.
  - rewrite (byte_of_mod x SIZE) by lia. subst y.
    replace (Z.of_nat (SIZE - 1 - k) * 8) with (8 * Z.of_nat (SIZE - S k)) by lia.
    apply eqm_refl.
Qed.

Lemma to_T_assign X T SIZE x val :
  0 < bits T <= 64 -> length val = SIZE ->
  to_T X T SIZE (assign X SIZE x val) = conv T (x mod 2 ^ (8 * Z.of_nat SIZE)).
Proof.
  intros Hb Hlen. unfold to_T. destruct X.
  - destruct (to_T_little T SIZE x (assign LITTLE SIZE x val) Hb) with (k := SIZE)
      as [Hc He]; [| done |].
    { intros j Hj. by rewrite assign_lookup. }
    rewrite <- Hc. apply conv_eqm; [lia | done].
  - destruct (to_T_big T SIZE x (assign BIG SIZE x val) Hb) with (k := SIZE)
      as [Hc He]; [| done |].
    { intros j Hj. by rewrite assign_lookup. }
    rewrite <- Hc. apply conv_eqm; [lia |].
    rewrite Nat.sub_diag, Z.shiftr_0_r in He. done.
Qed.

Lemma instantiations_bits T SIZE :
  In (T, SIZE) instantiations -> 0 < bits T <= 64 /\ 8 * Z.of_nat SIZE <= bits T.
Proof.
  unfold instantiations. simpl.
  intros H. repeat (destruct H as [[= <- <-] | H]; [simpl; lia |]). done.
Qed.

(** C10: for both byte orders and every instantiation [Int<X, T, SIZE>] of
    [byteorder.h], assigning a value [x] of [T] and converting back to [T]
    gives [x] reduced modulo [2^(8*SIZE)] and reinterpreted in [T]; when
    [SIZE == sizeof(T)] this is [x] itself. *)
Theorem Int_round_trip X T SIZE x val :
  In (T, SIZE) instantiations -> in_range T x -> length val = SIZE ->
  to_T X T SIZE (assign X SIZE x val) = conv T (x mod 2 ^ (8 * Z.of_nat SIZE)) /\
  (8 * Z.of_nat SIZE = bits T -> to_T X T SIZE (assign X SIZE x val) = x).
Proof.
  intros Hin Hx Hlen. destruct (instantiations_bits T SIZE Hin) as [Hb Hs].
  rewrite to_T_assign by done. split; [done |].
  intros ->. rewrite <- (conv_in_range T x) at 2 by (done || lia).
  apply conv_eqm; [lia |]. unfold eqm, wrap. apply Z.mod_mod.
  apply Z.pow_nonzero; lia.
Qed.

Lemma Int_round_trip_witness :
  to_T BIG u32_t 3 (assign BIG 3 0x12345678 [0; 0; 0]) = 0x345678 /\
  to_T LITTLE i16_t 2 (assign LITTLE 2 (-2) [0; 0]) = -2.
Proof.
  split.
  - refine (eq_trans (proj1 (Int_round_trip BIG u32_t 3 0x12345678 [0; 0; 0] _ _ _)) _).
    + simpl. tauto.
    + unfold in_range. simpl. lia.
    + reflexivity.
    + reflexivity.
  - refine (proj2 (Int_round_trip LITTLE i16_t 2 (-2) [0; 0] _ _ _) _).
    + simpl. tauto.
    + unfold in_range. simpl. lia.
    + reflexivity.
    + reflexivity.
Defined.

End ByteorderFacts.

(** ** Section rank *)

Section RankFacts.
Import Elf Chunks.

(** Every plain chunk has a rank in the band of its class. *)
Lemma rank_in_band ctx c :
  plain_chunk c ->
  fst (class_band (class_of ctx c)) <= get_section_rank ctx c <= snd (class_band (class_of ctx c)).
Proof.
  unfold plain_chunk, get_section_rank, class_of, is_relro.
  intros [Hwx Htls].
  repeat case_decide; try (vm_compute; split; congruence).
  all: destruct (sh_type (shdr c) =? SHT_NOTE), (has_flag (sh_flags (shdr c)) SHF_ALLOC);
    try (vm_compute; split; congruence);
    destruct (has_flag (sh_flags (shdr c)) SHF_WRITE),
             (has_flag (sh_flags (shdr c)) SHF_EXECINSTR);
    try (by specialize (Hwx eq_refl));
    destruct (has_flag (sh_flags (shdr c)) SHF_TLS), (relro c);
    try (by specialize (Htls eq_refl eq_refl));
    destruct (sh_type (shdr c) =? SHT_NOBITS); vm_compute; split; congruence.
Qed.

(** The bands are disjoint and follow the order of the list. *)
Lemma class_band_mono c1 c2 :
  (class_index c1 < class_index c2)%nat -> snd (class_band c1) < fst (class_band c2).
Proof. destruct c1, c2; simpl; lia. Qed.

(** C6, as amended: among chunks that are not both writable and executable
    (and whose writable TLS chunks are RELRO), a chunk whose class comes
    earlier in the list has the smaller rank. *)
Theorem get_section_rank_order ctx x y :
  plain_chunk x -> plain_chunk y ->
  (class_index (class_of ctx x) < class_index (class_of ctx y))%nat ->
  get_section_rank ctx x < get_section_rank ctx y.
Proof.
  intros Hx Hy Hlt.
  pose proof (rank_in_band ctx x Hx). pose proof (rank_in_band ctx y Hy).
  pose proof (class_band_mono _ _ Hlt). lia.
Qed.

Lemma get_section_rank_order_witness :
  get_section_rank some_ctx ro_text < get_section_rank some_ctx plain_bss.
Proof.
  apply (get_section_rank_order some_ctx ro_text plain_bss).
  - split; vm_compute; congruence.
  - split; vm_compute; congruence.
  - vm_compute. lia.
Defined.

(** C6, as stated, fails: a writable and executable data chunk is in the
    class "alloc writable non-RELRO data", which the list puts before
    "alloc writable non-RELRO bss", but its rank (30: the exec bit weighs 8)
    is above the rank of a plain [.bss] chunk (23). *)
Lemma get_section_rank_order_fails :
  class_of some_ctx wx_data = ClsData /\
  class_of some_ctx plain_bss = ClsBss /\
  (class_index (class_of some_ctx wx_data) < class_index (class_of some_ctx plain_bss))%nat /\
  get_section_rank some_ctx wx_data = 30 /\
  get_section_rank some_ctx plain_bss = 23 /\
  ~ get_section_rank some_ctx wx_data < get_section_rank some_ctx plain_bss.
Proof. vm_compute. repeat split; (lia || congruence). Qed.

End RankFacts.

(** ** Splitting mergeable sections *)

Section MergeableFacts.
Import Word Elf Run Mergeable.

(** With [sh_entsize == 1], [find_null] is the search the specification
    describes: the first null byte. *)
Lemma first_null_run_find_zero : forall data pre fuel,
  (length data < fuel)%nat ->
  first_null_run fuel (pre ++ data) 1 (size pre) = find_zero data (size pre).
Proof.
  induction data as [| c data IH]; intros pre fuel Hfuel.
  - destruct fuel; [simpl in Hfuel; lia |]. simpl.
    rewrite app_nil_r. destruct (Z.leb_spec (size pre + 1) (size pre)); [lia | done].
  - destruct fuel; [simpl in Hfuel; lia |]. simpl in Hfuel. simpl.
    unfold size at 2. rewrite length_app. simpl length.
    destruct (Z.leb_spec (size pre + 1) (Z.of_nat (length pre + S (length data)))) as [_ | Hbad];
      [| unfold size in Hbad; lia].
    unfold size at 1. rewrite Nat2Z.id, drop_app_length. simpl.
    rewrite andb_true_r. destruct (c =? 0); [done |].
    replace (pre ++ c :: data) with ((pre ++ [c]) ++ data) by (by rewrite <- app_assoc).
    replace (size pre + 1) with (size (pre ++ [c])).
    + apply IH. lia.
    + unfold size. rewrite length_app. simpl. lia.
Qed.

Lemma find_null_by_bytes data :
  find_null data 1 = Done (find_null_spec data 1).
Proof.
  unfold find_null, find_null_spec. simpl (1 =? 1).
  cbv iota. f_equal. symmetry.
  apply (first_null_run_find_zero data [] (S (length data))). lia.
Qed.

(** C9: a wide-character string table, [sh_entsize == 2], holding
    [a 00 00 00] and [b 00 00 00].  The first run of two null bytes at a
    multiple of two begins at offset [2], so the claim has the fragments
    [0,4) and [4,8).  [find_null] tests [data.substr(i, i + entsize)], whose
    second argument is a length: at [i = 2] it looks at four bytes instead of
    two and only accepts offset [6]; [split_section] emits the single
    fragment [0,8).  One entry shorter, the same section is rejected as not
    null terminated although the run at offset [2] exists. *)
Theorem split_section_entsize_2 :
  let data := [97; 0; 0; 0; 98; 0; 0; 0] in
  let sec := {| contents := data; sh_flags := Z.lor SHF_MERGE SHF_STRINGS;
                sh_entsize := 2; sh_addralign := 2 |} in
  let sec' := {| contents := [97; 0; 0; 0; 98; 0]; sh_flags := Z.lor SHF_MERGE SHF_STRINGS;
                 sh_entsize := 2; sh_addralign := 2 |} in
  find_null_spec data 2 = 2 /\
  find_null data 2 = Done 6 /\
  (forall hash_string,
     strings <$> split_section hash_string sec = Done [[97; 0; 0; 0; 98; 0; 0; 0]]) /\
  find_null_spec (contents sec') 2 = 2 /\
  (forall hash_string,
     split_section hash_string sec' = Fatal "string is not null terminated").
Proof. repeat split. Qed.

End MergeableFacts.

(** ** The concurrent map *)

Section ConcurrentMapFacts.
Import Word Run ConcurrentMap.
Context {T : Type}.
Implicit Types (m : t T) (ks : list key_ptr) (key : string_view) (val : T).

Lemma memcmp_eq_spec p q n :
  memcmp_eq p q n = true <-> (forall i, 0 <= i < n -> p i = q i).
Proof.
  unfold memcmp_eq. rewrite forallb_forall. split.
  - intros H i Hi. specialize (H (Z.to_nat i)).
    rewrite Z2Nat.id in H by lia. apply Z.eqb_eq, H, in_seq. lia.
  - intros H i Hi%in_seq. apply Z.eqb_eq, H. lia.
Qed.

(** The comparison of [insert] does not tell byte-equal keys apart. *)
Lemma key_test_sv_eq k1 k2 ptr size :
  sv_eq k1 k2 ->
  (sv_size k1 =? size) && memcmp_eq ptr (sv_data k1) size
  = (sv_size k2 =? size) && memcmp_eq ptr (sv_data k2) size.
Proof.
  intros [Hsz Hdata]. rewrite <- Hsz.
  destruct (Z.eqb_spec (sv_size k1) size) as [<- | _]; [| done]. simpl.
  apply eq_true_iff_eq. rewrite !memcmp_eq_spec.
  split; intros H i Hi; [rewrite <- Hdata | rewrite Hdata]; auto.
Qed.

Lemma other_key_sv_eq m ks k1 k2 idx :
  sv_eq k1 k2 -> other_key m ks k1 idx -> other_key m ks k2 idx.
Proof.
  intros Heq (ptr & Hptr & Htest). exists ptr. split; [done |]. simpl in *.
  by rewrite <- (key_test_sv_eq k1 k2).
Qed.

(** *** The shape of a run of [probe] *)

Lemma probe_full left : forall m ks key val idx,
  (forall j, (j < left)%nat -> other_key m ks key (Nat.iter j (next_idx m) idx)) ->
  probe left m ks key val idx = Abort "ConcurrentMap is full".
Proof.
  induction left as [| left IH]; intros m ks key val idx Hall; [done |].
  destruct (Hall 0%nat) as (ptr & Hptr & Htest); [lia |]. simpl in Hptr, Htest.
  simpl. rewrite Hptr, Htest. apply IH. intros j Hj.
  rewrite <- Nat.iter_succ_r. apply Hall. lia.
Qed.

(** A run that returns has walked over buckets of other keys and stopped at
    the first bucket that was empty or held the key. *)
Lemma probe_done left : forall m ks key val idx r,
  probe left m ks key val idx = Done r ->
  exists n, (n < left)%nat /\
    let i := Nat.iter n (next_idx m) idx in
    value_ptr r = Some i /\
    (forall j, (j < n)%nat -> other_key m ks key (Nat.iter j (next_idx m) idx)) /\
    ((is_new r = true /\ ks !! Z.to_nat i = Some Null /\
      map_after r = {| nbuckets := nbuckets m;
                       keys := Some (<[Z.to_nat i := Key (sv_data key)]> ks);
                       sizes := <[Z.to_nat i := u32 (sv_size key)]> (sizes m);
                       values := <[Z.to_nat i := val]> (values m) |}) \/
     (is_new r = false /\ map_after r = m /\
      exists ptr, ks !! Z.to_nat i = Some (Key ptr) /\
        let size := default 0 (sizes m !! Z.to_nat i) in
        (sv_size key =? size) && memcmp_eq ptr (sv_data key) size = true)).
Proof.
  induction left as [| left IH]; intros m ks key val idx r Hrun; [done |].
  simpl in Hrun.
  destruct (ks !! Z.to_nat idx) as [[| | ptr] |] eqn:Hk; try done.
  - injection Hrun as <-. exists 0%nat. simpl. repeat split; [lia | | ].
    + intros j Hj. lia.
    + left. done.
  - destruct ((sv_size key =? default 0 (sizes m !! Z.to_nat idx))
              && memcmp_eq ptr (sv_data key) (default 0 (sizes m !! Z.to_nat idx))) eqn:Htest.
    + injection Hrun as <-. exists 0%nat. simpl. repeat split; [lia | |].
      * intros j Hj. lia.
      * right. repeat split. exists ptr. done.
    + apply IH in Hrun as (n & Hn & Hptr & Hpath & Hend).
      exists (S n). rewrite Nat.iter_succ_r. repeat split; [lia | done | | done].
      intros [| j] Hj.
      * exists ptr. done.
      * rewrite Nat.iter_succ_r. apply Hpath. lia.
Qed.

(** Conversely: a walk over other keys to a bucket that holds the key. *)
Lemma probe_hit left : forall m ks key val idx n ptr,
  (n < left)%nat ->
  (forall j, (j < n)%nat -> other_key m ks key (Nat.iter j (next_idx m) idx)) ->
  let i := Nat.iter n (next_idx m) idx in
  ks !! Z.to_nat i = Some (Key ptr) ->
  (let size := default 0 (sizes m !! Z.to_nat i) in
   (sv_size key =? size) && memcmp_eq ptr (sv_data key) size = true) ->
  probe left m ks key val idx = Done {| value_ptr := Some i; is_new := false; map_after := m |}.
Proof.
  induction left as [| left IH]; intros m ks key val idx n ptr Hn Hpath i Hk Htest; [lia |].
  destruct n as [| n].
  - simpl in *. subst i. by rewrite Hk, Htest.
  - destruct (Hpath 0%nat) as (ptr0 & Hptr0 & Htest0); [lia |]. simpl in Hptr0, Htest0.
    simpl. rewrite Hptr0, Htest0. subst i. rewrite Nat.iter_succ_r in *.
    apply (IH m ks key val (next_idx m idx) n ptr); [lia | | done | done].
    intros j Hj. rewrite <- Nat.iter_succ_r. apply Hpath. lia.
Qed.

Lemma probe_idx_iter m hash n :
  probe_idx m hash n = Nat.iter n (next_idx m) (Z.land hash (nbuckets m - 1)).
Proof. induction n as [| n IH]; [done |]. simpl. by rewrite IH. Qed.

(** *** The map only grows *)

Lemma extends_refl m : extends m m.
Proof.
  split; [done |]. destruct (keys m) as [ks |]; [| done].
  exists ks. repeat split; done.
Qed.

Lemma extends_trans m1 m2 m3 : extends m1 m2 -> extends m2 m3 -> extends m1 m3.
Proof.
  intros [Hn12 H12] [Hn23 H23]. split; [congruence |].
  destruct (keys m1) as [ks1 |].
  - destruct H12 as (ks2 & Hk2 & Hl2 & Hb2). rewrite Hk2 in H23.
    destruct H23 as (ks3 & Hk3 & Hl3 & Hb3).
    exists ks3. repeat split; [done | congruence | |].
    + by apply Hb3, Hb2.
    + destruct (Hb2 i ptr H) as [Hp2 Hs2]. destruct (Hb3 i ptr Hp2) as [_ Hs3]. congruence.
  - by rewrite H12 in H23.
Qed.

(** A call that returns on a map with buckets has passed the assertion and
    run the loop. *)
Lemma insert_probe m ks key hash val r :
  keys m = Some ks -> insert m key hash val = Done r ->
  Layout.popcount (nbuckets m) = 1 /\
  probe MAX_RETRY m ks key val (Z.land hash (nbuckets m - 1)) = Done r.
Proof.
  unfold insert. intros ->.
  destruct (Z.eqb_spec (Layout.popcount (nbuckets m)) 1) as [Hpop | _]; [done | done].
Qed.

Lemma insert_extends m key hash val r :
  insert m key hash val = Done r -> extends m (map_after r).
Proof.
  destruct (keys m) as [ks |] eqn:Hks.
  - intros Hrun. apply (insert_probe m ks) in Hrun as [_ Hrun]; [| done].
    apply probe_done in Hrun as (n & _ & _ & _ & Hend).
    destruct Hend as [(_ & Hnull & ->) | (_ & -> & _)].
    + split; [done |]. rewrite Hks. simpl.
      eexists. repeat split; [by rewrite length_insert | |].
      * rewrite list_lookup_insert_ne; [done |]. intros <-. congruence.
      * rewrite list_lookup_insert_ne; [done |]. intros <-. congruence.
    + apply extends_refl.
  - unfold insert. rewrite Hks. intros [= <-]. simpl. split; [done |]. by rewrite Hks.
Qed.

Lemma other_key_extends m m' ks ks' key idx :
  extends m m' -> keys m = Some ks -> keys m' = Some ks' ->
  other_key m ks key idx -> other_key m' ks' key idx.
Proof.
  intros [_ Hext] Hks Hks' (ptr & Hptr & Htest). rewrite Hks in Hext.
  destruct Hext as (ks'' & Hk'' & _ & Hb). rewrite Hks' in Hk''. injection Hk'' as <-.
  destruct (Hb _ _ Hptr) as [Hp' Hs']. exists ptr. split; [done |].
  simpl in *. by rewrite Hs'.
Qed.

(** *** The probe sequence stays in its shard *)

Lemma next_idx_bits m e idx n :
  4 <= e -> nbuckets m = 2 ^ e -> 0 <= n ->
  Z.testbit (next_idx m idx) n
  = if n <? e - 4 then Z.testbit (idx + 1) n else Z.testbit idx n.
Proof.
  intros He Hn Hn0. unfold next_idx, NUM_SHARDS. rewrite Hn.
  replace (2 ^ e / 16 - 1) with (Z.ones (e - 4)).
  - rewrite Z.lor_spec, !Z.land_spec, Z.lnot_spec, Z.testbit_ones by lia.
    destruct (Z.leb_spec 0 n); [| lia]. simpl.
    destruct (Z.ltb_spec n (e - 4)); simpl.
    + by rewrite andb_false_r, andb_true_r.
    + by rewrite andb_false_r, andb_true_r, orb_false_r.
  - rewrite Z.ones_equiv, <- Z.sub_1_r. f_equal.
    replace e with ((e - 4) + 4) at 2 by lia. rewrite Z.pow_add_r by lia.
    change (2 ^ 4) with 16. rewrite Z.div_mul; lia.
Qed.

Lemma next_idx_shard m e idx :
  4 <= e -> nbuckets m = 2 ^ e ->
  Z.shiftr (next_idx m idx) (e - 4) = Z.shiftr idx (e - 4).
Proof.
  intros He Hn. apply Z.bits_inj'. intros n Hn0.
  rewrite !Z.shiftr_spec by done. rewrite (next_idx_bits m e) by (done || lia).
  destruct (Z.ltb_spec (n + (e - 4)) (e - 4)); [lia | done].
Qed.

Lemma next_idx_range m e idx :
  4 <= e -> nbuckets m = 2 ^ e ->
  0 <= idx < nbuckets m -> 0 <= next_idx m idx < nbuckets m.
Proof.
  intros He Hn Hidx. pose proof (next_idx_shard m e idx He Hn) as Hsh.
  assert (Hnn : 0 <= next_idx m idx).
  { unfold next_idx. apply Z.lor_nonneg. split; apply Z.land_nonneg; [left | left]; lia. }
  split; [done |]. rewrite Hn in *.
  rewrite !Z.shiftr_div_pow2 in Hsh by lia.
  assert (Hk : 0 < 2 ^ (e - 4)) by (apply Z.pow_pos_nonneg; lia).
  assert (Hsplit : 2 ^ e = 2 ^ (e - 4) * 16).
  { replace e with ((e - 4) + 4) at 1 by lia. by rewrite Z.pow_add_r by lia. }
  assert (idx / 2 ^ (e - 4) < 16).
  { apply Z.div_lt_upper_bound; lia. }
  pose proof (Z.div_mod (next_idx m idx) (2 ^ (e - 4))).
  pose proof (Z.mod_pos_bound (next_idx m idx) (2 ^ (e - 4))). nia.
Qed.

Lemma probe_idx_range m e hash n :
  4 <= e -> nbuckets m = 2 ^ e ->
  0 <= probe_idx m hash n < nbuckets m /\
  Z.shiftr (probe_idx m hash n) (e - 4) = Z.shiftr (probe_idx m hash 0) (e - 4).
Proof.
  intros He Hn. induction n as [| n [IHr IHs]].
  - split; [| done]. simpl. rewrite Hn.
    assert (0 < 2 ^ e) by (apply Z.pow_pos_nonneg; lia).
    replace (2 ^ e - 1) with (Z.ones e) by (rewrite Z.ones_equiv; lia).
    rewrite Z.land_ones by lia. apply Z.mod_pos_bound. lia.
  - simpl. split.
    + by apply (next_idx_range m e).
    + by rewrite (next_idx_shard m e).
Qed.

(** *** When the shard is full *)

(** On a map after [resize], the assertion of [insert] on [nbuckets] passes
    below [2^32] buckets and fails from there on: [__builtin_popcount] reads
    32 bits. *)
Lemma initialized_popcount m :
  initialized m -> Layout.popcount (nbuckets m) = 1 <-> nbuckets m < 2 ^ 32.
Proof.
  intros [(e & He & Hn) _ _ _]. rewrite Hn.
  destruct (Z.lt_ge_cases e 32) as [Hlt | Hge].
  - rewrite popcount_pow2_low by lia. split; [| done].
    intros _. apply Z.pow_lt_mono_r; lia.
  - rewrite popcount_pow2_high by lia. split; [done |].
    intros Hbad. assert (2 ^ 32 <= 2 ^ e) by (apply Z.pow_le_mono_r; lia). lia.
Qed.

(** C8: on an initialized map, if a call of [insert] gets to its loop (the
    assertion on [nbuckets] passes, which is the case below [2^32] buckets)
    and the [MAX_RETRY] buckets that it probes (all of them in the shard of
    the first one) are owned by other keys, the call does not return: it
    stops the process on the assertion "ConcurrentMap is full".  A call that
    does not get to the loop probes no bucket and stops on the assertion on
    [nbuckets].  When [insert] does return on an initialized map, it returns
    a pointer into [values], never a null pointer. *)
Theorem insert_full m key hash val :
  initialized m ->
  (forall j, 0 <= probe_idx m hash j < nbuckets m /\
             probe_idx m hash j / (nbuckets m / NUM_SHARDS)
             = probe_idx m hash 0 / (nbuckets m / NUM_SHARDS)) /\
  (Layout.popcount (nbuckets m) = 1 <-> nbuckets m < 2 ^ 32) /\
  (Layout.popcount (nbuckets m) = 1 ->
   (forall ks j, keys m = Some ks -> (j < MAX_RETRY)%nat ->
      other_key m ks key (probe_idx m hash j)) ->
   insert m key hash val = Abort "ConcurrentMap is full") /\
  (Layout.popcount (nbuckets m) <> 1 ->
   insert m key hash val = Abort "__builtin_popcount(nbuckets) == 1") /\
  (forall r, insert m key hash val = Done r ->
     exists idx, value_ptr r = Some idx /\ 0 <= idx < nbuckets m).
Proof.
  intros Hinit. pose proof Hinit as [(e & He & Hn) (ks & Hks & Hlen) _ _].
  split; [| split; [by apply initialized_popcount |]; split; [| split]].
  - intros j. split; [by apply (probe_idx_range m e); [lia |] |].
    destruct (probe_idx_range m e hash j ltac:(lia) Hn) as [_ Hsh].
    rewrite !Z.shiftr_div_pow2 in Hsh by lia.
    replace (nbuckets m / NUM_SHARDS) with (2 ^ (e - 4)); [done |].
    rewrite Hn. unfold NUM_SHARDS. replace e with ((e - 4) + 4) at 2 by lia.
    rewrite Z.pow_add_r by lia. change (2 ^ 4) with 16. rewrite Z.div_mul; lia.
  - intros Hpop Hall. unfold insert. rewrite Hks, Hpop.
    cbn [Z.eqb Pos.eqb negb]. apply probe_full.
    intros j Hj. rewrite <- probe_idx_iter. by apply Hall.
  - intros Hpop. unfold insert. rewrite Hks.
    by destruct (Z.eqb_spec (Layout.popcount (nbuckets m)) 1).
  - intros r Hrun. apply (insert_probe m ks) in Hrun as [_ Hrun]; [| done].
    apply probe_done in Hrun as (n & _ & Hptr & _). simpl in Hptr.
    eexists. split; [done |]. rewrite <- probe_idx_iter.
    by apply (probe_idx_range m e); [lia |].
Qed.

(** *** Interning twice *)

(** C4, as amended: for byte-equal keys of fewer than [2^32] bytes and equal
    hashes, a call of [insert] after an earlier one (and after any other
    insertions into the same map) returns the value pointer of the earlier
    call and reports the element as present. *)
Theorem insert_idempotent m k1 k2 hash v1 v2 r1 m2 :
  (is_Some (keys m) -> initialized m) ->
  sv_eq k1 k2 -> 0 <= sv_size k1 < 2 ^ 32 ->
  insert m k1 hash v1 = Done r1 ->
  extends (map_after r1) m2 ->
  insert m2 k2 hash v2
  = Done {| value_ptr := value_ptr r1; is_new := false; map_after := m2 |}.
Proof.
  intros Hinit Heq Hsize Hrun1 Hext12.
  pose proof (insert_extends _ _ _ _ _ Hrun1) as Hext01.
  pose proof (extends_trans _ _ _ Hext01 Hext12) as Hext02.
  destruct (keys m) as [ks |] eqn:Hks.
  - destruct Hinit as [_ (ks0 & Hks0 & Hlen) Hsizes _]; [done |].
    rewrite Hks in Hks0. injection Hks0 as <-.
    apply (insert_probe m ks) in Hrun1 as [Hpop Hrun1]; [| done].
    pose proof Hext02 as [Hn02 Hb02]. rewrite Hks in Hb02.
    destruct Hb02 as (ks2 & Hks2 & Hlen2 & Hb02). unfold insert. rewrite Hks2.
    rewrite Hn02 at 1. rewrite Hpop. cbn [Z.eqb Pos.eqb negb].
    assert (Hnext : forall i, next_idx m2 i = next_idx m i).
    { intros i. unfold next_idx. by rewrite Hn02. }
    assert (Hiter : forall n i, Nat.iter n (next_idx m2) i = Nat.iter n (next_idx m) i).
    { intros n i. induction n as [| n IH]; [done |]. simpl. by rewrite IH, Hnext. }
    rewrite Hn02.
    apply probe_done in Hrun1 as (n & Hn & Hptr & Hpath & Hend). simpl in Hptr.
    rewrite Hptr. rewrite <- Hiter.
    destruct Hend as [(_ & Hnull & Hm1) | (_ & Hm1 & ptr & Hptr1 & Htest)].
    + (* the earlier call took an empty bucket *)
      destruct Hext12 as [_ Hb12]. rewrite Hm1 in Hb12. simpl in Hb12.
      destruct Hb12 as (ks2' & Hks2' & _ & Hb12).
      rewrite Hks2 in Hks2'. injection Hks2' as <-.
      pose proof (lookup_lt_Some _ _ _ Hnull) as Hlt.
      destruct (Hb12 (Z.to_nat (Nat.iter n (next_idx m) (Z.land hash (nbuckets m - 1))))
                  (sv_data k1)) as [Hk2 Hs2].
      { by apply list_lookup_insert_eq. }
      rewrite list_lookup_insert_eq in Hs2 by lia.
      apply (probe_hit MAX_RETRY m2 ks2 k2 v2 _ n (sv_data k1)); [done | | |].
      * intros j Hj. rewrite Hiter. apply (other_key_sv_eq _ _ k1); [done |].
        apply (other_key_extends m m2 ks); [done | done | done |]. by apply Hpath.
      * by rewrite Hiter.
      * rewrite Hiter. simpl. rewrite Hs2. simpl.
        unfold u32. rewrite wrap_small by done.
        destruct Heq as [Hsz Hdata]. rewrite <- Hsz, Z.eqb_refl. simpl.
        by apply memcmp_eq_spec.
    + (* the earlier call found the key *)
      destruct (Hb02 _ _ Hptr1) as [Hk2 Hs2].
      apply (probe_hit MAX_RETRY m2 ks2 k2 v2 _ n ptr); [done | | |].
      * intros j Hj. rewrite Hiter. apply (other_key_sv_eq _ _ k1); [done |].
        apply (other_key_extends m m2 ks); [done | done | done |]. by apply Hpath.
      * by rewrite Hiter.
      * rewrite Hiter. simpl in *. rewrite Hs2.
        by rewrite <- (key_test_sv_eq k1 k2).
  - unfold insert in *. rewrite Hks in Hrun1. injection Hrun1 as <-.
    cbn [map_after value_ptr] in *.
    destruct Hext12 as [_ Hb]. rewrite Hks in Hb. by rewrite Hb.
Qed.

End ConcurrentMapFacts.

Section ConcurrentMapExamples.
Import Word Run ConcurrentMap.

Lemma resize_initialized (n : Z) : 0 <= n <= 2048 -> initialized (resize 0 n).
Proof.
  intros Hn.
  assert (Hmax : Z.max MIN_NBUCKETS (next_power_of_two n) = 2048).
  { unfold MIN_NBUCKETS, next_power_of_two.
    destruct ((n =? 0) || (n =? 1)) eqn:Hsmall; [done |].
    apply orb_false_elim in Hsmall as [H0%Z.eqb_neq H1%Z.eqb_neq].
    assert (Hlog : Z.log2 (n - 1) < 11) by (apply Z.log2_lt_pow2; lia).
    pose proof (Z.log2_nonneg (n - 1)).
    unfold clzl. rewrite Z.shiftl_mul_pow2, Z.mul_1_l by lia.
    assert (2 ^ (64 - (63 - Z.log2 (n - 1))) <= 2 ^ 11) by (apply Z.pow_le_mono_r; lia).
    assert (0 < 2 ^ (64 - (63 - Z.log2 (n - 1)))) by (apply Z.pow_pos_nonneg; lia).
    unfold u64. rewrite wrap_small by (change (2 ^ 11) with 2048 in *; lia).
    change (2 ^ 11) with 2048 in *. lia. }
  unfold resize. rewrite Hmax. split; cbn [nbuckets keys sizes values].
  - exists 11. split; [lia | done].
  - eexists. split; [done |]. rewrite length_replicate. lia.
  - rewrite length_replicate. lia.
  - rewrite length_replicate. lia.
Qed.

Lemma other_keyb_spec (m : t Z) ks key idx :
  other_keyb m ks key idx = true -> other_key m ks key idx.
Proof.
  unfold other_keyb, other_key. destruct (ks !! Z.to_nat idx) as [[| | ptr] |]; try done.
  intros Htest%negb_true_iff. by exists ptr.
Qed.

Lemma full_shard_initialized : initialized full_shard.
Proof.
  split.
  - exists 11. split; [lia |]. vm_compute. reflexivity.
  - eexists. split; [vm_compute; reflexivity |]. vm_compute. reflexivity.
  - vm_compute. reflexivity.
  - vm_compute. reflexivity.
Qed.

(** The 128 buckets that [insert] probes for the key ["ab"] and the hash 0
    are owned by other keys. *)
Lemma full_shard_other_keys ks j :
  keys full_shard = Some ks -> (j < MAX_RETRY)%nat ->
  other_key full_shard ks key_ab (probe_idx full_shard 0 j).
Proof.
  intros Hks Hj.
  assert (Hall : forallb (fun j => match keys full_shard with
                                   | Some ks => other_keyb full_shard ks key_ab
                                                  (probe_idx full_shard 0 j)
                                   | None => false
                                   end) (seq 0 MAX_RETRY) = true)
    by (vm_compute; reflexivity).
  rewrite forallb_forall in Hall. specialize (Hall j).
  rewrite Hks in Hall. apply other_keyb_spec, Hall, in_seq. lia.
Qed.

Lemma insert_full_witness :
  insert full_shard key_ab 0 42 = Abort "ConcurrentMap is full" /\
  exists idx, value_ptr <$> insert (resize 0 1) key_ab 5 42 = Done (Some idx) /\
              0 <= idx < 2048.
Proof.
  split.
  - destruct (insert_full full_shard key_ab 0 42 full_shard_initialized)
      as (_ & _ & Hfull & _).
    apply Hfull; [by vm_compute | apply full_shard_other_keys].
  - destruct (insert (resize 0 1) key_ab 5 42) as [r | | |] eqn:Hrun; try discriminate Hrun.
    destruct (insert_full (resize 0 1) key_ab 5 42 (resize_initialized 1 ltac:(lia)))
      as (_ & _ & _ & _ & Hptr).
    destruct (Hptr r Hrun) as (idx & Hidx & Hrange).
    exists idx. split; [| exact Hrange]. simpl. by rewrite Hidx.
Defined.

Lemma insert_idempotent_witness :
  exists r1, insert (resize 0 1) key_ab 5 42 = Done r1 /\
    insert (map_after r1) key_ab 5 43
    = Done {| value_ptr := value_ptr r1; is_new := false; map_after := map_after r1 |}.
Proof.
  destruct (insert (resize 0 1) key_ab 5 42) as [r | | |] eqn:Hrun; try discriminate Hrun.
  exists r. split; [reflexivity |].
  apply (insert_idempotent (resize 0 1) key_ab key_ab 5 42 43 r (map_after r)).
  - intros _. apply resize_initialized. lia.
  - split; [reflexivity | intros; reflexivity].
  - simpl. lia.
  - exact Hrun.
  - apply extends_refl.
Defined.

(** C4, as stated, fails for a key of [2^32] bytes: [sizes[idx]] is a [u32]
    and holds [0] for it, so the second call does not recognise the key in
    bucket [5], walks on and takes bucket [6] as a new element. *)
Lemma insert_idempotent_fails :
  sv_size (zeros (2 ^ 32)) = 2 ^ 32 /\
  (r ← insert (resize 0 1) (zeros (2 ^ 32)) 5 42;
   Done (value_ptr r, is_new r)) = Done (Some 5, true) /\
  (r1 ← insert (resize 0 1) (zeros (2 ^ 32)) 5 42;
   r2 ← insert (map_after r1) (zeros (2 ^ 32)) 5 43;
   Done (value_ptr r2, is_new r2)) = Done (Some 6, true).
Proof. repeat split; vm_compute; reflexivity. Qed.

End ConcurrentMapExamples.

(** ** Reading [.eh_frame] *)

Section EhFrameFacts.
Import Word Run EhFrame.

Variable R_NONE : Z.
Variable sym_priority : Z -> Z.
Variable contents : list Z.
Variable rels : list ElfRel.

Local Abbreviation body := (body contents rels).
Local Abbreviation records := (records contents rels).
Local Abbreviation skip_rels := (skip_rels rels).
Local Abbreviation consumed := (consumed rels).
Local Abbreviation increasing := (increasing rels).
Local Abbreviation reachable := (reachable contents rels).
Local Abbreviation fde_at := (fde_at contents).
Local Abbreviation first_rel_at_8 := (first_rel_at_8 rels).

Lemma read_u32_nonneg off v :
  bytes contents -> read_u32 contents off = Done v -> 0 <= v.
Proof.
  unfold bytes, read_u32. rewrite Forall_forall. intros Hb Hv.
  destruct (contents !! Z.to_nat off) as [b0 |] eqn:H0; [| done].
  destruct (contents !! Z.to_nat (off + 1)) as [b1 |] eqn:H1; [| done].
  destruct (contents !! Z.to_nat (off + 2)) as [b2 |] eqn:H2; [| done].
  destruct (contents !! Z.to_nat (off + 3)) as [b3 |] eqn:H3; [| done].
  injection Hv as <-.
  apply list_elem_of_lookup_2, Hb in H0, H1, H2, H3.
  repeat (apply Z.lor_nonneg; split); try apply Z.shiftl_nonneg; lia.
Qed.

(** *** The scan over the relocations *)

Lemma skip_rels_bounds fuel : forall idx end_offset,
  0 <= idx <= len rels ->
  idx <= skip_rels fuel idx end_offset <= len rels.
Proof.
  induction fuel as [| fuel IH]; intros idx end_offset Hidx; simpl; [lia |].
  destruct (rels !! Z.to_nat idx) as [r |] eqn:Hr; [| lia].
  destruct (r_offset r <? end_offset); [| lia].
  apply lookup_lt_Some in Hr. unfold len in *.
  specialize (IH (idx + 1) end_offset). lia.
Qed.

Lemma skip_rels_spec fuel : forall idx end_offset,
  increasing ->
  0 <= idx <= len rels -> (Z.to_nat (len rels - idx) <= fuel)%nat ->
  (forall k r, rels !! k = Some r -> Z.of_nat k < idx -> r_offset r < end_offset) ->
  forall k r, rels !! k = Some r ->
    (Z.of_nat k < skip_rels fuel idx end_offset <-> r_offset r < end_offset).
Proof.
  induction fuel as [| fuel IH]; intros idx end_offset Hinc Hidx Hfuel Hbefore k r Hk.
  - simpl. apply lookup_lt_Some in Hk as Hlt. unfold len in *.
    split; [apply (Hbefore k r Hk) | lia].
  - simpl. destruct (rels !! Z.to_nat idx) as [r0 |] eqn:Hr0.
    + destruct (Z.ltb_spec (r_offset r0) end_offset) as [Hlt | Hge].
      * apply lookup_lt_Some in Hr0 as Hlt0. unfold len in *.
        apply IH; [done | lia | lia | | done].
        intros k' r' Hk' Hlt'.
        destruct (decide (Z.of_nat k' = idx)) as [<- | Hne].
        -- rewrite Nat2Z.id, Hk' in Hr0. by injection Hr0 as ->.
        -- apply (Hbefore k' r' Hk'). lia.
      * split; [apply (Hbefore k r Hk) |]. intros Hrk.
        destruct (Z.ltb_spec (Z.of_nat k) idx) as [| Hkge]; [done | exfalso].
        destruct (decide (k = Z.to_nat idx)) as [-> | Hne].
        { rewrite Hk in Hr0. injection Hr0 as ->. lia. }
        destruct Hinc as [_ Hinc].
        pose proof (Hinc (Z.to_nat idx) k r0 r Hr0 Hk ltac:(lia)). lia.
    + apply lookup_ge_None in Hr0. apply lookup_lt_Some in Hk as Hlt. unfold len in *.
      split; [apply (Hbefore k r Hk) | lia].
Qed.

(** *** One round of the loop *)

Lemma body_continue st st' :
  body st = Done (Continue st') ->
  exists size, read_u32 contents (pos st) = Done size /\ size <> 0 /\
    pos st + size + 4 <= len contents /\
    pos st' = pos st + size + 4 /\
    cur_rel st' = skip_rels (length rels) (cur_rel st) (pos st + size + 4) /\
    (fdes st' = fdes st \/
     exists f, fdes st' = fdes st ++ [f] /\ first_rel_at_8 f).
Proof.
  unfold EhFrame.body. intros Hb.
  destruct (read_u32 contents (pos st)) as [size | | |] eqn:Hsize; try done.
  simpl in Hb. destruct (Z.eqb_spec size 0) as [-> | Hnz].
  { by destruct (negb _) in Hb. }
  destruct (read_u32 contents (pos st + 4)) as [id | | |] eqn:Hid; try done.
  simpl in Hb.
  destruct (Z.ltb_spec (len contents - pos st) (size + 4)) as [| Hfit]; [done |].
  destruct (negb _) in Hb; [done |].
  exists size. split; [done |]. split; [done |]. split; [lia |].
  destruct (id =? 0).
  { injection Hb as <-. simpl. split; [done |]. split; [done |]. by left. }
  destruct (Z.eqb_spec (cur_rel st) (EhFrame.skip_rels rels (length rels) (cur_rel st) (pos st + size + 4)))
    as [Heq | Hne].
  { injection Hb as <-. simpl. split; [done |]. split; [done |]. by left. }
  destruct (Z.eqb_spec (u64 (default 0 (r_offset <$> rels !! Z.to_nat (cur_rel st)) - pos st)) 8)
    as [H8 | H8]; [| done].
  injection Hb as <-. simpl. split; [done |]. split; [done |].
  right. eexists. split; [done |].
  unfold EhFrame.first_rel_at_8. simpl.
  destruct (rels !! Z.to_nat (cur_rel st)) as [r |] eqn:Hr.
  - exists r. done.
  - exfalso. apply Hne. destruct (length rels); simpl; [done |]. by rewrite Hr.
Qed.

Lemma body_consumed st st' :
  increasing -> bytes contents ->
  consumed st -> body st = Done (Continue st') -> consumed st'.
Proof.
  intros Hinc Hbytes (Hpos & Hcur & Hiff) Hb.
  apply body_continue in Hb as (size & Hsize & Hnz & Hfit & Hpos' & Hcur' & _).
  pose proof (read_u32_nonneg _ _ Hbytes Hsize) as Hsz.
  unfold EhFrame.consumed. rewrite Hpos', Hcur'.
  split; [lia |]. split.
  - pose proof (skip_rels_bounds (length rels) (cur_rel st) (pos st + size + 4) Hcur). lia.
  - apply skip_rels_spec; [done | done | unfold len; lia |].
    intros k r Hk Hlt. apply (Hiff k r Hk) in Hlt. lia.
Qed.

Lemma reachable_consumed init st :
  increasing -> bytes contents ->
  consumed init -> reachable init st -> consumed st.
Proof.
  intros Hinc Hbytes Hinit Hreach. induction Hreach as [| st st' _ IH _ Hb]; [done |].
  by apply (body_consumed st).
Qed.

Lemma body_break st st' : body st = Done (Break st') -> st' = st.
Proof.
  unfold EhFrame.body. intros Hb.
  destruct (read_u32 contents (pos st)) as [size | | |]; try done.
  simpl in Hb. destruct (size =? 0).
  { destruct (negb _) in Hb; [done |]. by injection Hb. }
  destruct (read_u32 contents (pos st + 4)) as [id | | |]; try done.
  simpl in Hb.
  destruct (len contents - pos st <? size + 4); [done |].
  destruct (negb _) in Hb; [done |].
  destruct (id =? 0); [done |].
  destruct (cur_rel st =? _); [done |].
  by destruct (negb _) in Hb.
Qed.

(** The round on an FDE, by the relocations that fall inside the record. *)
Lemma body_fde st size :
  increasing -> bytes contents -> consumed st -> fde_at st size ->
  let begin_offset := pos st in
  let end_offset := pos st + size + 4 in
  let rel_idx' := skip_rels (length rels) (cur_rel st) end_offset in
  (no_rel_inside rels begin_offset end_offset ->
   body st = Done (Continue {| pos := end_offset; cur_rel := cur_rel st;
                               cies := cies st; fdes := fdes st |})) /\
  (forall r, first_rel_inside rels begin_offset end_offset r ->
     rels !! Z.to_nat (cur_rel st) = Some r /\
     (u64 (r_offset r - begin_offset) <> 8 ->
      body st = Fatal "FDE's first relocation should have offset 8") /\
     (u64 (r_offset r - begin_offset) = 8 ->
      body st = Done (Continue {| pos := end_offset; cur_rel := rel_idx';
                                  cies := cies st;
                                  fdes := fdes st ++ [{| input_offset := begin_offset;
                                                         rel_idx := cur_rel st;
                                                         cie_idx := -1 |}] |}))).
Proof.
  intros Hinc Hbytes (Hpos & Hcur & Hiff) (Hlt & Hsize & Hnz & (id & Hid & Hidnz) & Hfit).
  intros begin_offset end_offset rel_idx'.
  pose proof (read_u32_nonneg _ _ Hbytes Hsize) as Hsz.
  pose proof (skip_rels_bounds (length rels) (cur_rel st) end_offset Hcur) as Hbounds.
  assert (Hscan : forall k r, rels !! k = Some r ->
            (Z.of_nat k < rel_idx' <-> r_offset r < end_offset)).
  { apply skip_rels_spec; [done | done | unfold len; lia |].
    intros k r Hk Hk'. apply (Hiff k r Hk) in Hk'. unfold end_offset. lia. }
  fold rel_idx' in Hbounds.
  (* the record is read and the assertion holds *)
  assert (Hbody : body st =
    if cur_rel st =? rel_idx' then
      Done (Continue {| pos := end_offset; cur_rel := rel_idx';
                        cies := cies st; fdes := fdes st |})
    else if negb (u64 (default 0 (r_offset <$> rels !! Z.to_nat (cur_rel st))
                       - begin_offset) =? 8) then
      Fatal "FDE's first relocation should have offset 8"
    else
      Done (Continue {| pos := end_offset; cur_rel := rel_idx'; cies := cies st;
                        fdes := fdes st ++ [{| input_offset := begin_offset;
                                               rel_idx := cur_rel st;
                                               cie_idx := -1 |}] |})).
  { unfold EhFrame.body. rewrite Hsize. simpl.
    destruct (Z.eqb_spec size 0); [done |]. rewrite Hid. simpl.
    destruct (Z.ltb_spec (len contents - pos st) (size + 4)); [lia |].
    fold end_offset. fold rel_idx'.
    destruct (Z.eqb_spec id 0); [done |].
    replace ((rel_idx' =? len rels)
             || (pos st <=? default 0 (r_offset <$> rels !! Z.to_nat (cur_rel st))))
      with true; [done |].
    symmetry. apply orb_true_iff.
    destruct (rels !! Z.to_nat (cur_rel st)) as [r0 |] eqn:Hr0.
    - right. simpl. apply Z.leb_le.
      destruct (Z.ltb_spec (r_offset r0) (pos st)) as [Hbad |]; [| done].
      apply (Hiff _ _ Hr0) in Hbad. lia.
    - left. apply Z.eqb_eq. apply lookup_ge_None in Hr0. unfold len in *. lia. }
  split.
  - intros Hnone. rewrite Hbody.
    destruct (Z.eqb_spec (cur_rel st) rel_idx') as [<- | Hne]; [done | exfalso].
    destruct (rels !! Z.to_nat (cur_rel st)) as [r0 |] eqn:Hr0.
    + apply (Hnone r0); [by eapply list_elem_of_lookup_2 |]. split.
      * destruct (Z.ltb_spec (r_offset r0) (pos st)) as [Hbad |]; [| done].
        apply (Hiff _ _ Hr0) in Hbad. lia.
      * apply (Hscan _ _ Hr0). lia.
    + apply lookup_ge_None in Hr0. unfold len in *. lia.
  - intros r (Hin & Hrange & Hmin).
    apply list_elem_of_lookup in Hin as [k Hk].
    assert (Hk1 : cur_rel st <= Z.of_nat k).
    { destruct (Z.ltb_spec (Z.of_nat k) (cur_rel st)) as [Hbad |]; [| done].
      apply (Hiff _ _ Hk) in Hbad. unfold begin_offset in Hrange. lia. }
    assert (Hk2 : Z.of_nat k < rel_idx') by (apply (Hscan _ _ Hk); lia).
    destruct (rels !! Z.to_nat (cur_rel st)) as [r0 |] eqn:Hr0.
    2:{ apply lookup_ge_None in Hr0. apply lookup_lt_Some in Hk. lia. }
    assert (Hr0in : begin_offset <= r_offset r0 < end_offset).
    { split.
      - destruct (Z.ltb_spec (r_offset r0) (pos st)) as [Hbad |]; [| done].
        apply (Hiff _ _ Hr0) in Hbad. lia.
      - apply (Hscan _ _ Hr0). lia. }
    assert (r0 = r) as ->.
    { destruct (decide (k = Z.to_nat (cur_rel st))) as [-> | Hne]; [congruence |].
      destruct Hinc as [_ Hinc].
      pose proof (Hinc (Z.to_nat (cur_rel st)) k r0 r Hr0 Hk ltac:(lia)).
      pose proof (Hmin r0 ltac:(by eapply list_elem_of_lookup_2) Hr0in). lia. }
    split; [done |]. rewrite Hbody. simpl.
    destruct (Z.eqb_spec (cur_rel st) rel_idx') as [Heq | _]; [lia |].
    split; intros H8.
    + by destruct (Z.eqb_spec (u64 (r_offset r - begin_offset)) 8).
    + by rewrite H8.
Qed.

(** *** The whole reader *)

Lemma records_fdes fuel : forall st st',
  records fuel st = Done st' ->
  exists new, fdes st' = fdes st ++ new /\ Forall first_rel_at_8 new.
Proof.
  induction fuel as [| fuel IH]; intros st st' Hrun; [done |].
  simpl in Hrun. destruct (len contents <=? pos st).
  { injection Hrun as <-. exists []. by rewrite app_nil_r. }
  destruct (body st) as [[st1 | st1] | | |] eqn:Hb; try done; simpl in Hrun.
  - apply IH in Hrun as (new & Hnew & Hall).
    apply body_continue in Hb as (_ & _ & _ & _ & _ & _ & [Hsame | (f & Hpush & Hf)]).
    + exists new. by rewrite Hnew, Hsame.
    + exists (f :: new). split; [| by constructor].
      by rewrite Hnew, Hpush, <- app_assoc.
  - injection Hrun as <-. apply body_break in Hb as ->.
    exists []. by rewrite app_nil_r.
Qed.

Lemma associate_fields cies_begin new_cies : forall fs fs',
  associate contents cies_begin new_cies fs = Done fs' ->
  Forall2 (fun f f' => input_offset f' = input_offset f /\ rel_idx f' = rel_idx f) fs fs'.
Proof.
  induction fs as [| f fs IH]; intros fs' Hrun; simpl in Hrun.
  { injection Hrun as <-. constructor. }
  destruct (read_i32 contents (input_offset f + 4)) as [off | | |]; try done.
  simpl in Hrun.
  destruct (find_cie new_cies cies_begin (input_offset f + 4 - off)) as [idx | | |]; try done.
  simpl in Hrun.
  destruct (associate contents cies_begin new_cies fs) as [fs'' | | |]; try done.
  simpl in Hrun. injection Hrun as <-. constructor; [done | by apply IH].
Qed.

Lemma insert_fde_elem f g fs :
  g ∈ insert_fde sym_priority rels f fs <-> g = f \/ g ∈ fs.
Proof.
  induction fs as [| h fs IH]; simpl.
  - rewrite list_elem_of_singleton. set_solver.
  - destruct (_ <? _); set_solver.
Qed.

Lemma stable_sort_elem g fs :
  g ∈ stable_sort sym_priority rels fs <-> g ∈ fs.
Proof.
  induction fs as [| f fs IH]; simpl; [done |].
  rewrite insert_fde_elem, IH. set_solver.
Qed.

Lemma read_ehframe_fdes old_cies old_fdes cs fs :
  read_ehframe R_NONE sym_priority contents rels old_cies old_fdes = Done (cs, fs) ->
  forall f, f ∈ fs -> f ∈ old_fdes \/ first_rel_at_8 f.
Proof.
  unfold read_ehframe. intros Hrun.
  apply bind_done in Hrun as (_ & _ & Hrun).
  apply bind_done in Hrun as (st & Hrec & Hrun).
  apply bind_done in Hrun as (fs' & Hassoc & Hrun).
  injection Hrun as <- <-.
  apply records_fdes in Hrec as (new & Hnew & Hall). cbn [fdes start] in Hnew.
  rewrite Hnew, drop_app_length in Hassoc.
  apply associate_fields in Hassoc.
  intros f [Hold | Hsorted]%elem_of_app; [by left | right].
  apply (proj1 (stable_sort_elem _ _)) in Hsorted.
  apply list_elem_of_lookup in Hsorted as [i Hi].
  destruct (Forall2_lookup_r _ _ _ _ _ Hassoc Hi) as (f0 & Hf0 & Hoff & Hidx).
  rewrite Forall_forall in Hall.
  destruct (Hall f0 ltac:(by eapply list_elem_of_lookup_2)) as (r & Hr & H8).
  exists r. by rewrite Hidx, Hoff.
Qed.

Lemma verify_rels_increasing : forall rest pre prev,
  rels = pre ++ prev :: rest -> increasing ->
  verify_rels R_NONE prev rest = Done ().
Proof.
  induction rest as [| r rest IH]; intros pre prev Hrels Hinc; [done |].
  simpl. destruct Hinc as [Hnn Hlt].
  assert (r_offset prev < r_offset r).
  { apply (Hlt (length pre) (S (length pre))); [| | lia]; rewrite Hrels.
    - by rewrite list_lookup_middle.
    - replace (pre ++ prev :: r :: rest) with ((pre ++ [prev]) ++ r :: rest)
        by (by rewrite <- app_assoc).
      apply list_lookup_middle. rewrite length_app. simpl. lia. }
  destruct (Z.leb_spec (r_offset r) (r_offset prev)); [lia |].
  rewrite andb_false_r. apply (IH (pre ++ [prev])); [| done].
  by rewrite <- app_assoc.
Qed.

Lemma start_consumed old_cies old_fdes :
  increasing -> consumed (start old_cies old_fdes).
Proof.
  intros [Hnn _]. unfold EhFrame.consumed, len. simpl.
  split; [lia |]. split; [lia |]. intros k r Hk.
  pose proof (Hnn r ltac:(by eapply list_elem_of_lookup_2)). lia.
Qed.

(** The loop gets to every reachable state. *)
Lemma records_reachable init st :
  bytes contents -> reachable init st ->
  exists n, 5 * Z.of_nat n <= pos st - pos init /\
    forall fuel, records (n + fuel) init = records fuel st.
Proof.
  intros Hbytes Hreach. induction Hreach as [| st st' _ (n & Hn & IH) Hpos Hb].
  - exists 0%nat. split; [lia | done].
  - exists (S n). pose proof Hb as Hb'.
    apply body_continue in Hb' as (size & Hsize & Hnz & _ & Hpos' & _).
    pose proof (read_u32_nonneg _ _ Hbytes Hsize). split; [lia |].
    intros fuel. replace (S n + fuel)%nat with (n + S fuel)%nat by lia.
    rewrite IH. simpl. destruct (Z.leb_spec (len contents) (pos st)); [lia |].
    by rewrite Hb.
Qed.

Lemma read_ehframe_fatal old_cies old_fdes st msg :
  increasing -> bytes contents ->
  reachable (start old_cies old_fdes) st -> pos st < len contents ->
  body st = Fatal msg ->
  read_ehframe R_NONE sym_priority contents rels old_cies old_fdes = Fatal msg.
Proof.
  intros Hinc Hbytes Hreach Hpos Hb. unfold read_ehframe.
  replace (match rels with [] => Done () | r :: rest => verify_rels R_NONE r rest end)
    with (Done () : outcome ()).
  2:{ destruct rels as [| r rest] eqn:Hrels; [done |]. symmetry.
      rewrite <- Hrels in Hinc. by apply (verify_rels_increasing rest [] r). }
  rewrite bind_Done.
  destruct (records_reachable _ _ Hbytes Hreach) as (n & Hn & Hrun). simpl in Hn.
  unfold len in *.
  replace (S (length contents)) with (n + S (length contents - n))%nat by lia.
  rewrite Hrun. simpl. destruct (Z.leb_spec (len contents) (pos st)); [unfold len in *; lia |].
  rewrite Hb. reflexivity.
Qed.

(** C7, as amended: for every FDE record that the loop of [read_ehframe]
    comes to, with relocation offsets that increase: if no relocation falls
    inside the record, the round leaves [fdes] as it is; otherwise the first
    relocation inside the record is [rels[rel_begin]], and if its offset from
    the start of the record is not 8 then [read_ehframe] ends in the fatal
    error "FDE's first relocation should have offset 8", else the record is
    appended to [fdes].  Every FDE that [read_ehframe] adds to the file's
    [fdes] has passed this check. *)
Theorem read_ehframe_fde old_cies old_fdes st size :
  increasing -> bytes contents ->
  reachable (start old_cies old_fdes) st -> fde_at st size ->
  let begin_offset := pos st in
  let end_offset := pos st + size + 4 in
  (no_rel_inside rels begin_offset end_offset ->
   exists st', body st = Done (Continue st') /\
     fdes st' = fdes st /\ cies st' = cies st) /\
  (forall r, first_rel_inside rels begin_offset end_offset r ->
     rels !! Z.to_nat (cur_rel st) = Some r /\
     (u64 (r_offset r - begin_offset) <> 8 ->
      read_ehframe R_NONE sym_priority contents rels old_cies old_fdes
      = Fatal "FDE's first relocation should have offset 8") /\
     (u64 (r_offset r - begin_offset) = 8 ->
      exists st', body st = Done (Continue st') /\
        fdes st' = fdes st ++ [{| input_offset := begin_offset;
                                  rel_idx := cur_rel st; cie_idx := -1 |}])) /\
  (forall cs fs,
     read_ehframe R_NONE sym_priority contents rels old_cies old_fdes = Done (cs, fs) ->
     forall f, f ∈ fs -> f ∈ old_fdes \/ first_rel_at_8 f).
Proof.
  intros Hinc Hbytes Hreach Hfde begin_offset end_offset.
  assert (Hcons : consumed st).
  { apply (reachable_consumed (start old_cies old_fdes)); [done | done | | done].
    by apply start_consumed. }
  destruct (body_fde st size Hinc Hbytes Hcons Hfde) as [Hskip Hfirst].
  split; [| split].
  - intros Hnone. eexists. split; [by apply Hskip |]. done.
  - intros r Hr. destruct (Hfirst r Hr) as (Hlook & Hbad & Hgood).
    split; [done |]. split.
    + intros H8. apply (read_ehframe_fatal old_cies old_fdes st); [done | done | done | |].
      * by destruct Hfde.
      * by apply Hbad.
    + intros H8. eexists. split; [by apply Hgood |]. done.
  - intros cs fs. apply read_ehframe_fdes.
Qed.

End EhFrameFacts.

Section EhFrameExamples.
Import Word Run EhFrame.

Lemma sample_increasing : increasing sample_rels.
Proof.
  split.
  - intros r Hr. unfold sample_rels in Hr.
    repeat (apply elem_of_cons in Hr as [-> | Hr]; [simpl; lia |]).
    by apply elem_of_nil in Hr.
  - intros [| [| i]] [| [| j]] ri rj Hi Hj Hlt; simpl in *; try lia;
      try discriminate; simplify_eq; simpl; lia.
Qed.

Lemma sample_bytes : bytes sample_contents.
Proof. unfold bytes, sample_contents. repeat (constructor; [lia |]). constructor. Qed.

Lemma sample_reachable : reachable sample_contents sample_rels (start [] []) sample_state.
Proof.
  eapply reach_step; [eapply reach_step; [apply reach_init | |] | |].
  - vm_compute. reflexivity.
  - reflexivity.
  - vm_compute. reflexivity.
  - reflexivity.
Qed.

Lemma read_ehframe_fde_witness :
  exists st', body sample_contents sample_rels sample_state = Done (Continue st') /\
    fdes st' = [{| input_offset := 24; rel_idx := 0; cie_idx := -1 |}].
Proof.
  destruct (read_ehframe_fde 0 (fun s => s) sample_contents sample_rels [] []
              sample_state 12 sample_increasing sample_bytes sample_reachable)
    as (_ & Hfirst & _).
  { unfold fde_at. simpl. repeat split; try (vm_compute; congruence).
    exists 28. split; [reflexivity | lia]. }
  destruct (Hfirst {| r_offset := 32; r_type := 2; r_sym := 1 |}) as (_ & _ & Hgood).
  { split; [| split].
    - unfold sample_rels. apply elem_of_cons. by left.
    - simpl. lia.
    - intros r' Hr' Hrange. unfold sample_rels in Hr'.
      repeat (apply elem_of_cons in Hr' as [-> | Hr']; [simpl in *; lia |]).
      by apply elem_of_nil in Hr'. }
  exact (Hgood eq_refl).
Defined.

(** C7, as stated, fails when the relocations are not in order, which the
    check of [read_ehframe] lets pass at an entry of the type [R_NONE].  The
    record at [12, 36) is an FDE; the relocation at offset 16 lies inside
    it, at offset 4 from its start, and no relocation inside it comes
    earlier, so the claim has the fatal error here.  The loop stands at
    [rels[0]], whose offset 44 is beyond the record, takes the FDE for one
    without relocations and skips it: [read_ehframe] returns, and of the two
    FDEs only the second is recorded. *)
Lemma read_ehframe_fde_fails :
  bytes unordered_contents /\
  reachable unordered_contents unordered_rels (start [] []) unordered_state /\
  fde_at unordered_contents unordered_state 20 /\
  first_rel_inside unordered_rels 12 36 {| r_offset := 16; r_type := 2; r_sym := 2 |} /\
  u64 (16 - 12) <> 8 /\
  body unordered_contents unordered_rels unordered_state
  = Done (Continue {| pos := 36; cur_rel := 0;
                      cies := [{| cie_input_offset := 0; cie_rel_idx := 0 |}];
                      fdes := [] |}) /\
  read_ehframe 0 (fun s => s) unordered_contents unordered_rels [] []
  = Done ([{| cie_input_offset := 0; cie_rel_idx := 0 |}],
          [{| input_offset := 36; rel_idx := 0; cie_idx := 0 |}]).
Proof.
  split; [| split; [| split; [| split; [| split; [| split]]]]].
  - unfold bytes, unordered_contents. repeat (constructor; [lia |]). constructor.
  - eapply reach_step; [apply reach_init | |].
    + vm_compute. reflexivity.
    + reflexivity.
  - unfold fde_at. simpl. repeat split; try (vm_compute; congruence).
    exists 16. split; [reflexivity | lia].
  - split; [| split].
    + unfold unordered_rels. set_solver.
    + simpl. lia.
    + intros r' Hr' Hrange. unfold unordered_rels in Hr'.
      repeat (apply elem_of_cons in Hr' as [-> | Hr']; [simpl in *; lia |]).
      by apply elem_of_nil in Hr'.
  - vm_compute. discriminate.
  - reflexivity.
  - vm_compute. reflexivity.
Qed.

End EhFrameExamples.

(** ** Output layout *)

Section LayoutFacts.
Import Word Run Elf Chunks Layout.

Variable COMMON_PAGE_SIZE : Z.
Hypothesis page_pow2 : is_pow2 COMMON_PAGE_SIZE.

Local Abbreviation page := COMMON_PAGE_SIZE.
Local Abbreviation place_data := (place_data COMMON_PAGE_SIZE).
Local Abbreviation place_bss := (place_bss COMMON_PAGE_SIZE).
Local Abbreviation place_alloc := (place_alloc COMMON_PAGE_SIZE).
Local Abbreviation align_chunk := (align_chunk COMMON_PAGE_SIZE).

(** *** Arithmetic *)

Lemma u64_mod_pow2 a k : 0 <= k < 64 -> u64 a mod 2 ^ k = a mod 2 ^ k.
Proof.
  intros Hk. unfold u64, wrap. apply Z.bits_inj'. intros n Hn.
  rewrite !Z.testbit_mod_pow2 by lia.
  destruct (Z.ltb_spec n k); [| done]. simpl.
  destruct (Z.ltb_spec n 64); [done | lia].
Qed.

Lemma align_to_multiple val align v :
  is_pow2 align -> align_to val align = Done v -> v mod align = 0.
Proof.
  intros (k & Hk & ->). unfold align_to.
  assert (Hpos : 0 < 2 ^ k) by (apply Z.pow_pos_nonneg; lia).
  destruct (Z.eqb_spec (2 ^ k) 0) as [| _]; [lia |].
  destruct (negb _); [done |]. intros [= <-].
  rewrite <- Z.land_ones by lia. apply Z.bits_inj'. intros i Hi.
  rewrite !Z.land_spec, Z.bits_0, Z.testbit_ones by lia.
  destruct (Z.leb_spec 0 i); [| lia]. simpl.
  destruct (Z.ltb_spec i k) as [Hlt | Hge]; [| by rewrite andb_false_r].
  rewrite andb_true_r.
  replace (Z.testbit (u64 (Z.lnot (u64 (2 ^ k - 1)))) i) with false;
    [by rewrite andb_false_r |].
  symmetry. unfold u64 at 1, wrap. rewrite Z.testbit_mod_pow2 by lia.
  rewrite Z.lnot_spec by done. unfold u64, wrap.
  rewrite Z.testbit_mod_pow2 by lia.
  replace (2 ^ k - 1) with (Z.ones k) by (rewrite Z.ones_equiv; lia).
  rewrite Z.testbit_ones by lia.
  destruct (Z.ltb_spec i 64), (Z.leb_spec 0 i), (Z.ltb_spec i k); try lia; done.
Qed.

Lemma align_with_skew_mod val skew v :
  align_with_skew val page skew = Done v -> v mod page = skew mod page.
Proof.
  unfold align_with_skew. intros Hrun.
  apply bind_done in Hrun as (n & Hn & [= <-]).
  apply align_to_multiple in Hn; [| done].
  destruct page_pow2 as (k & Hk & Hpage). rewrite Hpage in *.
  rewrite u64_mod_pow2 by done.
  assert (Hpos : 0 < 2 ^ k) by (apply Z.pow_pos_nonneg; lia).
  apply Z.mod_divide in Hn as [q ->]; [| lia].
  replace (q * 2 ^ k - 2 ^ k + skew) with (skew + (q - 1) * 2 ^ k) by lia.
  by rewrite Z.mod_add by lia.
Qed.

Lemma data_offset_mod prev f v :
  prev mod page = f mod page ->
  v mod page = u64 (f + u64 (v - prev)) mod page.
Proof.
  destruct page_pow2 as (k & Hk & ->). intros Hcong.
  assert (Hpos : 0 < 2 ^ k) by (apply Z.pow_pos_nonneg; lia).
  rewrite u64_mod_pow2 by done.
  rewrite Zplus_mod, u64_mod_pow2, <- Zplus_mod by done.
  replace (f + (v - prev)) with (v + (f - prev)) by lia.
  rewrite Zplus_mod, (Zminus_mod f), <- Hcong, Z.sub_diag, Z.mod_0_l by lia.
  rewrite Z.add_0_r. by rewrite Z.mod_mod by lia.
Qed.

(** *** The chunks through the loops *)

Lemma laid_out_refl c : laid_out c c.
Proof. exists (sh_addr (shdr c)), (sh_offset (shdr c)). by destruct c as [? [] ? ?]. Qed.

Lemma laid_out_alloc c c' : laid_out c c' -> is_alloc c' = is_alloc c.
Proof. by intros (a & o & ->). Qed.

Lemma align_chunk_multiple c vaddr v :
  is_pow2 (sh_addralign (shdr c)) ->
  align_chunk c vaddr = Done v -> v mod sh_addralign (shdr c) = 0.
Proof.
  intros Hal Hrun. unfold Layout.align_chunk in Hrun.
  apply bind_done in Hrun as (v1 & _ & Hrun). by apply align_to_multiple in Hrun.
Qed.

Lemma place_data_spec : forall cs vaddr fileoff p,
  Forall (fun c => is_pow2 (sh_addralign (shdr c))) cs ->
  vaddr mod page = fileoff mod page ->
  place_data cs vaddr fileoff = Done p ->
  exists src, cs = src ++ left_over p /\
    Forall2 laid_out src (placed p) /\ Forall (well_placed page) (placed p).
Proof.
  induction cs as [| c cs IH]; intros vaddr fileoff p Hal Hcong Hrun; simpl in Hrun.
  { injection Hrun as <-. by exists []. }
  destruct (is_nobits c).
  { injection Hrun as <-. by exists []. }
  apply bind_done in Hrun as (v & Hv & Hrun).
  apply bind_done in Hrun as (q & Hq & [= <-]). simpl.
  apply Forall_cons in Hal as [Hc Hal].
  pose proof (data_offset_mod vaddr fileoff v Hcong) as Hcong'.
  apply IH in Hq as (src & -> & Hsrc & Hgood); [| done |].
  - exists (c :: src). split; [done |]. split.
    + constructor; [| done]. by eexists _, _.
    + constructor; [| done]. split; simpl; [done |].
      by apply (align_chunk_multiple c vaddr).
  - destruct page_pow2 as (k & Hk & Hpage). rewrite Hpage in *.
    rewrite !u64_mod_pow2 by done.
    rewrite (Zplus_mod v), (Zplus_mod (u64 _)), Hcong'. done.
Qed.

Lemma place_bss_spec : forall cs vaddr fileoff p,
  Forall (fun c => is_pow2 (sh_addralign (shdr c))) cs ->
  place_bss cs vaddr fileoff = Done p ->
  exists src, cs = src ++ left_over p /\
    Forall2 laid_out src (placed p) /\ Forall (well_placed page) (placed p).
Proof.
  induction cs as [| c cs IH]; intros vaddr fileoff p Hal Hrun; simpl in Hrun.
  { injection Hrun as <-. by exists []. }
  destruct (negb (is_nobits c)).
  { injection Hrun as <-. by exists []. }
  apply bind_done in Hrun as (v & Hv & Hrun).
  apply bind_done in Hrun as (f & Hf & Hrun).
  apply bind_done in Hrun as (q & Hq & [= <-]). simpl.
  apply Forall_cons in Hal as [Hc Hal].
  apply IH in Hq as (src & -> & Hsrc & Hgood); [| done].
  exists (c :: src). split; [done |]. split.
  - constructor; [| done]. by eexists _, _.
  - constructor; [| done]. split; simpl.
    + apply align_with_skew_mod in Hf. rewrite Hf.
      destruct page_pow2 as (k & Hk & ->). rewrite Z.mod_mod; [done |].
      apply Z.pow_nonzero; lia.
    + by apply (align_chunk_multiple c vaddr).
Qed.

Lemma place_alloc_spec fuel : forall cs vaddr fileoff p,
  Forall (fun c => is_pow2 (sh_addralign (shdr c))) cs ->
  place_alloc fuel cs vaddr fileoff = Done p ->
  left_over p = [] /\
  Forall2 laid_out cs (placed p) /\ Forall (well_placed page) (placed p).
Proof.
  induction fuel as [| fuel IH]; intros cs vaddr fileoff p Hal Hrun.
  { destruct cs; [| done]. injection Hrun as <-. by repeat constructor. }
  destruct cs as [| c cs]; cbn -[Layout.place_data Layout.place_bss] in Hrun.
  { injection Hrun as <-. by repeat constructor. }
  apply bind_done in Hrun as (f & Hf & Hrun).
  apply bind_done in Hrun as (p1 & Hp1 & Hrun).
  apply bind_done in Hrun as (p2 & Hp2 & Hrun).
  apply bind_done in Hrun as (p3 & Hp3 & [= <-]). simpl.
  apply align_with_skew_mod in Hf.
  apply place_data_spec in Hp1 as (src1 & Hcs & Hsrc1 & Hgood1); [| done |].
  2:{ rewrite Hf. destruct page_pow2 as (k & Hk & ->). rewrite Z.mod_mod; [done |].
      apply Z.pow_nonzero; lia. }
  rewrite Hcs in Hal. apply Forall_app in Hal as [_ Hal].
  apply place_bss_spec in Hp2 as (src2 & Hcs2 & Hsrc2 & Hgood2); [| done].
  rewrite Hcs2 in Hal. apply Forall_app in Hal as [_ Hal].
  apply IH in Hp3 as (Hleft & Hsrc3 & Hgood3); [| done].
  split; [done |]. rewrite Hcs, Hcs2. split.
  - by repeat apply Forall2_app.
  - by rewrite !Forall_app.
Qed.

Lemma place_nonalloc_spec : forall cs fileoff cs' size,
  place_nonalloc cs fileoff = Done (cs', size) ->
  Forall2 laid_out cs cs' /\ Forall (fun c => is_alloc c = false) cs'.
Proof.
  induction cs as [| c cs IH]; intros fileoff cs' size Hrun; simpl in Hrun.
  { injection Hrun as <- <-. by repeat constructor. }
  destruct (is_alloc c) eqn:Halloc; [done |].
  apply bind_done in Hrun as (f & Hf & Hrun).
  apply bind_done in Hrun as ([cs'' size'] & Hr & [= <- <-]).
  apply IH in Hr as [Hsrc Hna]. split.
  - constructor; [| done]. by eexists _, _.
  - constructor; [| done]. done.
Qed.

(** C2: when [set_osec_offsets] returns, with every [sh_addralign] a power
    of two, the chunks are the given ones with [sh_addr] and [sh_offset]
    assigned, and every chunk with [SHF_ALLOC] has
    [sh_addr mod COMMON_PAGE_SIZE == sh_offset mod COMMON_PAGE_SIZE] and
    [sh_addr mod sh_addralign == 0].  (That all alloc chunks come before the
    others is checked by the function itself, by its assertion in the last
    loop.) *)
Theorem set_osec_offsets_congruent image_base chunks chunks' filesize :
  Forall (fun c => is_pow2 (sh_addralign (shdr c))) chunks ->
  set_osec_offsets COMMON_PAGE_SIZE image_base chunks = Done (chunks', filesize) ->
  Forall2 laid_out chunks chunks' /\
  Forall (fun c => is_alloc c = true -> well_placed COMMON_PAGE_SIZE c) chunks'.
Proof.
  intros Hal Hrun. unfold set_osec_offsets in Hrun.
  apply bind_done in Hrun as (n & Hn & Hrun).
  apply bind_done in Hrun as (p & Hp & Hrun).
  apply bind_done in Hrun as ([cs' size] & Hr & [= <- <-]). simpl.
  rewrite <- (take_drop n chunks) in Hal. apply Forall_app in Hal as [Hal1 Hal2].
  apply place_alloc_spec in Hp as (_ & Hsrc & Hgood); [| done].
  apply place_nonalloc_spec in Hr as [Hsrc' Hna]. split.
  - rewrite <- (take_drop n chunks). by apply Forall2_app.
  - apply Forall_app. split.
    + eapply Forall_impl; [exact Hgood |]. done.
    + eapply Forall_impl; [exact Hna |]. simpl. intros c Hc. by rewrite Hc.
Qed.

End LayoutFacts.

Section LayoutExamples.
Import Word Run Elf Chunks Layout.

Lemma sample_chunks_aligned : Forall (fun c => is_pow2 (sh_addralign (shdr c))) sample_chunks.
Proof.
  unfold sample_chunks.
  repeat (constructor; [first [ by exists 0 | by exists 3 | by exists 4 | by exists 5 | by exists 6 ] |]).
  constructor.
Qed.

Lemma page_4096 : is_pow2 4096.
Proof. exists 12. split; [lia | reflexivity]. Qed.

Lemma set_osec_offsets_congruent_witness :
  exists chunks' filesize,
    set_osec_offsets 4096 0x200000 sample_chunks = Done (chunks', filesize) /\
    Forall (fun c => is_alloc c = true -> well_placed 4096 c) chunks'.
Proof.
  destruct (set_osec_offsets 4096 0x200000 sample_chunks) as [[chunks' filesize] | | |] eqn:Hrun;
    [| vm_compute in Hrun; discriminate Hrun ..].
  exists chunks', filesize. split; [reflexivity |].
  exact (proj2 (set_osec_offsets_congruent 4096 page_4096 0x200000 sample_chunks
                  chunks' filesize sample_chunks_aligned Hrun)).
Defined.

End LayoutExamples.

(** ** Garbage collection of sections *)

Section GcFacts.
Import Run Elf Gc.

Variable ctx : Context.

Local Abbreviation edge := (edge ctx).
Local Abbreviation closed_new := (closed_new ctx).
Local Abbreviation targets_visited := (targets_visited ctx).
Local Abbreviation visit := (visit ctx).
Local Abbreviation visit_ok := (visit_ok ctx).

(** *** States of a marking phase *)

Lemma grows_refl st : grows st st.
Proof. by repeat split. Qed.

Lemma grows_trans st1 st2 st3 : grows st1 st2 -> grows st2 st3 -> grows st1 st3.
Proof.
  intros (Ha & Hv & Hf) (Ha' & Hv' & Hf'). repeat split; [congruence | set_solver ..].
Qed.

Lemma closed_new_refl st : closed_new st st.
Proof. intros x Hx Hnx. done. Qed.

Lemma closed_new_trans st1 st2 st3 :
  grows st1 st2 -> grows st2 st3 ->
  closed_new st1 st2 -> closed_new st2 st3 -> closed_new st1 st3.
Proof.
  intros (Ha & Hv & _) (Ha' & Hv' & _) H12 H23 x Hx Hnx t Hedge Ht.
  destruct (decide (x ∈ is_visited st2)) as [Hx2 | Hx2].
  - apply Hv'. by apply (H12 x).
  - apply (H23 x); [done | done | done |]. by rewrite Ha.
Qed.

Lemma targets_visited_grows x st st' :
  targets_visited x st -> grows st st' -> targets_visited x st'.
Proof.
  intros H (Ha & Hv & _) t Hedge Ht. apply Hv, H; [done |]. by rewrite <- Ha.
Qed.

Lemma unvisited_grows st st' :
  grows st st' -> (size (unvisited st') <= size (unvisited st))%nat.
Proof.
  intros (Ha & Hv & _). apply subseteq_size. unfold unvisited. rewrite Ha. set_solver.
Qed.

Lemma unvisited_set_visited st i :
  i ∈ is_alive st -> i ∉ is_visited st ->
  (size (unvisited (set_visited st i)) < size (unvisited st))%nat.
Proof.
  intros Ha Hv. apply subset_size. unfold unvisited. simpl. set_solver.
Qed.

Lemma grows_set_visited st i : grows st (set_visited st i).
Proof. repeat split; simpl; set_solver. Qed.

Lemma grows_set_frag_alive st f : grows st (set_frag_alive st f).
Proof. repeat split; simpl; set_solver. Qed.

Lemma grows_frags st fs : grows st (foldl set_frag_alive st fs) /\
  is_visited (foldl set_frag_alive st fs) = is_visited st.
Proof.
  revert st. induction fs as [| f fs IH]; intros st; simpl; [by split; [apply grows_refl |] |].
  destruct (IH (set_frag_alive st f)) as [Hg Hv]. split; [| done].
  eapply grows_trans; [apply grows_set_frag_alive | done].
Qed.

(** *** A loop of marking steps *)

Lemma fold_steps {X : Type} (g : state -> X -> outcome state) (Q : X -> state -> Prop)
    (st0 : state) :
  (forall x st st', Q x st -> grows st st' -> Q x st') ->
  forall l,
    (forall x st, x ∈ l -> grows st0 st ->
       exists st', g st x = Done st' /\ grows st st' /\ closed_new st st' /\ Q x st') ->
    exists st', foldl (fun acc x => st ← acc; g st x) (Done st0) l = Done st' /\
      grows st0 st' /\ closed_new st0 st' /\ forall x, x ∈ l -> Q x st'.
Proof.
  intros Hmono l. induction l as [| x l IH] using rev_ind; intros Hstep.
  { exists st0. split; [done |]. split; [apply grows_refl |].
    split; [apply closed_new_refl |]. intros x Hx. by apply elem_of_nil in Hx. }
  destruct IH as (st1 & Hrun & Hg1 & Hc1 & HQ1).
  { intros y st Hy. apply Hstep. set_solver. }
  destruct (Hstep x st1) as (st2 & Hrun2 & Hg2 & Hc2 & HQ2); [set_solver | done |].
  exists st2. rewrite foldl_app. simpl. rewrite Hrun. split; [done |].
  split; [by eapply grows_trans |]. split; [by eapply closed_new_trans |].
  intros y [Hy | Hy%list_elem_of_singleton]%elem_of_app.
  - eapply Hmono; [by apply HQ1 | done].
  - by subst.
Qed.

(** *** [visit] *)

Lemma live_sections_grows st st' :
  live_sections_exist ctx st -> grows st st' -> live_sections_exist ctx st'.
Proof. intros H (Ha & _) i Hi. apply H. by rewrite <- Ha. Qed.

Lemma follow_step fuel st o d :
  visit_ok fuel ->
  live_sections_exist ctx st -> (size (unvisited st) <= fuel)%nat ->
  exists st', follow (visit fuel) st o d = Done st' /\
    grows st st' /\ closed_new st st' /\
    (forall t, o = Some t -> t ∈ is_alive st' -> t ∈ is_visited st').
Proof.
  intros IH Hlive Hsize. unfold follow, mark_section.
  destruct o as [t |].
  2:{ exists st. split; [done |]. split; [apply grows_refl |].
      split; [apply closed_new_refl | done]. }
  destruct (decide (t ∈ is_alive st)) as [Ha | Hna].
  2:{ exists st. split; [done |]. split; [apply grows_refl |].
      split; [apply closed_new_refl |]. by intros ? [= <-]. }
  destruct (decide (t ∈ is_visited st)) as [Hv | Hnv].
  - rewrite bool_decide_eq_true_2 by done. simpl.
    exists (set_visited st t). split; [done |]. split; [apply grows_set_visited |].
    split.
    + intros x Hx Hnx. simpl in Hx. set_solver.
    + intros ? [= <-] _. simpl. set_solver.
  - rewrite bool_decide_eq_false_2 by done. simpl.
    pose proof (unvisited_set_visited st t Ha Hnv) as Hlt.
    pose proof (grows_set_visited st t) as Hg1.
    destruct (IH (set_visited st t) t d) as (st' & Hrun & Hg & Hc & Ht).
    { by eapply live_sections_grows. }
    { lia. }
    { done. }
    { simpl. set_solver. }
    exists st'. split; [done |]. split; [by eapply grows_trans |]. split.
    + intros x Hx Hnx u Hedge Hu.
      destruct (decide (x = t)) as [-> | Hne].
      * apply Ht; [done |]. destruct Hg as (-> & _). done.
      * apply (Hc x); [done | | done | done]. simpl. set_solver.
    + intros ? [= <-] _. destruct Hg as (_ & Hv & _). apply Hv. simpl. set_solver.
Qed.

Lemma targets_elem sec t :
  t ∈ targets sec ->
  (exists osym, osym ∈ concat (drop 1 <$> fdes sec) /\ osym ≫= sym_isec = Some t) \/
  (exists sym, sym ∈ rels sec /\ sym_frag sym = None /\ sym_isec sym = Some t).
Proof.
  unfold targets. intros [H | H]%elem_of_app.
  - left. apply list_elem_of_omap in H as (osym & Hin & Ht). by exists osym.
  - right. apply list_elem_of_omap in H as (sym & Hin & Ht). exists sym.
    destruct (sym_frag sym); [done |]. by split.
Qed.

Lemma visit_spec fuel : visit_ok fuel.
Proof.
  induction fuel as [| fuel IH]; intros st i d Hlive Hsize Ha Hv; [lia |].
  simpl. rewrite bool_decide_eq_true_2 by done. simpl.
  destruct (Hlive i Ha) as [sec Hsec]. rewrite Hsec.
  destruct (grows_frags st (rel_fragments sec)) as [Hg0 Hv0].
  set (st0 := foldl set_frag_alive st (rel_fragments sec)) in *.
  assert (Hsize0 : forall st1, grows st0 st1 -> (size (unvisited st1) <= fuel)%nat).
  { intros st1 Hg1. pose proof (unvisited_grows _ _ Hg1).
    pose proof (unvisited_grows _ _ Hg0). lia. }
  (* the relocations of the FDEs *)
  destruct (fold_steps (visit_fde_rel (visit fuel) d)
              (fun osym st' => forall t, osym ≫= sym_isec = Some t ->
                                 t ∈ is_alive st' -> t ∈ is_visited st')
              st0) with (l := concat (drop 1 <$> fdes sec))
    as (st1 & Hrun1 & Hg1 & Hc1 & HQ1).
  { intros x s s' HQ (Hsa & Hsv & _) t Ht Halive. apply Hsv, HQ; [done |]. by rewrite <- Hsa. }
  { intros osym s _ Hgs. destruct osym as [sym |]; simpl.
    - apply follow_step; [done | | by apply Hsize0].
      apply (live_sections_grows st); [done |]. by apply (grows_trans st st0 s).
    - exists s. split; [done |]. split; [apply grows_refl |].
      split; [apply closed_new_refl | done]. }
  rewrite Hrun1. rewrite bind_Done.
  (* the relocations of the section *)
  destruct (fold_steps (visit_rel (visit fuel) d)
              (fun sym st' => forall t, sym_frag sym = None -> sym_isec sym = Some t ->
                                t ∈ is_alive st' -> t ∈ is_visited st')
              st1) with (l := rels sec)
    as (st2 & Hrun2 & Hg2 & Hc2 & HQ2).
  { intros x s s' HQ (Hsa & Hsv & _) t Hf Ht Halive. apply Hsv, HQ; [done | done |].
    by rewrite <- Hsa. }
  { intros sym s _ Hgs. unfold visit_rel. destruct (sym_frag sym) as [frag |].
    - exists (set_frag_alive s frag). split; [done |].
      split; [apply grows_set_frag_alive |]. split; [| done].
      intros x Hx Hnx. done.
    - destruct (follow_step fuel s (sym_isec sym) (d + 1) IH) as (s' & Hrun & Hg & Hc & Ht).
      { apply (live_sections_grows st); [done |].
        apply (grows_trans st st0 s); [done |]. by apply (grows_trans st0 st1 s). }
      { apply Hsize0. by apply (grows_trans st0 st1 s). }
      exists s'. split; [done |]. split; [done |]. split; [done |].
      intros t _. apply Ht. }
  rewrite Hrun2. exists st2. split; [done |].
  assert (Hg02 : grows st0 st2) by (by eapply grows_trans).
  split; [by eapply grows_trans |]. split.
  - apply (closed_new_trans st st0 st2); [done | done | |].
    + intros x Hx Hnx. rewrite Hv0 in Hx. done.
    + by apply (closed_new_trans st0 st1 st2).
  - intros t (sec' & Hsec' & Ht) Halive. rewrite Hsec in Hsec'. injection Hsec' as <-.
    apply targets_elem in Ht as [(osym & Hin & Ht) | (sym & Hin & Hf & Ht)].
    + destruct Hg2 as (Ha2 & Hv2 & _). apply Hv2, (HQ1 osym); [done | done |].
      by rewrite <- Ha2.
    + by apply (HQ2 sym).
Qed.

(** *** The root set *)

Lemma foldl_inv {A B : Type} (P : A -> Prop) (f : A -> B -> A) (l : list B) (a : A) :
  (forall a x, x ∈ l -> P a -> P (f a x)) -> P a -> P (foldl f a l).
Proof.
  revert a. induction l as [| x l IH]; intros a Hf Ha; simpl; [done |].
  apply IH; [| apply Hf; [set_solver | done]]. intros a' y Hy. apply Hf. set_solver.
Qed.

Lemma enqueue_section_marked st0 acc o :
  roots_marked st0 acc -> roots_marked st0 (enqueue_section acc o).
Proof.
  destruct acc as [rootset st]. intros [Hg Hroots]. simpl in *.
  unfold enqueue_section, mark_section. destruct o as [t |]; [| done].
  destruct (decide (t ∈ is_alive st)) as [Ha | Hna]; [| done].
  pose proof (grows_set_visited st t) as Hg1.
  assert (Hold : forall r, r ∈ rootset ->
            r ∈ is_alive (set_visited st t) /\ r ∈ is_visited (set_visited st t)).
  { intros r Hr. destruct (Hroots r Hr). simpl. set_solver. }
  destruct (negb (bool_decide (t ∈ is_visited st))).
  - split; [by eapply grows_trans |]. simpl.
    intros r [Hr | ->%list_elem_of_singleton]%elem_of_app; [by apply Hold |].
    simpl. set_solver.
  - split; [by eapply grows_trans | done].
Qed.

Lemma enqueue_symbol_marked st0 acc osym :
  roots_marked st0 acc -> roots_marked st0 (enqueue_symbol acc osym).
Proof.
  intros Hacc. unfold enqueue_symbol. destruct osym as [sym |]; [| done].
  destruct (sym_frag sym) as [frag |]; [| by apply enqueue_section_marked].
  destruct Hacc as [Hg Hroots]. split; simpl.
  - eapply grows_trans; [done | apply grows_set_frag_alive].
  - done.
Qed.

Lemma keep_section_marked st0 acc entry :
  roots_marked st0 acc -> roots_marked st0 (keep_section ctx acc entry).
Proof.
  intros Hacc. unfold keep_section. destruct entry as [i |]; [| done].
  destruct (sections ctx !! i) as [isec |]; [| done].
  destruct (negb (bool_decide _)); [done |].
  assert (Hacc' : roots_marked st0
            (if negb (has_flag (sh_flags isec) SHF_ALLOC)
             then (acc.1, set_visited acc.2 i) else acc)).
  { destruct (negb (has_flag _ _)); [| done]. destruct Hacc as [Hg Hroots].
    split; simpl.
    - eapply grows_trans; [done | apply grows_set_visited].
    - intros r Hr. destruct (Hroots r Hr). set_solver. }
  destruct (_ || _ || _); [by apply enqueue_section_marked | done].
Qed.

Lemma collect_root_set_marked st :
  roots_marked st (collect_root_set ctx st).
Proof.
  unfold collect_root_set. cbv zeta.
  apply foldl_inv.
  { intros acc file _ Hacc. apply foldl_inv; [| done].
    intros. by apply enqueue_symbol_marked. }
  apply foldl_inv.
  { intros. by apply enqueue_symbol_marked. }
  apply foldl_inv.
  { intros acc file _ Hacc. apply foldl_inv; [| done].
    intros. by apply enqueue_symbol_marked. }
  apply foldl_inv.
  { intros acc file _ Hacc. apply foldl_inv; [| done].
    intros. by apply keep_section_marked. }
  split; [apply grows_refl |]. intros r Hr. by apply elem_of_nil in Hr.
Qed.

Lemma mark_nonalloc_fragments_grows st :
  grows st (mark_nonalloc_fragments ctx st).
Proof.
  unfold mark_nonalloc_fragments.
  apply foldl_inv; [| apply grows_refl]. intros s file _ Hs.
  apply foldl_inv; [| done]. intros s' frag _ Hs'.
  destruct (negb frag.2); [| done].
  eapply grows_trans; [done | apply grows_set_frag_alive].
Qed.

(** *** [mark] and [sweep] *)

Lemma mark_spec rootset st :
  live_sections_exist ctx st ->
  (forall r, r ∈ rootset -> r ∈ is_alive st /\ r ∈ is_visited st) ->
  exists st', mark ctx (S (size (is_alive st))) rootset st = Done st' /\
    grows st st' /\ closed_new st st' /\
    forall r, r ∈ rootset -> targets_visited r st'.
Proof.
  intros Hlive Hroots. unfold mark.
  apply (fold_steps (fun s isec => visit (S (size (is_alive st))) s isec 0)
           targets_visited st).
  - intros x s s' H Hg. by eapply targets_visited_grows.
  - intros r s Hr Hg. destruct (Hroots r Hr) as [Ha Hv].
    apply visit_spec.
    + by eapply live_sections_grows.
    + pose proof (unvisited_grows _ _ Hg).
      assert (size (unvisited st) <= size (is_alive st))%nat.
      { apply subseteq_size. unfold unvisited. set_solver. }
      lia.
    + destruct Hg as (-> & _). done.
    + destruct Hg as (_ & Hsv & _). by apply Hsv.
Qed.

Lemma traversed_visited rootset st st' :
  (forall r, r ∈ rootset -> r ∈ is_visited st) ->
  grows st st' -> closed_new st st' ->
  (forall r, r ∈ rootset -> targets_visited r st') ->
  forall s, traversed ctx rootset st s -> s ∈ is_visited st' /\ targets_visited s st'.
Proof.
  intros Hroots Hg Hc Htv s Hs. induction Hs as [r Hr | s t _ [IHv IHt] Hedge Ha Hnv].
  - split; [| by apply Htv]. destruct Hg as (_ & Hv & _). by apply Hv, Hroots.
  - assert (Ht : t ∈ is_visited st').
    { apply IHt; [done |]. destruct Hg as (-> & _). done. }
    split; [done |]. intros u Hu Hua. apply (Hc t); [done | done | done |].
    destruct Hg as (<- & _). done.
Qed.

Lemma sweep_sections_spec : forall l st i,
  (i ∈ is_alive (foldl sweep_section st l) <->
   i ∈ is_alive st /\ ~ (Some i ∈ l /\ i ∉ is_visited st)) /\
  is_visited (foldl sweep_section st l) = is_visited st.
Proof.
  induction l as [| e l IH]; intros st i; simpl.
  { split; [| done]. split; [| tauto]. intros H. split; [done |].
    intros [Hin _]. by apply elem_of_nil in Hin. }
  destruct (IH (sweep_section st e) i) as [IHa IHv].
  assert (Hstep : (i ∈ is_alive (sweep_section st e) <->
                   i ∈ is_alive st /\ ~ (e = Some i /\ i ∉ is_visited st)) /\
                  is_visited (sweep_section st e) = is_visited st).
  { unfold sweep_section. destruct e as [j |].
    2:{ split; [| done]. split; [intros H; split; [done | by intros [? _]] | tauto]. }
    destruct (decide (j ∈ is_alive st)) as [Hj | Hj];
      destruct (decide (j ∈ is_visited st)) as [Hv | Hv];
      rewrite ?(bool_decide_eq_true_2 _ Hj), ?(bool_decide_eq_false_2 _ Hj),
              ?(bool_decide_eq_true_2 _ Hv), ?(bool_decide_eq_false_2 _ Hv); simpl;
      (split; [| done]); split.
    all: try (intros H; split; [set_solver |]; intros [[= ->] Hnv]; set_solver).
    all: try (intros [H Hn]; done).
    intros [H Hn]. destruct (decide (i = j)) as [-> | Hne]; [| set_solver].
    exfalso. apply Hn. done. }
  destruct Hstep as [Hsa Hsv]. split; [| congruence].
  rewrite IHa, Hsa, Hsv. rewrite elem_of_cons. split.
  - intros [[Ha Hne] Hnl]. split; [done |]. intros [[Heq | Hin] Hnv].
    + apply Hne. by split.
    + by apply Hnl.
  - intros [Ha Hn]. split; [split; [done |] |].
    + intros [-> Hnv]. apply Hn. split; [by left | done].
    + intros [Hin Hnv]. apply Hn. split; [by right | done].
Qed.

Lemma sweep_spec st i :
  i ∈ is_alive (sweep ctx st) <->
  i ∈ is_alive st /\ ~ (listed ctx i /\ i ∉ is_visited st).
Proof.
  unfold sweep, listed.
  assert (H : forall l st,
    (i ∈ is_alive (foldl (fun st file => foldl sweep_section st (file_sections file)) st l) <->
     i ∈ is_alive st /\
     ~ ((exists file, file ∈ l /\ Some i ∈ file_sections file) /\ i ∉ is_visited st)) /\
    is_visited (foldl (fun st file => foldl sweep_section st (file_sections file)) st l)
    = is_visited st).
  { induction l as [| file l IH]; intros s; simpl.
    { split; [| done]. split; [| tauto]. intros H. split; [done |].
      intros [(file & Hin & _) _]. by apply elem_of_nil in Hin. }
    destruct (IH (foldl sweep_section s (file_sections file))) as [IHa IHv].
    destruct (sweep_sections_spec (file_sections file) s i) as [Hsa Hsv].
    split; [| congruence]. rewrite IHa, Hsa, Hsv. split.
    - intros [[Ha Hn1] Hn2]. split; [done |].
      intros [(file' & [-> | Hin]%elem_of_cons & Hsec) Hnv].
      + by apply Hn1.
      + apply Hn2. split; [by exists file' | done].
    - intros [Ha Hn]. split; [split; [done |] |].
      + intros [Hsec Hnv]. apply Hn. split; [| done]. exists file. split; [by left | done].
      + intros [(file' & Hin & Hsec) Hnv]. apply Hn. split; [| done].
        exists file'. split; [by right | done]. }
  apply H.
Qed.

(** C3: [gc_sections] returns, and every section that is reachable from the
    root set of [collect_root_set] (along the relocations of the sections
    that [visit] runs on, and the relocations but the first of their FDEs)
    and that was alive is alive afterwards; [sweep] kills exactly the
    sections of the object files that are alive and were not marked
    [is_visited]. *)
Theorem gc_sections_sound st :
  live_sections_exist ctx st ->
  let st0 := mark_nonalloc_fragments ctx st in
  let rootset := (collect_root_set ctx st0).1 in
  let st1 := (collect_root_set ctx st0).2 in
  exists stm,
    mark ctx (S (size (is_alive st1))) rootset st1 = Done stm /\
    gc_sections ctx st = Done (sweep ctx stm) /\
    (forall s, reachable ctx rootset st1 s -> s ∈ is_alive st ->
       s ∈ is_alive (sweep ctx stm)) /\
    (forall i, i ∈ is_alive (sweep ctx stm) <->
       i ∈ is_alive st /\ ~ (listed ctx i /\ i ∉ is_visited stm)).
Proof.
  intros Hlive st0 rootset st1.
  pose proof (mark_nonalloc_fragments_grows st) as Hg0. fold st0 in Hg0.
  destruct (collect_root_set_marked st0) as [Hg1 Hroots].
  fold rootset st1 in Hg1, Hroots.
  assert (Hg01 : grows st st1) by (by eapply grows_trans).
  destruct (mark_spec rootset st1) as (stm & Hmark & Hgm & Hcm & Htv).
  { by eapply live_sections_grows. }
  { done. }
  assert (Halive : is_alive stm = is_alive st).
  { destruct Hgm as (-> & _). by destruct Hg01 as (-> & _). }
  exists stm. split; [done |]. split.
  { unfold gc_sections. fold st0. subst rootset st1.
    destruct (collect_root_set ctx st0) as [rs s1]. simpl in *. by rewrite Hmark. }
  split.
  - intros s Hreach Hs. apply sweep_spec. rewrite Halive. split; [done |].
    intros [_ Hnv]. apply Hnv.
    pose proof (traversed_visited rootset st1 stm
                  (fun r Hr => proj2 (Hroots r Hr)) Hgm Hcm Htv) as Htrav.
    destruct Hreach as [Hroot | (x & Hx & Hedge)].
    + destruct Hgm as (_ & Hv & _). by apply Hv, Hroots.
    + destruct (Htrav x Hx) as [_ Hxt]. apply Hxt; [done |]. by rewrite Halive.
  - intros i. rewrite sweep_spec, Halive. done.
Qed.

End GcFacts.

Section GcExamples.
Import Run Elf Gc.

Lemma sample_live : live_sections_exist sample_ctx sample_st.
Proof.
  intros i Hi. assert (Hcases : (i = 0 \/ i = 1 \/ i = 2)%nat).
  { unfold sample_st in Hi. simpl in Hi. set_solver. }
  destruct Hcases as [-> | [-> | ->]]; eexists; reflexivity.
Qed.

Lemma sample_rootset :
  (collect_root_set sample_ctx (mark_nonalloc_fragments sample_ctx sample_st)).1 = [0%nat].
Proof. vm_compute. reflexivity. Qed.

Lemma gc_sections_sound_witness :
  exists stm, gc_sections sample_ctx sample_st = Done (sweep sample_ctx stm) /\
    1%nat ∈ is_alive (sweep sample_ctx stm).
Proof.
  destruct (gc_sections_sound sample_ctx sample_st sample_live)
    as (stm & _ & Hgc & Hsound & _).
  exists stm. split; [exact Hgc |]. apply Hsound.
  - right. exists 0%nat. split.
    + apply traversed_root. rewrite sample_rootset. apply elem_of_cons. by left.
    + exists sec_main. split; [reflexivity |]. apply elem_of_cons. by left.
  - unfold sample_st. simpl. set_solver.
Defined.

End GcExamples.

(** ** Symbol resolution *)

Section ResolverFacts.
Import Word Run Resolver.

Variable ctx : Context.

Local Abbreviation pool := (file_pool ctx).
Local Abbreviation rank := (get_rank_sym ctx).
Local Abbreviation overrides := (overrides ctx).
Local Abbreviation advances := (advances ctx).
Local Abbreviation valid := (valid ctx).
Local Abbreviation settled := (settled ctx).
Local Abbreviation settled_common := (settled_common ctx).

(** *** Ranks and tiers *)

Lemma tier_range F e l : 1 <= tier F e l <= 6.
Proof. unfold tier. repeat case_match; lia. Qed.

Lemma get_rank_tier F e l :
  0 <= priority F < 2 ^ 24 -> get_rank F e l = tier F e l * 2 ^ 24 + priority F.
Proof.
  intros Hp. unfold get_rank, tier.
  repeat case_match; unfold u64, wrap; rewrite Z.shiftl_mul_pow2 by lia;
    rewrite Z.mod_small; lia.
Qed.

Lemma rank_unclaimed sym : file sym = None -> rank sym = 7 * 2 ^ 24.
Proof. intros Hf. unfold get_rank_sym. rewrite Hf. reflexivity. Qed.

Lemma rank_held sym h H e :
  file sym = Some h -> pool !! h = Some H ->
  elf_syms H !! Z.to_nat (sym_idx sym) = Some e ->
  rank sym = get_rank H e (is_lazy sym).
Proof.
  intros Hf HH He. unfold get_rank_sym, esym_of. rewrite Hf, HH, He. reflexivity.
Qed.

Lemma rank_holder sym sym' : holder sym = holder sym' -> rank sym = rank sym'.
Proof.
  unfold holder. intros [= Hf Hi Hl]. unfold get_rank_sym, esym_of.
  rewrite Hf, Hi, Hl. reflexivity.
Qed.

(** *** Overriding *)

Lemma overrides_refl st : overrides st st.
Proof. intros s. by left. Qed.

Lemma overrides_trans st1 st2 st3 :
  overrides st1 st2 -> overrides st2 st3 -> overrides st1 st3.
Proof.
  intros H12 H23 s. destruct (H12 s) as [He | Hlt], (H23 s) as [He' | Hlt'].
  - left. congruence.
  - right. by rewrite <- (rank_holder _ _ He).
  - right. by rewrite (rank_holder _ _ He').
  - right. lia.
Qed.

Lemma overrides_le st st' s :
  overrides st st' -> rank (syms st' s) <= rank (syms st s).
Proof. intros Ho. destruct (Ho s) as [He | Hlt]; [rewrite (rank_holder _ _ He) |]; lia. Qed.

Lemma advances_refl st : advances st st.
Proof. split; [apply overrides_refl | done]. Qed.

Lemma advances_overrides st st' : advances st st' -> overrides st st'.
Proof. by intros [Ho _]. Qed.

Lemma advances_trans st1 st2 st3 :
  advances st1 st2 -> advances st2 st3 -> advances st1 st3.
Proof.
  intros (Ho & Ha & Hobjs & Hdsos) (Ho' & Ha' & Hobjs' & Hdsos').
  split; [by eapply overrides_trans |]. split; [set_solver |]. split; congruence.
Qed.

Lemma settled_advances st st' this :
  settled st this -> overrides st st' -> settled st' this.
Proof.
  intros Hs Ho F i s e HF Hd Hc. pose proof (overrides_le _ _ s Ho).
  specialize (Hs F i s e HF Hd Hc). lia.
Qed.

Lemma settled_common_advances st st' this :
  settled_common st this -> overrides st st' -> settled_common st' this.
Proof.
  intros Hs Ho F i s e HF Hd Hc. pose proof (overrides_le _ _ s Ho).
  specialize (Hs F i s e HF Hd Hc). lia.
Qed.

Lemma valid_alive st st' :
  valid st -> syms st' = syms st -> is_alive st ⊆ is_alive st' -> valid st'.
Proof.
  intros Hv Hs Ha s h. rewrite Hs. intros Hf.
  destruct (Hv s h Hf) as (H & e & HH & Hd & Hl & Hnl).
  exists H, e. repeat split; try done; try apply Hd. intros Hlz. apply Ha. by apply Hnl.
Qed.

(** *** Installing a definition *)

(** What the four loops do when they install the entry [i] of [this]: the
    symbol gets the rank of the entry, the others keep theirs. *)
Lemma install_rank this self s i esym sym' st :
  pool !! this = Some self -> elf_syms self !! i = Some esym ->
  file sym' = Some this -> sym_idx sym' = Z.of_nat i ->
  rank (syms (set_sym s sym' st) s) = get_rank self esym (is_lazy sym').
Proof.
  intros Hself He Hf Hi. simpl. rewrite fn_lookup_insert.
  apply (rank_held _ this); [done | done |]. by rewrite Hi, Nat2Z.id.
Qed.

Lemma install_overrides this self s i esym sym' st :
  pool !! this = Some self -> elf_syms self !! i = Some esym ->
  file sym' = Some this -> sym_idx sym' = Z.of_nat i ->
  get_rank self esym (is_lazy sym') < rank (syms st s) ->
  overrides st (set_sym s sym' st).
Proof.
  intros Hself He Hf Hi Hlt s'. destruct (decide (s' = s)) as [-> | Hne].
  - right. by rewrite (install_rank this self s i esym).
  - left. simpl. by rewrite fn_lookup_insert_ne.
Qed.

Lemma install_valid this self s i esym sym' st :
  pool !! this = Some self -> defines self i s esym ->
  file sym' = Some this -> sym_idx sym' = Z.of_nat i ->
  (is_lazy sym' = true -> ElfSym.is_common esym = false) ->
  (is_lazy sym' = false -> this ∈ is_alive st) ->
  valid st -> valid (set_sym s sym' st).
Proof.
  intros Hself Hd Hf Hi Hlz Hnl Hv s' h. simpl.
  destruct (decide (s' = s)) as [-> | Hne].
  - rewrite fn_lookup_insert. rewrite Hf. intros [= <-].
    exists self, esym. rewrite Hi, Nat2Z.id. done.
  - rewrite fn_lookup_insert_ne by done. apply Hv.
Qed.

(** *** The bodies of the loops *)

Lemma lazy_symbol_step this self st i :
  pool !! this = Some self -> (first_global self <= i)%nat ->
  overrides st (lazy_symbol ctx this self st i) /\
  is_alive (lazy_symbol ctx this self st i) = is_alive st /\
  (objs (lazy_symbol ctx this self st i) = objs st /\
   dsos (lazy_symbol ctx this self st i) = dsos st) /\
  (valid st -> valid (lazy_symbol ctx this self st i)).
Proof.
  intros Hself Hi. unfold lazy_symbol.
  destruct (symbols self !! i) as [s |] eqn:Hs; [| by split; [apply overrides_refl |]].
  destruct (elf_syms self !! i) as [esym |] eqn:He; [| by split; [apply overrides_refl |]].
  destruct (ElfSym.is_undef esym || ElfSym.is_common esym) eqn:Hk;
    [by split; [apply overrides_refl |] |].
  apply orb_false_iff in Hk as [Hu Hc].
  case_bool_decide as Hlt; [| by split; [apply overrides_refl |]].
  split; [by apply (install_overrides this self s i esym) |].
  split; [done |]. split; [done |].
  by apply (install_valid this self s i esym).
Qed.

Lemma regular_symbol_step this self st i :
  pool !! this = Some self -> (first_global self <= i)%nat ->
  overrides st (regular_symbol ctx this self st i) /\
  is_alive (regular_symbol ctx this self st i) = is_alive st /\
  (objs (regular_symbol ctx this self st i) = objs st /\
   dsos (regular_symbol ctx this self st i) = dsos st) /\
  (valid st -> this ∈ is_alive st -> valid (regular_symbol ctx this self st i)).
Proof.
  intros Hself Hi. unfold regular_symbol.
  destruct (symbols self !! i) as [s |] eqn:Hs; [| by split; [apply overrides_refl |]].
  destruct (elf_syms self !! i) as [esym |] eqn:He; [| by split; [apply overrides_refl |]].
  destruct (ElfSym.is_undef esym || ElfSym.is_common esym) eqn:Hk;
    [by split; [apply overrides_refl |] |].
  apply orb_false_iff in Hk as [Hu Hc].
  case_bool_decide as Hlt; [| by split; [apply overrides_refl |]].
  unfold override_symbol.
  split; [by apply (install_overrides this self s i esym) |].
  split; [done |]. split; [done |].
  intros Hv Ha. by apply (install_valid this self s i esym).
Qed.

Lemma common_symbol_step this self st i :
  pool !! this = Some self -> (first_global self <= i)%nat ->
  overrides st (common_symbol ctx this self st i) /\
  is_alive (common_symbol ctx this self st i) = is_alive st /\
  (objs (common_symbol ctx this self st i) = objs st /\
   dsos (common_symbol ctx this self st i) = dsos st) /\
  (valid st -> this ∈ is_alive st -> valid (common_symbol ctx this self st i)) /\
  (forall s, (forall h, file (syms st s) = Some h -> is_lazy (syms st s) = false) ->
     forall h, file (syms (common_symbol ctx this self st i) s) = Some h ->
       is_lazy (syms (common_symbol ctx this self st i) s) = false) /\
  (forall s e, symbols self !! i = Some s -> elf_syms self !! i = Some e ->
     ElfSym.is_common e = true ->
     rank (syms (common_symbol ctx this self st i) s) <= get_rank self e false).
Proof.
  intros Hself Hi. unfold common_symbol.
  destruct (symbols self !! i) as [s |] eqn:Hs;
    [| by split; [apply overrides_refl |]].
  destruct (elf_syms self !! i) as [esym |] eqn:He;
    [| by split; [apply overrides_refl |]].
  destruct (ElfSym.is_common esym) eqn:Hc; simpl;
    [| split; [apply overrides_refl |]; repeat split; try done; intros; congruence].
  assert (Hu : ElfSym.is_undef esym = false).
  { unfold ElfSym.is_common, ElfSym.is_undef in *. apply bool_decide_eq_true in Hc.
    apply bool_decide_eq_false. rewrite Hc. done. }
  case_bool_decide as Hlt.
  - split; [by apply (install_overrides this self s i esym) |].
    split; [done |]. split; [done |].
    split; [intros Hv Ha; by apply (install_valid this self s i esym) |].
    split.
    + intros s' Hs' h. simpl. destruct (decide (s' = s)) as [-> | Hne].
      * by rewrite fn_lookup_insert.
      * rewrite fn_lookup_insert_ne by done. apply Hs'.
    + intros s' e [= <-] [= <-] _. rewrite (install_rank this self s i esym) by done.
      simpl. lia.
  - split; [apply overrides_refl |]. repeat split; try done.
    intros s' e [= <-] [= <-] _. lia.
Qed.

Lemma live_symbol_step this self st feeder i :
  pool !! this = Some self -> (first_global self <= i)%nat ->
  forall st' feeder', live_symbol ctx this self (st, feeder) i = (st', feeder') ->
  overrides st st' /\ (objs st' = objs st /\ dsos st' = dsos st) /\
  ((is_alive st' = is_alive st /\ feeder' = feeder) \/
   (exists h, (h ∉ is_alive st) /\ is_alive st' = {[h]} ∪ is_alive st /\
      feeder' = feeder ++ [h] /\ syms st' = syms st /\
      exists s, file (syms st s) = Some h)) /\
  (valid st -> this ∈ is_alive st -> valid st') /\
  (forall s e, symbols self !! i = Some s -> elf_syms self !! i = Some e ->
     ElfSym.is_undef e = false -> ElfSym.is_common e = false ->
     rank (syms st' s) <= get_rank self e false).
Proof.
  intros Hself Hi st' feeder'. unfold live_symbol.
  destruct (symbols self !! i) as [s |] eqn:Hs;
    [| intros [= <- <-]; split; [apply overrides_refl |]; repeat split; try done; by left].
  destruct (elf_syms self !! i) as [esym |] eqn:He;
    [| intros [= <- <-]; split; [apply overrides_refl |]; repeat split; try done; by left].
  destruct (ElfSym.is_undef esym || ElfSym.is_common esym) eqn:Hk.
  - assert (Hnone : forall e, Some esym = Some e ->
              ElfSym.is_undef e = false -> ElfSym.is_common e = false -> False).
    { intros e [= <-] Hu Hc. rewrite Hu, Hc in Hk. discriminate. }
    destruct (file (syms st s)) as [h |] eqn:Hf.
    + destruct (negb (ElfSym.is_weak esym) && negb (bool_decide (h ∈ is_alive st))) eqn:Hw.
      * intros [= <- <-]. apply andb_true_iff in Hw as [_ Hna].
        apply negb_true_iff, bool_decide_eq_false in Hna.
        split; [intros s'; by left |]. split; [done |].
        split; [right; exists h; repeat split; try done; by exists s |].
        split; [intros Hv _; apply (valid_alive st); [done | done | set_solver] |].
        intros s' e _ He' Hu Hc. destruct (Hnone e He' Hu Hc).
      * intros [= <- <-]. split; [apply overrides_refl |]. split; [done |].
        split; [by left |]. split; [done |].
        intros s' e _ He' Hu Hc. destruct (Hnone e He' Hu Hc).
    + intros [= <- <-]. split; [apply overrides_refl |]. split; [done |].
      split; [by left |]. split; [done |].
      intros s' e _ He' Hu Hc. destruct (Hnone e He' Hu Hc).
  - apply orb_false_iff in Hk as [Hu Hc]. case_bool_decide as Hlt.
    + intros [= <- <-]. unfold override_symbol.
      split; [by apply (install_overrides this self s i esym) |].
      split; [done |]. split; [by left |].
      split; [intros Hv Ha; by apply (install_valid this self s i esym) |].
      intros s' e [= <-] [= <-] _ _. rewrite (install_rank this self s i esym) by done.
      simpl. lia.
    + intros [= <- <-]. split; [apply overrides_refl |]. split; [done |].
      split; [by left |]. split; [done |].
      intros s' e [= <-] [= <-] _ _. lia.
Qed.

(** *** The loops *)

Lemma foldl_steps {S X : Type} (step : S -> X -> S) (Inv : S -> Prop)
    (le : S -> S -> Prop) (Q : X -> S -> Prop) (P : X -> Prop) :
  (forall a, le a a) -> (forall a b c, le a b -> le b c -> le a c) ->
  (forall x a b, Q x a -> le a b -> Q x b) ->
  (forall x a, P x -> Inv a -> Inv (step a x) /\ le a (step a x) /\ Q x (step a x)) ->
  forall l a, Forall P l -> Inv a ->
    Inv (foldl step a l) /\ le a (foldl step a l) /\
    forall x, x ∈ l -> Q x (foldl step a l).
Proof.
  intros Hrefl Htrans Hmono Hstep l. induction l as [| x l IH]; intros a HP Ha; simpl.
  { split; [done |]. split; [apply Hrefl |]. intros x Hx. by apply elem_of_nil in Hx. }
  apply Forall_cons in HP as [Hx HP].
  destruct (Hstep x a Hx Ha) as (Ha' & Hle & HQ).
  destruct (IH (step a x) HP Ha') as (Hinv & Hle' & HQ').
  split; [done |]. split; [by eapply Htrans |].
  intros y Hy. apply elem_of_cons in Hy as [-> | Hy]; [| by apply HQ'].
  by apply (Hmono _ (step a x)).
Qed.

Lemma foldl_preserves {S X B : Type} (g : S -> B) (step : S -> X -> S) :
  (forall a x, g (step a x) = g a) -> forall l a, g (foldl step a l) = g a.
Proof.
  intros Hstep l. induction l as [| x l IH]; intros a; simpl; [done |].
  by rewrite IH.
Qed.

Lemma globals_from self : Forall (fun i => (first_global self <= i)%nat) (global_entries self).
Proof. apply Forall_forall. intros i Hi. apply elem_of_seq in Hi. lia. Qed.

Lemma defines_globals self i s e : defines self i s e -> i ∈ global_entries self.
Proof.
  intros (Hi & Hs & _). apply lookup_lt_Some in Hs. apply elem_of_seq. lia.
Qed.

Lemma defines_global_syms self i s e : defines self i s e -> s ∈ get_global_syms self.
Proof.
  intros (Hi & Hs & _). unfold get_global_syms.
  apply (list_elem_of_lookup_2 _ (i - first_global self)).
  rewrite lookup_drop. by replace (first_global self + (i - first_global self))%nat with i by lia.
Qed.

(** [resolve_lazy_symbols] *)
Lemma resolve_lazy_symbols_spec this self st :
  pool !! this = Some self -> is_in_lib self = true ->
  exists st', resolve_lazy_symbols ctx this self st = Done st' /\
    advances st st' /\ is_alive st' = is_alive st /\ (valid st -> valid st').
Proof.
  intros Hself Hlib. unfold resolve_lazy_symbols. rewrite Hlib.
  eexists. split; [reflexivity |].
  destruct (foldl_steps (lazy_symbol ctx this self)
              (fun a => is_alive a = is_alive st /\ (valid st -> valid a))
              advances (fun _ _ => True) (fun i => (first_global self <= i)%nat)
              advances_refl advances_trans) with (l := global_entries self) (a := st)
    as ((Ha & Hv) & Hadv & _); try done.
  - intros i a Hi (Ha & Hv).
    destruct (lazy_symbol_step this self a i Hself Hi) as (Ho & Ha' & Hobjs & Hv').
    split; [split; [congruence | tauto] |]. split; [| done].
    split; [done |]. split; [by rewrite Ha' | done].
  - apply globals_from.
Qed.

(** [resolve_regular_symbols] *)
Lemma resolve_regular_symbols_spec this self st :
  pool !! this = Some self -> is_in_lib self = false ->
  exists st', resolve_regular_symbols ctx this self st = Done st' /\
    advances st st' /\ is_alive st' = is_alive st /\
    (valid st -> this ∈ is_alive st -> valid st').
Proof.
  intros Hself Hlib. unfold resolve_regular_symbols. rewrite Hlib.
  eexists. split; [reflexivity |].
  destruct (foldl_steps (regular_symbol ctx this self)
              (fun a => is_alive a = is_alive st /\
                        (valid st -> this ∈ is_alive st -> valid a))
              advances (fun _ _ => True) (fun i => (first_global self <= i)%nat)
              advances_refl advances_trans) with (l := global_entries self) (a := st)
    as ((Ha & Hv) & Hadv & _); try done.
  - intros i a Hi (Ha & Hv).
    destruct (regular_symbol_step this self a i Hself Hi) as (Ho & Ha' & Hobjs & Hv').
    split; [split; [congruence |] |].
    { intros Hvst Hin. apply Hv'; [by apply Hv | by rewrite Ha]. }
    split; [| done]. split; [done |]. split; [by rewrite Ha' | done].
  - apply globals_from.
Qed.

(** [resolve_common_symbols] *)
Lemma has_common_symbol_false self i s e :
  has_common_symbol self = false -> defines self i s e -> ElfSym.is_common e = false.
Proof.
  intros Hc (Hi & _ & He & _). unfold has_common_symbol in Hc.
  destruct (ElfSym.is_common e) eqn:Hce; [| done].
  assert (Hex : existsb ElfSym.is_common (drop (first_global self) (elf_syms self)) = true).
  { apply existsb_exists. exists e. split; [| done]. apply list_elem_of_In.
    apply (list_elem_of_lookup_2 _ (i - first_global self)). rewrite lookup_drop.
    by replace (first_global self + (i - first_global self))%nat with i by lia. }
  congruence.
Qed.

Lemma resolve_common_symbols_spec this self st :
  pool !! this = Some self ->
  advances st (resolve_common_symbols ctx this self st) /\
  is_alive (resolve_common_symbols ctx this self st) = is_alive st /\
  (valid st -> this ∈ is_alive st -> valid (resolve_common_symbols ctx this self st)) /\
  ((forall s h, file (syms st s) = Some h -> is_lazy (syms st s) = false) ->
   forall s h, file (syms (resolve_common_symbols ctx this self st) s) = Some h ->
     is_lazy (syms (resolve_common_symbols ctx this self st) s) = false) /\
  settled_common (resolve_common_symbols ctx this self st) this.
Proof.
  intros Hself. unfold resolve_common_symbols.
  destruct (has_common_symbol self) eqn:Hhas; simpl.
  2:{ split; [apply advances_refl |]. repeat split; try done.
      intros F i s e HF Hd Hc. assert (F = self) as -> by congruence.
      rewrite (has_common_symbol_false self i s e Hhas Hd) in Hc. discriminate. }
  destruct (foldl_steps (common_symbol ctx this self)
              (fun a => is_alive a = is_alive st /\
                        (valid st -> this ∈ is_alive st -> valid a) /\
                        ((forall s h, file (syms st s) = Some h -> is_lazy (syms st s) = false) ->
                         forall s h, file (syms a s) = Some h -> is_lazy (syms a s) = false))
              advances
              (fun i a => forall s e, symbols self !! i = Some s -> elf_syms self !! i = Some e ->
                 ElfSym.is_common e = true -> rank (syms a s) <= get_rank self e false)
              (fun i => (first_global self <= i)%nat)
              advances_refl advances_trans) with (l := global_entries self) (a := st)
    as ((Ha & Hv & Hnl) & Hadv & HQ); try done.
  - intros i a b HQ (Ho & _) s e Hs He Hc. pose proof (overrides_le _ _ s Ho).
    specialize (HQ s e Hs He Hc). lia.
  - intros i a Hi (Ha & Hv & Hnl).
    destruct (common_symbol_step this self a i Hself Hi)
      as (Ho & Ha' & Hobjs & Hv' & Hnl' & HQ).
    split; [split; [congruence |]; split |].
    { intros Hvst Hin. apply Hv'; [by apply Hv | by rewrite Ha]. }
    { intros Hst s h. apply Hnl'. by apply Hnl. }
    split; [| done]. split; [done |]. split; [by rewrite Ha' | done].
  - apply globals_from.
  - split; [done |]. split; [done |]. split; [done |]. split; [done |].
    intros F i s e HF Hd Hc. assert (F = self) as -> by congruence.
    apply (HQ i); [by eapply defines_globals | apply Hd | apply Hd | done].
Qed.

(** [mark_live_objects] *)
Lemma mark_live_objects_overrides this self st st' feeder :
  pool !! this = Some self ->
  mark_live_objects ctx this self st = Done (st', feeder) -> overrides st st'.
Proof.
  intros Hself. unfold mark_live_objects. case_bool_decide; [| done]. intros [= Hrun].
  destruct (foldl_steps (live_symbol ctx this self) (fun _ => True)
              (fun a b => overrides a.1 b.1) (fun _ _ => True)
              (fun i => (first_global self <= i)%nat)) with (l := global_entries self) (a := (st, @nil nat))
    as (_ & Ho & _); try done.
  - intros a. apply overrides_refl.
  - intros a b c. apply overrides_trans.
  - intros i [a fed] Hi _. destruct (live_symbol ctx this self (a, fed) i) as [a' fed'] eqn:Hstep.
    destruct (live_symbol_step this self a fed i Hself Hi a' fed' Hstep) as (Ho & _).
    done.
  - apply globals_from.
  - by rewrite Hrun in Ho.
Qed.

Lemma mark_live_objects_spec this self st :
  pool !! this = Some self -> valid st -> this ∈ is_alive st ->
  exists st' feeder, mark_live_objects ctx this self st = Done (st', feeder) /\
    valid st' /\ advances st st' /\ settled st' this /\
    is_alive st' = is_alive st ∪ list_to_set feeder /\ NoDup feeder /\
    forall h, h ∈ feeder -> (h ∉ is_alive st) /\ is_Some (pool !! h).
Proof.
  intros Hself Hv Hin. unfold mark_live_objects. rewrite bool_decide_eq_true_2 by done.
  destruct (foldl (live_symbol ctx this self) (st, []) (global_entries self)) as [st' feeder] eqn:Hrun.
  exists st', feeder. split; [done |].
  destruct (foldl_steps (live_symbol ctx this self)
              (fun a => valid a.1 /\ is_alive a.1 = is_alive st ∪ list_to_set a.2 /\
                        NoDup a.2 /\
                        forall h, h ∈ a.2 -> (h ∉ is_alive st) /\ is_Some (pool !! h))
              (fun a b => advances a.1 b.1)
              (fun i a => forall s e, symbols self !! i = Some s ->
                 elf_syms self !! i = Some e -> ElfSym.is_undef e = false ->
                 ElfSym.is_common e = false -> rank (syms a.1 s) <= get_rank self e false)
              (fun i => (first_global self <= i)%nat)) with (l := global_entries self) (a := (st, @nil nat))
    as ((Hv' & Ha' & Hnd & Hfed) & Hadv & HQ).
  - intros a. apply advances_refl.
  - intros a b c. apply advances_trans.
  - intros i a b HQ (Ho & _) s e Hs He Hu Hc. pose proof (overrides_le _ _ s Ho).
    specialize (HQ s e Hs He Hu Hc). lia.
  - intros i [a fed] Hi (Hva & Haa & Hnd & Hfed). cbn [fst snd] in *.
    destruct (live_symbol ctx this self (a, fed) i) as [a' fed'] eqn:Hstep.
    destruct (live_symbol_step this self a fed i Hself Hi a' fed' Hstep)
      as (Ho & Hobjs & Hcase & Hva' & HQ).
    assert (Hthis : this ∈ is_alive a) by (rewrite Haa; set_solver).
    cbn [fst snd]. destruct Hcase as [[Hsame ->] | (h & Hnh & Hal & -> & Hsyms & s & Hs)].
    + split; [split; [by apply Hva' |]; split; [by rewrite Hsame |]; done |].
      split; [| done]. split; [done |]. split; [by rewrite Hsame | done].
    + destruct (Hva s h Hs) as (H & _ & HH & _).
      split; [split; [by apply Hva' |]; split; [| split] |].
      * rewrite Hal, Haa, list_to_set_app_L. simpl. set_solver.
      * apply NoDup_app. split; [done |]. split; [| apply NoDup_singleton].
        intros x Hx Hxh. apply list_elem_of_singleton in Hxh as ->.
        apply Hnh. rewrite Haa. set_solver.
      * intros x Hx. apply elem_of_app in Hx as [Hx | Hx]; [by apply Hfed |].
        apply list_elem_of_singleton in Hx as ->. split; [| by eexists].
        intros Hc. apply Hnh. rewrite Haa. set_solver.
      * split; [| done]. split; [done |]. split; [rewrite Hal; set_solver | done].
  - apply globals_from.
  - cbn [fst snd]. split; [done |]. split; [set_solver |]. split; [apply NoDup_nil_2 |].
    intros h Hh. by apply elem_of_nil in Hh.
  - rewrite Hrun in *. simpl in *. split; [done |]. split; [done |]. split; [| done].
    intros F i s e HF Hd Hc. assert (F = self) as -> by congruence.
    apply (HQ i); [by eapply defines_globals | apply Hd | apply Hd | apply Hd | done].
Qed.

(** *** The loops over the files *)

Lemma with_file_Some {A : Type} (k : InputFile -> outcome A) this self :
  pool !! this = Some self -> with_file ctx this k = k self.
Proof. intros Hself. unfold with_file. by rewrite Hself. Qed.

Lemma parallel_for_each_spawn_nil {A S : Type} fuel (f : A -> S -> outcome (S * list A)) st :
  parallel_for_each_spawn fuel f [] st = Done st.
Proof. by destruct fuel. Qed.

Lemma parallel_for_each_steps {S X : Type} (f : X -> S -> outcome S) (Inv : S -> Prop)
    (le : S -> S -> Prop) (Q : X -> S -> Prop) (P : X -> Prop) :
  (forall a, le a a) -> (forall a b c, le a b -> le b c -> le a c) ->
  (forall x a b, Q x a -> le a b -> Q x b) ->
  (forall x a, P x -> Inv a -> exists b, f x a = Done b /\ Inv b /\ le a b /\ Q x b) ->
  forall l a, Forall P l -> Inv a ->
    exists b, parallel_for_each l f a = Done b /\ Inv b /\ le a b /\
      forall x, x ∈ l -> Q x b.
Proof.
  intros Hrefl Htrans Hmono Hstep l. induction l as [| x l IH]; intros a HP Ha; simpl.
  { exists a. split; [done |]. split; [done |]. split; [apply Hrefl |].
    intros x Hx. by apply elem_of_nil in Hx. }
  apply Forall_cons in HP as [Hx HP].
  destruct (Hstep x a Hx Ha) as (b & Hrun & Hb & Hle & HQ).
  destruct (IH b HP Hb) as (c & Hrun' & Hc & Hle' & HQ').
  exists c. rewrite Hrun, bind_Done. split; [done |]. split; [done |].
  split; [by eapply Htrans |].
  intros y Hy. apply elem_of_cons in Hy as [-> | Hy]; [| by apply HQ'].
  by apply (Hmono _ b).
Qed.

(** A file that comes alive leaves the files that are not. *)
Lemma size_feed (alive all : gset nat) (feeder : list nat) :
  NoDup feeder -> (forall h, h ∈ feeder -> (h ∉ alive) /\ h ∈ all) ->
  (size (all ∖ (alive ∪ list_to_set feeder)) + length feeder <= size (all ∖ alive))%nat.
Proof.
  intros Hnd Hfed. rewrite <- (size_list_to_set (C := gset nat) feeder) by done.
  rewrite <- size_union.
  - apply subseteq_size. intros x Hx. apply elem_of_union in Hx as [Hx | Hx].
    + set_solver.
    + apply elem_of_list_to_set in Hx. destruct (Hfed x Hx). set_solver.
  - set_solver.
Qed.

(** *** The driver *)

Section Driver.

Hypothesis Hprio : priorities_ok ctx.
Hypothesis Hparsed : dsos_parsed ctx.
Hypothesis Hapart : dsos_apart ctx.

Lemma priority_bound f F : pool !! f = Some F -> 0 <= priority F < 2 ^ 24.
Proof. intros HF. destruct Hprio as [Hall _]. apply (Forall_lookup_1 _ _ _ _ Hall HF). Qed.

Lemma priority_inj f g F G :
  pool !! f = Some F -> pool !! g = Some G -> priority F = priority G -> f = g.
Proof.
  intros HF HG Heq. destruct Hprio as [_ Hnd].
  apply (NoDup_lookup _ f g (priority F) Hnd); rewrite list_lookup_fmap.
  - by rewrite HF.
  - rewrite HG. simpl. by rewrite Heq.
Qed.

(** The tiers of the definitions that are not common. *)
Lemma tier_defined F e : ElfSym.is_common e = false -> tier F e false <= 4.
Proof. intros Hc. unfold tier. rewrite Hc. repeat case_match; lia. Qed.

Lemma tier_object F e :
  is_dso F = false -> ElfSym.is_common e = false -> tier F e false <= 2.
Proof. intros Hd Hc. unfold tier. rewrite Hc, Hd. case_match; lia. Qed.

Lemma tier_shared F e : is_dso F = true -> 3 <= tier F e false.
Proof. intros Hd. unfold tier. rewrite Hd. repeat case_match; lia. Qed.

Lemma tier_lazy F e : ElfSym.is_common e = false -> tier F e true = 5.
Proof. intros Hc. unfold tier. by rewrite Hc. Qed.

Lemma given_alive_mono st st' :
  given_alive ctx st -> is_alive st ⊆ is_alive st' -> given_alive ctx st'.
Proof. intros Hg Hsub f F HF Hk. apply Hsub. by apply (Hg f F). Qed.

(** A file that is not alive is an archive member. *)
Lemma dead_member st f F :
  given_alive ctx st -> pool !! f = Some F -> f ∉ is_alive st ->
  is_dso F = false /\ is_in_lib F = true.
Proof.
  intros Hg HF Hdead.
  destruct (is_dso F) eqn:Hd; [exfalso; apply Hdead, (Hg f F); auto |].
  destruct (is_in_lib F) eqn:Hl; [done |]. exfalso. apply Hdead, (Hg f F); auto.
Qed.

(** The marking loop ends, with every file that is alive settled. *)
Lemma mark_live_spec fuel : forall work st,
  valid st -> given_alive ctx st -> NoDup work ->
  (forall f, f ∈ work ->
     f ∈ is_alive st /\ exists F, pool !! f = Some F /\ is_dso F = false) ->
  (forall f, f ∈ is_alive st -> f ∈ work \/ settled st f) ->
  (length work + size ((list_to_set (seq 0 (length pool)) : gset nat) ∖ is_alive st) <= fuel)%nat ->
  exists st',
    parallel_for_each_spawn fuel
      (fun file st => with_file ctx file (fun self =>
         if is_dso self then Abort "shared object used as an object file"
         else mark_live_objects ctx file self st))
      work st = Done st' /\
    valid st' /\ advances st st' /\ forall f, f ∈ is_alive st' -> settled st' f.
Proof.
  induction fuel as [| fuel IH]; intros work st Hv Hg Hnd Hwork Hsettled Hfuel;
    destruct work as [| this rest]; cbn [parallel_for_each_spawn].
  - exists st. split; [done |]. split; [done |]. split; [apply advances_refl |].
    intros f Hf. destruct (Hsettled f Hf) as [Hin | Hs]; [| done]. by apply elem_of_nil in Hin.
  - simpl in Hfuel. lia.
  - exists st. split; [done |]. split; [done |]. split; [apply advances_refl |].
    intros f Hf. destruct (Hsettled f Hf) as [Hin | Hs]; [| done]. by apply elem_of_nil in Hin.
  - destruct (Hwork this) as [Hthis (self & Hself & Hobj)]; [set_solver |].
    destruct (mark_live_objects_spec this self st Hself Hv Hthis)
      as (st1 & feeder & Hrun & Hv1 & Hadv1 & Hs1 & Ha1 & Hndf & Hfed).
    rewrite (with_file_Some _ this self Hself), Hobj, Hrun, bind_Done.
    apply NoDup_cons in Hnd as [Hnotin Hnd].
    destruct (IH (feeder ++ rest) st1) as (st' & Hrun' & Hv' & Hadv' & Hs'); try done.
    + apply (given_alive_mono st); [done | apply Hadv1].
    + apply NoDup_app. split; [done |]. split; [| done].
      intros x Hxf Hx. destruct (Hfed x Hxf) as [Hna _]. apply Hna, Hwork. set_solver.
    + intros f Hf. apply elem_of_app in Hf as [Hf | Hf].
      * destruct (Hfed f Hf) as [Hna [F HF]]. split; [rewrite Ha1; set_solver |].
        exists F. split; [done |]. by destruct (dead_member st f F Hg HF Hna).
      * destruct (Hwork f) as [Hfa Hfp]; [set_solver |]. split; [| done].
        rewrite Ha1. set_solver.
    + intros f Hf. rewrite Ha1 in Hf. apply elem_of_union in Hf as [Hf | Hf].
      * destruct (Hsettled f Hf) as [Hin | Hs].
        -- apply elem_of_cons in Hin as [-> | Hin]; [by right | left; set_solver].
        -- right. apply (settled_advances st); [done | apply Hadv1].
      * left. apply elem_of_list_to_set in Hf. set_solver.
    + rewrite Ha1, length_app. simpl in Hfuel.
      pose proof (size_feed (is_alive st) (list_to_set (seq 0 (length pool))) feeder Hndf)
        as Hsize.
      assert (Hall : forall h, h ∈ feeder ->
                (h ∉ is_alive st) /\ h ∈ (list_to_set (seq 0 (length pool)) : gset nat)).
      { intros h Hh. destruct (Hfed h Hh) as [Hna Hp]. split; [done |].
        apply elem_of_list_to_set, elem_of_seq. apply lookup_lt_is_Some in Hp. lia. }
      specialize (Hsize Hall). lia.
    + exists st'. split; [done |]. split; [done |]. split; [| done].
      by apply (advances_trans st st1).
Qed.

(** *** Removing the symbols of the files that are eliminated *)

Lemma remove_symbol_spec this st a s :
  syms (remove_symbol this st a) s =
    (if bool_decide (s = a /\ file (syms st s) = Some this) then unclaimed else syms st s) /\
  is_alive (remove_symbol this st a) = is_alive st /\
  objs (remove_symbol this st a) = objs st.
Proof.
  unfold remove_symbol. case_bool_decide as Hfa; cbn [syms set_sym is_alive objs].
  - split; [| done]. destruct (decide (s = a)) as [-> | Hne].
    + rewrite fn_lookup_insert. by rewrite bool_decide_eq_true_2.
    + rewrite fn_lookup_insert_ne by done. rewrite bool_decide_eq_false_2; [done |].
      intros [? _]. done.
  - split; [| done]. rewrite bool_decide_eq_false_2; [done |]. intros [-> ?]. done.
Qed.

Lemma remove_symbol_fold this l : forall st s,
  syms (foldl (remove_symbol this) st l) s =
    (if bool_decide (s ∈ l /\ file (syms st s) = Some this) then unclaimed else syms st s) /\
  is_alive (foldl (remove_symbol this) st l) = is_alive st /\
  objs (foldl (remove_symbol this) st l) = objs st.
Proof.
  induction l as [| a l IH]; intros st s; cbn [foldl].
  { rewrite bool_decide_eq_false_2; [done |]. intros [Hin _]. by apply elem_of_nil in Hin. }
  destruct (IH (remove_symbol this st a) s) as (Hsyms & Ha & Hobjs).
  destruct (remove_symbol_spec this st a s) as (Hsyms1 & Ha1 & Hobjs1).
  rewrite Hsyms, Ha, Hobjs, Hsyms1, Ha1, Hobjs1. split; [| done].
  destruct (decide (s = a /\ file (syms st s) = Some this)) as [[-> Hf] | Hna].
  - rewrite (bool_decide_eq_true_2 (a = a /\ _)) by done.
    rewrite (bool_decide_eq_true_2 (a ∈ a :: l /\ _)); [| split; [set_solver | done]].
    by destruct (bool_decide (a ∈ l /\ file unclaimed = Some this)).
  - rewrite (bool_decide_eq_false_2 (s = a /\ _)) by done.
    destruct (decide (s ∈ l /\ file (syms st s) = Some this)) as [[Hin Hf] | Hnl].
    + rewrite (bool_decide_eq_true_2 (s ∈ l /\ _)) by done.
      rewrite (bool_decide_eq_true_2 (s ∈ a :: l /\ _)); [done |]. split; [set_solver | done].
    + rewrite (bool_decide_eq_false_2 (s ∈ l /\ _)) by done.
      rewrite (bool_decide_eq_false_2 (s ∈ a :: l /\ _)); [done |].
      intros [Hin Hf]. apply elem_of_cons in Hin as [-> | Hin]; tauto.
Qed.

Lemma remove_symbols_spec this self st s :
  syms (remove_symbols this self st) s =
    (if bool_decide ((this ∉ is_alive st) /\ s ∈ get_global_syms self /\
                     file (syms st s) = Some this)
     then unclaimed else syms st s) /\
  is_alive (remove_symbols this self st) = is_alive st /\
  objs (remove_symbols this self st) = objs st.
Proof.
  unfold remove_symbols. case_bool_decide as Ha.
  - rewrite bool_decide_eq_false_2; [done |]. intros [Hna _]. done.
  - destruct (remove_symbol_fold this (get_global_syms self) st s) as (Hs & Hal & Hobjs).
    rewrite Hs. split; [| done].
    repeat case_bool_decide; try done; exfalso; tauto.
Qed.

Lemma remove_symbol_dsos this st a : dsos (remove_symbol this st a) = dsos st.
Proof. unfold remove_symbol. by case_bool_decide. Qed.

Lemma remove_symbols_dsos this self st : dsos (remove_symbols this self st) = dsos st.
Proof.
  unfold remove_symbols. case_bool_decide; [done |].
  apply (foldl_preserves dsos). apply remove_symbol_dsos.
Qed.

Lemma removal_spec l : forall st,
  (forall f, f ∈ l -> is_Some (pool !! f)) ->
  exists st',
    parallel_for_each l
      (fun file st => with_file ctx file (fun self => Done (remove_symbols file self st)))
      st = Done st' /\
    is_alive st' = is_alive st /\ objs st' = objs st /\ dsos st' = dsos st /\
    forall s,
      (syms st' s = syms st s /\
       ~ (exists h H, h ∈ l /\ (h ∉ is_alive st) /\ pool !! h = Some H /\
            s ∈ get_global_syms H /\ file (syms st s) = Some h)) \/
      (syms st' s = unclaimed /\ exists h, file (syms st s) = Some h /\ h ∉ is_alive st).
Proof.
  induction l as [| this l IH]; intros st Hl; cbn [parallel_for_each].
  { exists st. repeat split; try done. intros s. left. split; [done |].
    intros (h & _ & Hin & _). by apply elem_of_nil in Hin. }
  destruct (Hl this) as [self Hself]; [set_solver |].
  rewrite (with_file_Some _ this self Hself), bind_Done.
  destruct (IH (remove_symbols this self st)) as (st' & Hrun & Ha & Hobjs & Hdsos & Hsyms).
  { intros f Hf. apply Hl. set_solver. }
  exists st'. split; [done |].
  pose proof (remove_symbols_spec this self st) as Hone.
  split; [rewrite Ha; apply (Hone 0%nat) |]. split; [rewrite Hobjs; apply (Hone 0%nat) |].
  split; [rewrite Hdsos; apply remove_symbols_dsos |].
  intros s. destruct (Hone s) as (Hs & Hal & _). rewrite Hal in Hsyms.
  case_bool_decide as Hcase.
  - right. destruct Hcase as (Hna & _ & Hf).
    split; [| by exists this].
    destruct (Hsyms s) as [[Hsame _] | [Hreset _]]; congruence.
  - destruct (Hsyms s) as [[Hsame Hnone] | [Hreset Hdead]].
    + rewrite Hs in Hsame, Hnone. left. split; [done |]. intros (h & H & Hin & Hna & HH & Hg & Hf).
      apply elem_of_cons in Hin as [-> | Hin].
      * apply Hcase. assert (H = self) as -> by congruence. done.
      * apply Hnone. by exists h, H.
    + rewrite Hs in Hdead. right. done.
Qed.

Lemma valid_rank st s h :
  valid st -> file (syms st s) = Some h ->
  exists H e, pool !! h = Some H /\
    defines H (Z.to_nat (sym_idx (syms st s))) s e /\
    (is_lazy (syms st s) = true -> ElfSym.is_common e = false) /\
    (is_lazy (syms st s) = false -> h ∈ is_alive st) /\
    rank (syms st s) = get_rank H e (is_lazy (syms st s)).
Proof.
  intros Hv Hf. destruct (Hv s h Hf) as (H & e & HH & Hd & Hl & Hnl).
  exists H, e. repeat split; try done; try apply Hd.
  apply (rank_held _ h); [done | done | apply Hd].
Qed.

(** A file that is settled holds no symbol lazily. *)
Lemma settled_not_lazy st s h :
  valid st -> settled st h -> file (syms st s) = Some h -> is_lazy (syms st s) = false.
Proof.
  intros Hv Hs Hf. destruct (is_lazy (syms st s)) eqn:Hl; [| done].
  destruct (valid_rank st s h Hv Hf) as (H & e & HH & Hd & Hc & _ & Hr).
  rewrite Hl in Hr, Hc. specialize (Hc eq_refl).
  specialize (Hs H _ s e HH Hd Hc).
  pose proof (priority_bound h H HH) as Hp.
  rewrite Hr in Hs. rewrite !get_rank_tier in Hs by done.
  rewrite (tier_lazy H e Hc) in Hs. pose proof (tier_defined H e Hc). lia.
Qed.

Lemma settled_syms st st' f : syms st' = syms st -> settled st f -> settled st' f.
Proof. intros Hs Hset F i s e HF Hd Hc. rewrite Hs. by apply (Hset F i). Qed.

Lemma settled_common_syms st st' f :
  syms st' = syms st -> settled_common st f -> settled_common st' f.
Proof. intros Hs Hset F i s e HF Hd Hc. rewrite Hs. by apply (Hset F i). Qed.

(** [load] *)
Lemma load_step st live_objs name :
  valid st -> given_alive ctx st -> live_list ctx st live_objs ->
  valid (load ctx (st, live_objs) name).1 /\
  live_list ctx (load ctx (st, live_objs) name).1 (load ctx (st, live_objs) name).2 /\
  syms (load ctx (st, live_objs) name).1 = syms st /\
  is_alive st ⊆ is_alive (load ctx (st, live_objs) name).1 /\
  objs (load ctx (st, live_objs) name).1 = objs st /\
  dsos (load ctx (st, live_objs) name).1 = dsos st.
Proof.
  intros Hv Hg (Hnd & Hin & Hall). unfold load.
  destruct (file (syms st name)) as [h |] eqn:Hf; [| done].
  case_bool_decide as Ha; [done |].
  destruct (Hv name h Hf) as (H & _ & HH & _).
  destruct (dead_member st h H Hg HH Ha) as [Hobj Hlib].
  rewrite HH. simpl. rewrite Hobj. cbn [fst snd].
  split; [apply (valid_alive st); [done | done | set_solver] |].
  split; [| split; [done |]; split; [set_solver | done]]. split; [| split].
  - apply NoDup_app. split; [done |]. split; [| apply NoDup_singleton].
    intros x Hx Hxh. apply list_elem_of_singleton in Hxh as ->. by apply Ha, Hin.
  - intros f Hfl. apply elem_of_app in Hfl as [Hfl | Hfl].
    + destruct (Hin f Hfl). split; [set_solver | done].
    + apply list_elem_of_singleton in Hfl as ->. split; [set_solver | by exists H].
  - intros f F Hfa HF Hd. simpl in Hfa. apply elem_of_union in Hfa as [Hfa | Hfa].
    + apply elem_of_singleton in Hfa as ->. set_solver.
    + apply elem_of_app. left. by apply (Hall f F).
Qed.

Lemma load_fold names : forall acc,
  valid acc.1 -> given_alive ctx acc.1 -> live_list ctx acc.1 acc.2 ->
  valid (foldl (load ctx) acc names).1 /\
  live_list ctx (foldl (load ctx) acc names).1 (foldl (load ctx) acc names).2 /\
  syms (foldl (load ctx) acc names).1 = syms acc.1 /\
  is_alive acc.1 ⊆ is_alive (foldl (load ctx) acc names).1 /\
  objs (foldl (load ctx) acc names).1 = objs acc.1 /\
  dsos (foldl (load ctx) acc names).1 = dsos acc.1.
Proof.
  induction names as [| name names IH]; intros [st live_objs] Hv Hg Hl; cbn [foldl]; [done |].
  destruct (load_step st live_objs name Hv Hg Hl) as (Hv' & Hl' & Hs & Ha & Hobjs & Hdsos).
  destruct (load ctx (st, live_objs) name) as [st' live'] eqn:Hload.
  cbn [fst snd] in *.
  destruct (IH (st', live') Hv' (given_alive_mono st st' Hg Ha) Hl')
    as (Hv'' & Hl'' & Hs'' & Ha'' & Hobjs'' & Hdsos'').
  split; [done |]. split; [done |]. cbn [fst snd] in *.
  split; [congruence |]. split; [set_solver |]. split; congruence.
Qed.

(** The bound of the marking loop is enough. *)
Lemma live_list_fuel st live_objs :
  live_list ctx st live_objs ->
  (length live_objs +
   size ((list_to_set (seq 0 (length pool)) : gset nat) ∖ is_alive st) <= length pool)%nat.
Proof.
  intros (Hnd & Hin & _).
  rewrite <- (size_list_to_set (C := gset nat) live_objs) by done.
  rewrite <- size_union.
  - etrans; [apply (subseteq_size _ (list_to_set (seq 0 (length pool)))) |].
    + intros x Hx. apply elem_of_union in Hx as [Hx | Hx]; [| set_solver].
      apply elem_of_list_to_set in Hx. destruct (Hin x Hx) as [_ (F & HF & _)].
      apply elem_of_list_to_set, elem_of_seq. apply lookup_lt_Some in HF. lia.
    + rewrite size_list_to_set by apply NoDup_seq. by rewrite length_seq.
  - intros x Hx Hx'. apply elem_of_list_to_set in Hx. destruct (Hin x Hx). set_solver.
Qed.

(** From the settled files to the order of the specification. *)
Lemma settled_held st s h :
  valid st ->
  (forall s h, file (syms st s) = Some h -> is_lazy (syms st s) = false) ->
  file (syms st s) = Some h ->
  exists H e, held_by ctx st (fun f => f ∈ is_alive st) s h H e /\
    rank (syms st s) = get_rank H e false.
Proof.
  intros Hv Hnl Hfile.
  destruct (valid_rank st s h Hv Hfile) as (H & e & HH & HdH & _ & Hal & Hr).
  pose proof (Hnl s h Hfile) as Hlz. specialize (Hal Hlz). rewrite Hlz in Hr.
  exists H, e. split; [| done]. split; [done |]. split; [done |]. split; [done |].
  split; [done |]. by rewrite Hlz, bool_decide_eq_true_2.
Qed.

Lemma settled_minimum st :
  valid st ->
  (forall s h, file (syms st s) = Some h -> is_lazy (syms st s) = false) ->
  (forall f, f ∈ is_alive st -> settled st f /\ settled_common st f) ->
  holds_minimum ctx st (fun f => f ∈ is_alive st).
Proof.
  intros Hv Hnl Hs. split.
  { intros s h Hfile. destruct (settled_held st s h Hv Hnl Hfile) as (H & e & Hheld & _).
    by exists H, e. }
  intros s f F i esym Hf HF Hd.
  pose proof (priority_bound f F HF) as HpF.
  assert (Hle : rank (syms st s) <= get_rank F esym false).
  { destruct (Hs f Hf) as [Hs1 Hs2].
    destruct (ElfSym.is_common esym) eqn:Hc; [by eapply Hs2 | by eapply Hs1]. }
  rewrite get_rank_tier in Hle by done. pose proof (tier_range F esym false) as HtF.
  destruct (file (syms st s)) as [h |] eqn:Hfile.
  2:{ rewrite (rank_unclaimed _ Hfile) in Hle. lia. }
  destruct (settled_held st s h Hv Hnl Hfile) as (H & e & Hheld & Hr).
  pose proof Hheld as (_ & Hal & HH & _).
  pose proof (priority_bound h H HH) as HpH.
  rewrite Hr, get_rank_tier in Hle by done.
  exists h, H, e. split; [done |].
  unfold at_most, place. cbn [fst snd]. rewrite !bool_decide_eq_true_2 by done.
  cbn [negb]. split; [lia |].
  intros Hback. apply (priority_inj h f H F HH HF). lia.
Qed.

(** After the symbols of the eliminated files are removed, the holders are
    alive, none is lazy, the files that are alive are still settled, and so
    are the common entries of the shared objects. *)
Lemma removal_clean st st' :
  valid st -> given_alive ctx st ->
  (forall f, f ∈ is_alive st -> settled st f) ->
  (forall f F, pool !! f = Some F -> is_dso F = false -> f ∈ objs st) ->
  is_alive st' = is_alive st ->
  (forall s,
     (syms st' s = syms st s /\
      ~ (exists h H, h ∈ objs st /\ (h ∉ is_alive st) /\ pool !! h = Some H /\
           s ∈ get_global_syms H /\ file (syms st s) = Some h)) \/
     (syms st' s = unclaimed /\ exists h, file (syms st s) = Some h /\ h ∉ is_alive st)) ->
  valid st' /\ none_lazy st' /\
  (forall f, f ∈ is_alive st' -> settled st' f) /\
  (forall f F, pool !! f = Some F -> is_dso F = true ->
     settled_common st f -> settled_common st' f).
Proof.
  intros Hv Hg Hs Hobjs Ha Hsyms.
  assert (Hheld : forall s h, file (syms st' s) = Some h ->
            syms st' s = syms st s /\ h ∈ is_alive st).
  { intros s h Hf. destruct (Hsyms s) as [[Hsame Hnone] | [Hreset _]].
    2:{ rewrite Hreset in Hf. discriminate. }
    split; [done |]. rewrite Hsame in Hf.
    destruct (decide (h ∈ is_alive st)) as [Hin | Hnin]; [done |]. exfalso.
    destruct (Hv s h Hf) as (H & e & HH & Hd & _). apply Hnone.
    destruct (dead_member st h H Hg HH Hnin) as [Hobj _].
    exists h, H. split; [by apply (Hobjs h H) |]. split; [done |]. split; [done |].
    split; [by eapply defines_global_syms | done]. }
  (* a symbol that is made new was held lazily by an archive member *)
  assert (Hreset : forall s h, file (syms st s) = Some h -> (h ∉ is_alive st) ->
            exists H e, pool !! h = Some H /\ is_dso H = false /\ is_in_lib H = true /\
              defines H (Z.to_nat (sym_idx (syms st s))) s e /\
              ElfSym.is_common e = false /\
              rank (syms st s) = 5 * 2 ^ 24 + priority H).
  { intros s h Hfile Hdead.
    destruct (valid_rank st s h Hv Hfile) as (H & e & HH & Hd & Hcm & Hal & Hr).
    destruct (is_lazy (syms st s)) eqn:Hlz; [| by destruct Hdead; apply Hal].
    specialize (Hcm eq_refl).
    destruct (dead_member st h H Hg HH Hdead) as [Hobj Hlib].
    exists H, e. repeat split; try done; try apply Hd.
    rewrite Hr, get_rank_tier by (by eapply priority_bound).
    by rewrite (tier_lazy H e Hcm). }
  split; [| split; [| split]].
  - intros s h Hf. destruct (Hheld s h Hf) as [Hsame Hin]. rewrite Hsame in *.
    destruct (Hv s h Hf) as (H & e & HH & Hd & Hl & Hnl).
    exists H, e. split; [done |]. split; [done |]. split; [done |].
    intros _. by rewrite Ha.
  - intros s h Hf. destruct (Hheld s h Hf) as [Hsame Hin]. rewrite Hsame in *.
    apply (settled_not_lazy st s h); [done | by apply Hs | done].
  - intros f Hf F i s e HF Hd Hc. rewrite Ha in Hf.
    destruct (Hsyms s) as [[Hsame _] | [_ (h & Hfile & Hdead)]].
    { rewrite Hsame. by apply (Hs f Hf F i). }
    exfalso. pose proof (Hs f Hf F i s e HF Hd Hc) as Hle.
    destruct (Hreset s h Hfile Hdead) as (H & eh & HH & _ & _ & _ & _ & Hr).
    rewrite Hr in Hle.
    pose proof (priority_bound h H HH). pose proof (priority_bound f F HF).
    rewrite get_rank_tier in Hle by done. pose proof (tier_defined F e Hc). lia.
  - intros f F HF Hdso Hsc F' i s e HF' Hd Hc.
    assert (F' = F) as -> by congruence.
    destruct (Hsyms s) as [[Hsame _] | [_ (h & Hfile & Hdead)]].
    { rewrite Hsame. by apply (Hsc F i). }
    exfalso. destruct (Hreset s h Hfile Hdead) as (H & eh & HH & Hobj & Hlib & Hdh & Hch & _).
    destruct (Hapart f F i s e h H _ eh HF Hdso Hd HH Hdh) as [_ Hmem].
    rewrite (Hmem Hobj Hlib) in Hch. discriminate.
Qed.

(** *** The holders before the marking *)

Lemma foldl_keeps {S X : Type} (step : S -> X -> S) (Inv : S -> Prop) (P : X -> Prop) :
  (forall x a, P x -> Inv a -> Inv (step a x)) ->
  forall l a, Forall P l -> Inv a -> Inv (foldl step a l).
Proof.
  intros Hstep l. induction l as [| x l IH]; intros a HP Ha; simpl; [done |].
  apply Forall_cons in HP as [Hx HP]. apply IH; [done |]. by apply Hstep.
Qed.

Lemma install_registered this self s i esym sym' st :
  pool !! this = Some self -> defines self i s esym ->
  file sym' = Some this -> sym_idx sym' = Z.of_nat i ->
  (is_dso self = false ->
   ElfSym.is_common esym = false /\ is_lazy sym' = is_in_lib self) ->
  (is_dso self = true -> is_lazy sym' = false) ->
  registered ctx st -> registered ctx (set_sym s sym' st).
Proof.
  intros Hself Hd Hf Hi Hobj Hdso [Hnone Hreg]. split.
  - intros s'. simpl. destruct (decide (s' = s)) as [-> | Hne].
    + rewrite fn_lookup_insert, Hf. discriminate.
    + rewrite fn_lookup_insert_ne by done. apply Hnone.
  - intros s' h. simpl. destruct (decide (s' = s)) as [-> | Hne].
    + rewrite fn_lookup_insert. rewrite Hf. intros [= <-].
      exists self, esym. rewrite Hi, Nat2Z.id. done.
    + rewrite fn_lookup_insert_ne by done. apply Hreg.
Qed.

Lemma lazy_symbol_registered this self st i :
  pool !! this = Some self -> (first_global self <= i)%nat ->
  is_dso self = false -> is_in_lib self = true ->
  registered ctx st -> registered ctx (lazy_symbol ctx this self st i).
Proof.
  intros Hself Hi Hobj Hlib Hreg. unfold lazy_symbol.
  destruct (symbols self !! i) as [s |] eqn:Hs; [| done].
  destruct (elf_syms self !! i) as [esym |] eqn:He; [| done].
  destruct (ElfSym.is_undef esym || ElfSym.is_common esym) eqn:Hk; [done |].
  apply orb_false_iff in Hk as [Hu Hc].
  case_bool_decide as Hlt; [| done].
  apply (install_registered this self s i esym); try done; intros Hd; congruence.
Qed.

Lemma regular_symbol_registered this self st i :
  pool !! this = Some self -> (first_global self <= i)%nat ->
  is_dso self = false -> is_in_lib self = false ->
  registered ctx st -> registered ctx (regular_symbol ctx this self st i).
Proof.
  intros Hself Hi Hobj Hlib Hreg. unfold regular_symbol.
  destruct (symbols self !! i) as [s |] eqn:Hs; [| done].
  destruct (elf_syms self !! i) as [esym |] eqn:He; [| done].
  destruct (ElfSym.is_undef esym || ElfSym.is_common esym) eqn:Hk; [done |].
  apply orb_false_iff in Hk as [Hu Hc].
  case_bool_decide as Hlt; [| done].
  apply (install_registered this self s i esym); try done; intros Hd; congruence.
Qed.

(** The first loop of [resolve_symbols], on one object file. *)
Lemma register_object this self st :
  pool !! this = Some self -> is_dso self = false ->
  (is_in_lib self = false -> this ∈ is_alive st) ->
  valid st -> registered ctx st ->
  exists st',
    (if is_in_lib self then resolve_lazy_symbols ctx this self st
     else resolve_regular_symbols ctx this self st) = Done st' /\
    valid st' /\ registered ctx st' /\
    is_alive st' = is_alive st /\ objs st' = objs st /\ dsos st' = dsos st.
Proof.
  intros Hself Hobj Halive Hv Hreg. destruct (is_in_lib self) eqn:Hlib.
  - destruct (resolve_lazy_symbols_spec this self st Hself Hlib)
      as (st' & Hrun & (_ & _ & Hobjs & Hdsos) & Ha & Hv').
    exists st'. split; [done |]. split; [by apply Hv' |]. split; [| done].
    unfold resolve_lazy_symbols in Hrun. rewrite Hlib in Hrun. injection Hrun as <-.
    apply (foldl_keeps _ _ (fun i => (first_global self <= i)%nat));
      [| apply globals_from | done].
    intros i a Hi Ha'. by apply lazy_symbol_registered.
  - destruct (resolve_regular_symbols_spec this self st Hself Hlib)
      as (st' & Hrun & (_ & _ & Hobjs & Hdsos) & Ha & Hv').
    exists st'. split; [done |]. split; [apply Hv'; auto |]. split; [| done].
    unfold resolve_regular_symbols in Hrun. rewrite Hlib in Hrun. injection Hrun as <-.
    apply (foldl_keeps _ _ (fun i => (first_global self <= i)%nat));
      [| apply globals_from | done].
    intros i a Hi Ha'. by apply regular_symbol_registered.
Qed.

(** *** The symbols of the shared objects *)

Lemma parsed_entry this self i s esym :
  pool !! this = Some self -> is_dso self = true ->
  symbols self !! i = Some s -> elf_syms self !! i = Some esym ->
  defines self i s esym.
Proof.
  intros Hself Hdso Hs He.
  destruct (Forall_lookup_1 _ _ _ _ Hparsed Hself Hdso) as [Hfirst Hdef].
  split; [lia |]. split; [done |]. split; [done |].
  apply (Forall_lookup_1 _ _ _ _ Hdef He).
Qed.

Lemma lowers_refl st : lowers ctx st st.
Proof. intros s h H Hf HH. exists h, H. split; [done |]. split; [done | lia]. Qed.

Lemma lowers_trans st1 st2 st3 :
  lowers ctx st1 st2 -> lowers ctx st2 st3 -> lowers ctx st1 st3.
Proof.
  intros H12 H23 s h H Hf HH.
  destruct (H12 s h H Hf HH) as (h2 & H2 & Hf2 & HH2 & Hle2).
  destruct (H23 s h2 H2 Hf2 HH2) as (h3 & H3 & Hf3 & HH3 & Hle3).
  exists h3, H3. split; [done |]. split; [done | lia].
Qed.

Lemma dso_entry_done_lowers this i st st' :
  dso_entry_done ctx this i st -> lowers ctx st st' -> dso_entry_done ctx this i st'.
Proof.
  intros Hdone Hlow D s HD Hs He.
  destruct (Hdone D s HD Hs He) as (h & H & Hf & HH & Hle).
  destruct (Hlow s h H Hf HH) as (h' & H' & Hf' & HH' & Hle').
  exists h', H'. split; [done |]. split; [done | lia].
Qed.

(** The body of the loop of [resolve_dso_symbols]. *)
Lemma dso_symbol_step this self st i :
  pool !! this = Some self -> is_dso self = true -> this ∈ is_alive st ->
  valid st -> registered ctx st ->
  valid (dso_symbol ctx this self st i) /\
  registered ctx (dso_symbol ctx this self st i) /\
  lowers ctx st (dso_symbol ctx this self st i) /\
  dso_entry_done ctx this i (dso_symbol ctx this self st i) /\
  is_alive (dso_symbol ctx this self st i) = is_alive st /\
  objs (dso_symbol ctx this self st i) = objs st /\
  dsos (dso_symbol ctx this self st i) = dsos st.
Proof.
  intros Hself Hdso Halive Hv Hreg. unfold dso_symbol.
  destruct (symbols self !! i) as [s |] eqn:Hs.
  2:{ split; [done |]. split; [done |]. split; [by apply lowers_refl |].
      split; [| done]. intros D s HD Hs' _. congruence. }
  destruct (elf_syms self !! i) as [esym |] eqn:He.
  2:{ split; [done |]. split; [done |]. split; [by apply lowers_refl |].
      split; [| done]. intros D s' HD _ [e He']. congruence. }
  pose proof (parsed_entry this self i s esym Hself Hdso Hs He) as Hd.
  cbv zeta.
  (* the symbol is not held lazily *)
  assert (Hnl : is_lazy (syms st s) = false).
  { destruct Hreg as [Hnone Hheld].
    destruct (file (syms st s)) as [h |] eqn:Hf; [| by apply Hnone].
    destruct (Hheld s h Hf) as (H & e & HH & HdH & Hobj & Hsh).
    destruct (is_dso H) eqn:HdsoH; [by apply Hsh |].
    destruct (Hobj eq_refl) as [Hc Hlz]. rewrite Hlz.
    destruct (is_in_lib H) eqn:Hlib; [| done].
    destruct (Hapart this self i s esym h H _ e Hself Hdso Hd HH HdH) as [_ Hmem].
    rewrite (Hmem HdsoH Hlib) in Hc. discriminate. }
  assert (Htake : forall sym', file sym' = Some this -> sym_idx sym' = Z.of_nat i ->
            is_lazy sym' = false ->
            valid (set_sym s sym' st) /\ registered ctx (set_sym s sym' st)).
  { intros sym' Hf' Hi' Hl'. split.
    - apply (install_valid this self s i esym); try done. congruence.
    - apply (install_registered this self s i esym); try done. congruence. }
  destruct (file (syms st s)) as [h |] eqn:Hf.
  - destruct (Hv s h Hf) as (H & _ & HH & _). rewrite HH. cbn [fmap option_fmap option_map default from_option id].
    case_bool_decide as Hprio'.
    + destruct (Htake {| file := Some this; input_section := None;
                         value := ElfSym.st_value esym; sym_idx := Z.of_nat i;
                         ver_idx := default 0 (versyms self !! i);
                         is_lazy := is_lazy (syms st s); is_weak := true;
                         is_imported := true; is_exported := false |})
        as [Hv' Hreg']; try done.
      split; [done |]. split; [done |]. split; [| split; [| done]].
      * intros s' h' H' Hf' HH'. simpl. destruct (decide (s' = s)) as [-> | Hne].
        -- rewrite fn_lookup_insert. simpl. exists this, self.
           split; [done |]. split; [done |].
           assert (h' = h) as -> by congruence. assert (H' = H) as -> by congruence. lia.
        -- rewrite fn_lookup_insert_ne by done. exists h', H'.
           split; [done |]. split; [done | lia].
      * intros D s' HD Hs' _. assert (D = self) as -> by congruence.
        assert (s' = s) as -> by congruence.
        exists this, self. simpl. rewrite fn_lookup_insert. simpl.
        split; [done |]. split; [done | lia].
    + split; [done |]. split; [done |]. split; [by apply lowers_refl |].
      split; [| done]. intros D s' HD Hs' _. assert (D = self) as -> by congruence.
      assert (s' = s) as -> by congruence.
      exists h, H. split; [done |]. split; [done | lia].
  - destruct (Htake {| file := Some this; input_section := None;
                       value := ElfSym.st_value esym; sym_idx := Z.of_nat i;
                       ver_idx := default 0 (versyms self !! i);
                       is_lazy := is_lazy (syms st s); is_weak := true;
                       is_imported := true; is_exported := false |})
      as [Hv' Hreg']; try done.
    split; [done |]. split; [done |]. split; [| split; [| done]].
    + intros s' h' H' Hf' HH'. simpl. destruct (decide (s' = s)) as [-> | Hne].
      * congruence.
      * rewrite fn_lookup_insert_ne by done. exists h', H'.
        split; [done |]. split; [done | lia].
    + intros D s' HD Hs' _. assert (D = self) as -> by congruence.
      assert (s' = s) as -> by congruence.
      exists this, self. simpl. rewrite fn_lookup_insert. simpl.
      split; [done |]. split; [done | lia].
Qed.

(** [resolve_dso_symbols] *)
Lemma resolve_dso_symbols_spec this self st :
  pool !! this = Some self -> is_dso self = true -> this ∈ is_alive st ->
  valid st -> registered ctx st ->
  valid (resolve_dso_symbols ctx this self st) /\
  registered ctx (resolve_dso_symbols ctx this self st) /\
  lowers ctx st (resolve_dso_symbols ctx this self st) /\
  (forall i, dso_entry_done ctx this i (resolve_dso_symbols ctx this self st)) /\
  is_alive (resolve_dso_symbols ctx this self st) = is_alive st /\
  objs (resolve_dso_symbols ctx this self st) = objs st /\
  dsos (resolve_dso_symbols ctx this self st) = dsos st.
Proof.
  intros Hself Hdso Halive Hv Hreg. unfold resolve_dso_symbols.
  set (Inv := fun a => valid a /\ registered ctx a /\ is_alive a = is_alive st /\
                       objs a = objs st /\ dsos a = dsos st).
  assert (Hloop : forall l a, Inv a ->
            Inv (foldl (dso_symbol ctx this self) a l) /\
            lowers ctx a (foldl (dso_symbol ctx this self) a l) /\
            forall i, i ∈ l -> dso_entry_done ctx this i (foldl (dso_symbol ctx this self) a l)).
  { induction l as [| i l IH]; intros a Ha; simpl.
    { split; [done |]. split; [apply lowers_refl |].
      intros i Hi. by apply elem_of_nil in Hi. }
    destruct Ha as (Hva & Hra & Haa & Hoa & Hda).
    destruct (dso_symbol_step this self a i Hself Hdso) as
      (Hv1 & Hr1 & Hl1 & Hd1 & Ha1 & Ho1 & Hds1); [by rewrite Haa | done | done |].
    destruct (IH (dso_symbol ctx this self a i)) as (Hinv & Hlow & Hdone).
    { unfold Inv. split; [done |]. split; [done |]. split; [congruence |].
      split; congruence. }
    split; [done |]. split; [by eapply lowers_trans |].
    intros j Hj. apply elem_of_cons in Hj as [-> | Hj]; [| by apply Hdone].
    by apply (dso_entry_done_lowers this i (dso_symbol ctx this self a i)). }
  destruct (Hloop (seq 0 (length (symbols self))) st) as ((Hv' & Hr' & Ha' & Ho' & Hd') & Hlow & Hdone).
  { unfold Inv. done. }
  split; [done |]. split; [done |]. split; [done |]. split; [| done].
  intros i D s HD Hs He. apply (Hdone i); [| done | done | done].
  assert (D = self) as -> by congruence.
  apply elem_of_seq. apply lookup_lt_Some in Hs. lia.
Qed.

(** A shared object all of whose entries have had their turn is settled. *)
Lemma dso_settled st d D :
  registered ctx st -> pool !! d = Some D -> is_dso D = true ->
  (forall i, dso_entry_done ctx d i st) ->
  settled st d /\ settled_common st d.
Proof.
  intros [_ Hreg] HD Hdso Hdone.
  assert (Hle : forall i s e, defines D i s e -> rank (syms st s) <= get_rank D e false).
  { intros i s e Hd. pose proof Hd as (_ & Hs & He & _).
    destruct (Hdone i D s HD Hs ltac:(by eexists)) as (h & H & Hf & HH & Hp).
    destruct (Hreg s h Hf) as (H' & eh & HH' & Hdh & Hobj & Hsh).
    assert (H' = H) as -> by congruence.
    pose proof (priority_bound h H HH). pose proof (priority_bound d D HD).
    rewrite (rank_held _ h H eh Hf HH) by apply Hdh.
    rewrite !get_rank_tier by done.
    destruct (Hapart d D i s e h H _ eh HD Hdso Hd HH Hdh) as [Hsame Hmem].
    destruct (is_dso H) eqn:HdsoH.
    - rewrite (Hsh eq_refl). specialize (Hsame eq_refl Hp). nia.
    - destruct (Hobj eq_refl) as [Hc Hlz]. rewrite Hlz.
      destruct (is_in_lib H) eqn:Hlib.
      + rewrite (Hmem eq_refl eq_refl) in Hc. discriminate.
      + pose proof (tier_object H eh HdsoH Hc). pose proof (tier_shared D e Hdso). nia. }
  split; intros F i s e HF Hd _; assert (F = D) as -> by congruence; by apply (Hle i).
Qed.

(** *** The loops over the shared objects after the marking *)

Lemma keeps_refl st : keeps st st.
Proof. done. Qed.

Lemma keeps_trans st1 st2 st3 : keeps st1 st2 -> keeps st2 st3 -> keeps st1 st3.
Proof.
  intros (H12 & Ha & Ho & Hd) (H23 & Ha' & Ho' & Hd').
  split; [intros s; by rewrite H23 |]. repeat split; congruence.
Qed.

Lemma keeps_valid st st' : keeps st st' -> valid st -> valid st'.
Proof.
  intros (Hh & Ha & _) Hv s h Hf. specialize (Hh s). unfold holder in Hh.
  injection Hh as Hfile Hidx Hlazy. rewrite Hfile in Hf.
  destruct (Hv s h Hf) as (H & e & HH & Hd & Hl & Hnl).
  exists H, e. rewrite Hidx, Hlazy, Ha. done.
Qed.

Lemma keeps_none_lazy st st' : keeps st st' -> none_lazy st -> none_lazy st'.
Proof.
  intros (Hh & _) Hnl s h Hf. specialize (Hh s). unfold holder in Hh.
  injection Hh as Hfile Hidx Hlazy. rewrite Hlazy. apply (Hnl s h). congruence.
Qed.

(** The body of the loop "Mark live DSOs". *)
Lemma mark_dso_keeps self st i :
  valid st -> given_alive ctx st -> keeps st (mark_dso ctx self st i).
Proof.
  intros Hv Hg. unfold mark_dso.
  destruct (elf_syms self !! i) as [esym |]; [| done].
  destruct (symbols self !! i) as [s |]; [| done].
  destruct (file (syms st s)) as [h |] eqn:Hf; [| done].
  destruct (Hv s h Hf) as (H & _ & HH & _). rewrite HH.
  cbn [fmap option_fmap option_map default from_option id].
  destruct (ElfSym.is_undef_strong esym && is_dso H) eqn:Hk; [| done].
  apply andb_true_iff in Hk as [_ Hdso].
  assert (Hin : h ∈ is_alive st) by (apply (Hg h H); auto).
  split; [| split; [| done]].
  - intros s'. simpl. destruct (decide (s' = s)) as [-> | Hne].
    + rewrite fn_lookup_insert. unfold holder. simpl. by rewrite Hf.
    + by rewrite fn_lookup_insert_ne.
  - simpl. apply leibniz_equiv. set_solver.
Qed.

Lemma mark_dsos_keeps self st :
  valid st -> given_alive ctx st -> keeps st (mark_dsos ctx self st).
Proof.
  intros Hv Hg. unfold mark_dsos.
  apply (foldl_keeps (mark_dso ctx self) (fun a => keeps st a) (fun _ => True)).
  - intros i a _ Ha. apply (keeps_trans st a); [done |].
    apply mark_dso_keeps; [by apply (keeps_valid st) |].
    apply (given_alive_mono st); [done |]. destruct Ha as (_ & -> & _). done.
  - apply Forall_forall. done.
  - apply keeps_refl.
Qed.

Lemma mark_dsos_loop l : forall st,
  valid st -> given_alive ctx st -> (forall f, f ∈ l -> is_Some (pool !! f)) ->
  exists st',
    parallel_for_each l
      (fun file st => with_file ctx file (fun self => Done (mark_dsos ctx self st))) st
    = Done st' /\ keeps st st'.
Proof.
  induction l as [| this l IH]; intros st Hv Hg Hl; cbn [parallel_for_each].
  { exists st. split; [done | apply keeps_refl]. }
  destruct (Hl this) as [self Hself]; [set_solver |].
  rewrite (with_file_Some _ this self Hself), bind_Done.
  pose proof (mark_dsos_keeps self st Hv Hg) as Hk.
  destruct (IH (mark_dsos ctx self st)) as (st' & Hrun & Hk').
  - by apply (keeps_valid st).
  - apply (given_alive_mono st); [done |]. destruct Hk as (_ & -> & _). done.
  - intros f Hf. apply Hl. set_solver.
  - exists st'. split; [done |]. by apply (keeps_trans st (mark_dsos ctx self st)).
Qed.

(** With the shared objects alive, none comes alive through another. *)
Lemma mark_live_dsos_idle this self st :
  valid st -> given_alive ctx st -> mark_live_dsos ctx this self st = (st, []).
Proof.
  intros Hv Hg. unfold mark_live_dsos.
  induction (globals self) as [| s l IH]; simpl; [done |].
  destruct (file (syms st s)) as [h |] eqn:Hf; [| done].
  destruct (Hv s h Hf) as (H & _ & HH & _). rewrite HH.
  cbn [fmap option_fmap option_map default from_option id].
  destruct (is_dso H) eqn:Hdso.
  - rewrite (bool_decide_eq_true_2 (h ∈ is_alive st)) by (apply (Hg h H); auto).
    by rewrite andb_false_r.
  - by rewrite andb_false_r.
Qed.

Lemma spawn_idle {A S : Type} (f : A -> S -> outcome (S * list A)) st : forall work fuel,
  (forall x, x ∈ work -> f x st = Done (st, [])) -> (length work <= fuel)%nat ->
  parallel_for_each_spawn fuel f work st = Done st.
Proof.
  induction work as [| x work IH]; intros fuel Hidle Hfuel; [by destruct fuel |].
  destruct fuel as [| fuel]; [simpl in Hfuel; lia |]. cbn [parallel_for_each_spawn].
  rewrite Hidle by set_solver. rewrite bind_Done. cbn [app].
  apply IH; [intros y Hy; apply Hidle; set_solver | simpl in Hfuel; lia].
Qed.

Lemma pool_length l :
  NoDup l -> (forall f, f ∈ l -> is_Some (pool !! f)) -> (length l <= length pool)%nat.
Proof.
  intros Hnd Hl. rewrite <- (size_list_to_set (C := gset nat) l) by done.
  etrans; [apply (subseteq_size _ (list_to_set (seq 0 (length pool)))) |].
  - intros x Hx. apply elem_of_list_to_set in Hx.
    apply elem_of_list_to_set, elem_of_seq. apply Hl, lookup_lt_is_Some in Hx. lia.
  - rewrite size_list_to_set by apply NoDup_seq. by rewrite length_seq.
Qed.

(** No shared object is eliminated. *)
Lemma remove_dsos_loop l : forall st,
  (forall f, f ∈ l -> f ∈ is_alive st /\ is_Some (pool !! f)) ->
  parallel_for_each l
    (fun file st => with_file ctx file (fun self => Done (remove_dso_symbols file self st))) st
  = Done st.
Proof.
  induction l as [| this l IH]; intros st Hl; cbn [parallel_for_each]; [done |].
  destruct (Hl this) as [Hin [self Hself]]; [set_solver |].
  rewrite (with_file_Some _ this self Hself), bind_Done.
  unfold remove_dso_symbols. rewrite bool_decide_eq_true_2 by done.
  apply IH. intros f Hf. apply Hl. set_solver.
Qed.

(** *** The run of [resolve_symbols] *)

Lemma overrides_syms st st' : syms st' = syms st -> overrides st st'.
Proof. intros Hs s. left. by rewrite Hs. Qed.

Lemma resolve_symbols_run st0 :
  initial ctx st0 ->
  exists st',
    resolve_symbols ctx st0 =
      match file (syms st' (gnu_lto_slim ctx)) with
      | Some _ => Fatal lto_error
      | None => Done st'
      end /\
    valid st' /\ none_lazy st' /\
    (forall f, f ∈ is_alive st' -> settled st' f /\ settled_common st' f).
Proof.
  intros (Hnone & Hndo & Hndd & Hobjs & Hdsos & Halive & Hpool).
  assert (Hg0 : given_alive ctx st0).
  { intros f F HF Hk. by apply (Halive f F). }
  assert (Hv0 : valid st0).
  { intros s h Hf. destruct (Hnone s) as [Hn _]. congruence. }
  assert (Hr0 : registered ctx st0).
  { split; [intros s _; apply Hnone |].
    intros s h Hf. destruct (Hnone s) as [Hn _]. congruence. }
  unfold resolve_symbols.
  (* the symbols of the objects are registered *)
  match goal with |- context [parallel_for_each (objs st0) ?pass st0] =>
    destruct (parallel_for_each_steps pass
                (fun a => valid a /\ registered ctx a /\ is_alive a = is_alive st0 /\
                          objs a = objs st0 /\ dsos a = dsos st0)
                (fun _ _ => True) (fun _ _ => True)
                (fun f => exists F, pool !! f = Some F /\ is_dso F = false))
      with (l := objs st0) (a := st0) as (st1 & Hrun1 & (Hv1 & Hr1 & Ha1 & Ho1 & Hd1) & _ & _)
  end; try done.
  { intros this a (self & Hself & Hobj) (Hv & Hr & Ha & Ho & Hd).
    rewrite (with_file_Some _ this self Hself).
    destruct (register_object this self a Hself Hobj) as (b & Hrun & Hvb & Hrb & Hab & Hob & Hdb);
      [| done | done |].
    { intros Hlib. rewrite Ha. apply (Halive this self Hself). by right. }
    exists b. split; [done |]. split; [| done].
    split; [done |]. split; [done |]. split; [congruence |]. split; congruence. }
  { apply Forall_forall. intros f Hf. by apply Hobjs. }
  rewrite Hrun1, bind_Done.
  (* the symbols of the shared objects are registered *)
  match goal with |- context [parallel_for_each (dsos st1) ?pass st1] =>
    destruct (parallel_for_each_steps pass
                (fun a => valid a /\ registered ctx a /\ is_alive a = is_alive st0 /\
                          objs a = objs st0 /\ dsos a = dsos st0)
                (lowers ctx) (fun d a => forall i, dso_entry_done ctx d i a)
                (fun f => exists F, pool !! f = Some F /\ is_dso F = true)
                lowers_refl lowers_trans)
      with (l := dsos st1) (a := st1)
      as (st2 & Hrun2 & (Hv2 & Hr2 & Ha2 & Ho2 & Hd2) & _ & Hdone2)
  end; try done.
  { intros d a b Hq Hlow i. by apply (dso_entry_done_lowers d i a). }
  { intros this a (self & Hself & Hdso) (Hv & Hr & Ha & Ho & Hd).
    rewrite (with_file_Some _ this self Hself).
    destruct (resolve_dso_symbols_spec this self a Hself Hdso)
      as (Hvb & Hrb & Hlb & Hqb & Hab & Hob & Hdb); [| done | done |].
    { rewrite Ha. apply (Hg0 this self Hself). by left. }
    eexists. split; [reflexivity |].
    split; [| by split].
    split; [done |]. split; [done |]. split; [congruence |]. split; congruence. }
  { apply Forall_forall. intros f Hf. apply Hdsos. by rewrite <- Hd1. }
  rewrite Hrun2, bind_Done. cbv zeta.
  assert (Hshared2 : forall f F, pool !! f = Some F -> is_dso F = true ->
            settled st2 f /\ settled_common st2 f).
  { intros f F HF Hdso. apply (dso_settled st2 f F Hr2 HF Hdso).
    apply Hdone2. rewrite Hd1. apply Hdsos. by exists F. }
  assert (Hg2 : given_alive ctx st2).
  { intros f F HF Hk. rewrite Ha2. by apply (Hg0 f F). }
  (* the files to start from *)
  assert (Hl2 : live_list ctx st2 (filter (fun file => file ∈ is_alive st2) (objs st2))).
  { split; [apply NoDup_filter; by rewrite Ho2 |]. split.
    - intros f Hf. apply list_elem_of_filter in Hf as [Hf Hin]. split; [done |].
      apply Hobjs. by rewrite <- Ho2.
    - intros f F Hf HF Hobj. apply list_elem_of_filter. split; [done |].
      rewrite Ho2. apply Hobjs. by exists F. }
  destruct (load_fold (arg_undefined ctx)
              (st2, filter (fun file => file ∈ is_alive st2) (objs st2)) Hv2 Hg2 Hl2)
    as (Hv3' & Hl3' & Hs3' & Ha3' & Ho3' & Hd3').
  destruct (load_fold (arg_require_defined ctx) _ Hv3'
              (given_alive_mono _ _ Hg2 Ha3') Hl3')
    as (Hv3 & Hl3 & Hs3 & Ha3 & Ho3 & Hd3).
  destruct (foldl (load ctx) (foldl (load ctx) _ (arg_undefined ctx)) (arg_require_defined ctx))
    as [st3 live_objs] eqn:Hload.
  cbn [fst snd] in Hv3, Hl3, Hs3, Ha3, Ho3, Hd3, Hs3', Ha3', Ho3', Hd3'.
  assert (Hsyms3 : syms st3 = syms st2) by congruence.
  assert (Hg3 : given_alive ctx st3).
  { apply (given_alive_mono st2); [done |]. etrans; [exact Ha3' | exact Ha3]. }
  (* the marking loop *)
  destruct (mark_live_spec (length pool) live_objs st3) as (st4 & Hrun4 & Hv4 & Hadv4 & Hs4).
  { done. }
  { done. }
  { apply Hl3. }
  { apply Hl3. }
  { intros f Hf. destruct (pool !! f) as [F |] eqn:HF.
    - destruct (is_dso F) eqn:Hdso.
      + right. apply (settled_syms st2); [done |]. by apply (Hshared2 f F).
      + left. destruct Hl3 as (_ & _ & Hall). by apply (Hall f F).
    - right. intros F' i s e HF'. congruence. }
  { by apply live_list_fuel. }
  rewrite Hrun4, bind_Done.
  assert (Ho4 : objs st4 = objs st0).
  { destruct Hadv4 as (_ & _ & -> & _). congruence. }
  assert (Hd4 : dsos st4 = dsos st0).
  { destruct Hadv4 as (_ & _ & _ & ->). congruence. }
  assert (Hg4 : given_alive ctx st4).
  { apply (given_alive_mono st3); [done | apply Hadv4]. }
  assert (Hshared4 : forall f F, pool !! f = Some F -> is_dso F = true ->
            settled_common st4 f).
  { intros f F HF Hdso. apply (settled_common_advances st3); [| apply Hadv4].
    apply (settled_common_syms st2); [done |]. by apply (Hshared2 f F). }
  (* the symbols of the eliminated files *)
  destruct (removal_spec (objs st4) st4) as (st5 & Hrun5 & Ha5 & Ho5 & Hd5 & Hsyms5).
  { intros f Hf. rewrite Ho4 in Hf. apply Hobjs in Hf as (F & HF & _). by eexists. }
  rewrite Hrun5, bind_Done.
  destruct (removal_clean st4 st5 Hv4 Hg4 Hs4) as (Hv5 & Hnl5 & Hs5 & Hshared5); [| done | done |].
  { intros f F HF Hobj. rewrite Ho4. apply Hobjs. by exists F. }
  assert (Hg5 : given_alive ctx st5).
  { intros f F HF Hk. rewrite Ha5. by apply (Hg4 f F). }
  (* the shared objects are marked; none is eliminated *)
  set (st5' := set_objs (filter (fun file => file ∈ is_alive st5) (objs st5)) st5).
  destruct (mark_dsos_loop (objs st5') st5') as (st6 & Hrun6 & Hk6).
  { apply (valid_alive st5); done. }
  { done. }
  { intros f Hf. subst st5'. cbn [objs set_objs] in Hf.
    apply list_elem_of_filter in Hf as [_ Hf].
    rewrite Ho5, Ho4 in Hf. apply Hobjs in Hf as (F & HF & _). by eexists. }
  rewrite Hrun6, bind_Done.
  pose proof Hk6 as (_ & Ha6 & Ho6 & Hd6).
  assert (Hv6 : valid st6).
  { apply (keeps_valid st5'); [done |]. apply (valid_alive st5); done. }
  assert (Hg6 : given_alive ctx st6).
  { intros f F HF Hk. rewrite Ha6. by apply (Hg5 f F). }
  assert (Hdsos6 : forall f, f ∈ dsos st6 -> f ∈ is_alive st6 /\ is_Some (pool !! f)).
  { intros f Hf. rewrite Hd6 in Hf. subst st5'. cbn [dsos set_objs] in Hf.
    rewrite Hd5, Hd4 in Hf. apply Hdsos in Hf as (F & HF & Hdso).
    split; [apply (Hg6 f F); auto | by eexists]. }
  rewrite spawn_idle.
  2:{ intros f Hf. apply list_elem_of_filter in Hf as [_ Hf].
      destruct (Hdsos6 f Hf) as [_ [self Hself]].
      rewrite (with_file_Some _ f self Hself). by rewrite mark_live_dsos_idle. }
  2:{ apply pool_length.
      - apply NoDup_filter. rewrite Hd6. subst st5'. cbn [dsos set_objs]. by rewrite Hd5, Hd4.
      - intros f Hf. apply list_elem_of_filter in Hf as [_ Hf]. by apply Hdsos6. }
  rewrite bind_Done, remove_dsos_loop by done. rewrite bind_Done.
  (* the common symbols *)
  set (st6' := set_dsos (filter (fun file => file ∈ is_alive st6) (dsos st6)) st6).
  match goal with |- context [parallel_for_each ?files ?pass st6'] =>
    destruct (parallel_for_each_steps pass
                (fun b => valid b /\ is_alive b = is_alive st5 /\ none_lazy b)
                advances (fun f b => settled_common b f)
                (fun f => f ∈ is_alive st5 /\ is_Some (pool !! f))
                advances_refl advances_trans)
      with (l := files) (a := st6') as (st7 & Hrun7 & (Hv7 & Ha7 & Hnl7) & Hadv7 & Hs7)
  end.
  { intros f a b Hsc [Ho _]. by apply (settled_common_advances a). }
  { intros this a [Hthis [self Hself]] (Hv & Ha & Hnl).
    rewrite (with_file_Some _ this self Hself).
    destruct (resolve_common_symbols_spec this self a Hself) as (Hadv & Hal & Hva & Hnla & Hsc).
    eexists. split; [reflexivity |]. split; [| done].
    split; [apply Hva; [done | by rewrite Ha] |]. split; [congruence |].
    intros s h. by apply Hnla. }
  { apply Forall_forall. intros f Hf. subst st6'. cbn [objs set_dsos] in Hf.
    rewrite Ho6 in Hf. subst st5'. cbn [objs set_objs] in Hf.
    apply list_elem_of_filter in Hf as [Hin Hf]. split; [done |].
    rewrite Ho5, Ho4 in Hf. apply Hobjs in Hf as (F & HF & _). by eexists. }
  { split; [apply (valid_alive st6); done |]. split; [exact Ha6 |].
    change (none_lazy st6). apply (keeps_none_lazy st5'); [done |]. exact Hnl5. }
  rewrite Hrun7.
  assert (Hover : overrides st5 st7).
  { apply (overrides_trans st5 st6).
    - intros s. left. destruct Hk6 as [Hh _]. by rewrite Hh.
    - apply (overrides_trans st6 st6'); [by apply overrides_syms | apply Hadv7]. }
  exists st7. split; [done |]. split; [done |]. split; [done |].
  intros f Hf. rewrite Ha7 in Hf. split.
  - apply (settled_advances st5); [| done]. by apply Hs5.
  - destruct (pool !! f) as [F |] eqn:HF; [| intros F' i s e HF'; congruence].
    destruct (is_dso F) eqn:Hdso.
    + apply (settled_common_advances st5); [| done].
      apply (Hshared5 f F HF Hdso). by apply (Hshared4 f F).
    + apply Hs7. subst st6'. cbn [objs set_dsos]. rewrite Ho6. subst st5'.
      cbn [objs set_objs]. apply list_elem_of_filter. split; [done |].
      rewrite Ho5, Ho4. apply Hobjs. by exists F.
Qed.

End Driver.

(** *** The passes override by rank alone *)

Lemma passes_override this self st st' :
  pool !! this = Some self ->
  resolve_lazy_symbols ctx this self st = Done st' \/
  resolve_regular_symbols ctx this self st = Done st' \/
  (exists feeder, mark_live_objects ctx this self st = Done (st', feeder)) \/
  resolve_common_symbols ctx this self st = st' ->
  overrides st st'.
Proof.
  intros Hself [Hrun | [Hrun | [[feeder Hrun] | Hrun]]].
  - destruct (is_in_lib self) eqn:Hlib.
    + destruct (resolve_lazy_symbols_spec this self st Hself Hlib) as (b & Hb & [Ho _] & _).
      rewrite Hb in Hrun. by injection Hrun as <-.
    + unfold resolve_lazy_symbols in Hrun. by rewrite Hlib in Hrun.
  - destruct (is_in_lib self) eqn:Hlib.
    + unfold resolve_regular_symbols in Hrun. by rewrite Hlib in Hrun.
    + destruct (resolve_regular_symbols_spec this self st Hself Hlib) as (b & Hb & [Ho _] & _).
      rewrite Hb in Hrun. by injection Hrun as <-.
  - by eapply mark_live_objects_overrides.
  - subst st'. by destruct (resolve_common_symbols_spec this self st Hself) as ([Ho _] & _).
Qed.

(** The start of a link is a state in which resolution may start. *)
Lemma start_has (p : InputFile -> bool) f :
  f ∈ filter (fun f => default false (p <$> pool !! f)) (seq 0 (length pool)) <->
  exists F, pool !! f = Some F /\ p F = true.
Proof.
  rewrite list_elem_of_filter, elem_of_seq. split.
  - intros [Hp _]. destruct (pool !! f) as [F |]; [| done]. exists F. split; [done |].
    by apply Is_true_eq_true.
  - intros (F & HF & Hp). rewrite HF. simpl. split; [by apply Is_true_eq_left |].
    apply lookup_lt_Some in HF. lia.
Qed.

Lemma start_initial : initial ctx (start ctx).
Proof.
  split; [done |]. split; [apply NoDup_filter, NoDup_seq |].
  split; [apply NoDup_filter, NoDup_seq |]. split; [| split; [| split]].
  - intros f. cbn [objs start]. rewrite start_has. split.
    + intros (F & HF & Hp). exists F. split; [done |]. by apply negb_true_iff.
    + intros (F & HF & Hp). exists F. split; [done |]. by apply negb_true_iff.
  - intros f. cbn [dsos start]. by rewrite start_has.
  - intros f F HF. cbn [is_alive start]. rewrite elem_of_list_to_set, start_has. split.
    + intros (F' & HF' & Hp). assert (F' = F) as -> by congruence.
      apply orb_true_iff in Hp as [Hp | Hp]; [by left | right; by apply negb_true_iff].
    + intros Hk. exists F. split; [done |]. apply orb_true_iff.
      destruct Hk as [Hk | Hk]; [by left | right; by apply negb_true_iff].
  - intros f. cbn [is_alive start]. rewrite elem_of_list_to_set, start_has.
    intros (F & HF & _). by eexists.
Qed.

(** C1, as amended: in a link whose file priorities are distinct and below
    [2^24], whose shared objects are alive from the start (no
    [--as-needed]), and in which the definitions of the shared objects keep
    apart (no archive member defines a symbol that a shared object defines,
    unless as a common symbol, and of two definitions of a symbol in shared
    objects the one in the file of the lower priority number is not in a
    later tier), [resolve_symbols] ends (with the state [st'], or with the
    fatal error on [__gnu_lto_slim]), and at the end every symbol that has a
    file is held by a definition of a file that is alive, and every symbol
    that a file alive at the end defines (a common symbol counts) is held by
    the file whose definition is least in the order of the tiers (strong in
    an object, weak in an object, strong in a shared object, weak in a shared
    object, lazy in an archive, common) and then of the file priorities: no
    definition of a file that is alive is below the holder's, and one that is
    not above it is in the holder.  Each of the four passes leaves a symbol
    with its holder or with a strictly lower rank. *)
Theorem resolve_symbols_minimum (st0 : state) :
  priorities_ok ctx -> dsos_parsed ctx -> dsos_apart ctx -> initial ctx st0 ->
  (exists st',
     resolve_symbols ctx st0 =
       match file (syms st' (gnu_lto_slim ctx)) with
       | Some _ => Fatal lto_error
       | None => Done st'
       end /\
     holds_minimum ctx st' (fun f => f ∈ is_alive st')) /\
  (forall this self st st',
     pool !! this = Some self ->
     resolve_lazy_symbols ctx this self st = Done st' \/
     resolve_regular_symbols ctx this self st = Done st' \/
     (exists feeder, mark_live_objects ctx this self st = Done (st', feeder)) \/
     resolve_common_symbols ctx this self st = st' ->
     overrides st st').
Proof.
  intros Hprio Hparsed Hapart Hinit. split; [| apply passes_override].
  destruct (resolve_symbols_run Hprio Hparsed Hapart st0 Hinit) as (st' & Hrun & Hv & Hnl & Hs).
  exists st'. split; [done |]. by apply settled_minimum.
Qed.

End ResolverFacts.

Section ResolverExamples.
Import Word Run Resolver.

Lemma mixed_priorities : priorities_ok mixed_ctx.
Proof.
  split.
  - repeat (apply Forall_cons; split; [by vm_compute |]). apply Forall_nil_2.
  - cbn. repeat (apply NoDup_cons; split; [set_solver |]). apply NoDup_nil_2.
Qed.

Lemma mixed_parsed : dsos_parsed mixed_ctx.
Proof.
  unfold dsos_parsed, mixed_ctx. cbn [file_pool].
  repeat (apply Forall_cons; split;
          [intros Hdso; vm_compute in Hdso;
           first [discriminate Hdso
                 | split; [reflexivity |];
                   repeat (apply Forall_cons; split; [reflexivity |]); apply Forall_nil_2] |]).
  apply Forall_nil_2.
Qed.

Lemma mixed_apart : dsos_apart mixed_ctx.
Proof.
  intros d D i s e f F j e' HD Hdso (_ & Hs & He & _) HF (_ & Hs' & He' & _).
  unfold mixed_ctx in HD, HF. cbn [file_pool] in HD, HF.
  do 6 (try (destruct d as [| d]; simpl in HD; try discriminate HD)).
  all: injection HD as <-; try discriminate Hdso.
  all: simpl in Hs, He; do 4 (try (destruct i as [| i]; simpl in Hs, He; try discriminate Hs)).
  all: injection Hs as <-; injection He as <-.
  all: do 6 (try (destruct f as [| f]; simpl in HF; try discriminate HF)).
  all: injection HF as <-.
  all: simpl in Hs', He';
    do 7 (try (destruct j as [| j]; simpl in Hs', He'; try discriminate Hs')).
  all: injection He' as <-.
  all: split;
    [intros Hd _; vm_compute in Hd; first [discriminate Hd | by vm_compute]
    | intros Hd Hl; vm_compute in Hd, Hl; first [discriminate Hd | discriminate Hl]].
Qed.

Lemma resolve_symbols_minimum_witness :
  priorities_ok mixed_ctx /\ dsos_parsed mixed_ctx /\ dsos_apart mixed_ctx /\
  initial mixed_ctx (start mixed_ctx) /\
  exists st',
    resolve_symbols mixed_ctx (start mixed_ctx) =
      match file (syms st' (gnu_lto_slim mixed_ctx)) with
      | Some _ => Fatal lto_error
      | None => Done st'
      end /\
    holds_minimum mixed_ctx st' (fun f => f ∈ is_alive st').
Proof.
  split; [exact mixed_priorities |]. split; [exact mixed_parsed |].
  split; [exact mixed_apart |]. split; [exact (start_initial mixed_ctx) |].
  exact (proj1 (resolve_symbols_minimum mixed_ctx (start mixed_ctx)
                  mixed_priorities mixed_parsed mixed_apart (start_initial mixed_ctx))).
Defined.

(** What the sample links end with: the holder of a symbol and the files
    that are alive. *)
Lemma mixed_run :
  (st ← resolve_symbols mixed_ctx (start mixed_ctx);
   Done (file <$> (syms st <$> [1; 2; 3; 4; 5; 6]%nat)))
  = Done [Some 0; Some 1; Some 3; Some 3; Some 2; Some 0]%nat.
Proof. vm_compute. reflexivity. Qed.

Lemma sample_run :
  exists st', resolve_symbols sample_ctx (start sample_ctx) = Done st' /\
    file (syms st' 2%nat) = Some 1%nat /\ file (syms st' 5%nat) = None.
Proof.
  assert (Hsum : match resolve_symbols sample_ctx (start sample_ctx) with
                 | Done st => Some (file (syms st 2%nat), file (syms st 5%nat))
                 | _ => None
                 end = Some (Some 1%nat, None)) by (vm_compute; reflexivity).
  destruct (resolve_symbols sample_ctx (start sample_ctx)) as [st' | | |]; try discriminate.
  exists st'. injection Hsum as H2 H5. done.
Qed.

Lemma large_run :
  exists st', resolve_symbols large_ctx (start large_ctx) = Done st' /\
    holder (syms st' 1%nat) = (Some 0%nat, 1, false) /\
    0%nat ∈ is_alive st' /\ 1%nat ∈ is_alive st'.
Proof.
  assert (Hsum : match resolve_symbols large_ctx (start large_ctx) with
                 | Done st => Some (holder (syms st 1%nat),
                                    bool_decide (0%nat ∈ is_alive st),
                                    bool_decide (1%nat ∈ is_alive st))
                 | _ => None
                 end = Some (Some 0%nat, 1, false, true, true)) by (vm_compute; reflexivity).
  destruct (resolve_symbols large_ctx (start large_ctx)) as [st' | | |]; try discriminate.
  exists st'. unfold holder in *. injection Hsum as Hf Hi Hl H0 H1.
  apply bool_decide_eq_true in H0, H1. rewrite Hf, Hi, Hl. done.
Qed.

Lemma shared_run :
  exists st', resolve_symbols shared_ctx (start shared_ctx) = Done st' /\
    holder (syms st' 1%nat) = (Some 1%nat, 0, false) /\
    1%nat ∈ is_alive st' /\ 2%nat ∈ is_alive st'.
Proof.
  assert (Hsum : match resolve_symbols shared_ctx (start shared_ctx) with
                 | Done st => Some (holder (syms st 1%nat),
                                    bool_decide (1%nat ∈ is_alive st),
                                    bool_decide (2%nat ∈ is_alive st))
                 | _ => None
                 end = Some (Some 1%nat, 0, false, true, true)) by (vm_compute; reflexivity).
  destruct (resolve_symbols shared_ctx (start shared_ctx)) as [st' | | |]; try discriminate.
  exists st'. unfold holder in *. injection Hsum as Hf Hi Hl H1 H2.
  apply bool_decide_eq_true in H1, H2. rewrite Hf, Hi, Hl. done.
Qed.

Lemma archive_shared_run :
  exists st', resolve_symbols archive_shared_ctx (start archive_shared_ctx) = Done st' /\
    file (syms st' 2%nat) = None /\ 2%nat ∈ is_alive st'.
Proof.
  assert (Hsum : match resolve_symbols archive_shared_ctx (start archive_shared_ctx) with
                 | Done st => Some (file (syms st 2%nat), bool_decide (2%nat ∈ is_alive st))
                 | _ => None
                 end = Some (None, true)) by (vm_compute; reflexivity).
  destruct (resolve_symbols archive_shared_ctx (start archive_shared_ctx)) as [st' | | |];
    try discriminate.
  exists st'. injection Hsum as Hf H2. apply bool_decide_eq_true in H2. done.
Qed.

(** C1, as stated, fails.  In the first link the symbol [baz] (5) is
    defined only by an archive member that nothing refers to: the member is
    eliminated and its symbols are made new, so at the end [baz] has no file
    although a file of the link defines it (tier 5, before "no definition").
    In the second link two objects have priorities [1] and [2^24 + 2]: the
    weak definition of the first has rank [2 * 2^24 + 1], the strong
    definition of the second has rank [2^24 + 2^24 + 2], and the weak one
    holds the symbol.  In the third link two shared objects define the
    symbol, the first weakly and the second strongly: [resolve_dso_symbols]
    gives it to the first, whose priority number is lower, although its
    definition is in tier 4 and the other in tier 3.  In the fourth link an
    archive member and a shared object define the symbol: the member, whose
    priority number is lower, keeps the symbol against the shared object,
    is never loaded, and its symbols are made new, so at the end the symbol
    has no file although the shared object, which is alive, defines it.  In
    the fifth link, the third under [--as-needed], [mark_live_objects] feeds
    the shared object that holds the symbol to the loop as if it were an
    object file, where the program has no behaviour: the passes do not run to
    an end. *)
Lemma resolve_symbols_minimum_fails :
  (exists st', resolve_symbols sample_ctx (start sample_ctx) = Done st' /\
     ~ holds_minimum sample_ctx st' (fun _ => True)) /\
  (exists st', resolve_symbols large_ctx (start large_ctx) = Done st' /\
     ~ holds_minimum large_ctx st' (fun f => f ∈ is_alive st')) /\
  (exists st', resolve_symbols shared_ctx (start shared_ctx) = Done st' /\
     ~ holds_minimum shared_ctx st' (fun f => f ∈ is_alive st')) /\
  (exists st', resolve_symbols archive_shared_ctx (start archive_shared_ctx) = Done st' /\
     ~ holds_minimum archive_shared_ctx st' (fun f => f ∈ is_alive st')) /\
  resolve_symbols shared_ctx (start_as_needed shared_ctx)
  = Abort "shared object used as an object file".
Proof.
  split; [| split; [| split; [| split]]].
  - destruct sample_run as (st' & Hrun & _ & H5). exists st'. split; [done |].
    intros [_ Hmin].
    destruct (Hmin 5%nat 3%nat (object 5 true [(strong 1, 2%nat); (strong 1, 5%nat)])
                2%nat (strong 1) I eq_refl) as (h & _ & _ & (Hf & _) & _).
    { split; [cbn; lia |]. split; [reflexivity |]. split; reflexivity. }
    rewrite H5 in Hf. discriminate.
  - destruct large_run as (st' & Hrun & Hh & H0 & H1). exists st'. split; [done |].
    intros [_ Hmin]. injection Hh as Hfile Hidx Hlazy.
    destruct (Hmin 1%nat 1%nat (object (2 ^ 24 + 2) false [(strong 1, 1%nat)])
                1%nat (strong 1) H1 eq_refl) as (h & H & e & (Hf & _ & HH & Hd & _) & Hle & _).
    { split; [cbn; lia |]. split; [reflexivity |]. split; reflexivity. }
    rewrite Hfile in Hf. injection Hf as <-. injection HH as <-.
    rewrite Hidx in Hd. destruct Hd as (_ & _ & He & _). injection He as <-.
    unfold at_most, place in Hle. rewrite !bool_decide_eq_true_2 in Hle by done.
    vm_compute in Hle. destruct Hle as [Hlt | [Heq _]]; discriminate.
  - destruct shared_run as (st' & Hrun & Hh & H1 & H2). exists st'. split; [done |].
    intros [_ Hmin]. injection Hh as Hfile Hidx Hlazy.
    destruct (Hmin 1%nat 2%nat (shared_object 4 [(strong 1, 1%nat)])
                0%nat (strong 1) H2 eq_refl) as (h & H & e & (Hf & _ & HH & Hd & _) & Hle & _).
    { split; [cbn; lia |]. split; [reflexivity |]. split; reflexivity. }
    rewrite Hfile in Hf. injection Hf as <-. injection HH as <-.
    rewrite Hidx in Hd. destruct Hd as (_ & _ & He & _). injection He as <-.
    unfold at_most, place in Hle. rewrite !bool_decide_eq_true_2 in Hle by done.
    vm_compute in Hle. destruct Hle as [Hlt | [Heq _]]; discriminate.
  - destruct archive_shared_run as (st' & Hrun & Hf2 & H2). exists st'. split; [done |].
    intros [_ Hmin].
    destruct (Hmin 2%nat 2%nat (shared_object 4 [(strong 1, 2%nat)])
                0%nat (strong 1) H2 eq_refl) as (h & _ & _ & (Hf & _) & _).
    { split; [cbn; lia |]. split; [reflexivity |]. split; reflexivity. }
    rewrite Hf2 in Hf. discriminate.
  - vm_compute. reflexivity.
Qed.

End ResolverExamples.

(** ** More on the ULEB128 codec *)

Section UlebMore.
Import Word Uleb.

Lemma uleb_size_loop_length fuel : forall val,
  uleb_size_loop fuel val = (fun bs => Z.of_nat (length bs)) <$> encode_loop fuel val.
Proof.
  induction fuel as [| fuel IH]; intros val; [done |]. simpl.
  destruct (Z.shiftr val 7 =? 0); [done |]. rewrite IH.
  destruct (encode_loop fuel (Z.shiftr val 7)) as [rest |]; [| done].
  simpl. f_equal. lia.
Qed.

Lemma encode_loop_length fuel : forall val bs,
  encode_loop fuel val = Some bs -> (1 <= length bs <= fuel)%nat.
Proof.
  induction fuel as [| fuel IH]; intros val bs; [done |]. simpl.
  destruct (Z.shiftr val 7 =? 0).
  - intros [= <-]. simpl. lia.
  - destruct (encode_loop fuel (Z.shiftr val 7)) as [rest |] eqn:Hrest; [| done].
    intros [= <-]. specialize (IH _ _ Hrest). simpl. lia.
Qed.

(** The bytes of an encoding: every byte but the last has the bit [0x80],
    the last has not. *)
Lemma encode_loop_shape fuel : forall val bs,
  encode_loop fuel val = Some bs ->
  exists body last, bs = body ++ [last] /\
    Forall (fun b => 128 <= b < 256) body /\ 0 <= last < 128.
Proof.
  induction fuel as [| fuel IH]; intros val bs; [done |]. simpl.
  rewrite low7_u8. pose proof (land_127_range val) as Hlow.
  destruct (Z.shiftr val 7 =? 0).
  - intros [= <-]. exists [], (Z.land val 127). done.
  - destruct (encode_loop fuel (Z.shiftr val 7)) as [rest |] eqn:Hrest; [| done].
    intros [= <-]. destruct (IH _ _ Hrest) as (body & last & -> & Hbody & Hlast).
    rewrite (wrap_small 8) by (pose proof (cont_byte_range _ Hlow); lia).
    exists (Z.lor (Z.land val 127) 128 :: body), last. split; [done |].
    split; [| done]. apply Forall_cons. split; [| done]. by apply cont_byte_range.
Qed.

(** X1: for a value below [2^31], [read_uleb] on the bytes that
    [encode_uleb] appends (the bytes that [write_uleb] stores), followed by
    any other bytes, returns the value and leaves the pointer at the first
    byte that follows. *)
Theorem read_uleb_after_encode x vec rest :
  0 <= x < 2 ^ 31 ->
  exists bs, encode_uleb vec x = Some (vec ++ bs) /\
    write_uleb x = Some (bs, Z.of_nat (length bs)) /\
    read_uleb (bs ++ rest) = ReadOk x rest.
Proof.
  intros Hx. assert (H3164 : 2 ^ 31 < 2 ^ 64) by done.
  unfold encode_uleb, write_uleb. rewrite (wrap_small 64) by lia.
  destruct (encode_loop_total 10 x) as [bs Hbs]; [| lia |].
  { change (7 * Z.of_nat 10) with 70.
    assert (2 ^ 64 < 2 ^ 70) by (apply Z.pow_lt_mono_r; lia). lia. }
  exists bs. rewrite Hbs. split; [done |]. split; [done |].
  unfold read_uleb. rewrite (read_loop_encode 10 x bs rest 0 0); [| lia | lia | lia | done].
  by rewrite Z.shiftl_0_r.
Qed.

Lemma read_uleb_after_encode_witness :
  exists bs, encode_uleb [7] 300 = Some ([7] ++ bs) /\
    read_uleb (bs ++ [1; 2]) = ReadOk 300 [1; 2].
Proof.
  destruct (read_uleb_after_encode 300 [7] [1; 2]) as (bs & Henc & _ & Hread); [lia |].
  by exists bs.
Defined.

(** X2: [uleb_size] returns the number of bytes that [write_uleb] stores for
    the same value, which is between 1 and 10; of these bytes all but the
    last have the continuation bit [0x80] and the last has not. *)
Theorem uleb_size_write_uleb x :
  exists body last,
    write_uleb x = Some (body ++ [last], Z.of_nat (length (body ++ [last]))) /\
    uleb_size x = Some (Z.of_nat (length (body ++ [last]))) /\
    (length (body ++ [last]) <= 10)%nat /\
    Forall (fun b => 128 <= b < 256) body /\ 0 <= last < 128.
Proof.
  unfold write_uleb, uleb_size. rewrite uleb_size_loop_length.
  assert (Hu : 0 <= u64 x < 2 ^ 64) by (by apply wrap_range).
  destruct (encode_loop_total 10 (u64 x)) as [bs Hbs]; [| lia |].
  { change (7 * Z.of_nat 10) with 70.
    assert (2 ^ 64 < 2 ^ 70) by (apply Z.pow_lt_mono_r; lia). lia. }
  destruct (encode_loop_shape _ _ _ Hbs) as (body & last & -> & Hbody & Hlast).
  pose proof (encode_loop_length _ _ _ Hbs) as Hlen.
  exists body, last. rewrite Hbs. simpl. repeat split; try done; lia.
Qed.

End UlebMore.

(** ** More on the alignment helpers *)

Section AlignMore.
Import Word Run Layout.

(** [x & ~(2^k - 1)] clears the [k] low bits of a [u64]. *)
Lemma mask_clear x k :
  0 <= k < 64 -> 0 <= x < 2 ^ 64 ->
  Z.land x (u64 (Z.lnot (u64 (2 ^ k - 1)))) = x - x mod 2 ^ k.
Proof.
  intros Hk Hx. assert (Hpos : 0 < 2 ^ k) by (apply Z.pow_pos_nonneg; lia).
  replace (x - x mod 2 ^ k) with (Z.shiftl (Z.shiftr x k) k).
  2:{ rewrite Z.shiftl_mul_pow2, Z.shiftr_div_pow2 by lia.
      pose proof (Z.div_mod x (2 ^ k)). lia. }
  apply Z.bits_inj'. intros i Hi.
  rewrite Z.land_spec, Z.shiftl_spec by lia.
  unfold u64 at 1, wrap. rewrite Z.testbit_mod_pow2 by lia.
  rewrite Z.lnot_spec by done. unfold u64, wrap.
  rewrite Z.testbit_mod_pow2 by lia.
  replace (2 ^ k - 1) with (Z.ones k) by (rewrite Z.ones_equiv; lia).
  rewrite Z.testbit_ones by lia.
  destruct (Z.ltb_spec i k) as [Hlt | Hge].
  - rewrite (Z.testbit_neg_r _ (i - k)) by lia.
    destruct (Z.ltb_spec i 64), (Z.leb_spec 0 i); try lia;
      simpl; by rewrite ?andb_false_r.
  - rewrite Z.shiftr_spec by lia. replace (i - k + k) with i by lia.
    destruct (Z.ltb_spec i 64) as [Hlt | Hge64].
    + destruct (Z.leb_spec 0 i); [| lia]. simpl. by rewrite andb_true_r.
    + simpl. rewrite andb_false_r.
      rewrite <- (Z.mod_small x (2 ^ 64)) by lia.
      rewrite Z.testbit_mod_pow2 by lia.
      destruct (Z.ltb_spec i 64); [lia | done].
Qed.

Lemma align_to_value val k :
  0 <= k < 32 ->
  align_to val (2 ^ k) =
    Done (u64 (val + 2 ^ k - 1) - u64 (val + 2 ^ k - 1) mod 2 ^ k).
Proof.
  intros Hk. assert (Hpos : 0 < 2 ^ k) by (apply Z.pow_pos_nonneg; lia).
  unfold align_to. destruct (Z.eqb_spec (2 ^ k) 0); [lia |].
  rewrite popcount_pow2_low by done. simpl.
  rewrite mask_clear; [done | lia | by apply wrap_range].
Qed.

Lemma align_to_bounds val k :
  0 <= k < 32 -> 0 <= val -> val + 2 ^ k <= 2 ^ 64 ->
  exists v, align_to val (2 ^ k) = Done v /\ val <= v < val + 2 ^ k /\ v mod 2 ^ k = 0.
Proof.
  intros Hk Hval Hfit. assert (Hpos : 0 < 2 ^ k) by (apply Z.pow_pos_nonneg; lia).
  rewrite align_to_value by done. rewrite (wrap_small 64) by lia.
  set (x := val + 2 ^ k - 1).
  pose proof (Z.mod_pos_bound x (2 ^ k) Hpos) as Hmod.
  pose proof (Z.div_mod x (2 ^ k) ltac:(lia)) as Hdiv.
  eexists. split; [done |]. split; [lia |].
  replace (x - x mod 2 ^ k) with (x / 2 ^ k * 2 ^ k) by lia.
  by apply Z.mod_mul; lia.
Qed.

Lemma align_with_skew_bounds val k skew :
  0 <= k < 32 -> 0 <= skew < 2 ^ k -> 0 <= val -> val + 2 * 2 ^ k <= 2 ^ 64 ->
  exists n, align_with_skew val (2 ^ k) skew = Done n /\
    val <= n < val + 2 ^ k /\ n mod 2 ^ k = skew.
Proof.
  intros Hk Hskew Hval Hfit.
  assert (Hpos : 0 < 2 ^ k) by (apply Z.pow_pos_nonneg; lia).
  unfold align_with_skew. rewrite (wrap_small 64) by lia.
  destruct (align_to_bounds (val + 2 ^ k - skew) k Hk) as (v & -> & Hv & Hmod); [lia | lia |].
  cbn [mbind outcome_bind bind]. rewrite (wrap_small 64) by lia.
  eexists. split; [done |]. split; [lia |].
  apply Z.mod_divide in Hmod as [q ->]; [| lia].
  replace (q * 2 ^ k - 2 ^ k + skew) with (skew + (q - 1) * 2 ^ k) by lia.
  rewrite Z.mod_add by lia. apply Z.mod_small. lia.
Qed.

(** X3: for an alignment [2^k] with [k < 32] and a value with
    [val + 2^k <= 2^64], [align_to] returns the least multiple of the
    alignment that is not below the value; for a value nearer than the
    alignment to [2^64] the sum wraps and [align_to] returns 0; for the
    alignment 0 it returns the value. *)
Theorem align_to_least val k :
  0 <= k < 32 -> 0 <= val < 2 ^ 64 ->
  (val + 2 ^ k <= 2 ^ 64 ->
   exists v, align_to val (2 ^ k) = Done v /\
     val <= v < val + 2 ^ k /\ v mod 2 ^ k = 0 /\
     forall m, val <= m -> m mod 2 ^ k = 0 -> v <= m) /\
  (2 ^ 64 < val + 2 ^ k -> align_to val (2 ^ k) = Done 0) /\
  align_to val 0 = Done val.
Proof.
  intros Hk Hval. assert (Hpos : 0 < 2 ^ k) by (apply Z.pow_pos_nonneg; lia).
  split; [| split; [| done]].
  - intros Hfit. rewrite align_to_value by done.
    rewrite (wrap_small 64) by lia.
    set (x := val + 2 ^ k - 1).
    pose proof (Z.mod_pos_bound x (2 ^ k) Hpos) as Hmod.
    pose proof (Z.div_mod x (2 ^ k) ltac:(lia)) as Hdiv.
    eexists. split; [done |]. split; [lia |]. split.
    + replace (x - x mod 2 ^ k) with (x / 2 ^ k * 2 ^ k) by lia.
      by apply Z.mod_mul; lia.
    + intros m Hm Hmul. apply Z.mod_divide in Hmul as [q ->]; [| lia].
      replace (x - x mod 2 ^ k) with (x / 2 ^ k * 2 ^ k) by lia.
      apply Z.mul_le_mono_nonneg_r; [lia |].
      assert (x / 2 ^ k < q + 1); [| lia].
      apply Z.div_lt_upper_bound; [lia |]. nia.
  - intros Hwrap. rewrite align_to_value by done.
    assert (Hx : u64 (val + 2 ^ k - 1) = val + 2 ^ k - 1 - 2 ^ 64).
    { unfold u64, wrap. symmetry. apply (Z.mod_unique _ _ 1); [| lia].
      assert (2 ^ k < 2 ^ 64) by (apply Z.pow_lt_mono_r; lia). lia. }
    rewrite Hx. rewrite Z.mod_small by lia. f_equal. lia.
Qed.

Lemma align_to_least_witness :
  (exists v, align_to 13 (2 ^ 3) = Done v /\ 13 <= v < 13 + 2 ^ 3 /\ v mod 2 ^ 3 = 0) /\
  align_to (2 ^ 64 - 1) (2 ^ 3) = Done 0.
Proof.
  split.
  - destruct (align_to_least 13 3 ltac:(lia) ltac:(lia)) as [Hfit _].
    destruct (Hfit ltac:(lia)) as (v & Hv & Hrange & Hmod & _). by exists v.
  - apply (align_to_least (2 ^ 64 - 1) 3); lia.
Defined.

(** X4: [__builtin_popcount] takes an [unsigned int], so the assertion of
    [align_to] and [align_down] looks at the low 32 bits of the alignment
    only: a power of two from [2^32] on fails it, and so does [align_down]
    for the alignment 0. *)
Theorem align_to_wide_alignment val k :
  32 <= k < 64 ->
  align_to val (2 ^ k) = Abort "__builtin_popcount(align) == 1" /\
  align_down val (2 ^ k) = Abort "__builtin_popcount(align) == 1" /\
  align_down val 0 = Abort "__builtin_popcount(align) == 1".
Proof.
  intros Hk. assert (Hpos : 0 < 2 ^ k) by (apply Z.pow_pos_nonneg; lia).
  unfold align_to, align_down. destruct (Z.eqb_spec (2 ^ k) 0); [lia |].
  rewrite popcount_pow2_high by lia. done.
Qed.

Lemma align_to_wide_alignment_witness :
  align_to 1 (2 ^ 32) = Abort "__builtin_popcount(align) == 1".
Proof. apply (align_to_wide_alignment 1 32). lia. Defined.

(** X5: for an alignment [2^k] with [k < 32], [align_down] returns the
    greatest multiple of the alignment that is not above the value. *)
Theorem align_down_greatest val k :
  0 <= k < 32 -> 0 <= val < 2 ^ 64 ->
  exists v, align_down val (2 ^ k) = Done v /\
    v <= val < v + 2 ^ k /\ v mod 2 ^ k = 0 /\
    forall m, m <= val -> m mod 2 ^ k = 0 -> m <= v.
Proof.
  intros Hk Hval. assert (Hpos : 0 < 2 ^ k) by (apply Z.pow_pos_nonneg; lia).
  unfold align_down. rewrite popcount_pow2_low by done. simpl.
  rewrite mask_clear by lia.
  pose proof (Z.mod_pos_bound val (2 ^ k) Hpos) as Hmod.
  pose proof (Z.div_mod val (2 ^ k) ltac:(lia)) as Hdiv.
  eexists. split; [done |]. split; [lia |]. split.
  - replace (val - val mod 2 ^ k) with (val / 2 ^ k * 2 ^ k) by lia.
    by apply Z.mod_mul; lia.
  - intros m Hm Hmul. apply Z.mod_divide in Hmul as [q ->]; [| lia].
    replace (val - val mod 2 ^ k) with (val / 2 ^ k * 2 ^ k) by lia.
    apply Z.mul_le_mono_nonneg_r; [lia |].
    apply Z.div_le_lower_bound; [lia |]. lia.
Qed.

Lemma align_down_greatest_witness :
  exists v, align_down 13 (2 ^ 3) = Done v /\ v <= 13 < v + 2 ^ 3 /\ v mod 2 ^ 3 = 0.
Proof.
  destruct (align_down_greatest 13 3 ltac:(lia) ltac:(lia)) as (v & Hv & Hrange & Hmod & _).
  by exists v.
Defined.

(** X6: for an alignment [2^k] with [k < 32], a skew below the alignment
    and a value with [val + 2 * 2^k <= 2^64], [align_with_skew] returns the
    smallest [n] with [n >= val] and [n % align == skew], as its comment
    says. *)
Theorem align_with_skew_smallest val k skew :
  0 <= k < 32 -> 0 <= skew < 2 ^ k -> 0 <= val -> val + 2 * 2 ^ k <= 2 ^ 64 ->
  exists n, align_with_skew val (2 ^ k) skew = Done n /\
    val <= n /\ n mod 2 ^ k = skew /\
    forall m, val <= m -> m mod 2 ^ k = skew -> n <= m.
Proof.
  intros Hk Hskew Hval Hfit.
  assert (Hpos : 0 < 2 ^ k) by (apply Z.pow_pos_nonneg; lia).
  unfold align_with_skew. rewrite (wrap_small 64) by lia.
  rewrite align_to_value by done. rewrite (wrap_small 64) by lia.
  set (x := val + 2 ^ k - skew + 2 ^ k - 1).
  pose proof (Z.mod_pos_bound x (2 ^ k) Hpos) as Hmod.
  pose proof (Z.div_mod x (2 ^ k) ltac:(lia)) as Hdiv.
  cbn [mbind outcome_bind bind]. rewrite (wrap_small 64) by lia.
  eexists. split; [done |]. split; [lia |]. split.
  - replace (x - x mod 2 ^ k - 2 ^ k + skew) with (skew + (x / 2 ^ k - 1) * 2 ^ k) by lia.
    rewrite Z.mod_add by lia. apply Z.mod_small. lia.
  - intros m Hm Hmul.
    pose proof (Z.div_mod m (2 ^ k) ltac:(lia)) as Hdivm. rewrite Hmul in Hdivm.
    replace (x - x mod 2 ^ k) with (2 ^ k * (x / 2 ^ k)) by lia.
    assert (x / 2 ^ k <= m / 2 ^ k + 1); [| nia].
    assert (x / 2 ^ k < m / 2 ^ k + 2); [| lia].
    apply Z.div_lt_upper_bound; [lia |]. nia.
Qed.

Lemma align_with_skew_smallest_witness :
  exists n, align_with_skew 13 (2 ^ 3) 2 = Done n /\ 13 <= n /\ n mod 2 ^ 3 = 2.
Proof.
  destruct (align_with_skew_smallest 13 3 2 ltac:(lia) ltac:(lia) ltac:(lia) ltac:(lia))
    as (n & Hn & Hle & Hmod & _).
  by exists n.
Defined.

End AlignMore.

(** ** Utilities of [mold.h] *)

Section UtilFacts.
Import Word Run.

(** X7: for a value from 2 to [2^63 - 1], [next_power_of_two] returns the
    least power of two that is not below the value; for 0 and 1 it returns
    1; for a value from [2^63] on its assertion fails. *)
Theorem next_power_of_two_least val :
  0 <= val < 2 ^ 64 ->
  (2 <= val < 2 ^ 63 ->
   exists e, Util.next_power_of_two val = Done (2 ^ e) /\ 0 <= e /\
     val <= 2 ^ e < 2 * val) /\
  (val <= 1 -> Util.next_power_of_two val = Done 1) /\
  (2 ^ 63 <= val -> Util.next_power_of_two val = Abort "val >> 63 == 0").
Proof.
  intros Hval. unfold Util.next_power_of_two. rewrite Z.shiftr_div_pow2 by lia.
  repeat split.
  - intros Hr. rewrite Z.div_small by lia. simpl.
    unfold ConcurrentMap.next_power_of_two, ConcurrentMap.clzl.
    destruct (Z.eqb_spec val 0); [lia |]. destruct (Z.eqb_spec val 1); [lia |]. simpl.
    pose proof (Z.log2_spec (val - 1) ltac:(lia)) as Hlog.
    pose proof (Z.log2_nonneg (val - 1)) as Hnn.
    assert (Hlt : Z.log2 (val - 1) < 63).
    { apply Z.log2_lt_pow2; lia. }
    exists (Z.succ (Z.log2 (val - 1))).
    replace (64 - (63 - Z.log2 (val - 1))) with (Z.succ (Z.log2 (val - 1))) by lia.
    rewrite Z.shiftl_1_l.
    assert (2 ^ Z.succ (Z.log2 (val - 1)) <= 2 ^ 63) by (apply Z.pow_le_mono_r; lia).
    rewrite (wrap_small 64) by lia.
    rewrite Z.pow_succ_r in * by lia. split; [done |]. lia.
  - intros Hr. rewrite Z.div_small by lia. simpl.
    unfold ConcurrentMap.next_power_of_two.
    destruct (Z.eqb_spec val 0); [done |]. destruct (Z.eqb_spec val 1); [done | lia].
  - intros Hr.
    assert (val / 2 ^ 63 = 1) as ->; [| done].
    symmetry. apply (Z.div_unique val (2 ^ 63) 1 (val - 2 ^ 63)); lia.
Qed.

Lemma next_power_of_two_least_witness :
  exists e, Util.next_power_of_two 2049 = Done (2 ^ e) /\ 2049 <= 2 ^ e < 2 * 2049.
Proof.
  destruct (next_power_of_two_least 2049 ltac:(lia)) as [H _].
  destruct (H ltac:(lia)) as (e & He & _ & Hrange). by exists e.
Defined.

End UtilFacts.

Section BitVectorFacts.
Import Word Run BitVector.

Lemma testbit_one_shl p n : 0 <= p -> 0 <= n -> Z.testbit (Z.shiftl 1 p) n = (n =? p).
Proof.
  intros Hp Hn. rewrite Z.shiftl_1_l, Z.pow2_bits_eqb by lia.
  by rewrite Z.eqb_sym.
Qed.

Lemma bit_test byte p :
  0 <= p -> negb (Z.land byte (Z.shiftl 1 p) =? 0) = Z.testbit byte p.
Proof.
  intros Hp. destruct (Z.testbit byte p) eqn:Hbit.
  - destruct (Z.eqb_spec (Z.land byte (Z.shiftl 1 p)) 0) as [Hz | _]; [| done].
    apply (f_equal (fun z => Z.testbit z p)) in Hz.
    rewrite Z.land_spec, testbit_one_shl, Hbit, Z.eqb_refl, Z.bits_0 in Hz by lia. done.
  - replace (Z.land byte (Z.shiftl 1 p)) with 0; [done |].
    symmetry. apply Z.bits_inj'. intros n Hn.
    rewrite Z.land_spec, testbit_one_shl, Z.bits_0 by lia.
    destruct (Z.eqb_spec n p) as [-> | _]; [by rewrite Hbit | by rewrite andb_false_r].
Qed.

Lemma index_split i :
  0 <= i -> Z.quot i 8 = i / 8 /\ u8 (Z.rem i 8) = i mod 8 /\ 0 <= i mod 8 < 8.
Proof.
  intros Hi. rewrite Z.quot_div_nonneg, Z.rem_mod_nonneg by lia.
  pose proof (Z.mod_pos_bound i 8 ltac:(lia)). rewrite (wrap_small 8) by lia. done.
Qed.

Lemma get_testbit v i byte :
  0 <= i -> v !! Z.to_nat (i / 8) = Some byte ->
  get v i = Some (Z.testbit byte (i mod 8)).
Proof.
  intros Hi Hbyte. unfold get. cbv zeta. destruct (Z.ltb_spec i 0); [lia |].
  destruct (index_split i Hi) as (-> & -> & Hp). rewrite Hbyte. simpl.
  by rewrite bit_test by lia.
Qed.

Lemma stored_bit byte p q (val : bool) :
  0 <= p < 8 -> 0 <= q < 8 ->
  Z.testbit (u8 (if val then Z.lor byte (Z.shiftl 1 p)
                 else Z.land byte (Z.lnot (Z.shiftl 1 p)))) q
  = if q =? p then val else Z.testbit byte q.
Proof.
  intros Hp Hq. unfold u8, wrap. rewrite Z.testbit_mod_pow2 by lia.
  destruct (Z.ltb_spec q 8); [| lia]. simpl. destruct val.
  - rewrite Z.lor_spec, testbit_one_shl by lia.
    destruct (q =? p); [by rewrite orb_true_r | by rewrite orb_false_r].
  - rewrite Z.land_spec, Z.lnot_spec, testbit_one_shl by lia.
    destruct (q =? p); [by rewrite andb_false_r | by rewrite andb_true_r].
Qed.

(** X8: [resize] of a size that is not negative gives an array in which
    every bit below the size reads as false; the array has fewer than 8
    bits more than the size. *)
Theorem resize_clear size :
  0 <= size ->
  exists v, resize size = Done v /\
    size <= 8 * Z.of_nat (length v) < size + 8 /\
    forall i, 0 <= i < 8 * Z.of_nat (length v) -> get v i = Some false.
Proof.
  intros Hsize. unfold resize.
  rewrite Z.quot_div_nonneg by lia.
  pose proof (Z.div_mod (size + 7) 8 ltac:(lia)) as Hdiv.
  pose proof (Z.mod_pos_bound (size + 7) 8 ltac:(lia)) as Hmod.
  destruct (Z.ltb_spec ((size + 7) / 8) 0); [lia |].
  eexists. split; [done |]. rewrite length_replicate. split; [lia |].
  intros i Hi.
  assert (Hidx : (Z.to_nat (i / 8) < Z.to_nat ((size + 7) / 8))%nat).
  { assert (i / 8 < (size + 7) / 8) by (apply Z.div_lt_upper_bound; lia).
    assert (0 <= i / 8) by (apply Z.div_pos; lia). lia. }
  rewrite (get_testbit _ i 0); [by rewrite Z.bits_0 | lia |].
  by apply lookup_replicate_2.
Qed.

Lemma resize_clear_witness :
  exists v, resize 10 = Done v /\ get v 9 = Some false.
Proof.
  destruct (resize_clear 10 ltac:(lia)) as (v & Hv & Hlen & Hget).
  exists v. split; [done |]. apply Hget. lia.
Defined.

(** X9: an assignment [bv[i] = val] inside the array keeps its length;
    afterwards the bit [i] reads as [val] and every other bit reads as
    before. *)
Theorem set_get v i val :
  0 <= i < 8 * Z.of_nat (length v) ->
  exists v', set v i val = Some v' /\ length v' = length v /\
    get v' i = Some val /\
    forall j, j <> i -> get v' j = get v j.
Proof.
  intros Hi. unfold set. cbv zeta. destruct (Z.ltb_spec i 0); [lia |].
  destruct (index_split i ltac:(lia)) as (-> & -> & Hp).
  assert (Hidx : (Z.to_nat (i / 8) < length v)%nat).
  { assert (i / 8 < Z.of_nat (length v)) by (apply Z.div_lt_upper_bound; lia).
    assert (0 <= i / 8) by (apply Z.div_pos; lia). lia. }
  destruct (lookup_lt_is_Some_2 v _ Hidx) as [byte Hbyte]. rewrite Hbyte. simpl.
  eexists. split; [done |]. split; [by rewrite length_insert |]. split.
  - rewrite (get_testbit _ i _ ltac:(lia) (list_lookup_insert_eq _ _ _ Hidx)).
    by rewrite stored_bit, Z.eqb_refl by lia.
  - intros j Hj. unfold get. cbv zeta. destruct (Z.ltb_spec j 0); [done |].
    destruct (index_split j ltac:(lia)) as (-> & -> & Hq).
    destruct (decide (Z.to_nat (j / 8) = Z.to_nat (i / 8))) as [Heq | Hne].
    + rewrite Heq, list_lookup_insert_eq, Hbyte by done. simpl.
      rewrite !bit_test by lia. rewrite stored_bit by lia.
      destruct (Z.eqb_spec (j mod 8) (i mod 8)) as [Hmod | _]; [| done].
      assert (j / 8 = i / 8).
      { assert (0 <= i / 8) by (apply Z.div_pos; lia).
        assert (0 <= j / 8) by (apply Z.div_pos; lia). lia. }
      pose proof (Z.div_mod i 8 ltac:(lia)). pose proof (Z.div_mod j 8 ltac:(lia)). lia.
    + by rewrite list_lookup_insert_ne by done.
Qed.

Lemma set_get_witness :
  exists v', set [0; 255] 3 true = Some v' /\ get v' 3 = Some true.
Proof.
  destruct (set_get [0; 255] 3 true) as (v' & Hset & _ & Hget & _); [simpl; lia |].
  by exists v'.
Defined.

End BitVectorFacts.

Section HyperLogLogFacts.
Import Word Run HyperLogLog.

Lemma bucket_range hash : 0 <= bucket hash < NBUCKETS.
Proof.
  unfold bucket, NBUCKETS. change (2048 - 1) with (Z.ones 11).
  rewrite Z.land_ones by lia. apply Z.mod_pos_bound. lia.
Qed.

Lemma rank_range hash : u32 hash <> 0 -> 1 <= rank hash <= 32.
Proof.
  intros Hne. unfold rank.
  assert (Hu : 0 <= u32 hash < 2 ^ 32) by (by apply wrap_range).
  pose proof (Z.log2_nonneg (u32 hash)).
  assert (Z.log2 (u32 hash) < 32) by (apply Z.log2_lt_pow2; lia). lia.
Qed.

Lemma insert_max b hash cur :
  u32 hash <> 0 -> b !! Z.to_nat (bucket hash) = Some cur ->
  insert b hash = Some (<[Z.to_nat (bucket hash) := Z.max cur (rank hash)]> b).
Proof.
  intros Hne Hcur. pose proof (rank_range hash Hne) as Hrank.
  unfold insert, clz, merge_one. cbv zeta.
  destruct (Z.eqb_spec (u32 hash) 0); [done |]. simpl.
  fold (bucket hash). rewrite Hcur. simpl.
  replace (u8 (31 - Z.log2 (u32 hash) + 1)) with (rank hash).
  2:{ unfold rank in *. rewrite (wrap_small 8) by lia. lia. }
  f_equal. destruct (Z.ltb_spec cur (rank hash)).
  - by rewrite Z.max_r by lia.
  - rewrite Z.max_l by lia. by rewrite list_insert_id.
Qed.

Lemma insert_defined b hash :
  u32 hash <> 0 -> Z.of_nat (length b) = NBUCKETS ->
  exists cur, b !! Z.to_nat (bucket hash) = Some cur /\
    insert b hash = Some (<[Z.to_nat (bucket hash) := Z.max cur (rank hash)]> b).
Proof.
  intros Hne Hlen. pose proof (bucket_range hash).
  destruct (lookup_lt_is_Some_2 b (Z.to_nat (bucket hash))) as [cur Hcur]; [lia |].
  exists cur. split; [done |]. by apply insert_max.
Qed.

Lemma insert_comm b h1 h2 :
  u32 h1 <> 0 -> u32 h2 <> 0 -> Z.of_nat (length b) = NBUCKETS ->
  insert b h1 ≫= (fun b => insert b h2) = insert b h2 ≫= (fun b => insert b h1).
Proof.
  intros H1 H2 Hlen.
  destruct (insert_defined b h1 H1 Hlen) as (c1 & Hc1 & ->).
  destruct (insert_defined b h2 H2 Hlen) as (c2 & Hc2 & ->). simpl.
  pose proof (lookup_lt_Some _ _ _ Hc1). pose proof (lookup_lt_Some _ _ _ Hc2).
  destruct (decide (Z.to_nat (bucket h1) = Z.to_nat (bucket h2))) as [Heq | Hne].
  - rewrite Heq in *. assert (c1 = c2) as -> by congruence.
    rewrite (insert_max _ h2 (Z.max c2 (rank h1))), (insert_max _ h1 (Z.max c2 (rank h2)));
      [| done | by rewrite Heq, list_lookup_insert_eq | done | by rewrite list_lookup_insert_eq].
    rewrite Heq, !list_insert_insert_eq. do 2 f_equal. lia.
  - rewrite (insert_max _ h2 c2), (insert_max _ h1 c1);
      [| done | by rewrite list_lookup_insert_ne | done | by rewrite list_lookup_insert_ne].
    by rewrite list_insert_insert_ne.
Qed.

Lemma insert_all_cons b hash hashes :
  insert_all b (hash :: hashes) = insert b hash ≫= fun b' => insert_all b' hashes.
Proof.
  unfold insert_all. simpl. destruct (insert b hash) as [b' |]; [done |]. simpl.
  induction hashes as [| h hs IH] using rev_ind; [done |].
  by rewrite foldl_snoc, IH.
Qed.

Lemma insert_all_merged hashes : forall b,
  Forall (fun h => u32 h <> 0) hashes -> Z.of_nat (length b) = NBUCKETS ->
  exists b', insert_all b hashes = Some b' /\ merged b b' hashes.
Proof.
  induction hashes as [| h hs IH]; intros b Hne Hlen.
  - exists b. split; [done |]. split; [done |]. intros j cur Hj.
    exists cur. repeat split; [done | lia | | by left].
    intros h Hh. by apply elem_of_nil in Hh.
  - apply Forall_cons in Hne as [Hh Hhs].
    destruct (insert_defined b h Hh Hlen) as (c & Hc & Hins).
    rewrite insert_all_cons, Hins. simpl.
    destruct (IH (<[Z.to_nat (bucket h) := Z.max c (rank h)]> b) Hhs) as (b' & Hrun & Hlen' & Hb').
    { by rewrite length_insert. }
    exists b'. split; [done |]. rewrite length_insert in Hlen'. split; [done |].
    intros j cur Hj. pose proof (lookup_lt_Some _ _ _ Hj) as Hlt.
    destruct (decide (Z.to_nat (bucket h) = j)) as [<- | Hother].
    + assert (cur = c) as -> by congruence.
      destruct (Hb' (Z.to_nat (bucket h)) (Z.max c (rank h))) as (new & Hnew & Hle & Hall & Hsome).
      { by rewrite list_lookup_insert_eq. }
      exists new. repeat split; [done | lia | |].
      * intros h' [-> | Hh']%elem_of_cons Hbucket; [lia | by apply Hall].
      * destruct Hsome as [-> | (h' & Hh' & Hbucket & ->)].
        -- destruct (Z.max_spec c (rank h)) as [[_ ->] | [_ ->]].
           ++ right. exists h. split; [by left | done].
           ++ by left.
        -- right. exists h'. split; [by right | done].
    + destruct (Hb' j cur) as (new & Hnew & Hle & Hall & Hsome).
      { by rewrite list_lookup_insert_ne. }
      exists new. repeat split; [done | done | |].
      * intros h' [-> | Hh']%elem_of_cons Hbucket; [done | by apply Hall].
      * destruct Hsome as [-> | (h' & Hh' & Hbucket & ->)]; [by left |].
        right. exists h'. split; [by right | done].
Qed.

Lemma insert_all_permutation hashes hashes' :
  hashes ≡ₚ hashes' -> forall b,
  Forall (fun h => u32 h <> 0) hashes -> Z.of_nat (length b) = NBUCKETS ->
  insert_all b hashes = insert_all b hashes'.
Proof.
  induction 1 as [| x l l' Hperm IH | x y l | l1 l2 l3 H12 IH12 H23 IH23]; intros b Hne Hlen.
  - done.
  - apply Forall_cons in Hne as [Hx Hl]. rewrite !insert_all_cons.
    destruct (insert_defined b x Hx Hlen) as (c & _ & ->). simpl.
    apply IH; [done |]. by rewrite length_insert.
  - apply Forall_cons in Hne as [Hy Hne]. apply Forall_cons in Hne as [Hx Hl].
    rewrite !insert_all_cons.
    pose proof (insert_comm b x y Hx Hy Hlen) as Hcomm.
    destruct (insert b x) as [bx |], (insert b y) as [by_ |]; simpl in *;
      try done; rewrite ?insert_all_cons.
    + by rewrite Hcomm.
    + by rewrite Hcomm.
    + by rewrite <- Hcomm.
  - rewrite IH12 by done. apply IH23; [| done]. by rewrite <- H12.
Qed.

(** X10: inserting hashes whose 32 low bits are not all zero into a
    [HyperLogLog] leaves in every bucket the greatest of its old value and
    the ranks (1 plus the number of leading zero bits) of the hashes that
    fall into it; the result does not depend on the order of the
    insertions. *)
Theorem insert_all_max b hashes :
  Forall (fun h => u32 h <> 0) hashes -> Z.of_nat (length b) = NBUCKETS ->
  exists b', insert_all b hashes = Some b' /\ merged b b' hashes /\
    forall hashes', hashes ≡ₚ hashes' -> insert_all b hashes' = Some b'.
Proof.
  intros Hne Hlen. destruct (insert_all_merged hashes b Hne Hlen) as (b' & Hrun & Hmerged).
  exists b'. split; [done |]. split; [done |].
  intros hashes' Hperm. by rewrite <- (insert_all_permutation hashes hashes' Hperm b).
Qed.

Lemma insert_all_max_witness :
  exists b', insert_all create [1; 2049; 3] = Some b' /\
    insert_all create [3; 1; 2049] = Some b'.
Proof.
  destruct (insert_all_max create [1; 2049; 3]) as (b' & Hrun & _ & Hperm).
  - repeat constructor; by vm_compute.
  - by vm_compute.
  - exists b'. split; [done |]. apply Hperm.
    change [3; 1; 2049] with ([3] ++ [1; 2049]).
    change [1; 2049; 3] with ([1; 2049] ++ [3]). apply Permutation_app_comm.
Defined.

End HyperLogLogFacts.

(** ** More on the endian-explicit integers *)

Section IntOpsFacts.
Import Word Byteorder IntOps.

Lemma assign_length X SIZE x val : length (assign X SIZE x val) = length val.
Proof.
  unfold assign. generalize (seq 0 SIZE) as l. intros l. revert val.
  induction l as [| i l IH]; intros val; [done |]. simpl. rewrite IH.
  destruct X; simpl; by rewrite length_insert.
Qed.

Lemma to_T_of_bytes X T SIZE x val :
  0 < bits T <= 64 ->
  (forall j, (j < SIZE)%nat ->
     val !! j = Some (byte_of x (match X with LITTLE => j | BIG => SIZE - 1 - j end))) ->
  to_T X T SIZE val = conv T (x mod 2 ^ (8 * Z.of_nat SIZE)).
Proof.
  intros Hb Hval. unfold to_T. destruct X.
  - destruct (to_T_little T SIZE x val Hb Hval SIZE) as [Hc He]; [done |].
    rewrite <- Hc. apply conv_eqm; [lia | done].
  - destruct (to_T_big T SIZE x val Hb Hval SIZE) as [Hc He]; [done |].
    rewrite <- Hc. apply conv_eqm; [lia |].
    by rewrite Nat.sub_diag, Z.shiftr_0_r in He.
Qed.

Lemma byte_of_value_of l : bytes l -> forall j b,
  l !! j = Some b -> byte_of (value_of l) j = b.
Proof.
  induction 1 as [| b0 l Hb0 Hl IH]; intros j b Hj; [done |].
  destruct j as [| j]; simpl in *.
  - injection Hj as <-. unfold byte_of, u8, wrap. rewrite Z.shiftr_0_r.
    change (2 ^ 8) with 256. rewrite Z.mul_comm, Z.mod_add by lia. by apply Z.mod_small.
  - rewrite <- (IH j b Hj). unfold byte_of. f_equal.
    rewrite !Z.shiftr_div_pow2 by lia.
    replace (Z.of_nat (S j) * 8) with (8 + Z.of_nat j * 8) by lia.
    rewrite Z.pow_add_r, <- Z.div_div by lia. f_equal.
    change (2 ^ 8) with 256. rewrite Z.mul_comm, Z.div_add by lia.
    rewrite Z.div_small by lia. lia.
Qed.

Lemma byte_of_low T SIZE x j :
  0 < bits T -> 8 * Z.of_nat SIZE <= bits T -> (j < SIZE)%nat ->
  byte_of (conv T (x mod 2 ^ (8 * Z.of_nat SIZE))) j = byte_of x j.
Proof.
  intros Hb Hs Hj. unfold byte_of, u8, wrap. apply Z.bits_inj'. intros k Hk.
  rewrite !Z.testbit_mod_pow2 by lia. destruct (Z.ltb_spec k 8); [| done]. simpl.
  rewrite !Z.shiftr_spec by lia.
  pose proof (eqm_conv (bits T) T (x mod 2 ^ (8 * Z.of_nat SIZE)) ltac:(lia) Hb) as He.
  unfold eqm, wrap in He.
  apply (f_equal (fun z => Z.testbit z (k + Z.of_nat j * 8))) in He.
  rewrite !Z.testbit_mod_pow2 in He by lia.
  destruct (Z.ltb_spec (k + Z.of_nat j * 8) (bits T)); [| lia].
  destruct (Z.ltb_spec (k + Z.of_nat j * 8) (8 * Z.of_nat SIZE)); [| lia].
  simpl in He. done.
Qed.

Lemma assign_to_T_id X T SIZE val :
  In (T, SIZE) instantiations -> bytes val -> length val = SIZE ->
  assign X SIZE (to_T X T SIZE val) val = val.
Proof.
  intros Hin Hbytes Hlen. destruct (instantiations_bits T SIZE Hin) as [Hb Hs].
  set (le := match X with LITTLE => val | BIG => reverse val end).
  assert (Hle : bytes le).
  { subst le. destruct X; [done |]. unfold bytes. by apply Forall_reverse. }
  assert (Hval : forall j, (j < SIZE)%nat ->
    val !! j = Some (byte_of (value_of le)
                       (match X with LITTLE => j | BIG => SIZE - 1 - j end))).
  { intros j Hj. destruct (lookup_lt_is_Some_2 val j ltac:(lia)) as [b Hbj].
    rewrite Hbj. f_equal. symmetry. apply (byte_of_value_of le Hle).
    subst le. destruct X; [done |].
    rewrite reverse_lookup by lia. rewrite <- Hbj. f_equal. lia. }
  rewrite (to_T_of_bytes X T SIZE (value_of le) val) by (done || lia).
  apply list_eq. intros j. destruct (decide (j < SIZE)%nat) as [Hj | Hj].
  - rewrite assign_lookup by done. rewrite Hval by done. f_equal.
    apply byte_of_low; [lia | lia |]. destruct X; lia.
  - rewrite !lookup_ge_None_2; [done | lia |]. rewrite assign_length. lia.
Qed.

Lemma to_T_range X T SIZE val :
  In (T, SIZE) instantiations -> in_range T (to_T X T SIZE val).
Proof.
  intros Hin. destruct (instantiations_bits T SIZE Hin) as [Hb Hs].
  assert (Hconv : forall z, in_range T (conv T z)).
  { intros z. unfold in_range, conv, swrap, wrap.
    assert (0 < 2 ^ bits T) by (apply Z.pow_pos_nonneg; lia).
    pose proof (Z.mod_pos_bound z (2 ^ bits T) ltac:(lia)).
    pose proof (Z.mod_pos_bound (z + 2 ^ (bits T - 1)) (2 ^ bits T) ltac:(lia)).
    assert (2 ^ bits T = 2 * 2 ^ (bits T - 1)).
    { rewrite <- Z.pow_succ_r by lia. f_equal. lia. }
    destruct (is_signed T); lia. }
  assert (HS : (0 < SIZE)%nat).
  { unfold instantiations in Hin. simpl in Hin.
    repeat (destruct Hin as [[= <- <-] | Hin]; [lia |]). done. }
  unfold to_T. destruct SIZE as [| n]; [lia |].
  rewrite seq_S, fold_left_app. cbn [fold_left plus].
  unfold load_byte at 1. destruct X; apply Hconv.
Qed.

Lemma arith_unsigned T SIZE r :
  In (T, SIZE) instantiations -> is_signed T = false ->
  - 2 ^ bits T <= r < 2 * 2 ^ bits T ->
  exists r', arith T r = Some r' /\ conv T r' = r mod 2 ^ bits T.
Proof.
  intros Hin Hsigned Hr. destruct (instantiations_bits T SIZE Hin) as [Hb Hs].
  unfold arith, promote. cbv zeta. destruct (Z.ltb_spec (bits T) 32) as [Hsmall | Hbig].
  - exists r. simpl.
    assert (Hbits : bits T = 16 \/ 32 <= bits T).
    { clear -Hin. unfold instantiations in Hin. simpl in Hin.
      repeat (destruct Hin as [[= <- <-] | Hin]; [simpl; lia |]). done. }
    assert (2 ^ bits T <= 2 ^ 30) by (apply Z.pow_le_mono_r; lia).
    assert (Hin32 : in_rangeb i32_t r = true).
    { unfold in_rangeb. simpl. apply andb_true_iff. split; [apply Z.leb_le | apply Z.ltb_lt]; lia. }
    rewrite Hin32. simpl. split.
    + f_equal. unfold conv. simpl. unfold swrap. rewrite Z.mod_small by lia. lia.
    + unfold conv. by rewrite Hsigned.
  - rewrite Hsigned. simpl. eexists. split; [done |].
    unfold conv. rewrite Hsigned. unfold wrap. apply Z.mod_mod.
    apply Z.pow_nonzero; lia.
Qed.

Lemma mod_mod_pow2 z a b : 0 <= a <= b -> (z mod 2 ^ b) mod 2 ^ a = z mod 2 ^ a.
Proof.
  intros Hab. apply Z.bits_inj'. intros n Hn. rewrite !Z.testbit_mod_pow2 by lia.
  destruct (Z.ltb_spec n a); [| done]. destruct (Z.ltb_spec n b); [done | lia].
Qed.

Lemma assign_eqm X SIZE x y val :
  length val = SIZE -> x mod 2 ^ (8 * Z.of_nat SIZE) = y mod 2 ^ (8 * Z.of_nat SIZE) ->
  assign X SIZE x val = assign X SIZE y val.
Proof.
  intros Hlen Hxy. apply list_eq. intros j. destruct (decide (j < SIZE)%nat) as [Hj | Hj].
  - rewrite !assign_lookup by done. f_equal.
    rewrite (byte_of_mod x SIZE), (byte_of_mod y SIZE) by (destruct X; lia). by rewrite Hxy.
  - rewrite !lookup_ge_None_2; [done | |]; rewrite assign_length; lia.
Qed.

Lemma assign_assign X SIZE x y val :
  length val = SIZE -> assign X SIZE x (assign X SIZE y val) = assign X SIZE x val.
Proof.
  intros Hlen. apply list_eq. intros j. destruct (decide (j < SIZE)%nat) as [Hj | Hj].
  - by rewrite !assign_lookup by (done || by rewrite assign_length).
  - rewrite !lookup_ge_None_2; [done | |]; rewrite !assign_length; lia.
Qed.

(** X11: [operator=] stores the byte [x >> (i * 8)] at the index [i] of a
    little-endian [Int] and at the index [SIZE - 1 - i] of a big-endian one,
    whatever the array held: the big-endian array is the little-endian one
    reversed. *)
Theorem assign_layout SIZE x val :
  length val = SIZE ->
  assign LITTLE SIZE x val = byte_of x <$> seq 0 SIZE /\
  assign BIG SIZE x val = reverse (byte_of x <$> seq 0 SIZE).
Proof.
  intros Hlen. split; apply list_eq; intros j.
  - destruct (decide (j < SIZE)%nat) as [Hj | Hj].
    + rewrite assign_lookup by done. rewrite list_lookup_fmap, lookup_seq_lt by done. done.
    + rewrite !lookup_ge_None_2; [done | |].
      * rewrite length_fmap, length_seq. lia.
      * rewrite assign_length. lia.
  - destruct (decide (j < SIZE)%nat) as [Hj | Hj].
    + rewrite assign_lookup by done.
      rewrite reverse_lookup by (rewrite length_fmap, length_seq; lia).
      rewrite length_fmap, length_seq, list_lookup_fmap, lookup_seq_lt by lia.
      simpl. do 2 f_equal. lia.
    + rewrite !lookup_ge_None_2; [done | |].
      * rewrite length_reverse, length_fmap, length_seq. lia.
      * rewrite assign_length. lia.
Qed.

Lemma assign_layout_witness :
  assign BIG 4 0x11223344 [9; 9; 9; 9] = reverse (byte_of 0x11223344 <$> seq 0 4).
Proof. apply (assign_layout 4 0x11223344 [9; 9; 9; 9]). reflexivity. Defined.

(** X12: for every instantiation of [byteorder.h] and both byte orders,
    reading an [Int] by [operator T] and assigning the value back by
    [operator=] leaves the bytes of the array as they were. *)
Theorem assign_to_T X T SIZE val :
  In (T, SIZE) instantiations -> bytes val -> length val = SIZE ->
  assign X SIZE (to_T X T SIZE val) val = val.
Proof. apply assign_to_T_id. Qed.

Lemma assign_to_T_witness :
  assign BIG 3 (to_T BIG u32_t 3 [1; 2; 255]) [1; 2; 255] = [1; 2; 255].
Proof.
  apply (assign_to_T BIG u32_t 3 [1; 2; 255]).
  - simpl. tauto.
  - repeat constructor; lia.
  - reflexivity.
Defined.

(** X13: for the unsigned instantiations of [byteorder.h], [operator+=]
    leaves an [Int] that reads as the sum of its old value and the operand,
    reduced modulo [2^(8*SIZE)]. *)
Theorem add_assign_wraps X T SIZE val x :
  In (T, SIZE) instantiations -> is_signed T = false ->
  length val = SIZE -> in_range T x ->
  exists val', add_assign X T SIZE val x = Some val' /\
    to_T X T SIZE val' = (to_T X T SIZE val + x) mod 2 ^ (8 * Z.of_nat SIZE).
Proof.
  intros Hin Hsigned Hlen Hx. destruct (instantiations_bits T SIZE Hin) as [Hb Hs].
  pose proof (to_T_range X T SIZE val Hin) as Hr.
  set (v := to_T X T SIZE val) in *.
  unfold in_range in Hx, Hr. rewrite Hsigned in Hx, Hr.
  assert (Hpos : 0 < 2 ^ (8 * Z.of_nat SIZE)) by (apply Z.pow_pos_nonneg; lia).
  assert (Hle : 2 ^ (8 * Z.of_nat SIZE) <= 2 ^ bits T) by (apply Z.pow_le_mono_r; lia).
  destruct (arith_unsigned T SIZE (v + x) Hin Hsigned) as (r & Hr' & Hconv); [lia |].
  unfold add_assign. fold v. rewrite Hr'. simpl.
  eexists. split; [done |]. rewrite to_T_assign by (done || lia).
  rewrite Hconv, mod_mod_pow2 by lia.
  apply conv_in_range; [lia |]. unfold in_range. rewrite Hsigned.
  pose proof (Z.mod_pos_bound (v + x) (2 ^ (8 * Z.of_nat SIZE)) Hpos). lia.
Qed.

Lemma add_assign_wraps_witness :
  exists val', add_assign BIG u32_t 3 [255; 255; 255] 2 = Some val' /\
    to_T BIG u32_t 3 val' = (to_T BIG u32_t 3 [255; 255; 255] + 2) mod 2 ^ (8 * Z.of_nat 3).
Proof.
  apply (add_assign_wraps BIG u32_t 3 [255; 255; 255] 2).
  - simpl. tauto.
  - reflexivity.
  - reflexivity.
  - unfold in_range. simpl. lia.
Defined.

(** X14: for the unsigned instantiations of [byteorder.h], [operator--]
    after [operator++] gives back the bytes the [Int] had, also when the
    value wraps. *)
Theorem pre_dec_pre_inc X T SIZE val :
  In (T, SIZE) instantiations -> is_signed T = false ->
  bytes val -> length val = SIZE ->
  exists val', pre_inc X T SIZE val = Some val' /\ pre_dec X T SIZE val' = Some val.
Proof.
  intros Hin Hsigned Hbytes Hlen. destruct (instantiations_bits T SIZE Hin) as [Hb Hs].
  pose proof (to_T_range X T SIZE val Hin) as Hr.
  set (v := to_T X T SIZE val) in *.
  unfold in_range in Hr. rewrite Hsigned in Hr.
  assert (Hpos : 0 < 2 ^ (8 * Z.of_nat SIZE)) by (apply Z.pow_pos_nonneg; lia).
  assert (Hle : 2 ^ (8 * Z.of_nat SIZE) <= 2 ^ bits T) by (apply Z.pow_le_mono_r; lia).
  destruct (arith_unsigned T SIZE (v + 1) Hin Hsigned) as (r & Hr' & Hconv); [lia |].
  unfold pre_inc. fold v. rewrite Hr'. simpl. eexists. split; [done |].
  unfold pre_dec. rewrite to_T_assign by (done || lia). rewrite Hconv, mod_mod_pow2 by lia.
  pose proof (Z.mod_pos_bound (v + 1) (2 ^ (8 * Z.of_nat SIZE)) Hpos) as Hm.
  rewrite (conv_in_range T) by (lia || (unfold in_range; rewrite Hsigned; lia)).
  destruct (arith_unsigned T SIZE ((v + 1) mod 2 ^ (8 * Z.of_nat SIZE) - 1) Hin Hsigned)
    as (r2 & Hr2 & Hconv2); [lia |].
  rewrite Hr2. simpl. f_equal. rewrite assign_assign by done.
  rewrite <- (assign_to_T_id X T SIZE val Hin Hbytes Hlen) at 2. fold v.
  apply assign_eqm; [done |]. rewrite Hconv2, mod_mod_pow2 by lia.
  rewrite Zminus_mod_idemp_l. f_equal. lia.
Qed.

Lemma pre_dec_pre_inc_witness :
  exists val', pre_inc LITTLE u16_t 2 [255; 255] = Some val' /\
    pre_dec LITTLE u16_t 2 val' = Some [255; 255].
Proof.
  apply (pre_dec_pre_inc LITTLE u16_t 2 [255; 255]).
  - simpl. tauto.
  - reflexivity.
  - repeat constructor; lia.
  - reflexivity.
Defined.


End IntOpsFacts.

(** ** More on splitting mergeable sections *)

Section FragmentsFacts.
Import Word Elf Run Mergeable Fragments.

Variable hash_string : list Z -> Z.

Lemma find_zero_split : forall data i,
  (exists body rest, data = body ++ 0 :: rest /\ Forall (fun c => c <> 0) body /\
     find_zero data i = i + size body) \/
  (Forall (fun c => c <> 0) data /\ find_zero data i = npos).
Proof.
  induction data as [| c data IH]; intros i; [by right |]. simpl.
  destruct (Z.eqb_spec c 0) as [-> | Hc].
  - left. exists [], data. unfold size. simpl. repeat split; [done | lia].
  - destruct (IH (i + 1)) as [(body & rest & -> & Hbody & Hfind) | [Hall Hfind]].
    + left. exists (c :: body), rest. repeat split; [by constructor |].
      rewrite Hfind. unfold size. simpl. lia.
    + right. split; [by constructor | done].
Qed.

Lemma substr_take data n :
  0 <= n <= size data -> substr data 0 n = Done (take (Z.to_nat n) data).
Proof.
  intros Hn. unfold substr. destruct (Z.ltb_spec (size data) 0); [lia |].
  simpl. rewrite Z.sub_0_r, Z.min_l by lia. done.
Qed.

Lemma substr_drop data n :
  0 <= n <= size data -> size data < 2 ^ 64 ->
  substr data n npos = Done (drop (Z.to_nat n) data).
Proof.
  intros Hn Hsize. unfold substr.
  destruct (Z.ltb_spec (size data) n); [lia |]. f_equal.
  apply take_ge. rewrite length_drop. unfold npos, size in *. lia.
Qed.

Lemma last_after_zero (body rest : list Z) :
  last (body ++ 0 :: rest) = Some 0 <-> rest = [] \/ last rest = Some 0.
Proof.
  rewrite last_app. destruct rest as [| c rest]; [simpl; tauto |].
  change (0 :: c :: rest) with ([0] ++ c :: rest). rewrite last_app.
  destruct (last (c :: rest)) eqn:Hlast.
  - split; [by right | by intros [? | ?]].
  - by apply last_None in Hlast.
Qed.

(** The offsets of pieces that are not empty lie inside the section. *)
Lemma offsets_from_range pieces : forall off,
  Forall (fun s => 0 < size s) pieces ->
  Forall (fun o => off <= o < off + size (concat pieces)) (offsets_from off pieces).
Proof.
  induction pieces as [| s pieces IH]; intros off Hpos; [constructor |].
  apply Forall_cons in Hpos as [Hs Hpos]. cbn [offsets_from concat].
  assert (Hcat : size (s ++ concat pieces) = size s + size (concat pieces)).
  { unfold size. rewrite length_app. lia. }
  assert (0 <= size (concat pieces)) by (unfold size; lia).
  constructor; [lia |].
  eapply Forall_impl; [apply (IH (off + size s) Hpos) |]. simpl. intros o Ho. lia.
Qed.

(** In a section of at most [2^32] bytes the offsets are stored as they
    are. *)
Lemma offsets_from_u32 pieces :
  Forall (fun s => 0 < size s) pieces -> size (concat pieces) <= 2 ^ 32 ->
  u32 <$> offsets_from 0 pieces = offsets_from 0 pieces.
Proof.
  intros Hpos Hsize. pose proof (offsets_from_range pieces 0 Hpos) as Hall.
  induction Hall as [| o l Ho Hall IH]; [done |].
  rewrite fmap_cons, IH. f_equal. unfold u32. apply wrap_small. lia.
Qed.

Lemma terminated_size s : terminated s -> 0 < size s.
Proof. intros (body & -> & _). unfold size. rewrite length_app. simpl. lia. Qed.

Lemma split_strings_spec fuel : forall data offset rec,
  (length data < fuel)%nat -> size data < npos ->
  (data = [] \/ last data = Some 0 ->
   exists pieces,
     split_strings hash_string fuel data offset 1 rec
     = Done {| strings := strings rec ++ pieces;
               frag_offsets := frag_offsets rec ++ (u32 <$> offsets_from offset pieces);
               hashes := hashes rec ++ (hash_string <$> pieces) |} /\
     concat pieces = data /\ Forall terminated pieces) /\
  (data <> [] -> last data <> Some 0 ->
   split_strings hash_string fuel data offset 1 rec = Fatal "string is not null terminated").
Proof.
  induction fuel as [| fuel IH]; intros data offset rec Hfuel Hsize; [lia |].
  cbn [split_strings]. destruct (decide (data = [])) as [-> | Hne].
  { split; [| done]. intros _. exists []. rewrite !app_nil_r. by destruct rec. }
  unfold find_null. simpl (1 =? 1). cbv iota. cbn [mbind outcome_bind bind].
  unfold npos in Hsize.
  destruct (find_zero_split data 0) as [(body & rest & Hdata & Hbody & Hfind) | [Hall Hfind]].
  - rewrite Hfind, Z.add_0_l.
    assert (Hlen : size data = size body + 1 + size rest).
    { rewrite Hdata. unfold size. rewrite length_app. simpl. lia. }
    assert (Hb : 0 <= size body) by (unfold size; lia).
    assert (Hr : 0 <= size rest) by (unfold size; lia).
    destruct (Z.eqb_spec (size body) npos) as [Hbad | _]; [unfold npos in Hbad; lia |].
    rewrite (wrap_small 64) by lia.
    rewrite substr_take, substr_drop by lia. cbn [mbind outcome_bind bind].
    assert (Htake : take (Z.to_nat (size body + 1)) data = body ++ [0]).
    { rewrite Hdata. replace (body ++ 0 :: rest) with ((body ++ [0]) ++ rest)
        by (by rewrite <- app_assoc).
      apply take_app_length'. unfold size. rewrite length_app. simpl. lia. }
    assert (Hdrop : drop (Z.to_nat (size body + 1)) data = rest).
    { rewrite Hdata. replace (body ++ 0 :: rest) with ((body ++ [0]) ++ rest)
        by (by rewrite <- app_assoc).
      apply drop_app_length'. unfold size. rewrite length_app. simpl. lia. }
    rewrite Htake, Hdrop.
    destruct (IH rest (offset + size (body ++ [0])) (push hash_string rec (body ++ [0]) offset))
      as [Hgood Hbad].
    { unfold size in *. apply (f_equal (@length Z)) in Hdata.
      rewrite length_app in Hdata. simpl in Hdata. lia. }
    { unfold npos. lia. }
    split.
    + intros [? | Hlast]; [done |]. rewrite Hdata in Hlast.
      apply last_after_zero in Hlast. destruct (Hgood Hlast) as (pieces & -> & Hcat & Hterm).
      exists ((body ++ [0]) :: pieces). unfold push. cbn [strings frag_offsets hashes].
      rewrite <- !app_assoc. split; [done |]. split.
      * simpl. rewrite Hcat, Hdata. by rewrite <- app_assoc.
      * constructor; [by exists body | done].
    + intros _ Hlast. apply Hbad.
      * intros ->. apply Hlast. rewrite Hdata. by apply last_after_zero; left.
      * intros Hl. apply Hlast. rewrite Hdata. by apply last_after_zero; right.
  - rewrite Hfind. simpl. split; [| done].
    intros [? | Hlast]; [done |]. apply last_Some in Hlast as [l' ->].
    apply Forall_app in Hall as [_ Hzero]. by apply Forall_cons in Hzero as [? _].
Qed.

Lemma split_records_spec entsize fuel : forall data offset rec k,
  0 < entsize -> (length data < fuel)%nat -> size data < npos ->
  size data = Z.of_nat k * entsize ->
  exists pieces,
    split_records hash_string fuel data offset entsize rec
    = Done {| strings := strings rec ++ pieces;
              frag_offsets := frag_offsets rec ++ (u32 <$> offsets_from offset pieces);
              hashes := hashes rec ++ (hash_string <$> pieces) |} /\
    concat pieces = data /\ Forall (fun s => size s = entsize) pieces /\
    length pieces = k.
Proof.
  induction fuel as [| fuel IH]; intros data offset rec k Hent Hfuel Hsize Hmul; [lia |].
  cbn [split_records]. destruct (decide (data = [])) as [-> | Hne].
  { exists []. rewrite !app_nil_r. repeat split; [by destruct rec | done |].
    unfold size in Hmul. cbn [length] in Hmul. destruct k; [done | nia]. }
  assert (Hpos : 0 < size data) by (unfold size; destruct data; [done | simpl; lia]).
  destruct k as [| k]; [lia |].
  assert (Hge : entsize <= size data) by nia.
  unfold npos in Hsize.
  rewrite substr_take, substr_drop by lia. cbn [mbind outcome_bind bind].
  set (s := take (Z.to_nat entsize) data). set (rest := drop (Z.to_nat entsize) data).
  assert (Hs : size s = entsize).
  { subst s. unfold size in *. rewrite length_take. lia. }
  assert (Hrest : size rest = Z.of_nat k * entsize).
  { subst rest. unfold size in *. rewrite length_drop. lia. }
  destruct (IH rest (offset + size s) (push hash_string rec s offset) k)
    as (pieces & -> & Hcat & Hall & Hlen); [done | | | done |].
  { unfold size in *. lia. }
  { unfold npos. lia. }
  exists (s :: pieces). unfold push. cbn [strings frag_offsets hashes].
  rewrite <- !app_assoc.
  repeat split; [| by constructor | by rewrite <- Hlen].
  simpl. rewrite Hcat. apply take_drop.
Qed.

(** X15: [split_section] on a string section with one-byte characters
    ([SHF_STRINGS], [sh_entsize == 1]) that is empty or ends in a null byte
    returns pieces that, put end to end, give the section; each piece is a
    run of bytes other than null with one null byte after it, is recorded
    with its hash and with the offset at which it lies, as a [u32]: in a
    section of at most [2^32] bytes that is the offset itself.  A section
    that does not end in a null byte is rejected. *)
Theorem split_section_strings sec :
  has_flag (sh_flags sec) SHF_STRINGS = true -> sh_entsize sec = 1 ->
  sh_addralign sec < UINT16_MAX -> size (contents sec) < npos ->
  (contents sec = [] \/ last (contents sec) = Some 0 ->
   exists rec, split_section hash_string sec = Done rec /\
     concat (strings rec) = contents sec /\
     Forall terminated (strings rec) /\
     frag_offsets rec = u32 <$> offsets_from 0 (strings rec) /\
     (size (contents sec) <= 2 ^ 32 ->
      frag_offsets rec = offsets_from 0 (strings rec)) /\
     hashes rec = hash_string <$> strings rec) /\
  (contents sec <> [] -> last (contents sec) <> Some 0 ->
   split_section hash_string sec = Fatal "string is not null terminated").
Proof.
  intros Hflag Hent Halign Hsize. unfold split_section. cbv zeta.
  destruct (Z.leb_spec UINT16_MAX (sh_addralign sec)); [lia |].
  rewrite Hflag, Hent.
  destruct (split_strings_spec (S (length (contents sec))) (contents sec) 0
              {| strings := []; frag_offsets := []; hashes := [] |}) as [Hgood Hbad];
    [lia | done |].
  split; [| done].
  intros Hend. destruct (Hgood Hend) as (pieces & -> & Hcat & Hterm).
  eexists. split; [done |]. cbn [strings frag_offsets hashes app].
  split; [done |]. split; [done |]. split; [done |]. split; [| done].
  intros Hsmall. apply offsets_from_u32.
  - eapply Forall_impl; [exact Hterm |]. apply terminated_size.
  - by rewrite Hcat.
Qed.

(** X16: [split_section] on a section of fixed-size records (no
    [SHF_STRINGS], [sh_entsize > 0]) rejects a section whose size is not a
    multiple of [sh_entsize]; otherwise it returns [size / sh_entsize] pieces
    of [sh_entsize] bytes each that, put end to end, give the section, each
    recorded with its hash and with its offset as a [u32]: in a section of at
    most [2^32] bytes that is the offset itself. *)
Theorem split_section_records sec :
  has_flag (sh_flags sec) SHF_STRINGS = false -> 0 < sh_entsize sec ->
  sh_addralign sec < UINT16_MAX -> size (contents sec) < npos ->
  (size (contents sec) mod sh_entsize sec <> 0 ->
   split_section hash_string sec = Fatal "section size is not multiple of sh_entsize") /\
  (size (contents sec) mod sh_entsize sec = 0 ->
   exists rec, split_section hash_string sec = Done rec /\
     concat (strings rec) = contents sec /\
     Forall (fun s => size s = sh_entsize sec) (strings rec) /\
     Z.of_nat (length (strings rec)) = size (contents sec) / sh_entsize sec /\
     frag_offsets rec = u32 <$> offsets_from 0 (strings rec) /\
     (size (contents sec) <= 2 ^ 32 ->
      frag_offsets rec = offsets_from 0 (strings rec)) /\
     hashes rec = hash_string <$> strings rec).
Proof.
  intros Hflag Hent Halign Hsize. unfold split_section. cbv zeta.
  destruct (Z.leb_spec UINT16_MAX (sh_addralign sec)); [lia |].
  rewrite Hflag. split; intros Hmod.
  - by destruct (Z.eqb_spec (size (contents sec) mod sh_entsize sec) 0).
  - rewrite Hmod. change (0 =? 0) with true. cbn [negb].
    assert (Hk : size (contents sec)
                 = Z.of_nat (Z.to_nat (size (contents sec) / sh_entsize sec)) * sh_entsize sec).
    { rewrite Z2Nat.id by (apply Z.div_pos; unfold size; lia).
      pose proof (Z.div_mod (size (contents sec)) (sh_entsize sec) ltac:(lia)). lia. }
    destruct (split_records_spec (sh_entsize sec) (S (length (contents sec))) (contents sec) 0
                {| strings := []; frag_offsets := []; hashes := [] |} _ Hent ltac:(lia) Hsize Hk)
      as (pieces & -> & Hcat & Hall & Hlen).
    eexists. split; [done |]. cbn [strings frag_offsets hashes app].
    split; [done |]. split; [done |]. split.
    { rewrite Hlen, Z2Nat.id; [done |]. apply Z.div_pos; unfold size; lia. }
    split; [done |]. split; [| done].
    intros Hsmall. apply offsets_from_u32.
    + eapply Forall_impl; [exact Hall |]. simpl. intros s0 Hs0. lia.
    + by rewrite Hcat.
Qed.

End FragmentsFacts.

Section FragmentsExamples.
Import Word Elf Run Mergeable Fragments.

Lemma split_section_strings_witness :
  exists rec,
    split_section (fun _ => 0)
      {| contents := [97; 0; 98; 99; 0]; sh_flags := Z.lor SHF_MERGE SHF_STRINGS;
         sh_entsize := 1; sh_addralign := 1 |} = Done rec /\
    concat (strings rec) = [97; 0; 98; 99; 0] /\
    Forall terminated (strings rec) /\
    frag_offsets rec = offsets_from 0 (strings rec).
Proof.
  destruct (split_section_strings (fun _ => 0)
              {| contents := [97; 0; 98; 99; 0]; sh_flags := Z.lor SHF_MERGE SHF_STRINGS;
                 sh_entsize := 1; sh_addralign := 1 |}) as [Hgood _]; try done.
  destruct Hgood as (rec & Hrun & Hcat & Hterm & _ & Hoff & _); [by right |].
  exists rec. split; [exact Hrun |]. split; [exact Hcat |]. split; [exact Hterm |].
  apply Hoff. by vm_compute.
Defined.

Lemma split_section_records_witness :
  exists rec,
    split_section (fun _ => 0)
      {| contents := [1; 2; 3; 4; 5; 6; 7; 8]; sh_flags := SHF_MERGE;
         sh_entsize := 4; sh_addralign := 4 |} = Done rec /\
    concat (strings rec) = [1; 2; 3; 4; 5; 6; 7; 8] /\
    Z.of_nat (length (strings rec)) = 2 /\
    frag_offsets rec = offsets_from 0 (strings rec).
Proof.
  destruct (split_section_records (fun _ => 0)
              {| contents := [1; 2; 3; 4; 5; 6; 7; 8]; sh_flags := SHF_MERGE;
                 sh_entsize := 4; sh_addralign := 4 |}) as [_ Hgood]; try done.
  destruct Hgood as (rec & Hrun & Hcat & _ & Hlen & _ & Hoff & _); [done |].
  exists rec. split; [exact Hrun |]. split; [exact Hcat |]. split; [exact Hlen |].
  apply Hoff. by vm_compute.
Defined.

End FragmentsExamples.

Section FragmentLookup.
Import Word Elf Run Mergeable Fragments.

Lemma upper_bound_first off pieces v :
  v < off -> upper_bound (offsets_from off pieces) v = 0%nat.
Proof.
  intros Hv. destruct pieces as [| s pieces]; [done |]. simpl.
  destruct (Z.ltb_spec v off); [done | lia].
Qed.

Lemma upper_bound_spec : forall pieces off v,
  Forall (fun s => 0 < size s) pieces ->
  off <= v < off + size (concat pieces) ->
  exists idx s o,
    upper_bound (offsets_from off pieces) v = S idx /\
    pieces !! idx = Some s /\ offsets_from off pieces !! idx = Some o /\
    o <= v < o + size s /\
    concat pieces !! Z.to_nat (v - off) = s !! Z.to_nat (v - o).
Proof.
  induction pieces as [| s pieces IH]; intros off v Hpos Hv.
  { unfold size in Hv. simpl in Hv. lia. }
  apply Forall_cons in Hpos as [Hs Hpos].
  assert (Hcat : size (concat (s :: pieces)) = size s + size (concat pieces)).
  { unfold size. simpl. rewrite length_app. lia. }
  rewrite Hcat in Hv. cbn [offsets_from upper_bound].
  destruct (Z.ltb_spec v off) as [| _]; [lia |].
  destruct (Z.lt_ge_cases v (off + size s)) as [Hin | Hout].
  - rewrite upper_bound_first by done.
    exists 0%nat, s, off. cbn [lookup list_lookup].
    split; [done |]. split; [done |]. split; [done |]. split; [lia |].
    cbn [concat]. apply lookup_app_l. unfold size in *. lia.
  - destruct (IH (off + size s) v Hpos ltac:(lia))
      as (idx & s' & o & Hub & Hpiece & Hoff & Hrange & Hbyte).
    rewrite Hub. exists (S idx), s', o.
    split; [done |]. split; [done |]. split; [done |]. split; [lia |].
    cbn [concat]. rewrite lookup_app_r by (unfold size in *; lia).
    rewrite <- Hbyte. f_equal. unfold size in *. lia.
Qed.

(** X27: the fragment that [register_section_pieces] attaches to an offset
    into a mergeable section.  For a section of at most [2^32] bytes whose
    pieces are not empty, have at most [2^31] bytes and are recorded with
    the offsets at which they lie, as [split_section] records them, and an
    offset inside the section: the lookup returns the piece that holds the
    byte at the offset, and the addend is the place of that byte in the
    piece.  An offset below 0 is rejected. *)
Theorem fragment_at_offset (rec : MergeableSection) offset :
  frag_offsets rec = u32 <$> offsets_from 0 (strings rec) ->
  Forall (fun s => 0 < size s <= 2 ^ 31) (strings rec) ->
  size (concat (strings rec)) <= 2 ^ 32 ->
  (0 <= offset < size (concat (strings rec)) ->
   exists idx s addend,
     fragment_at (frag_offsets rec) offset = Done (idx, addend) /\
     strings rec !! idx = Some s /\
     frag_offsets rec !! idx = Some (offset - addend) /\
     0 <= addend < size s /\
     concat (strings rec) !! Z.to_nat offset = s !! Z.to_nat addend) /\
  (offset < 0 -> fragment_at (frag_offsets rec) offset = Fatal "bad relocation").
Proof.
  intros Hoffs Hsizes Hsection.
  assert (Hpos : Forall (fun s => 0 < size s) (strings rec)).
  { eapply Forall_impl; [exact Hsizes |]. simpl. intros s Hs. lia. }
  rewrite Hoffs, (offsets_from_u32 _ Hpos Hsection). split.
  - intros Hrange.
    destruct (upper_bound_spec (strings rec) 0 offset Hpos ltac:(lia))
      as (idx & s & o & Hub & Hpiece & Hoff & Ho & Hbyte).
    assert (Hs : size s <= 2 ^ 31).
    { rewrite Forall_forall in Hsizes.
      apply (Hsizes s). by eapply list_elem_of_lookup_2. }
    exists idx, s, (offset - o). rewrite Z.sub_0_r in Hbyte.
    unfold fragment_at. rewrite Hub, Hoff. cbn [default from_option id].
    unfold i32. rewrite swrap_small by (change (2 ^ (32 - 1)) with (2 ^ 31); lia).
    split; [done |]. split; [done |]. split; [f_equal; lia |].
    split; [lia | done].
  - intros Hneg. unfold fragment_at. by rewrite upper_bound_first.
Qed.

Lemma fragment_at_offset_witness :
  exists idx s addend,
    fragment_at [0; 2; 5] 3 = Done (idx, addend) /\
    [[97; 0]; [98; 99; 0]; [0]] !! idx = Some s /\ 0 <= addend < size s.
Proof.
  destruct (fragment_at_offset
              {| strings := [[97; 0]; [98; 99; 0]; [0]]; frag_offsets := [0; 2; 5];
                 hashes := [] |} 3) as [Hin _].
  - reflexivity.
  - repeat constructor; by vm_compute.
  - by vm_compute.
  - destruct Hin as (idx & s & addend & Hrun & Hpiece & _ & Hrange & _); [by vm_compute |].
    by exists idx, s, addend.
Defined.

End FragmentLookup.

(** ** More on reading [.eh_frame] *)

Section EhFrameMore.
Import Word Run EhFrame.

Variable R_NONE : Z.
Variable sym_priority : Z -> Z.
Variable contents : list Z.
Variable rels : list ElfRel.

Lemma verify_rels_fatal : forall rest prev i p r,
  (prev :: rest) !! i = Some p -> (prev :: rest) !! S i = Some r ->
  r_type r <> R_NONE -> r_offset r <= r_offset p ->
  verify_rels R_NONE prev rest = Fatal "relocation offsets must increase monotonically".
Proof.
  induction rest as [| r0 rest IH]; intros prev i p r Hp Hr Htype Hoff.
  { by destruct i. }
  cbn [verify_rels].
  destruct (negb (r_type r0 =? R_NONE) && (r_offset r0 <=? r_offset prev)) eqn:Htest; [done |].
  destruct i as [| i].
  - simpl in Hp, Hr. injection Hp as <-. injection Hr as <-.
    destruct (Z.eqb_spec (r_type r0) R_NONE); [done |].
    destruct (Z.leb_spec (r_offset r0) (r_offset prev)); [done | lia].
  - by apply (IH r0 i p r).
Qed.

Lemma body_cies st st' :
  body contents rels st = Done (Continue st') ->
  cies st' = cies st \/
  exists rel_begin, cies st' = cies st ++ [{| cie_input_offset := pos st;
                                              cie_rel_idx := rel_begin |}].
Proof.
  unfold body. intros Hb.
  destruct (read_u32 contents (pos st)) as [size | | |] eqn:Hsize; try done.
  simpl in Hb. destruct (Z.eqb_spec size 0) as [-> | Hnz].
  { by destruct (negb _) in Hb. }
  destruct (read_u32 contents (pos st + 4)) as [id | | |] eqn:Hid; try done.
  simpl in Hb.
  destruct (Z.ltb_spec (len contents - pos st) (size + 4)) as [| Hfit]; [done |].
  destruct (negb _) in Hb; [done |].
  destruct (id =? 0).
  { injection Hb as <-. simpl. right. by eexists. }
  destruct (cur_rel st =? _).
  { injection Hb as <-. by left. }
  destruct (negb _) in Hb; [done |]. injection Hb as <-. by left.
Qed.

Lemma records_cies fuel : forall st st',
  records contents rels fuel st = Done st' ->
  exists new, cies st' = cies st ++ new.
Proof.
  induction fuel as [| fuel IH]; intros st st' Hrun; [done |].
  simpl in Hrun. destruct (len contents <=? pos st).
  { injection Hrun as <-. exists []. by rewrite app_nil_r. }
  destruct (body contents rels st) as [[st1 | st1] | | |] eqn:Hb; try done; simpl in Hrun.
  - apply IH in Hrun as (new & Hnew).
    apply body_cies in Hb as [Hsame | (rb & Hpush)].
    + exists new. by rewrite Hnew, Hsame.
    + eexists. by rewrite Hnew, Hpush, <- app_assoc.
  - injection Hrun as <-. apply body_break in Hb as ->.
    exists []. by rewrite app_nil_r.
Qed.

Lemma find_cie_done : forall cs i offset idx,
  find_cie cs i offset = Done idx ->
  i <= idx /\ exists c, cs !! Z.to_nat (idx - i) = Some c /\ cie_input_offset c = offset.
Proof.
  induction cs as [| c cs IH]; intros i offset idx Hrun; [done |].
  simpl in Hrun. destruct (Z.eqb_spec (cie_input_offset c) offset) as [Heq | _].
  - injection Hrun as <-. split; [lia |]. exists c. by rewrite Z.sub_diag.
  - apply IH in Hrun as (Hle & c' & Hc' & Hoff). split; [lia |].
    exists c'. split; [| done].
    replace (Z.to_nat (idx - i)) with (S (Z.to_nat (idx - (i + 1)))) by lia. done.
Qed.

(** The CIE that the pointer of an FDE names. *)
Lemma associate_cie cies_begin new_cies : forall fs fs',
  associate contents cies_begin new_cies fs = Done fs' ->
  Forall (fun f => exists off c,
            read_i32 contents (input_offset f + 4) = Done off /\
            cies_begin <= cie_idx f /\
            new_cies !! Z.to_nat (cie_idx f - cies_begin) = Some c /\
            cie_input_offset c = input_offset f + 4 - off) fs'.
Proof.
  induction fs as [| f fs IH]; intros fs' Hrun; simpl in Hrun.
  { injection Hrun as <-. constructor. }
  destruct (read_i32 contents (input_offset f + 4)) as [off | | |] eqn:Hoff; try done.
  simpl in Hrun.
  destruct (find_cie new_cies cies_begin (input_offset f + 4 - off)) as [idx | | |] eqn:Hfind;
    try done.
  simpl in Hrun.
  destruct (associate contents cies_begin new_cies fs) as [fs'' | | |]; try done.
  simpl in Hrun. injection Hrun as <-. constructor; [| by apply IH].
  apply find_cie_done in Hfind as (Hle & c & Hc & Hcoff). simpl.
  exists off, c. done.
Qed.

(** X17: if a relocation of the section whose type is not [R_NONE] has an
    offset that is not above the offset of the relocation before it,
    [read_ehframe] ends in the fatal error "relocation offsets must increase
    monotonically", whatever the section holds. *)
Theorem read_ehframe_unordered old_cies old_fdes i p r :
  rels !! i = Some p -> rels !! S i = Some r ->
  r_type r <> R_NONE -> r_offset r <= r_offset p ->
  read_ehframe R_NONE sym_priority contents rels old_cies old_fdes
  = Fatal "relocation offsets must increase monotonically".
Proof.
  intros Hp Hr Htype Hoff. unfold read_ehframe.
  destruct rels as [| r0 rest]; [done |].
  by rewrite (verify_rels_fatal rest r0 i p r).
Qed.

(** X18: when [read_ehframe] returns, the file's CIEs are the old ones
    followed by those of the section, and every FDE that was added has in
    [cie_idx] the index of a CIE of this section: the one whose offset is
    the place that the FDE's CIE pointer (the [i32] at its offset 4, counted
    back from there) names. *)
Theorem read_ehframe_cie old_cies old_fdes cs fs :
  read_ehframe R_NONE sym_priority contents rels old_cies old_fdes = Done (cs, fs) ->
  (exists new_cies, cs = old_cies ++ new_cies) /\
  forall f, f ∈ fs -> f ∈ old_fdes \/
    exists off c,
      read_i32 contents (input_offset f + 4) = Done off /\
      len old_cies <= cie_idx f /\
      cs !! Z.to_nat (cie_idx f) = Some c /\
      cie_input_offset c = input_offset f + 4 - off.
Proof.
  unfold read_ehframe. intros Hrun.
  apply bind_done in Hrun as (_ & _ & Hrun).
  apply bind_done in Hrun as (st & Hrec & Hrun).
  apply bind_done in Hrun as (fs' & Hassoc & Hrun).
  injection Hrun as <- <-.
  apply records_cies in Hrec as (new & Hnew). cbn [cies start] in Hnew.
  split; [by exists new |].
  rewrite Hnew, drop_app_length in Hassoc.
  apply associate_cie in Hassoc. rewrite Forall_forall in Hassoc.
  intros f [Hold | Hsorted]%elem_of_app; [by left | right].
  apply (stable_sort_elem R_NONE) in Hsorted.
  destruct (Hassoc f Hsorted) as (off & c & Hoff & Hle & Hc & Hcoff).
  exists off, c. split; [done |]. split; [done |]. split; [| done].
  rewrite Hnew. unfold len in *. rewrite lookup_app_r by lia.
  rewrite <- Hc. f_equal. lia.
Qed.

End EhFrameMore.

Section EhFrameMoreExamples.
Import Word Run EhFrame.

Lemma read_ehframe_unordered_witness :
  read_ehframe 0 (fun _ => 0) [1; 2; 3]
    [ {| r_offset := 8; r_type := 2; r_sym := 1 |};
      {| r_offset := 8; r_type := 2; r_sym := 1 |} ] [] []
  = Fatal "relocation offsets must increase monotonically".
Proof.
  apply (read_ehframe_unordered 0 (fun _ => 0) [1; 2; 3] _ [] [] 0
           {| r_offset := 8; r_type := 2; r_sym := 1 |}
           {| r_offset := 8; r_type := 2; r_sym := 1 |}); done.
Defined.

Lemma read_ehframe_cie_witness :
  exists off c,
    read_i32 sample_contents (24 + 4) = Done off /\
    [{| cie_input_offset := 0; cie_rel_idx := 0 |}] !! Z.to_nat 0 = Some c /\
    cie_input_offset c = 24 + 4 - off.
Proof.
  destruct (read_ehframe_cie 0 (fun _ => 0) sample_contents sample_rels [] []
              [{| cie_input_offset := 0; cie_rel_idx := 0 |}]
              [{| input_offset := 24; rel_idx := 0; cie_idx := 0 |}]) as [_ Hfde].
  - by vm_compute.
  - destruct (Hfde {| input_offset := 24; rel_idx := 0; cie_idx := 0 |})
      as [Hold | (off & c & Hoff & _ & Hc & Hcoff)].
    + by left.
    + by apply elem_of_nil in Hold.
    + by exists off, c.
Defined.

End EhFrameMoreExamples.

(** ** More on the garbage collection of sections *)

Section GcMore.
Import Run Elf Gc.

Variable ctx : Context.

(** A loop of steps that returns has kept what every step keeps. *)
Lemma fold_partial {X : Type} (g : state -> X -> outcome state) (I : state -> Prop)
    (l : list X) :
  (forall x st st', x ∈ l -> I st -> g st x = Done st' -> I st') ->
  forall st st', I st ->
    foldl (fun acc x => st ← acc; g st x) (Done st) l = Done st' -> I st'.
Proof.
  induction l as [| x l IH] using rev_ind; intros Hstep st st' Hst Hrun.
  { simpl in Hrun. by injection Hrun as <-. }
  rewrite foldl_app in Hrun. simpl in Hrun.
  apply bind_done in Hrun as (st1 & Hrun1 & Hrun2).
  apply (Hstep x st1 st'); [set_solver | | done].
  apply (IH (fun y s s' Hy => Hstep y s s' ltac:(set_solver)) st st1); done.
Qed.

Lemma targets_fde sec osym t :
  osym ∈ concat (drop 1 <$> fdes sec) -> osym ≫= sym_isec = Some t -> t ∈ targets sec.
Proof.
  intros Hin Ht. unfold targets. apply elem_of_app. left.
  apply list_elem_of_omap. by exists osym.
Qed.

Lemma targets_rel sec sym t :
  sym ∈ rels sec -> sym_frag sym = None -> sym_isec sym = Some t -> t ∈ targets sec.
Proof.
  intros Hin Hf Ht. unfold targets. apply elem_of_app. right.
  apply list_elem_of_omap. exists sym. by rewrite Hf.
Qed.

Section Marking.

Variable rootset : list nat.
Variable st1 : state.

Local Abbreviation only_traversed := (GcMarks.only_traversed ctx rootset st1).

Lemma only_traversed_frag st f : only_traversed st -> only_traversed (set_frag_alive st f).
Proof.
  intros [Hg Hv]. split; [| done].
  eapply grows_trans; [done | apply grows_set_frag_alive].
Qed.

Lemma follow_partial (visit' : state -> nat -> Z -> outcome state) st o d st' s :
  (forall st i d st', traversed ctx rootset st1 i -> only_traversed st ->
     visit' st i d = Done st' -> only_traversed st') ->
  traversed ctx rootset st1 s -> (forall t, o = Some t -> edge ctx s t) ->
  only_traversed st -> follow visit' st o d = Done st' -> only_traversed st'.
Proof.
  intros IH Hs Hedge [Hg Hv]. unfold follow, mark_section.
  destruct o as [t |]; [| by intros [= <-]].
  destruct (decide (t ∈ is_alive st)) as [Ha | Hna]; [| by intros [= <-]].
  assert (Hg' : grows st1 (set_visited st t)).
  { eapply grows_trans; [done | apply grows_set_visited]. }
  destruct (decide (t ∈ is_visited st)) as [Hvis | Hnvis].
  - rewrite bool_decide_eq_true_2 by done. simpl. intros [= <-].
    split; [done |]. intros x Hx. apply Hv. simpl in Hx. set_solver.
  - rewrite bool_decide_eq_false_2 by done. simpl.
    assert (Ht : traversed ctx rootset st1 t).
    { apply (traversed_edge ctx rootset st1 s t); [done | by apply Hedge | |].
      - destruct Hg as (<- & _). done.
      - destruct Hg as (_ & Hsub & _). set_solver. }
    apply IH; [done |]. split; [done |].
    intros x Hx. simpl in Hx. apply elem_of_union in Hx as [->%elem_of_singleton | Hx].
    + by right.
    + by apply Hv.
Qed.

Lemma visit_partial fuel : forall st i d st',
  traversed ctx rootset st1 i -> only_traversed st ->
  visit ctx fuel st i d = Done st' -> only_traversed st'.
Proof.
  induction fuel as [| fuel IH]; intros st i d st' Hi Hst Hrun; [done |].
  cbn [visit] in Hrun. destruct (negb (bool_decide (i ∈ is_visited st))); [done |].
  destruct (sections ctx !! i) as [sec |] eqn:Hsec; [| done].
  apply bind_done in Hrun as (st2 & Hrun1 & Hrun2).
  assert (Hfrags : only_traversed (foldl set_frag_alive st (rel_fragments sec))).
  { apply foldl_inv; [| done]. intros s f _ Hs. by apply only_traversed_frag. }
  assert (Hst2 : only_traversed st2).
  { revert Hrun1. apply fold_partial; [| done].
    intros osym s s' Hin Hs. destruct osym as [sym |]; simpl; [| by intros [= <-]].
    apply (follow_partial _ s (sym_isec sym) d s' i); [done | done | | done].
    intros t Ht. exists sec. split; [done |]. by apply (targets_fde sec (Some sym)). }
  revert Hrun2. apply fold_partial; [| done].
  intros sym s s' Hin Hs. unfold visit_rel.
  destruct (sym_frag sym) as [frag |] eqn:Hfrag.
  - intros [= <-]. by apply only_traversed_frag.
  - apply (follow_partial _ s (sym_isec sym) (d + 1) s' i); [done | done | | done].
    intros t Ht. exists sec. split; [done |]. by apply (targets_rel sec sym).
Qed.

Lemma mark_partial fuel st' :
  mark ctx fuel rootset st1 = Done st' -> only_traversed st'.
Proof.
  unfold mark. apply fold_partial.
  - intros r s s' Hr Hs. apply visit_partial; [by apply traversed_root | done].
  - split; [apply grows_refl |]. intros x Hx. by left.
Qed.

End Marking.

Local Abbreviation roots_or_nonalloc := (GcMarks.roots_or_nonalloc ctx).

Lemma enqueue_section_roots st0 acc o :
  roots_or_nonalloc st0 acc -> roots_or_nonalloc st0 (enqueue_section acc o).
Proof.
  destruct acc as [rootset st]. intros Hacc. unfold enqueue_section, mark_section.
  destruct o as [t |]; [| done].
  destruct (decide (t ∈ is_alive st)) as [Ha | Hna]; [| done].
  destruct (decide (t ∈ is_visited st)) as [Hv | Hnv].
  - rewrite bool_decide_eq_true_2 by done. simpl.
    intros x Hx. simpl in Hx. apply (Hacc x). simpl. set_solver.
  - rewrite bool_decide_eq_false_2 by done. simpl.
    intros x Hx. simpl in Hx. apply elem_of_union in Hx as [->%elem_of_singleton | Hx].
    + right. left. simpl. set_solver.
    + destruct (Hacc x Hx) as [? | [? | ?]]; [by left | | by right; right].
      right. left. simpl in *. set_solver.
Qed.

Lemma enqueue_symbol_roots st0 acc osym :
  roots_or_nonalloc st0 acc -> roots_or_nonalloc st0 (enqueue_symbol acc osym).
Proof.
  intros Hacc. unfold enqueue_symbol. destruct osym as [sym |]; [| done].
  destruct (sym_frag sym) as [frag |]; [done | by apply enqueue_section_roots].
Qed.

Lemma keep_section_roots st0 acc entry :
  roots_or_nonalloc st0 acc -> roots_or_nonalloc st0 (keep_section ctx acc entry).
Proof.
  intros Hacc. unfold keep_section. destruct entry as [i |]; [| done].
  destruct (sections ctx !! i) as [isec |] eqn:Hsec; [| done].
  destruct (negb (bool_decide _)); [done |].
  assert (Hacc' : roots_or_nonalloc st0
            (if negb (has_flag (sh_flags isec) SHF_ALLOC)
             then (acc.1, set_visited acc.2 i) else acc)).
  { destruct (has_flag (sh_flags isec) SHF_ALLOC) eqn:Hflag; [done |]. simpl.
    intros x Hx. simpl in Hx. apply elem_of_union in Hx as [->%elem_of_singleton | Hx].
    - right. right. by exists isec.
    - by apply Hacc. }
  destruct (_ || _ || _); [by apply enqueue_section_roots | done].
Qed.

Lemma collect_root_set_roots st :
  roots_or_nonalloc st (collect_root_set ctx st).
Proof.
  unfold collect_root_set. cbv zeta.
  apply foldl_inv.
  { intros acc file _ Hacc. apply foldl_inv; [| done].
    intros. by apply enqueue_symbol_roots. }
  apply foldl_inv.
  { intros. by apply enqueue_symbol_roots. }
  apply foldl_inv.
  { intros acc file _ Hacc. apply foldl_inv; [| done].
    intros. by apply enqueue_symbol_roots. }
  apply foldl_inv.
  { intros acc file _ Hacc. apply foldl_inv; [| done].
    intros. by apply keep_section_roots. }
  intros x Hx. by left.
Qed.

(** X19: [gc_sections] returns and revives no section.  A section of an
    object file that is alive afterwards was marked [is_visited] before the
    call, or is not allocated (no [SHF_ALLOC]), or is one of the sections on
    which [visit] runs: a section of the root set or one reached from it
    along relocations. *)
Theorem gc_sections_precise st :
  live_sections_exist ctx st ->
  let st0 := mark_nonalloc_fragments ctx st in
  let rootset := (collect_root_set ctx st0).1 in
  let st1 := (collect_root_set ctx st0).2 in
  exists st', gc_sections ctx st = Done st' /\
    is_alive st' ⊆ is_alive st /\
    forall i, listed ctx i -> i ∈ is_alive st' ->
      i ∈ is_visited st \/
      (exists isec, sections ctx !! i = Some isec /\
         has_flag (sh_flags isec) SHF_ALLOC = false) \/
      traversed ctx rootset st1 i.
Proof.
  intros Hlive st0 rootset st1.
  pose proof (mark_nonalloc_fragments_grows ctx st) as Hg0. fold st0 in Hg0.
  destruct (collect_root_set_marked ctx st0) as [Hg1 Hroots].
  pose proof (collect_root_set_roots st0) as Hvis1.
  fold rootset st1 in Hg1, Hroots. unfold GcMarks.roots_or_nonalloc in Hvis1. fold rootset st1 in Hvis1.
  assert (Hg01 : grows st st1) by (by eapply grows_trans).
  destruct (mark_spec ctx rootset st1) as (stm & Hmark & Hgm & _ & _).
  { by eapply live_sections_grows. }
  { done. }
  pose proof (mark_partial rootset st1 _ _ Hmark) as [_ Hvism].
  assert (Halive : is_alive stm = is_alive st).
  { destruct Hgm as (-> & _). by destruct Hg01 as (-> & _). }
  exists (sweep ctx stm). split.
  { unfold gc_sections. fold st0. subst rootset st1.
    destruct (collect_root_set ctx st0) as [rs s1]. simpl in *. by rewrite Hmark. }
  split.
  - intros i Hi. apply sweep_spec in Hi as [Hi _]. by rewrite <- Halive.
  - intros i Hlisted Hi. apply sweep_spec in Hi as [_ Hkept].
    destruct (decide (i ∈ is_visited stm)) as [Hv | Hnv]; [| by destruct Hkept].
    destruct (Hvism i Hv) as [Hv1 | Htrav]; [| by right; right].
    destruct (Hvis1 i Hv1) as [Hv0 | [Hroot | Hnonalloc]].
    + left. destruct Hg0 as (_ & _ & _).
      assert (Heq : is_visited st0 = is_visited st); [| by rewrite <- Heq].
      subst st0. unfold mark_nonalloc_fragments.
      apply (foldl_inv (fun s => is_visited s = is_visited st)); [| done].
      intros s file _ Hs.
      apply (foldl_inv (fun s => is_visited s = is_visited st)); [| done].
      intros s' frag _ Hs'. by destruct (negb frag.2).
    + right. right. by apply traversed_root.
    + by right; left.
Qed.

End GcMore.

Section GcMoreExamples.
Import Run Elf Gc.

Lemma gc_sections_precise_witness :
  exists st', gc_sections sample_ctx sample_st = Done st' /\
    is_alive st' ⊆ is_alive sample_st.
Proof.
  destruct (gc_sections_precise sample_ctx sample_st sample_live) as (st' & Hgc & Hsub & _).
  by exists st'.
Defined.

End GcMoreExamples.

(** ** The symbols of shared objects *)

Section DsoFacts.
Import Word Run Resolver DsoSymbols.

Variable ctx : Context.
Variable this : nat.
Variable self : InputFile.
Hypothesis Hself : file_pool ctx !! this = Some self.

Local Abbreviation taken := (taken ctx this self).
Local Abbreviation kept := (kept ctx self).
Local Abbreviation dso_symbol := (dso_symbol ctx this self).

Lemma priority_of_this : priority_of ctx this = priority self.
Proof. unfold priority_of. by rewrite Hself. Qed.

Lemma dso_symbol_other st i s :
  symbols self !! i <> Some s -> syms (dso_symbol st i) s = syms st s.
Proof.
  intros Hne. unfold Resolver.dso_symbol.
  destruct (symbols self !! i) as [s0 |] eqn:Hs0; [| done].
  destruct (elf_syms self !! i) as [e |]; [| done].
  cbv zeta. destruct (match file (syms st s0) with Some _ => _ | None => _ end); [| done].
  simpl. rewrite fn_lookup_insert_ne; [done |]. congruence.
Qed.

Lemma dso_symbol_at st i s e :
  symbols self !! i = Some s -> elf_syms self !! i = Some e ->
  kept st (dso_symbol st i) s \/ taken st (dso_symbol st i) s.
Proof.
  intros Hs He. unfold Resolver.dso_symbol. rewrite Hs, He. cbv zeta.
  destruct (file (syms st s)) as [h |] eqn:Hfile.
  - fold (priority_of ctx h). case_bool_decide as Hprio.
    + right. unfold DsoSymbols.taken. simpl. rewrite fn_lookup_insert. simpl.
      repeat split. right. by exists h.
    + left. split; [done |]. exists h. split; [done | lia].
  - right. unfold DsoSymbols.taken. simpl. rewrite fn_lookup_insert. simpl.
    repeat split. by left.
Qed.

Lemma dso_symbols_fold st : forall l,
  (forall i, i ∈ l -> is_Some (elf_syms self !! i)) ->
  let st' := foldl dso_symbol st l in
  (forall s, syms st' s = syms st s \/ taken st st' s) /\
  (forall i s, i ∈ l -> symbols self !! i = Some s -> kept st st' s \/ taken st st' s) /\
  (forall s, s ∉ symbols self -> syms st' s = syms st s).
Proof.
  induction l as [| i l IH] using rev_ind; intros Hl st'.
  { subst st'. simpl. split; [by left |]. split; [| done].
    intros i s Hi. by apply elem_of_nil in Hi. }
  destruct IH as (Hinv & Hdone & Hout); [intros j Hj; apply Hl; set_solver |].
  subst st'. rewrite foldl_app. cbn [foldl].
  set (a := foldl dso_symbol st l) in *.
  assert (Hat : forall s, symbols self !! i = Some s ->
            kept st (dso_symbol a i) s \/ taken st (dso_symbol a i) s).
  { intros s Hs. destruct (Hl i ltac:(set_solver)) as [e He].
    pose proof (dso_symbol_at a i s e Hs He) as Hstep.
    unfold DsoSymbols.kept, DsoSymbols.taken in *.
    destruct Hstep as [[Hsame (h & Hh & Hprio)] | Htaken].
    - rewrite Hsame. destruct (Hinv s) as [Heq | Ht].
      + left. split; [done |]. exists h. by rewrite <- Heq.
      + by right.
    - destruct (Hinv s) as [Heq | Ht].
      + right. by rewrite <- Heq.
      + exfalso. destruct Ht as (Hfile & _).
        destruct Htaken as (_ & _ & _ & _ & _ & _ & [Hnone | (h & Hh & Hprio)]).
        * congruence.
        * rewrite Hfile in Hh. injection Hh as <-. rewrite priority_of_this in Hprio. lia. }
  split; [| split].
  - intros s. destruct (decide (symbols self !! i = Some s)) as [Hs | Hs].
    + destruct (Hat s Hs) as [[Heq _] | Ht]; [by left | by right].
    + rewrite (dso_symbol_other a i s Hs).
      destruct (Hinv s) as [Heq | Ht]; [by left |].
      right. unfold DsoSymbols.taken in *. by rewrite (dso_symbol_other a i s Hs).
  - intros j s Hj Hs. destruct (decide (symbols self !! i = Some s)) as [Hsi | Hsi].
    + by apply Hat.
    + apply elem_of_app in Hj as [Hj | ->%list_elem_of_singleton]; [| done].
      unfold DsoSymbols.kept, DsoSymbols.taken in *.
      rewrite (dso_symbol_other a i s Hsi). by apply (Hdone j).
  - intros s Hs. rewrite dso_symbol_other; [by apply Hout |].
    intros Hi. apply Hs. by eapply list_elem_of_lookup_2.
Qed.

(** X20: [resolve_dso_symbols] of a shared object goes by file priority
    alone.  Each of its symbols that nobody held, or whose holder had a
    higher priority number, is afterwards held by the shared object, weak
    and imported; each other symbol of the file is left as it was, and so
    are the symbols of other files and the flags of the files. *)
Theorem resolve_dso_symbols_priority st :
  length (elf_syms self) = length (symbols self) ->
  let st' := resolve_dso_symbols ctx this self st in
  (forall s, s ∈ symbols self -> kept st st' s \/ taken st st' s) /\
  (forall s, s ∉ symbols self -> syms st' s = syms st s) /\
  is_alive st' = is_alive st /\ objs st' = objs st /\ dsos st' = dsos st.
Proof.
  intros Hlen st'. subst st'. unfold resolve_dso_symbols.
  destruct (dso_symbols_fold st (seq 0 (length (symbols self)))) as (_ & Hdone & Hout).
  { intros i Hi%elem_of_seq. apply lookup_lt_is_Some_2. lia. }
  split; [| split; [done |]].
  - intros s Hs. apply list_elem_of_lookup in Hs as [i Hi].
    apply (Hdone i); [| done]. apply elem_of_seq. apply lookup_lt_Some in Hi. lia.
  - assert (Hstep : forall g : state -> gset nat * list nat * list nat,
              g = (fun a => (is_alive a, objs a, dsos a)) ->
              forall a i, g (dso_symbol a i) = g a).
    { intros g -> a i. unfold Resolver.dso_symbol.
      destruct (symbols self !! i) as [s0 |]; [| done].
      destruct (elf_syms self !! i) as [e |]; [| done].
      cbv zeta. by destruct (match file (syms a s0) with Some _ => _ | None => _ end). }
    pose proof (foldl_preserves (fun a => (is_alive a, objs a, dsos a)) dso_symbol
                  (Hstep _ eq_refl) (seq 0 (length (symbols self))) st) as Hsame.
    by injection Hsame.
Qed.

End DsoFacts.

Section DsoExamples.
Import Word Run Resolver DsoSymbols.

Lemma resolve_dso_symbols_priority_witness :
  exists self, file_pool shared_ctx !! 1%nat = Some self /\
    forall s, s ∈ symbols self ->
      kept shared_ctx self (start shared_ctx) (resolve_dso_symbols shared_ctx 1 self (start shared_ctx)) s \/
      taken shared_ctx 1 self (start shared_ctx) (resolve_dso_symbols shared_ctx 1 self (start shared_ctx)) s.
Proof.
  destruct (file_pool shared_ctx !! 1%nat) as [self |] eqn:Hself; [| by vm_compute in Hself].
  exists self. split; [done |].
  apply (resolve_dso_symbols_priority shared_ctx 1 self Hself (start shared_ctx)).
  vm_compute in Hself. injection Hself as <-. reflexivity.
Defined.

End DsoExamples.

(** ** Comdat groups *)

Section ComdatFacts.
Import Word Run Comdat.

Lemma no_owner_value : NO_OWNER = 2 ^ 32 - 1.
Proof. reflexivity. Qed.

(** *** The owner of a group *)

Lemma resolve_group_spec p own pair g :
  0 <= p < NO_OWNER -> 0 <= own pair.1 <= NO_OWNER ->
  resolve_group p own pair g = if decide (g = pair.1) then Z.min (own g) p else own g.
Proof.
  rewrite no_owner_value. intros Hp Hown. unfold resolve_group. cbv zeta.
  rewrite no_owner_value. rewrite (wrap_small 32) by lia.
  destruct (decide (g = pair.1)) as [-> | Hne].
  - destruct (Z.eqb_spec (own pair.1) (2 ^ 32 - 1)) as [Heq | Hneq]; simpl.
    + rewrite fn_lookup_insert. lia.
    + destruct (Z.ltb_spec p (own pair.1)).
      * rewrite fn_lookup_insert. lia.
      * lia.
  - destruct ((own pair.1 =? 2 ^ 32 - 1) || (p <? own pair.1)); [| done].
    by rewrite fn_lookup_insert_ne.
Qed.

Lemma resolve_groups_spec p : forall groups own,
  0 <= p < NO_OWNER -> (forall g, 0 <= own g <= NO_OWNER) ->
  let own' := foldl (resolve_group p) own groups in
  (forall g, 0 <= own' g <= NO_OWNER) /\
  forall g, own' g = if decide (g ∈ groups.*1) then Z.min (own g) p else own g.
Proof.
  induction groups as [| pair groups IH]; intros own Hp Hown own'.
  { subst own'. cbn [foldl]. split; [done |]. intros g.
    destruct (decide (g ∈ ([] : list (nat * list nat)).*1)) as [Hin | _]; [| done].
    by apply elem_of_nil in Hin. }
  subst own'. cbn [foldl].
  assert (Hown1 : forall g, 0 <= resolve_group p own pair g <= NO_OWNER).
  { intros g. rewrite resolve_group_spec by done.
    specialize (Hown g). destruct (decide (g = pair.1)); lia. }
  destruct (IH (resolve_group p own pair) Hp Hown1) as [Hrange Hval].
  split; [done |]. intros g. rewrite Hval, resolve_group_spec by done.
  specialize (Hown g). rewrite fmap_cons.
  destruct (decide (g = pair.1)) as [-> | Hne].
  - destruct (decide (pair.1 ∈ pair.1 :: groups.*1)) as [_ | Hn]; [| by destruct Hn; left].
    destruct (decide (pair.1 ∈ groups.*1)); lia.
  - destruct (decide (g ∈ groups.*1)) as [Hin | Hnin].
    + destruct (decide (g ∈ pair.1 :: groups.*1)) as [_ | Hn]; [done | by destruct Hn; right].
    + destruct (decide (g ∈ pair.1 :: groups.*1)) as [[? | ?]%elem_of_cons | _]; done.
Qed.

Lemma has_group_fst file g : has_group file g <-> g ∈ (comdat_groups file).*1.
Proof.
  unfold has_group. rewrite list_elem_of_fmap. split.
  - intros [entries Hin]. by exists (g, entries).
  - intros ([g' entries] & -> & Hin). by exists entries.
Qed.

Lemma resolve_all_spec : forall objs st,
  Forall (fun file => 0 <= priority file < NO_OWNER) objs ->
  (forall g, 0 <= owner st g <= NO_OWNER) ->
  let st' := foldl (fun st file => resolve_comdat_groups file st) st objs in
  is_alive st' = is_alive st /\
  forall g, 0 <= owner st' g <= owner st g /\
    (forall file, file ∈ objs -> has_group file g -> owner st' g <= priority file) /\
    (owner st' g = owner st g \/
     exists file, file ∈ objs /\ has_group file g /\ owner st' g = priority file).
Proof.
  induction objs as [| file objs IH]; intros st Hprio Hown st'.
  { subst st'. simpl. split; [done |]. intros g. specialize (Hown g).
    split; [lia |]. split; [| by left]. intros file Hin. by apply elem_of_nil in Hin. }
  apply Forall_cons in Hprio as [Hp Hprio]. subst st'. cbn [foldl].
  destruct (resolve_groups_spec (priority file) (comdat_groups file) (owner st) Hp Hown)
    as [Hrange Hval].
  destruct (IH (resolve_comdat_groups file st) Hprio Hrange) as [Halive Hall].
  split; [done |]. intros g. destruct (Hall g) as (Hle & Hmin & Hsome).
  cbn [owner resolve_comdat_groups] in Hle, Hsome. rewrite Hval in Hle, Hsome.
  specialize (Hown g).
  destruct (decide (g ∈ (comdat_groups file).*1)) as [Hin | Hnin].
  - split; [lia |]. split.
    + intros file' [-> | Hin']%elem_of_cons Hg; [lia | by apply Hmin].
    + destruct Hsome as [Heq | (file' & Hin' & Hg & Heq)].
      * destruct (Z.min_spec (owner st g) (priority file)) as [[_ Hm] | [_ Hm]];
          rewrite Hm in Heq.
        -- by left.
        -- right. exists file. split; [by left |]. split; [by apply has_group_fst | done].
      * right. exists file'. split; [by right | done].
  - split; [lia |]. split.
    + intros file' [-> | Hin']%elem_of_cons Hg; [| by apply Hmin].
      by apply has_group_fst in Hg.
    + destruct Hsome as [Heq | (file' & Hin' & Hg & Heq)]; [by left |].
      right. exists file'. split; [by right | done].
Qed.

(** *** The sections that are killed *)

Lemma fold_remove {K X : Type} `{Countable K} (step : gset K -> X -> gset K)
    (bad : X -> K -> Prop) :
  (forall a x e, e ∈ step a x <-> e ∈ a /\ ~ bad x e) ->
  forall l a e, e ∈ foldl step a l <-> e ∈ a /\ forall x, x ∈ l -> ~ bad x e.
Proof.
  intros Hstep l. induction l as [| x l IH]; intros a e; simpl.
  { split; [| tauto]. intros He. split; [done |]. intros x Hx. by apply elem_of_nil in Hx. }
  rewrite IH, Hstep. split.
  - intros [[Ha Hx] Hl]. split; [done |].
    intros y [-> | Hy]%elem_of_cons; [done | by apply Hl].
  - intros [Ha Hl]. split; [split; [done |] |].
    + apply Hl. by left.
    + intros y Hy. apply Hl. by right.
Qed.

Lemma kill_entries_spec this alive entries e :
  e ∈ kill_entries this alive entries <->
  e ∈ alive /\ ~ (e.1 = this /\ e.2 ∈ entries).
Proof.
  unfold kill_entries.
  rewrite (fold_remove _ (fun i e => e = (this, i))).
  - split; intros [Ha Hn]; (split; [done |]).
    + intros [Hthis Hin]. apply (Hn e.2 Hin). destruct e; simpl in *. by subst.
    + intros i Hi ->. apply Hn. by split.
  - intros a i e'. set_solver.
Qed.

Lemma eliminate_file_spec this file st e :
  e ∈ is_alive (eliminate_duplicate_comdat_groups this file st) <->
  e ∈ is_alive st /\
  ~ (e.1 = this /\ exists g, in_group file g e.2 /\ owner st g <> priority file).
Proof.
  unfold eliminate_duplicate_comdat_groups. cbn [is_alive].
  rewrite (fold_remove _ (fun pair e => e.1 = this /\ e.2 ∈ pair.2 /\
                                         owner st pair.1 <> priority file)).
  - split; intros [Ha Hn]; (split; [done |]).
    + intros [Hthis (g & (entries & Hin & Hs) & Hown)].
      by apply (Hn (g, entries) Hin).
    + intros [g entries] Hin (Hthis & Hs & Hown). apply Hn. split; [done |].
      exists g. split; [by exists entries | done].
  - intros a pair e'. unfold eliminate_group.
    destruct (Z.eqb_spec (owner st pair.1) (priority file)) as [Heq | Hne].
    + split; [| tauto]. intros Ha. split; [done |]. by intros (_ & _ & ?).
    + rewrite kill_entries_spec. split; intros [Ha Hn]; (split; [done |]); tauto.
Qed.

Lemma eliminate_all_spec own : forall l st e,
  owner st = own ->
  let st' := foldl (fun st entry => eliminate_duplicate_comdat_groups entry.1 entry.2 st)
                   st l in
  owner st' = own /\
  (e ∈ is_alive st' <->
   e ∈ is_alive st /\
   forall entry, entry ∈ l ->
     ~ (e.1 = entry.1 /\ exists g, in_group entry.2 g e.2 /\ own g <> priority entry.2)).
Proof.
  induction l as [| entry l IH]; intros st e Hown st'.
  { subst st'. simpl. split; [done |]. split; [| tauto]. intros He. split; [done |].
    intros x Hx. by apply elem_of_nil in Hx. }
  subst st'. cbn [foldl].
  destruct (IH (eliminate_duplicate_comdat_groups entry.1 entry.2 st) e Hown) as [Hown' Hiff].
  split; [done |]. rewrite Hiff, eliminate_file_spec, Hown. split.
  - intros [[Ha Hx] Hl]. split; [done |].
    intros y [-> | Hy]%elem_of_cons; [done | by apply Hl].
  - intros [Ha Hl]. split; [split; [done |] |].
    + apply Hl. by left.
    + intros y Hy. apply Hl. by right.
Qed.

Lemma elem_of_indexed {A : Type} (l : list A) i x :
  (i, x) ∈ zip (seq 0 (length l)) l <-> l !! i = Some x.
Proof.
  rewrite list_elem_of_lookup. split.
  - intros [k Hk]. apply lookup_zip_with_Some in Hk as (j & y & [= <- <-] & Hj & Hy).
    apply lookup_seq in Hj as [-> _]. done.
  - intros Hi. exists i. apply lookup_zip_with_Some. exists i, x.
    split; [done |]. split; [| done]. apply lookup_seq. split; [done |].
    by apply lookup_lt_Some in Hi.
Qed.

(** X21: [eliminate_comdats], for files with priorities from 0 to
    [2^32 - 2] and groups that nobody owns yet.  Afterwards the owner of a
    group that some file has is the least priority of the files that have
    it; a section is dead if it is in a group of its file that the file does
    not own; every other section is as it was. *)
Theorem eliminate_comdats_owner objs st :
  Forall (fun file => 0 <= priority file < NO_OWNER) objs ->
  (forall g, owner st g = NO_OWNER) ->
  let st' := eliminate_comdats objs st in
  (forall g file, file ∈ objs -> has_group file g ->
     exists least, least ∈ objs /\ has_group least g /\
       owner st' g = priority least /\
       forall file', file' ∈ objs -> has_group file' g -> priority least <= priority file') /\
  (forall i s, (i, s) ∈ is_alive st' <->
     (i, s) ∈ is_alive st /\
     forall file g, objs !! i = Some file -> in_group file g s ->
       owner st' g = priority file).
Proof.
  intros Hprio Hinit st'. subst st'. unfold eliminate_comdats. cbv zeta.
  destruct (resolve_all_spec objs st Hprio) as [Halive Hown].
  { intros g. rewrite Hinit, no_owner_value. lia. }
  set (st1 := foldl (fun st file => resolve_comdat_groups file st) st objs) in *.
  split.
  - intros g file Hin Hg.
    destruct (eliminate_all_spec (owner st1) (zip (seq 0 (length objs)) objs) st1 (0, 0)%nat
                eq_refl) as [-> _].
    destruct (Hown g) as (_ & Hmin & [Heq | (least & Hl & Hlg & Heq)]).
    + exfalso. specialize (Hmin file Hin Hg). rewrite Heq, Hinit in Hmin.
      rewrite Forall_forall in Hprio. specialize (Hprio file Hin). lia.
    + exists least. split; [done |]. split; [done |]. split; [done |].
      intros file' Hin' Hg'. rewrite <- Heq. by apply Hmin.
  - intros i s.
    destruct (eliminate_all_spec (owner st1) (zip (seq 0 (length objs)) objs) st1 (i, s)
                eq_refl) as [-> Hiff].
    rewrite Hiff, Halive. cbn [fst snd]. split; intros [Ha Hn]; (split; [done |]).
    + intros file g Hfile Hgroup.
      destruct (decide (owner st1 g = priority file)) as [Heq | Hne]; [done |].
      exfalso. apply (Hn (i, file)); [by apply elem_of_indexed |].
      split; [done |]. by exists g.
    + intros [j file] Hin%elem_of_indexed [Heq (g & Hgroup & Hne)]. simpl in *.
      subst j. by apply Hne, Hn.
Qed.

Lemma eliminate_comdats_owner_witness :
  exists least, least ∈ sample_objs /\
    owner (eliminate_comdats sample_objs sample_state) 0%nat = priority least /\
    forall file', file' ∈ sample_objs -> has_group file' 0 -> priority least <= priority file'.
Proof.
  destruct (eliminate_comdats_owner sample_objs sample_state) as [Hown _].
  - repeat constructor; by vm_compute.
  - done.
  - destruct (Hown 0%nat {| priority := 1; comdat_groups := [(0%nat, [1; 2]%nat)] |})
      as (least & Hleast & _ & Howner & Hmin).
    + unfold sample_objs. set_solver.
    + exists [1; 2]%nat. by left.
    + by exists least.
Defined.

End ComdatFacts.

(** ** Binning and sizing the output sections *)

Section SplitFacts.
Import Word Run Bins.

Context {A : Type}.

Lemma split_loop_spec unit : 0 < unit < 2 ^ 63 ->
  forall fuel (span : list A) vec,
  (length span < fuel)%nat ->
  exists pieces,
    split_loop fuel span unit vec = Done (vec ++ pieces) /\
    concat pieces = span /\
    Forall (fun p => 0 < len p <= unit) pieces /\
    (forall i p, pieces !! i = Some p -> (S i < length pieces)%nat -> len p = unit) /\
    len pieces = (len span + unit - 1) / unit.
Proof.
  intros Hunit. assert (Hu : u64 unit = unit).
  { apply wrap_small. assert (2 ^ 63 < 2 ^ 64) by done. lia. }
  induction fuel as [| fuel IH]; intros span vec Hfuel; [lia |].
  cbn [split_loop]. rewrite Hu. unfold len in *.
  destruct (Z.leb_spec unit (Z.of_nat (length span))) as [Hle | Hlt].
  - destruct (IH (drop (Z.to_nat unit) span) (vec ++ [take (Z.to_nat unit) span]))
      as (pieces & Hrun & Hcat & Hall & Hfull & Hcount).
    { rewrite length_drop. lia. }
    exists (take (Z.to_nat unit) span :: pieces). rewrite Hrun, <- app_assoc.
    split; [done |]. split; [| split; [| split]].
    + simpl. rewrite Hcat. apply take_drop.
    + constructor; [| done]. rewrite length_take. lia.
    + intros [| i] p Hp Hi; simpl in *.
      * injection Hp as <-. rewrite length_take. lia.
      * apply (Hfull i p Hp). lia.
    + rewrite length_drop in Hcount. cbn [length].
      rewrite Nat2Z.inj_succ, Hcount.
      replace (Z.of_nat (length span) + unit - 1)
        with (Z.of_nat (length span - Z.to_nat unit) + unit - 1 + 1 * unit) by lia.
      rewrite Z.div_add by lia. lia.
  - destruct (decide (length span = 0%nat)) as [Hnil | Hne].
    + exists []. rewrite app_nil_r. apply length_zero_iff_nil in Hnil. subst span.
      repeat split; [done | | ].
      * intros i p Hp. done.
      * simpl. symmetry. apply Z.div_small. lia.
    + exists [span]. repeat split.
      * simpl. by rewrite app_nil_r.
      * constructor; [lia | done].
      * intros [| i] p Hp Hi; simpl in *; lia.
      * simpl. symmetry.
        replace (Z.of_nat (length span) + unit - 1)
          with (Z.of_nat (length span) - 1 + 1 * unit) by lia.
        rewrite Z.div_add by lia. rewrite Z.div_small by lia. done.
Qed.

Lemma split_loop_zero : forall fuel (span : list A) vec,
  split_loop fuel span 0 vec = Diverged.
Proof.
  induction fuel as [| fuel IH]; intros span vec; [done |].
  cbn [split_loop]. change (u64 0) with 0. unfold len.
  destruct (Z.leb_spec 0 (Z.of_nat (length span))); [| lia]. apply IH.
Qed.

(** X22: [split] cuts a vector that is not empty into pieces of [unit]
    elements, the last one possibly shorter but not empty: put end to end
    the pieces give the vector, and there are [ceil(size / unit)] of them.
    On an empty vector the assertion of [split] fails, and with the unit 0
    the loop does not end. *)
Theorem split_pieces (input : list A) unit :
  (0 < unit < 2 ^ 63 -> input <> [] ->
   exists pieces,
     split input unit = Done pieces /\
     concat pieces = input /\
     Forall (fun p => 0 < len p <= unit) pieces /\
     (forall i p, pieces !! i = Some p -> (S i < length pieces)%nat -> len p = unit) /\
     len pieces = (len input + unit - 1) / unit) /\
  split ([] : list A) unit = Abort "input.size() > 0" /\
  (forall fuel vec, split_loop fuel input 0 vec = Diverged).
Proof.
  split; [| split; [done |]].
  - intros Hunit Hne. unfold split.
    destruct (Z.ltb_spec 0 (len input)) as [_ | Hbad].
    + cbn [negb]. by apply (split_loop_spec unit Hunit (S (length input)) input []); lia.
    + destruct input; [done |]. unfold len in Hbad. simpl in Hbad. lia.
  - intros fuel vec. apply split_loop_zero.
Qed.

End SplitFacts.

Section SplitExamples.
Import Word Run Bins.

Lemma split_pieces_witness :
  exists pieces, split [1; 2; 3; 4; 5] 2 = Done pieces /\ concat pieces = [1; 2; 3; 4; 5] /\
    len pieces = 3.
Proof.
  destruct (split_pieces [1; 2; 3; 4; 5] 2) as [H _].
  destruct H as (pieces & Hrun & Hcat & _ & _ & Hcount); [lia | done |].
  by exists pieces.
Defined.

End SplitExamples.

Section SectionSizesFacts.
Import Word Run Layout SectionSizes.

Lemma extent_nonneg ms : Forall sized ms -> 0 <= extent ms.
Proof.
  induction 1 as [| isec ms Hisec _ IH]; simpl; [lia |].
  destruct Hisec as (Hsize & k & Hk & Halign).
  assert (0 < 2 ^ k) by (apply Z.pow_pos_nonneg; lia). lia.
Qed.

Lemma assign_offsets_packed : forall ms sum,
  Forall sized ms -> 0 <= t_offset sum -> 1 <= t_align sum < 2 ^ 32 ->
  t_offset sum + extent ms < 2 ^ 32 ->
  exists ms' sum',
    assign_offsets ms sum = Done (ms', sum') /\
    Forall2 placed_as ms ms' /\
    packed (t_offset sum) ms' (t_offset sum') /\
    t_align sum' = Z.max (t_align sum) (max_align ms).
Proof.
  induction ms as [| isec ms IH]; intros sum Hsized Hoff Halign Hroom.
  { exists [], sum. simpl. repeat split; [constructor | lia]. }
  apply Forall_cons in Hsized as [Hisec Hsized].
  destruct Hisec as (Hsize & k & Hk & Ha).
  pose proof (extent_nonneg ms Hsized) as Hext.
  assert (Hpos : 0 < 2 ^ k) by (apply Z.pow_pos_nonneg; lia).
  assert (Hklt : 2 ^ k < 2 ^ 32) by (apply Z.pow_lt_mono_r; lia).
  assert (H3264 : 2 ^ 32 < 2 ^ 63) by done. assert (H6364 : 2 ^ 63 < 2 ^ 64) by done.
  cbn [assign_offsets extent foldr] in *. fold (extent ms) in Hroom.
  rewrite (wrap_small 64) by lia. rewrite Ha in *.
  destruct (align_to_bounds (t_offset sum) k Hk Hoff) as (v & -> & Hv & Hmod); [lia |].
  cbn [mbind outcome_bind bind].
  assert (Hi64 : forall z, 0 <= z < 2 ^ 63 -> i64 z = z).
  { intros z Hz. unfold i64, swrap. change (2 ^ (64 - 1)) with (2 ^ 63).
    rewrite Z.mod_small by lia. lia. }
  rewrite !Hi64 by lia.
  destruct (IH {| t_offset := v + sh_size isec; t_align := Z.max (t_align sum) (2 ^ k) |})
    as (ms' & sum' & -> & Hsame & Hpacked & Hmax); [done | simpl; lia | simpl; lia | simpl; lia |].
  cbn [mbind outcome_bind bind fst snd t_offset t_align] in *.
  eexists _, sum'. split; [done |]. split; [| split].
  - constructor; [| done]. by split.
  - cbn [packed offset sh_addralign sh_size]. done.
  - rewrite Hmax. cbn [max_align foldr]. fold (max_align ms). lia.
Qed.

(** X23: for members with sizes that are not negative and alignments that
    are powers of two, whose sizes and alignments add up to less than
    [2^32], [compute_section_sizes] lays the members of an output section
    out from offset 0, each at the first multiple of its alignment that is
    not below the end of the one before; the size of the output section is
    the end of the last member and its alignment the greatest alignment of
    the members.  An output section without members is left as it is. *)
Theorem compute_section_size_packed osec :
  Forall sized (members osec) -> extent (members osec) < 2 ^ 32 ->
  exists osec', compute_section_size osec = Done osec' /\
    (members osec = [] -> osec' = osec) /\
    (members osec <> [] ->
     Forall2 placed_as (members osec) (members osec') /\
     packed 0 (members osec') (osec_size osec') /\
     osec_addralign osec' = max_align (members osec)).
Proof.
  intros Hsized Hroom. unfold compute_section_size.
  destruct (decide (length (members osec) = 0%nat)) as [Hnil | Hne].
  - exists osec. split; [done |]. split; [done |].
    intros Hm. by apply length_zero_iff_nil in Hnil.
  - destruct (assign_offsets_packed (members osec) {| t_offset := 0; t_align := 1 |})
      as (members' & sum' & -> & Hsame & Hpacked & Hmax); [done | simpl; lia | simpl; lia | simpl; lia |].
    cbn [mbind outcome_bind bind fst snd t_offset t_align] in *.
    eexists. split; [done |]. split.
    + intros Hm. by rewrite Hm in Hne.
    + intros _. cbn [SectionSizes.members osec_size osec_addralign].
      split; [done |]. split; [done |]. rewrite Hmax.
      assert (1 <= max_align (members osec)); [| lia].
      clear. induction (members osec) as [| isec ms IH]; simpl; lia.
Qed.

Lemma compute_section_size_packed_witness :
  exists osec', compute_section_size sample_osec = Done osec' /\
    packed 0 (members osec') (osec_size osec') /\ osec_addralign osec' = 8.
Proof.
  destruct (compute_section_size_packed sample_osec) as (osec' & Hrun & _ & Hpacked).
  - repeat constructor; simpl; try lia.
    + by exists 2.
    + by exists 3.
    + by exists 0.
  - by vm_compute.
  - destruct Hpacked as (_ & Hpacked & Halign); [done |]. by exists osec'.
Defined.

End SectionSizesFacts.

Section BinFacts.
Import Word Run Bins.

Lemma for_each_cons {S X : Type} (body : S -> X -> outcome S) x l st :
  for_each body (x :: l) st = st' ← body st x; for_each body l st'.
Proof.
  unfold for_each. cbn [foldl]. rewrite bind_Done.
  destruct (body st x) as [st' | msg | msg |]; [done | | |]; simpl;
    induction l as [| y l IH]; simpl; done.
Qed.

Lemma select_app j l1 l2 : select j (l1 ++ l2) = select j l1 ++ select j l2.
Proof. unfold select. by rewrite omap_app, filter_app. Qed.

Lemma in_range_app n l1 l2 : in_range n (l1 ++ l2) <-> in_range n l1 /\ in_range n l2.
Proof.
  unfold in_range. split.
  - intros H. split; intros isec Hin; apply H; apply elem_of_app; [by left | by right].
  - intros [H1 H2] isec [Hin | Hin]%elem_of_app; [by apply H1 | by apply H2].
Qed.

(** The bins after the sections of a file. *)
Lemma bin_file_spec n : forall (file : ObjectFile) group,
  length group = n -> in_range n file ->
  exists group', for_each bin_section file group = Done group' /\
    length group' = n /\
    forall j, (j < n)%nat ->
      default [] (group' !! j) = default [] (group !! j) ++ select j file.
Proof.
  induction file as [| entry file IH]; intros group Hlen Hrange.
  { exists group. split; [done |]. split; [done |]. intros j Hj.
    unfold select. simpl. by rewrite app_nil_r. }
  rewrite for_each_cons.
  assert (Hrest : in_range n file).
  { intros isec Hin. apply Hrange. by right. }
  assert (Hstep : exists group1, bin_section group entry = Done group1 /\
            length group1 = n /\
            forall j, (j < n)%nat ->
              default [] (group1 !! j) = default [] (group !! j) ++ select j [entry]).
  { unfold bin_section, select. destruct entry as [isec |]; simpl.
    2:{ exists group. split; [done |]. split; [done |]. intros j Hj. by rewrite app_nil_r. }
    destruct (is_alive isec) eqn:Halive.
    2:{ exists group. split; [done |]. split; [done |]. intros j Hj.
        rewrite filter_cons_False by (intros [? _]; congruence).
        by rewrite filter_nil, app_nil_r. }
    destruct (Hrange isec ltac:(by left) Halive) as [Hlo Hhi].
    destruct (Z.ltb_spec (idx isec) 0); [lia |].
    destruct (lookup_lt_is_Some_2 group (Z.to_nat (idx isec)) ltac:(lia)) as [bin Hbin].
    rewrite Hbin. eexists. split; [done |]. split; [by rewrite length_insert |].
    intros j Hj. destruct (decide (Z.to_nat (idx isec) = j)) as [<- | Hne].
    - rewrite list_lookup_insert_eq by lia. rewrite Hbin. simpl.
      by rewrite filter_cons_True, filter_nil by done.
    - rewrite list_lookup_insert_ne by done.
      rewrite filter_cons_False by (intros [_ ?]; done).
      by rewrite filter_nil, app_nil_r. }
  destruct Hstep as (group1 & -> & Hlen1 & Hbins1). rewrite bind_Done.
  destruct (IH group1 Hlen1 Hrest) as (group' & Hrun & Hlen' & Hbins).
  exists group'. split; [done |]. split; [done |]. intros j Hj.
  rewrite Hbins, Hbins1 by done. rewrite <- app_assoc. f_equal.
  change (entry :: file) with ([entry] ++ file). by rewrite select_app.
Qed.

Lemma bin_files_spec n : forall (slice : list ObjectFile) group,
  length group = n -> in_range n (concat slice) ->
  exists group',
    for_each (fun group file => for_each bin_section file group) slice group = Done group' /\
    length group' = n /\
    forall j, (j < n)%nat ->
      default [] (group' !! j) = default [] (group !! j) ++ live_in j slice.
Proof.
  induction slice as [| file slice IH]; intros group Hlen Hrange.
  { exists group. split; [done |]. split; [done |]. intros j Hj.
    unfold live_in, select. simpl. by rewrite app_nil_r. }
  rewrite for_each_cons. simpl in Hrange. apply in_range_app in Hrange as [Hfile Hslice].
  destruct (bin_file_spec n file group Hlen Hfile) as (group1 & -> & Hlen1 & Hbins1).
  rewrite bind_Done.
  destruct (IH group1 Hlen1 Hslice) as (group' & Hrun & Hlen' & Hbins).
  exists group'. split; [done |]. split; [done |]. intros j Hj.
  rewrite Hbins, Hbins1 by done. rewrite <- app_assoc. f_equal.
  unfold live_in. simpl. by rewrite select_app.
Qed.

Lemma bin_slices_spec n : forall slices : list (list ObjectFile),
  in_range n (concat (concat slices)) ->
  exists groups, bin_slices n slices = Done groups /\
    forall j, (j < n)%nat ->
      concat ((fun group => default [] (group !! j)) <$> groups)
      = live_in j (concat slices).
Proof.
  induction slices as [| slice slices IH]; intros Hrange.
  { exists []. split; [done |]. intros j Hj. done. }
  simpl in Hrange. rewrite concat_app in Hrange.
  apply in_range_app in Hrange as [Hslice Hslices].
  cbn [bin_slices]. unfold bin_slice.
  destruct (bin_files_spec n slice (replicate n []) (length_replicate _ _) Hslice)
    as (group & -> & Hlen & Hbins).
  rewrite bind_Done.
  destruct (IH Hslices) as (groups & -> & Hgroups). rewrite bind_Done.
  eexists. split; [done |]. intros j Hj. simpl.
  rewrite Hbins, Hgroups by done. rewrite lookup_replicate_2 by done. simpl.
  unfold live_in. by rewrite concat_app, select_app.
Qed.

(** X24: [bin_sections] on files, not none and fewer than [2^62], whose live
    sections name output sections that exist: it appends to the members of
    every output section the live sections of the files that belong to it,
    in the order of the files and of the sections in each file, as one loop
    over all the files would.  Without a file, the assertion of [split]
    fails. *)
Theorem bin_sections_live (objs : list ObjectFile) members :
  (objs <> [] -> len objs < 2 ^ 62 -> in_range (length members) (concat objs) ->
   bin_sections objs members
   = Done (imap (fun j ms => ms ++ live_in j objs) members)) /\
  bin_sections [] members = Abort "input.size() > 0".
Proof.
  split; [| done]. intros Hne Hlen Hrange. unfold bin_sections. cbv zeta.
  assert (Hn : 0 < len objs).
  { destruct objs; [done |]. unfold len. simpl. lia. }
  assert (H6263 : 2 ^ 62 < 2 ^ 63) by done. assert (H6364 : 2 ^ 63 < 2 ^ 64) by done.
  unfold num_shards. rewrite (wrap_small 64) by lia.
  rewrite Z.quot_div_nonneg by lia.
  set (unit := (len objs + 128 - 1) / 128).
  assert (Hunit : 0 < unit < 2 ^ 62).
  { subst unit. split.
    - apply Z.div_str_pos. lia.
    - apply Z.div_lt_upper_bound; lia. }
  replace (i64 unit) with unit.
  2:{ unfold i64, swrap. change (2 ^ (64 - 1)) with (2 ^ 63).
      rewrite Z.mod_small by lia. lia. }
  unfold split. destruct (Z.ltb_spec 0 (len objs)); [| lia]. cbn [negb].
  destruct (split_loop_spec unit ltac:(lia) (S (length objs)) objs [] ltac:(lia))
    as (slices & -> & Hcat & _).
  rewrite bind_Done. simpl.
  destruct (bin_slices_spec (length members) slices) as (groups & -> & Hgroups).
  { by rewrite Hcat. }
  rewrite bind_Done. f_equal. apply imap_ext. intros j ms Hj. simpl.
  rewrite Hgroups by (by eapply lookup_lt_Some). by rewrite Hcat.
Qed.

Lemma bin_sections_live_witness :
  bin_sections sample_files [[]; []]
  = Done (imap (fun j ms => ms ++ live_in j sample_files) [[]; []]).
Proof.
  apply (bin_sections_live sample_files [[]; []]).
  - done.
  - by vm_compute.
  - intros isec Hin Halive. unfold sample_files in Hin. simpl in Hin.
    repeat (apply elem_of_cons in Hin as [Hin | Hin];
            [try done; injection Hin as ->; simpl in *; (done || lia) |]).
    by apply elem_of_nil in Hin.
Defined.

End BinFacts.

(** ** More on the concurrent map *)

Section ConcurrentMapMore.
Import Word Run ConcurrentMap.
Context {T : Type}.
Implicit Types (m : t T) (key : string_view) (val : T).

(** The bucket that a call of [insert] returns holds, after the call, a key
    that passes the comparison of [insert] with the key of the call. *)
Lemma insert_owner m key hash val r :
  initialized m -> 0 <= sv_size key < 2 ^ 32 ->
  insert m key hash val = Done r ->
  exists i ks ptr, value_ptr r = Some i /\
    keys (map_after r) = Some ks /\ ks !! Z.to_nat i = Some (Key ptr) /\
    let size := default 0 (sizes (map_after r) !! Z.to_nat i) in
    sv_size key = size /\ forall j, 0 <= j < size -> ptr j = sv_data key j.
Proof.
  intros [_ (ks & Hks & Hlen) Hsizes _] Hsize Hrun.
  apply (insert_probe m ks) in Hrun as [_ Hrun]; [| done].
  apply probe_done in Hrun as (n & _ & Hptr & _ & Hend). simpl in Hptr.
  set (i := Nat.iter n (next_idx m) (Z.land hash (nbuckets m - 1))) in *.
  exists i.
  destruct Hend as [(_ & Hnull & ->) | (_ & -> & ptr & Hkey & Htest)].
  - pose proof (lookup_lt_Some _ _ _ Hnull) as Hlt.
    eexists _, (sv_data key). cbn [keys sizes]. split; [done |]. split; [done |].
    split; [by apply list_lookup_insert_eq |].
    rewrite list_lookup_insert_eq by lia. simpl.
    unfold u32. rewrite wrap_small by done. done.
  - exists ks, ptr. split; [done |]. split; [done |]. split; [done |]. simpl in *.
    apply andb_true_iff in Htest as [Hsz%Z.eqb_eq Hcmp]. split; [done |].
    by apply memcmp_eq_spec.
Qed.

(** X25: on an initialized map, two calls of [insert] (the second after the
    first and after any other insertions) return the same value pointer only
    for keys of the same bytes: keys that differ get buckets that differ. *)
Theorem insert_distinct m k1 k2 h1 h2 v1 v2 r1 m2 r2 :
  initialized m -> 0 <= sv_size k1 < 2 ^ 32 ->
  insert m k1 h1 v1 = Done r1 ->
  extends (map_after r1) m2 ->
  insert m2 k2 h2 v2 = Done r2 ->
  value_ptr r1 = value_ptr r2 ->
  sv_eq k1 k2.
Proof.
  intros Hinit Hsize Hrun1 Hext Hrun2 Hsame.
  destruct (insert_owner m k1 h1 v1 r1 Hinit Hsize Hrun1)
    as (i & ks1 & ptr & Hi & Hks1 & Hkey1 & Hsz1 & Hdata1).
  destruct Hext as [_ Hext]. rewrite Hks1 in Hext.
  destruct Hext as (ks2 & Hks2 & _ & Hkeep).
  destruct (Hkeep _ _ Hkey1) as [Hkey2 Hsizes2].
  apply (insert_probe m2 ks2) in Hrun2 as [_ Hrun2]; [| done].
  apply probe_done in Hrun2 as (n & _ & Hptr2 & _ & Hend). simpl in Hptr2.
  rewrite <- Hsame, Hi in Hptr2. injection Hptr2 as Hidx. rewrite <- Hidx in Hend.
  destruct Hend as [(_ & Hnull & _) | (_ & _ & ptr' & Hkey' & Htest)]; [congruence |].
  rewrite Hkey2 in Hkey'. injection Hkey' as <-. simpl in Htest, Hsz1, Hdata1.
  rewrite Hsizes2 in Htest.
  apply andb_true_iff in Htest as [Hsz2%Z.eqb_eq Hcmp].
  pose proof (proj1 (memcmp_eq_spec _ _ _) Hcmp) as Hdata2.
  split; [congruence |]. intros j Hj. rewrite <- Hdata1, Hdata2; [done | lia | lia].
Qed.

End ConcurrentMapMore.

Section ConcurrentMapMoreExamples.
Import Word Run ConcurrentMap.

Lemma insert_distinct_witness :
  exists r1 r2, insert (resize 0 1) key_ab 5 42 = Done r1 /\
    insert (map_after r1) key_ab 5 43 = Done r2 /\ sv_eq key_ab key_ab.
Proof.
  destruct (insert (resize 0 1) key_ab 5 42) as [r1 | | |] eqn:Hrun1; try discriminate Hrun1.
  destruct (insert (map_after r1) key_ab 5 43) as [r2 | | |] eqn:Hrun2.
  - exists r1, r2. split; [first [reflexivity | exact Hrun1] |].
    split; [first [reflexivity | exact Hrun2] |].
    apply (insert_distinct (resize 0 1) key_ab key_ab 5 5 42 43 r1 (map_after r1) r2).
    + apply resize_initialized. lia.
    + simpl. lia.
    + exact Hrun1.
    + apply extends_refl.
    + exact Hrun2.
    + vm_compute in Hrun1. injection Hrun1 as <-.
      vm_compute in Hrun2. injection Hrun2 as <-. reflexivity.
  - vm_compute in Hrun1. injection Hrun1 as <-. vm_compute in Hrun2. discriminate Hrun2.
  - vm_compute in Hrun1. injection Hrun1 as <-. vm_compute in Hrun2. discriminate Hrun2.
  - vm_compute in Hrun1. injection Hrun1 as <-. vm_compute in Hrun2. discriminate Hrun2.
Defined.

End ConcurrentMapMoreExamples.

(** ** The order of the chunks in the file and in memory *)

Section LayoutOrderFacts.
Import Word Run Elf Chunks Layout LayoutOrder.

Variable page_bits : Z.
Hypothesis page_bits_range : 0 <= page_bits < 32.

Local Abbreviation page := (2 ^ page_bits).
Local Abbreviation room1 := (room_in_group page).
Local Abbreviation room := (room page).

Local Ltac unwrap :=
  repeat match goal with
         | |- context [u64 ?z] => replace (u64 z) with z by (symmetry; apply wrap_small; lia)
         end.

Lemma page_pos : 0 < page.
Proof. apply Z.pow_pos_nonneg; lia. Qed.

Lemma file_order_weaken a b cs to : a <= b -> file_order b cs to -> file_order a cs to.
Proof. destruct cs as [| c cs]; simpl; [lia |]. intros Hab [Hb Hrest]. split; [lia | done]. Qed.

Lemma file_order_app a l1 b l2 c :
  file_order a l1 b -> file_order b l2 c -> file_order a (l1 ++ l2) c.
Proof.
  revert a. induction l1 as [| x l1 IH]; intros a; simpl.
  - intros Hab. by apply file_order_weaken.
  - intros [Ha H1] H2. split; [done |]. by apply IH.
Qed.

Lemma addr_order_weaken a b cs to : a <= b -> addr_order b cs to -> addr_order a cs to.
Proof. destruct cs as [| c cs]; simpl; [lia |]. intros Hab [Hb Hrest]. split; [lia | done]. Qed.

Lemma addr_order_app a l1 b l2 c :
  addr_order a l1 b -> addr_order b l2 c -> addr_order a (l1 ++ l2) c.
Proof.
  revert a. induction l1 as [| x l1 IH]; intros a; simpl.
  - intros Hab. by apply addr_order_weaken.
  - intros [Ha H1] H2. split; [done |]. by apply IH.
Qed.

Lemma room1_lower cs : Forall sized cs -> 2 * page * Z.of_nat (length cs) <= room1 cs.
Proof.
  pose proof page_pos.
  induction 1 as [| c cs Hc _ IH]; [simpl; lia |].
  cbn [LayoutOrder.room_in_group foldr length]. fold (room1 cs).
  destruct Hc as (Hsize & k & Hk & ->).
  assert (0 < 2 ^ k) by (apply Z.pow_pos_nonneg; lia). lia.
Qed.

Lemma room1_nonneg cs : Forall sized cs -> 0 <= room1 cs.
Proof. intros Hcs. pose proof (room1_lower cs Hcs). pose proof page_pos. nia. Qed.

Lemma room_split cs : room cs = room1 cs + page * Z.of_nat (length cs).
Proof.
  induction cs as [| c cs IH]; [simpl; lia |].
  cbn [LayoutOrder.room LayoutOrder.room_in_group foldr length] in *.
  fold (room cs). fold (room1 cs). rewrite IH. lia.
Qed.

Lemma align_chunk_bounds c vaddr :
  sized c -> 0 <= vaddr ->
  vaddr + page + sh_addralign (shdr c) <= 2 ^ 64 ->
  exists v, align_chunk page c vaddr = Done v /\
    vaddr <= v < vaddr + page + sh_addralign (shdr c).
Proof.
  intros (Hsize & k & Hk & Ha) Hv Hfit. unfold align_chunk. rewrite Ha in *.
  pose proof page_pos.
  assert (0 < 2 ^ k) by (apply Z.pow_pos_nonneg; lia).
  destruct (new_page c).
  - destruct (align_to_bounds vaddr page_bits page_bits_range Hv) as (v0 & -> & Hv0 & _); [lia |].
    rewrite bind_Done.
    destruct (align_to_bounds v0 k Hk) as (v & -> & Hv1 & _); [lia | lia |].
    exists v. split; [done | lia].
  - rewrite bind_Done.
    destruct (align_to_bounds vaddr k Hk Hv) as (v & -> & Hv1 & _); [lia |].
    exists v. split; [done | lia].
Qed.

Lemma set_addr_flags c a o :
  is_alloc (set_addr c a o) = is_alloc c /\ is_nobits (set_addr c a o) = is_nobits c /\
  file_bytes (set_addr c a o) = file_bytes c /\ mem_bytes (set_addr c a o) = mem_bytes c /\
  sh_addr (shdr (set_addr c a o)) = a /\ sh_offset (shdr (set_addr c a o)) = o.
Proof. by destruct c as [? [] ? ?]. Qed.

Local Abbreviation group_placed := (LayoutOrder.group_placed page).

Lemma place_data_order : forall cs vaddr fileoff,
  Forall sized cs -> Forall (fun c => is_alloc c = true) cs ->
  0 <= vaddr -> 0 <= fileoff ->
  vaddr + room1 cs <= 2 ^ 64 -> fileoff + room1 cs <= 2 ^ 64 ->
  exists p, place_data page cs vaddr fileoff = Done p /\
    group_placed cs vaddr fileoff p /\
    match left_over p with [] => True | c :: _ => is_nobits c = true end.
Proof.
  pose proof page_pos as Hpage.
  induction cs as [| c cs IH]; intros vaddr fileoff Hsized Halloc Hv Hf Hvroom Hfroom.
  { eexists. split; [done |]. split; [| done]. unfold LayoutOrder.group_placed. simpl.
    split; [by exists [] |]. lia. }
  apply Forall_cons in Hsized as [Hc Hsized]. apply Forall_cons in Halloc as [Hca Halloc].
  pose proof (room1_nonneg cs Hsized) as Hroom.
  cbn [place_data]. destruct (is_nobits c) eqn:Hnobits.
  { eexists. split; [done |]. split; [| done]. unfold LayoutOrder.group_placed. cbn [placed left_over Layout.vaddr Layout.fileoff file_order addr_order].
    split; [exists []; by split |]. lia. }
  cbn [LayoutOrder.room_in_group foldr] in Hvroom, Hfroom. fold (room1 cs) in Hvroom, Hfroom.
  pose proof Hc as (Hsize & k & Hk & Ha).
  assert (0 < 2 ^ k) by (apply Z.pow_pos_nonneg; lia).
  destruct (align_chunk_bounds c vaddr Hc Hv) as (v & -> & Hvb); [lia |].
  rewrite bind_Done. cbv zeta. unwrap.
  destruct (IH (v + sh_size (shdr c)) (fileoff + (v - vaddr) + sh_size (shdr c)))
    as (p & -> & Hp & Hleft); [done | done | lia | lia | lia | lia |].
  rewrite bind_Done. eexists. split; [done |].
  destruct Hp as ((src & Hsrc & Hlaid) & Hfo & Hao & Hv' & Hf' & Hvr & Hfr).
  split; [| done]. unfold LayoutOrder.group_placed.
  cbn [placed left_over Layout.vaddr Layout.fileoff file_order addr_order].
  destruct (set_addr_flags c v (fileoff + (v - vaddr))) as (_ & _ & -> & -> & -> & ->).
  unfold file_bytes, mem_bytes. rewrite Hnobits, Hca. cbn [andb].
  split; [| split; [| split]].
  - exists (c :: src). split; [by rewrite Hsrc |]. constructor; [| done]. by eexists _, _.
  - split; [lia | done].
  - split; [lia | done].
  - cbn [LayoutOrder.room_in_group foldr]. fold (room1 cs). lia.
Qed.

Lemma place_bss_order : forall cs vaddr fileoff,
  Forall sized cs -> Forall (fun c => is_alloc c = true) cs ->
  0 <= vaddr -> 0 <= fileoff ->
  vaddr + room1 cs <= 2 ^ 64 -> fileoff + room1 cs <= 2 ^ 64 ->
  exists p, place_bss page cs vaddr fileoff = Done p /\
    group_placed cs vaddr fileoff p /\
    match cs with
    | c :: _ => is_nobits c = true -> (length (left_over p) < length cs)%nat
    | [] => True
    end.
Proof.
  pose proof page_pos as Hpage.
  induction cs as [| c cs IH]; intros vaddr fileoff Hsized Halloc Hv Hf Hvroom Hfroom.
  { eexists. split; [done |]. split; [| done]. unfold LayoutOrder.group_placed. simpl.
    split; [by exists [] |]. lia. }
  apply Forall_cons in Hsized as [Hc Hsized]. apply Forall_cons in Halloc as [Hca Halloc].
  pose proof (room1_nonneg cs Hsized) as Hroom.
  cbn [place_bss]. destruct (is_nobits c) eqn:Hnobits; cbn [negb].
  2:{ eexists. split; [done |]. split; [| done]. unfold LayoutOrder.group_placed.
      cbn [placed left_over Layout.vaddr Layout.fileoff file_order addr_order].
      split; [exists []; by split |]. lia. }
  cbn [LayoutOrder.room_in_group foldr] in Hvroom, Hfroom. fold (room1 cs) in Hvroom, Hfroom.
  pose proof Hc as (Hsize & k & Hk & Ha).
  assert (0 < 2 ^ k) by (apply Z.pow_pos_nonneg; lia).
  destruct (align_chunk_bounds c vaddr Hc Hv) as (v & -> & Hvb); [lia |].
  rewrite bind_Done.
  destruct (align_with_skew_bounds fileoff page_bits (v mod page) page_bits_range)
    as (f & -> & Hfb & _); [apply Z.mod_pos_bound; lia | done | lia |].
  rewrite bind_Done. cbv zeta.
  set (v' := if negb (has_flag (sh_flags (shdr c)) SHF_TLS)
             then u64 (v + sh_size (shdr c)) else v).
  assert (Hv' : v' = v + mem_bytes c).
  { subst v'. unfold mem_bytes. rewrite Hnobits. cbn [andb].
    destruct (has_flag (sh_flags (shdr c)) SHF_TLS); cbn [negb]; [lia |].
    apply wrap_small. lia. }
  assert (Hmem : 0 <= mem_bytes c <= sh_size (shdr c)).
  { unfold mem_bytes. destruct (_ && _); lia. }
  rewrite Hv'.
  destruct (IH (v + mem_bytes c) f) as (p & -> & Hp & _); [done | done | lia | lia | lia | lia |].
  rewrite bind_Done. eexists. split; [done |].
  destruct Hp as ((src & Hsrc & Hlaid) & Hfo & Hao & Hvp & Hfp & Hvr & Hfr).
  split.
  - unfold LayoutOrder.group_placed.
    cbn [placed left_over Layout.vaddr Layout.fileoff file_order addr_order].
    destruct (set_addr_flags c v f) as (_ & _ & -> & -> & -> & ->).
    assert (Hfile : file_bytes c = 0).
    { unfold file_bytes. by rewrite Hnobits, Hca. }
    rewrite Hfile, Z.add_0_r.
    split; [| split; [| split]].
    + exists (c :: src). split; [by rewrite Hsrc |]. constructor; [| done]. by eexists _, _.
    + split; [lia | done].
    + split; [lia | done].
    + cbn [LayoutOrder.room_in_group foldr]. fold (room1 cs). lia.
  - intros _. cbn [left_over length].
    apply (f_equal (@length Chunk)) in Hsrc. rewrite length_app in Hsrc. lia.
Qed.

Lemma place_alloc_order fuel : forall cs vaddr fileoff,
  (length cs < fuel)%nat ->
  Forall sized cs -> Forall (fun c => is_alloc c = true) cs ->
  0 <= vaddr -> 0 <= fileoff ->
  vaddr + room cs <= 2 ^ 64 -> fileoff + room cs <= 2 ^ 64 ->
  exists p, place_alloc page fuel cs vaddr fileoff = Done p /\
    left_over p = [] /\ Forall2 laid_out cs (placed p) /\
    file_order fileoff (placed p) (Layout.fileoff p) /\
    addr_order vaddr (placed p) (Layout.vaddr p) /\
    0 <= Layout.fileoff p <= fileoff + room cs.
Proof.
  pose proof page_pos as Hpage.
  induction fuel as [| fuel IH]; intros cs vaddr fileoff Hfuel Hsized Halloc Hv Hf Hvroom Hfroom;
    [lia |].
  destruct cs as [| c0 cs0] eqn:Hcs.
  { eexists. split; [done |]. simpl. repeat split; [constructor | lia ..]. }
  rewrite <- Hcs in *. assert (Hlen : (0 < length cs)%nat) by (rewrite Hcs; simpl; lia).
  replace (place_alloc page (S fuel) cs vaddr fileoff)
    with (fileoff ← align_with_skew fileoff page (vaddr mod page);
          p1 ← place_data page cs vaddr fileoff;
          p2 ← place_bss page (left_over p1) (Layout.vaddr p1) (Layout.fileoff p1);
          p3 ← place_alloc page fuel (left_over p2) (Layout.vaddr p2) (Layout.fileoff p2);
          Done {| placed := placed p1 ++ placed p2 ++ placed p3; left_over := left_over p3;
                  vaddr := Layout.vaddr p3; fileoff := Layout.fileoff p3 |})
    by (by rewrite Hcs).
  pose proof (room1_nonneg cs Hsized) as Hroom1.
  pose proof (room1_lower cs Hsized) as Hroom1'.
  rewrite (room_split cs) in Hvroom, Hfroom.
  assert (Hpl : page <= page * Z.of_nat (length cs)) by (clear -Hlen Hpage; nia).
  assert (Hpl2 : 2 * page <= 2 * page * Z.of_nat (length cs)) by (clear -Hlen Hpage; nia).
  destruct (align_with_skew_bounds fileoff page_bits (vaddr mod page) page_bits_range)
    as (f & -> & Hfb & _); [apply Z.mod_pos_bound; lia | done | lia |].
  rewrite bind_Done.
  destruct (place_data_order cs vaddr f Hsized Halloc) as (p1 & -> & Hp1 & Hhead);
    [lia | lia | lia | lia |].
  rewrite bind_Done.
  destruct Hp1 as ((src1 & Hsrc1 & Hlaid1) & Hfo1 & Hao1 & Hv1 & Hf1 & Hvr1 & Hfr1).
  assert (Hsized1 : Forall sized (left_over p1)).
  { rewrite Hsrc1 in Hsized. by apply Forall_app in Hsized as [_ ?]. }
  assert (Halloc1 : Forall (fun c => is_alloc c = true) (left_over p1)).
  { rewrite Hsrc1 in Halloc. by apply Forall_app in Halloc as [_ ?]. }
  pose proof (room1_nonneg _ Hsized1) as Hroom11.
  destruct (place_bss_order (left_over p1) (Layout.vaddr p1) (Layout.fileoff p1) Hsized1 Halloc1)
    as (p2 & -> & Hp2 & Hprogress); [lia | lia | lia | lia |].
  rewrite bind_Done.
  destruct Hp2 as ((src2 & Hsrc2 & Hlaid2) & Hfo2 & Hao2 & Hv2 & Hf2 & Hvr2 & Hfr2).
  assert (Hsized2 : Forall sized (left_over p2)).
  { rewrite Hsrc2 in Hsized1. by apply Forall_app in Hsized1 as [_ ?]. }
  assert (Halloc2 : Forall (fun c => is_alloc c = true) (left_over p2)).
  { rewrite Hsrc2 in Halloc1. by apply Forall_app in Halloc1 as [_ ?]. }
  pose proof (room1_nonneg _ Hsized2) as Hroom12.
  assert (Hshorter : (length (left_over p2) < length cs)%nat).
  { pose proof (f_equal (@length Chunk) Hsrc1) as Hl1.
    pose proof (f_equal (@length Chunk) Hsrc2) as Hl2.
    rewrite length_app in Hl1, Hl2.
    destruct src1 as [| x src1]; [| simpl in Hl1; lia].
    destruct (left_over p1) as [| c l]; [simpl in Hl1; lia |].
    specialize (Hprogress Hhead). cbn [length] in Hl1, Hl2, Hprogress. lia. }
  assert (Hlen2 : Z.of_nat (length (left_over p2)) + 1 <= Z.of_nat (length cs)) by lia.
  assert (Hpages : page * Z.of_nat (length (left_over p2)) + page
                   <= page * Z.of_nat (length cs)) by (clear -Hlen2 Hpage; nia).
  destruct (IH (left_over p2) (Layout.vaddr p2) (Layout.fileoff p2))
    as (p3 & -> & Hleft3 & Hlaid3 & Hfo3 & Hao3 & Hf3); [lia | done | done | lia | lia | | |].
  { rewrite room_split. lia. }
  { rewrite room_split. lia. }
  rewrite bind_Done. eexists. split; [done |].
  cbn [placed left_over Layout.vaddr Layout.fileoff].
  split; [done |]. split; [| split; [| split]].
  - rewrite Hsrc1, Hsrc2. apply Forall2_app; [done |]. by apply Forall2_app.
  - apply (file_order_weaken fileoff f); [lia |].
    apply (file_order_app _ _ (Layout.fileoff p1)); [done |].
    by apply (file_order_app _ _ (Layout.fileoff p2)).
  - apply (addr_order_app _ _ (Layout.vaddr p1)); [done |].
    by apply (addr_order_app _ _ (Layout.vaddr p2)).
  - rewrite room_split in Hf3. rewrite room_split. lia.
Qed.

Lemma place_nonalloc_order : forall cs fileoff,
  Forall sized cs -> Forall (fun c => is_alloc c = false) cs ->
  0 <= fileoff -> fileoff + room cs <= 2 ^ 64 ->
  exists cs' size, place_nonalloc cs fileoff = Done (cs', size) /\
    Forall2 laid_out cs cs' /\ file_order fileoff cs' size.
Proof.
  pose proof page_pos as Hpage.
  induction cs as [| c cs IH]; intros fileoff Hsized Halloc Hf Hroom.
  { exists [], fileoff. simpl. repeat split; [constructor | lia]. }
  apply Forall_cons in Hsized as [Hc Hsized]. apply Forall_cons in Halloc as [Hca Halloc].
  cbn [place_nonalloc]. rewrite Hca.
  cbn [LayoutOrder.room foldr] in Hroom. fold (room cs) in Hroom.
  pose proof Hc as (Hsize & k & Hk & Ha).
  assert (0 < 2 ^ k) by (apply Z.pow_pos_nonneg; lia).
  assert (Hroomcs : 0 <= room cs).
  { rewrite room_split. pose proof (room1_nonneg cs Hsized). nia. }
  rewrite Ha in *.
  destruct (align_to_bounds fileoff k Hk Hf) as (f & -> & Hfb & _); [lia |].
  rewrite bind_Done. unwrap.
  destruct (IH (f + sh_size (shdr c))) as (cs' & size & -> & Hlaid & Hfo);
    [done | done | lia | lia |].
  rewrite bind_Done. cbn [fst snd]. eexists _, _. split; [done |]. split.
  - constructor; [| done]. by eexists _, _.
  - cbn [file_order]. unfold set_offset.
    destruct (set_addr_flags c (sh_addr (shdr c)) f) as (_ & _ & -> & _ & _ & ->).
    unfold file_bytes. rewrite Hca. cbn [andb]. split; [lia | done].
Qed.

Lemma alloc_end_spec : forall cs n,
  alloc_end cs = Done n ->
  (n < length cs)%nat /\ Forall (fun c => is_alloc c = true) (take n cs).
Proof.
  induction cs as [| c cs IH]; intros n Hrun; [done |].
  cbn [alloc_end] in Hrun. destruct (is_alloc c) eqn:Hc.
  - apply bind_done in Hrun as (m & Hm & [= <-]).
    destruct (IH m Hm) as [Hlt Hall]. split; [simpl; lia |].
    simpl. by constructor.
  - injection Hrun as <-. split; [simpl; lia | constructor].
Qed.

Lemma room_app l1 l2 : room (l1 ++ l2) = room l1 + room l2.
Proof.
  induction l1 as [| c l1 IH]; [done |].
  cbn [app LayoutOrder.room foldr]. fold (room (l1 ++ l2)). fold (room l1). rewrite IH. lia.
Qed.


End LayoutOrderFacts.

Section LayoutOrderExamples.
Import Word Run Elf Chunks Layout LayoutOrder.


End LayoutOrderExamples.

(** ** [ParallelTools::parallel_for] *)

Section ParallelForFacts.
Import Word Run ParallelFor.

Context {S : Type}.
Variable f : Z -> S -> outcome S.

Lemma calls_cons start end_ st :
  start < end_ -> calls f start end_ st = st' ← f start st; calls f (start + 1) end_ st'.
Proof.
  intros Hlt. unfold calls. rewrite (seqZ_cons start) by lia. cbn [foldl].
  rewrite bind_Done. replace (Z.pred (end_ - start)) with (end_ - (start + 1)) by lia.
  replace (Z.succ start) with (start + 1) by lia.
  destruct (f start st) as [st' | msg | msg |]; [done | | |]; simpl;
    induction (seqZ (start + 1) (end_ - (start + 1))) as [| y l IH]; simpl; done.
Qed.

Lemma count_loop_calls : forall fuel start end_ st,
  0 <= start -> end_ < 2 ^ 64 -> (Z.to_nat (end_ - start) < fuel)%nat ->
  count_loop f fuel start end_ st = calls f start end_ st.
Proof.
  induction fuel as [| fuel IH]; intros start end_ st Hstart Hend Hfuel; [lia |].
  cbn [count_loop]. destruct (Z.ltb_spec start end_) as [Hlt | Hge].
  - rewrite calls_cons by done. rewrite (wrap_small 64) by lia.
    destruct (f start st) as [st' | msg | msg |]; [| done ..].
    rewrite !bind_Done. apply IH; lia.
  - unfold calls. by rewrite seqZ_nil by lia.
Qed.

Lemma chunk_body_diverges : forall fuel i local_end j st,
  (forall k st, exists st', f k st = Done st') -> i < local_end ->
  chunk_body f fuel i local_end j st = Diverged.
Proof.
  induction fuel as [| fuel IH]; intros i local_end j st Htotal Hlt; [done |].
  cbn [chunk_body]. destruct (Z.ltb_spec i local_end); [| lia].
  destruct (Htotal i st) as [st' ->]. rewrite bind_Done. by apply IH.
Qed.

(** X28: [parallel_for] of the build, on a range inside [0, 2^64).  Without
    a chunk size, or with a range that is not longer than the chunk size, it
    makes the calls [f(start)], ..., [f(end - 1)].  With a chunk size above
    0 and a longer range, the loop over a chunk tests [i < local_end] and
    steps [j]: if [f] always returns, the loop over the first chunk does not
    end. *)
Theorem parallel_for_chunked fuel start end_ chunksize st :
  0 <= start -> start <= end_ < 2 ^ 64 -> 0 <= chunksize ->
  (chunksize = 0 \/ end_ - start <= chunksize ->
   (Z.to_nat (end_ - start) < fuel)%nat ->
   parallel_for f fuel start end_ chunksize st = calls f start end_ st) /\
  (0 < chunksize < end_ - start ->
   (forall k st, exists st', f k st = Done st') ->
   parallel_for f fuel start end_ chunksize st = Diverged).
Proof.
  intros Hstart Hend Hchunk. unfold parallel_for. rewrite (wrap_small 64) by lia. split.
  - intros Hcase Hfuel. destruct (Z.eqb_spec chunksize 0) as [_ | Hne].
    + by apply count_loop_calls; lia.
    + destruct (Z.leb_spec (end_ - start) chunksize); [| lia].
      by apply count_loop_calls; lia.
  - intros Hlong Htotal. destruct (Z.eqb_spec chunksize 0); [lia |].
    destruct (Z.leb_spec (end_ - start) chunksize); [lia |].
    destruct fuel as [| fuel]; [done |]. cbn [chunk_loop].
    destruct (Z.ltb_spec start end_); [| lia]. cbv zeta.
    rewrite (wrap_small 64) by lia.
    destruct (Z.ltb_spec end_ (start + chunksize)); [lia |].
    by rewrite chunk_body_diverges by (done || lia).
Qed.

End ParallelForFacts.

Section ParallelForExamples.
Import Word Run ParallelFor.

Lemma parallel_for_chunked_witness :
  parallel_for (fun i st => Done (st ++ [i])) 100 0 5 2 [] = Diverged /\
  parallel_for (fun i st => Done (st ++ [i])) 100 0 5 0 []
  = calls (fun i st => Done (st ++ [i])) 0 5 [].
Proof.
  destruct (parallel_for_chunked (fun i st => Done (st ++ [i])) 100 0 5 2 [])
    as [_ Hdiv]; [lia | lia | lia |].
  destruct (parallel_for_chunked (fun i st => Done (st ++ [i])) 100 0 5 0 [])
    as [Hcalls _]; [lia | lia | lia |].
  split.
  - apply Hdiv; [lia |]. intros k st. by eexists.
  - apply Hcalls; [by left | simpl; lia].
Defined.

End ParallelForExamples.

